(** * Block storage over an object bucket: reservation protocol and enumeration

    A shallow embedding of [lib/blockstorage/gocloud_url_storage.go],
    of [cleanupUnneededReservations], [GetBlockDataFromCacheOrDownload],
    [GetHashBlockData] and [scanOne] (virtual-folder driver) and of the
    pieces of [hashutil] and of the checked-delete service they call,
    followed by the properties the specification states about them and
    by further properties of the code.

    Part I holds the definitions, Part II the lemmas and theorems. *)

From Stdlib Require Import ZArith NArith List String Ascii Bool Lia Sorted Permutation.
From Stdlib Require Import DecimalString DecimalPos.
From Stdlib.Strings Require Import Byte.
From stdpp Require Import base strings gmap list.
Import ListNotations.
Open Scope string_scope.
Open Scope list_scope.

#[local] Arguments String.append !s1 s2 : simpl nomatch.

(* ================================================================== *)
(** * Part I: definitions                                              *)
(* ================================================================== *)

(** ** Strings as Go has them *)

(** Byte-lexicographic order, the order of a key listing. *)
Definition str_lt (a b : string) : Prop := String.compare a b = Lt.

(** [strings.CutPrefix(s, prefix)]: the rest of [s] and [true] when [s]
    starts with [prefix], otherwise [s] itself and [false]. *)
Fixpoint CutPrefix (s prefix : string) {struct prefix} : string * bool :=
  match prefix with
  | EmptyString => (s, true)
  | String p prefix' =>
      match s with
      | EmptyString => (s, false)
      | String c s' =>
          if Ascii.eqb c p
          then match CutPrefix s' prefix' with
               | (r, true) => (r, true)
               | (_, false) => (s, false)
               end
          else (s, false)
      end
  end.

(** [strings.Split(s, sep)] for a one-byte separator: never empty, and
    [Split("", sep)] is the list holding the empty string. *)
Fixpoint Split (s : string) (sep : ascii) : list string :=
  match s with
  | EmptyString => [""]
  | String c s' =>
      if Ascii.eqb c sep then "" :: Split s' sep
      else match Split s' sep with
           | h :: t => String c h :: t
           | [] => [String c ""]
           end
  end.

Definition is_digit (c : ascii) : bool :=
  (48 <=? N_of_ascii c)%N && (N_of_ascii c <=? 57)%N.

Fixpoint all_digits (s : string) : bool :=
  match s with
  | EmptyString => true
  | String c s' => is_digit c && all_digits s'
  end.

Fixpoint digits_value (acc : Z) (s : string) : Z :=
  match s with
  | EmptyString => acc
  | String c s' => digits_value (10 * acc + (Z.of_N (N_of_ascii c) - 48)) s'
  end.

(** [strconv.Atoi] on a 64-bit platform: an optional sign, then one or
    more decimal digits; [None] stands for the syntax and the range
    error alike. *)
Definition Atoi (s : string) : option Z :=
  let '(neg, ds) :=
    match s with
    | String "-" r => (true, r)
    | String "+" r => (false, r)
    | _ => (false, s)
    end in
  match ds with
  | EmptyString => None
  | _ =>
      if all_digits ds then
        let v := if neg then (- digits_value 0 ds)%Z else digits_value 0 ds in
        if ((- 2 ^ 63 <=? v) && (v <=? 2 ^ 63 - 1))%Z then Some v else None
      else None
  end.

(** ** hashutil *)

Definition hexdigits : list ascii :=
  ["0"; "1"; "2"; "3"; "4"; "5"; "6"; "7"; "8"; "9";
   "a"; "b"; "c"; "d"; "e"; "f"]%char.

Definition hexdigit (n : N) : ascii := nth (N.to_nat n) hexdigits "0"%char.

Definition hex_of_byte (b : byte) : string :=
  String (hexdigit (Byte.to_N b / 16))
    (String (hexdigit (Byte.to_N b mod 16)) EmptyString).

(** Modelled from the spec: [hashutil.HashToStringMapKey] is not among
    the sources at hand. Section 4.1 calls it [hex], "the exact
    character mapping used throughout (stable, case-fixed)"; it is taken
    to be Go's [hex.EncodeToString]: two lower-case hexadecimal digits
    per byte, most significant nibble first. *)
Fixpoint HashToStringMapKey (hash : list byte) : string :=
  match hash with
  | [] => ""
  | b :: rest => hex_of_byte b +:+ HashToStringMapKey rest
  end.

Definition unhex (c : ascii) : option N :=
  let n := N_of_ascii c in
  if ((48 <=? n) && (n <=? 57))%N then Some (n - 48)%N
  else if ((97 <=? n) && (n <=? 102))%N then Some (n - 87)%N
  else if ((65 <=? n) && (n <=? 70))%N then Some (n - 55)%N
  else None.

(** Modelled from the spec: [hashutil.StringMapKeyToHashNoError] is not
    among the sources at hand either; it is the inverse of the mapping
    above, taken to be Go's [hex.DecodeString] with the error dropped:
    the bytes decoded before the first malformed pair. *)
Fixpoint StringMapKeyToHashNoError (key : string) : list byte :=
  match key with
  | String c (String d rest) =>
      match unhex c, unhex d with
      | Some h, Some l =>
          match Byte.of_N (16 * h + l) with
          | Some b => b :: StringMapKeyToHashNoError rest
          | None => []
          end
      | _, _ => []
      end
  | _ => []
  end.

Definition isHexDigit (c : ascii) : bool :=
  match unhex c with
  | Some _ => true
  | None => false
  end.

(** Lexicographic comparison of hashes, byte by byte. *)
Fixpoint hash_compare (h1 h2 : list byte) : comparison :=
  match h1, h2 with
  | [], [] => Eq
  | [], _ :: _ => Lt
  | _ :: _, [] => Gt
  | b1 :: r1, b2 :: r2 =>
      match N.compare (Byte.to_N b1) (Byte.to_N b2) with
      | Eq => hash_compare r1 r2
      | c => c
      end
  end.

Definition hash_lt (h1 h2 : list byte) : Prop := hash_compare h1 h2 = Lt.

(** ** Per-block derived state *)

(** Modelled from the spec: the declaration of [HashBlockState] and its
    three predicates is not among the sources at hand; the fields are
    the four the builder assigns, the predicates are those of section 3
    (Derived predicates). *)
Record HashBlockState := mkState {
  dataExists : bool;
  reservedByMe : bool;
  reservedByOthers : bool;
  deletionPending : bool
}.

Definition emptyState : HashBlockState := mkState false false false false.

Definition IsAvailable (s : HashBlockState) : bool :=
  dataExists s && negb (deletionPending s).

Definition IsAvailableAndFree (s : HashBlockState) : bool :=
  IsAvailable s && negb (reservedByMe s) && negb (reservedByOthers s).

Definition IsAvailableAndReservedByMe (s : HashBlockState) : bool :=
  IsAvailable s && reservedByMe s.

Record HashAndState := mkHashAndState {
  hash : list byte;
  state : HashBlockState
}.

(** Modelled from the spec: the constant [TIME_CONSTANT_BASE] is declared
    outside the sources at hand; section 6 fixes it at one minute. Times
    are in nanoseconds, as [time.Duration] counts them. *)
Definition Minute : Z := 60000000000.
Definition TIME_CONSTANT_BASE : Z := Minute.

Definition BlockDataSubFolder : string := "blocks".
Definition MetaDataSubFolder : string := "meta".
Definition BLOCK_DELETE_TAG : string := "deletion-by".
Definition BLOCK_USE_TAG : string := "used-by".

(** ** The enumeration state builder *)

(** The callback [cb] of the Go struct is what the builder's user passes
    in; every caller only consumes the records in the order of the
    calls, so the builder keeps that sequence in [emitted]. *)
Record HashBlockStorageMapBuilder := mkBuilder {
  ownName : string;
  emitted : list HashAndState;
  currentHash : string;
  currentState : HashBlockState
}.

Definition NewHashBlockStorageMapBuilder (ownName : string) : HashBlockStorageMapBuilder :=
  mkBuilder ownName [] "" emptyState.

Definition cb (b : HashBlockStorageMapBuilder) (d : HashAndState) : HashBlockStorageMapBuilder :=
  mkBuilder (ownName b) (emitted b ++ [d]) (currentHash b) (currentState b).

Definition setState (b : HashBlockStorageMapBuilder) (s : HashBlockState) : HashBlockStorageMapBuilder :=
  mkBuilder (ownName b) (emitted b) (currentHash b) s.

Definition completeIfNextHash (b : HashBlockStorageMapBuilder) (hash : string)
  : bool * HashBlockStorageMapBuilder :=
  let complete := negb (String.eqb hash (currentHash b)) in
  let b :=
    if complete then
      let b :=
        if dataExists (currentState b)
        then cb b (mkHashAndState (StringMapKeyToHashNoError (currentHash b)) (currentState b))
        else b in
      mkBuilder (ownName b) (emitted b) hash emptyState
    else b in
  (false, b).

Definition addData (b : HashBlockStorageMapBuilder) (hash : string) : HashBlockStorageMapBuilder :=
  let '(done, b) := completeIfNextHash b hash in
  if done then b
  else
    let s := currentState b in
    setState b (mkState true (reservedByMe s) (reservedByOthers s) (deletionPending s)).

Definition addUse (b : HashBlockStorageMapBuilder) (hash who : string) : HashBlockStorageMapBuilder :=
  let '(done, b) := completeIfNextHash b hash in
  if done then b
  else
    let s := currentState b in
    if IsAvailable s then
      let isMe := String.eqb who (ownName b) in
      if isMe
      then setState b (mkState (dataExists s) true (reservedByOthers s) (deletionPending s))
      else setState b (mkState (dataExists s) (reservedByMe s) true (deletionPending s))
    else b.

Definition addDelete (b : HashBlockStorageMapBuilder) (hash : string) : HashBlockStorageMapBuilder :=
  let '(done, b) := completeIfNextHash b hash in
  if done then b
  else
    let s := currentState b in
    setState b (mkState (dataExists s) (reservedByMe s) (reservedByOthers s) true).

Definition close (b : HashBlockStorageMapBuilder) : HashBlockStorageMapBuilder :=
  snd (completeIfNextHash b "").

(** ** The bucket and the world around one store handle *)

Inductive error :=
| ErrNotFound
| ErrIO
| ErrCanceled
| ErrReadOnly (msg : string).

(** What a listing returns for one object ([blob.ListObject]). *)
Record ListObject := mkListObject {
  Key : string;
  ModTime : Z
}.

Record Blob := mkBlob {
  blobModTime : Z;
  blobData : list byte
}.

(** The objects of a bucket, kept in the order a listing returns them:
    ascending by key, each key once. *)
Definition Bucket := list (string * Blob).

Fixpoint bucket_get (key : string) (b : Bucket) : option Blob :=
  match b with
  | [] => None
  | (k, v) :: rest => if String.eqb k key then Some v else bucket_get key rest
  end.

Fixpoint bucket_put (key : string) (v : Blob) (b : Bucket) : Bucket :=
  match b with
  | [] => [(key, v)]
  | (k, x) :: rest =>
      match String.compare key k with
      | Lt => (key, v) :: b
      | Eq => (key, v) :: rest
      | Gt => (k, x) :: bucket_put key v rest
      end
  end.

Definition bucket_remove (key : string) (b : Bucket) : Bucket :=
  List.filter (fun kv => negb (String.eqb (fst kv) key)) b.

Definition bucket_list (prefix : string) (b : Bucket) : list ListObject :=
  List.map (fun kv => mkListObject (fst kv) (blobModTime (snd kv)))
    (List.filter (fun kv => String.prefix prefix (fst kv)) b).

Definition bucket_keys (b : Bucket) : list string := List.map fst b.

(** What a handle does to the outside, in the order it happens. *)
Inductive Event :=
| EvExists (key : string)
| EvWriteAll (key : string) (data : list byte)
| EvReadAll (key : string)
| EvDelete (key : string)
| EvListPage (prefix : string) (pageToken : nat) (pageSize : nat)
| EvSleep (d : Z)
| EvWarnf (msg : string)
| EvRequestCheckedDelete (hash : list byte).

(** [faults] decides the bucket calls to come: a call whose entry is
    [true] fails with an I/O error. [polls] is the context: [Some n] when
    it is cancelled after [n] more polls, [None] when it never is.
    [deleteQueue] is the queue of the checked-delete service. *)
Record World := mkWorld {
  objects : Bucket;
  clock : Z;
  faults : list bool;
  polls : option nat;
  trace : list Event;
  deleteQueue : list (list byte)
}.

Definition setObjects (w : World) (o : Bucket) : World :=
  mkWorld o (clock w) (faults w) (polls w) (trace w) (deleteQueue w).

Definition record (e : Event) (w : World) : World :=
  mkWorld (objects w) (clock w) (faults w) (polls w) (trace w ++ [e]) (deleteQueue w).

Definition nextFault (w : World) : bool * World :=
  match faults w with
  | [] => (false, w)
  | f :: rest => (f, mkWorld (objects w) (clock w) rest (polls w) (trace w) (deleteQueue w))
  end.

(** A call ends with a value, in a panic, in [log.Fatal] (the process
    exits), or has not ended when the fuel of a retry loop ran out. *)
Inductive Result (A : Type) :=
| Ok (a : A)
| Panic (msg : string)
| Fatal (msg : string)
| OutOfFuel.
Arguments Ok {A} a.
Arguments Panic {A} msg.
Arguments Fatal {A} msg.
Arguments OutOfFuel {A}.

Definition M (A : Type) : Type := World -> Result A * World.

Definition ret {A : Type} (a : A) : M A := fun w => (Ok a, w).

Definition bind {A B : Type} (m : M A) (k : A -> M B) : M B :=
  fun w =>
    match m w with
    | (Ok a, w') => k a w'
    | (Panic msg, w') => (Panic msg, w')
    | (Fatal msg, w') => (Fatal msg, w')
    | (OutOfFuel, w') => (OutOfFuel, w')
    end.

Notation "x <- m ;; k" := (bind m (fun x => k))
  (at level 100, m at next level, right associativity).
Notation "m ;;; k" := (bind m (fun _ => k))
  (at level 100, right associativity).

Definition panic {A : Type} (msg : string) : M A := fun w => (Panic msg, w).
Definition fatal {A : Type} (msg : string) : M A := fun w => (Fatal msg, w).
Definition outOfFuel {A : Type} : M A := fun w => (OutOfFuel, w).

Definition Warnf (msg : string) : M unit := fun w => (Ok tt, record (EvWarnf msg) w).

Definition Sleep (d : Z) : M unit :=
  fun w =>
    let w := record (EvSleep d) w in
    (Ok tt, mkWorld (objects w) (clock w + d) (faults w) (polls w) (trace w) (deleteQueue w)).

(** [utils.IsDone(ctx)]. *)
Definition IsDone : M bool :=
  fun w =>
    match polls w with
    | None => (Ok false, w)
    | Some O => (Ok true, w)
    | Some (S n) =>
        (Ok false, mkWorld (objects w) (clock w) (faults w) (Some n) (trace w) (deleteQueue w))
    end.

(** *** The calls on [blob.Bucket] *)

Definition bucket_Exists (key : string) : M (error + bool) :=
  fun w =>
    let '(f, w) := nextFault (record (EvExists key) w) in
    if f then (Ok (inl ErrIO), w)
    else (Ok (inr (match bucket_get key (objects w) with Some _ => true | None => false end)), w).

Definition bucket_WriteAll (key : string) (data : list byte) : M (option error) :=
  fun w =>
    let '(f, w) := nextFault (record (EvWriteAll key data) w) in
    if f then (Ok (Some ErrIO), w)
    else (Ok None, setObjects w (bucket_put key (mkBlob (clock w) data) (objects w))).

Definition bucket_ReadAll (key : string) : M (error + list byte) :=
  fun w =>
    let '(f, w) := nextFault (record (EvReadAll key) w) in
    if f then (Ok (inl ErrIO), w)
    else match bucket_get key (objects w) with
         | Some v => (Ok (inr (blobData v)), w)
         | None => (Ok (inl ErrNotFound), w)
         end.

Definition bucket_Delete (key : string) : M (option error) :=
  fun w =>
    let '(f, w) := nextFault (record (EvDelete key) w) in
    if f then (Ok (Some ErrIO), w)
    else match bucket_get key (objects w) with
         | Some _ => (Ok None, setObjects w (bucket_remove key (objects w)))
         | None => (Ok (Some ErrNotFound), w)
         end.

(** [ListPage(ctx, pageToken, pageSize, opts)] with [opts.Prefix]: the
    page token is the number of objects already listed, [0] for
    [blob.FirstPageToken]; the next token is [None] (the empty token)
    when nothing is left. *)
Definition bucket_ListPage (prefix : string) (pageToken pageSize : nat)
  : M (error + (list ListObject * option nat)) :=
  fun w =>
    let '(f, w) := nextFault (record (EvListPage prefix pageToken pageSize) w) in
    if f then (Ok (inl ErrIO), w)
    else
      let rest := skipn pageToken (bucket_list prefix (objects w)) in
      let next := if (pageSize <? length rest)%nat then Some (pageToken + pageSize)%nat else None in
      (Ok (inr (firstn pageSize rest, next)), w).

(** ** The store: [GoCloudUrlStorage] *)

(** The bucket and the context of the Go struct live in the [World].
    [Infof] and [Debugf] lines leave no mark there and are left out;
    [Warnf] lines are recorded. *)
Record GoCloudUrlStorage := mkStorage {
  url : string;
  myDeviceId : string
}.

Definition IsReadOnly (hm : GoCloudUrlStorage) : bool :=
  String.eqb (myDeviceId hm) "".

Definition getBlockStringKey (hash : list byte) : string :=
  BlockDataSubFolder +:+ "/" +:+ HashToStringMapKey hash.

Definition getMetadataStringKey (name : string) : string :=
  MetaDataSubFolder +:+ "/" +:+ name.

Definition getATag (hm : GoCloudUrlStorage) (hash : list byte) (tag : string) : string :=
  let hashKey := getBlockStringKey hash in
  hashKey +:+ "." +:+ tag +:+ "." +:+ myDeviceId hm.

Definition putATag (hm : GoCloudUrlStorage) (hash : list byte) (tag : string)
    (updateTime : bool) : M (option error) :=
  if IsReadOnly hm then ret (Some (ErrReadOnly "putATag: read only"))
  else
    let hashDeviceTagKey := getATag hm hash tag in
    r <- (if negb updateTime then bucket_Exists hashDeviceTagKey else ret (inr false));;
    match r with
    | inl err => ret (Some err)
    | inr existsAlready =>
        if existsAlready then ret None
        else bucket_WriteAll hashDeviceTagKey []
    end.

Definition removeATag (hm : GoCloudUrlStorage) (hash : list byte) (tag : string)
  : M (option error) :=
  if IsReadOnly hm then ret (Some (ErrReadOnly "removeATag: read only"))
  else
    let reservationKey := getBlockStringKey hash +:+ "." +:+ tag +:+ "." +:+ myDeviceId hm in
    bucket_Delete reservationKey.

Definition AnnounceDelete (hm : GoCloudUrlStorage) (hash : list byte) : M (option error) :=
  putATag hm hash BLOCK_DELETE_TAG true.

Definition DeAnnounceDelete (hm : GoCloudUrlStorage) (hash : list byte) : M (option error) :=
  removeATag hm hash BLOCK_DELETE_TAG.

Definition UncheckedDelete (hm : GoCloudUrlStorage) (hash : list byte) : M (option error) :=
  if IsReadOnly hm then ret (Some (ErrReadOnly "UncheckedDelete: read only"))
  else
    let stringKey := getBlockStringKey hash in
    bucket_Delete stringKey.

(** [(data, ok)] of the Go code is [Some data] for [ok] and [None] for
    [(nil, false)]. *)
Definition GetMeta (hm : GoCloudUrlStorage) (name : string) : M (option (list byte)) :=
  r <- bucket_ReadAll (getMetadataStringKey name);;
  match r with
  | inl _ => ret None
  | inr data => ret (Some data)
  end.

Definition SetMeta (hm : GoCloudUrlStorage) (name : string) (data : list byte) : M unit :=
  if IsReadOnly hm then Warnf "SetMeta: read only"
  else bucket_WriteAll (getMetadataStringKey name) data ;;; ret tt.

Definition DeleteMeta (hm : GoCloudUrlStorage) (name : string) : M unit :=
  if IsReadOnly hm then Warnf "SetMeta: read only"
  else bucket_Delete (getMetadataStringKey name) ;;; ret tt.

Definition GetBlockHashesCountHint (hm : GoCloudUrlStorage) : M Z :=
  let minimum := 100%Z in
  r <- GetMeta hm "BlockCountHint";;
  match r with
  | None => ret minimum
  | Some data =>
      match Atoi (string_of_list_byte data) with
      | None => ret minimum
      | Some hint =>
          let hint := if (hint <? minimum)%Z then minimum else hint in
          ret hint
      end
  end.

(** *** Reserve and read *)

Record PageScan := mkPageScan {
  usesMap : gmap string ListObject;
  deletesMap : gmap string ListObject;
  dataEntry : option ListObject
}.

(** The body of the loop over the listed page in
    [reserveAndCheckExistence]; [now] is the time [time.Since] reads. *)
Definition scanEntry (now : Z) (prefix : string) (acc : PageScan) (entry : ListObject) : PageScan :=
  let suffix := fst (CutPrefix (Key entry) prefix) in
  if (String.length suffix =? 0)%nat then
    mkPageScan (usesMap acc) (deletesMap acc) (Some entry)
  else
    match CutPrefix suffix ("." +:+ BLOCK_USE_TAG +:+ ".") with
    | (deviceId, true) =>
        mkPageScan (<[deviceId := entry]> (usesMap acc)) (deletesMap acc) (dataEntry acc)
    | (_, false) =>
        match CutPrefix suffix ("." +:+ BLOCK_DELETE_TAG +:+ ".") with
        | (deviceId, true) =>
            if (now - ModTime entry <? TIME_CONSTANT_BASE)%Z
            then mkPageScan (usesMap acc) (<[deviceId := entry]> (deletesMap acc)) (dataEntry acc)
            else acc
        | (_, false) => acc
        end
    end.

Definition getClock : M Z := fun w => (Ok (clock w), w).

(** Returns [(ok, retry)]. *)
Definition reserveAndCheckExistence (hm : GoCloudUrlStorage) (hash : list byte)
  : M (bool * bool) :=
  let hashKey := getBlockStringKey hash in
  err <- (if negb (IsReadOnly hm) then putATag hm hash BLOCK_USE_TAG false else ret None);;
  match err with
  | Some _ => ret (false, false)
  | None =>
      let perPageCount := 10%nat in
      r <- bucket_ListPage hashKey 0 perPageCount;;
      match r with
      | inl _ => ret (false, false)
      | inr (page, _) =>
          now <- getClock;;
          let scan := fold_left (scanEntry now hashKey) page (mkPageScan ∅ ∅ None) in
          if (0 <? size (deletesMap scan))%nat then ret (false, true)
          else match dataEntry scan with
               | None => ret (false, false)
               | Some _ => ret (true, false)
               end
      end
  end.

(** The [for] loop of [ReserveAndGet]; [fuel] bounds the number of
    attempts. *)
Fixpoint ReserveAndGet_loop (fuel : nat) (hm : GoCloudUrlStorage) (hash : list byte) : M bool :=
  match fuel with
  | O => outOfFuel
  | S fuel' =>
      r <- reserveAndCheckExistence hm hash;;
      let '(ok, retry) := r in
      if negb retry then ret ok
      else Sleep (Minute * 1) ;;; ReserveAndGet_loop fuel' hm hash
  end.

Definition ReserveAndGet (fuel : nat) (hm : GoCloudUrlStorage) (hash : list byte)
    (downloadData : bool) : M (option (list byte) * bool) :=
  if (length hash =? 0)%nat then ret (None, false)
  else
    ok <- ReserveAndGet_loop fuel hm hash;;
    if ok && downloadData then
      r <- bucket_ReadAll (getBlockStringKey hash);;
      match r with
      | inl _ => panic "failed to read existing block data!"
      | inr data => ret (Some data, ok)
      end
    else ret (None, ok).

Definition ReserveAndSet (hm : GoCloudUrlStorage) (hash : list byte) (data : list byte) : M unit :=
  if IsReadOnly hm then Warnf "ReserveAndSet: read only"
  else
    err <- putATag hm hash BLOCK_USE_TAG false;;
    match err with
    | Some _ => panic "writing to block storage failed! Put reservation."
    | None =>
        let hashKey := getBlockStringKey hash in
        err <- bucket_WriteAll hashKey data;;
        match err with
        | Some _ => panic "writing to block storage failed! Write."
        | None => ret tt
        end
    end.

(** The text [log.Fatal(err)] prints. *)
Definition errorText (e : error) : string :=
  match e with
  | ErrNotFound => "blob not found"
  | ErrIO => "i/o error"
  | ErrCanceled => "context canceled"
  | ErrReadOnly msg => msg
  end.

Definition DeleteReservation (hm : GoCloudUrlStorage) (hash : list byte) : M unit :=
  err <- removeATag hm hash BLOCK_USE_TAG;;
  match err with
  | Some e => fatal (errorText e)
  | None => ret tt
  end.

(** ** Enumeration *)

(** The body of the loop over a listed page in [IterateBlocksInternal]. *)
Definition processObject (now : Z) (iterator : HashBlockStorageMapBuilder) (obj : ListObject)
  : HashBlockStorageMapBuilder :=
  let folderPrefix := BlockDataSubFolder +:+ "/" in
  let hashString := fst (CutPrefix (Key obj) folderPrefix) in
  let elements := Split hashString "." in
  if (length elements <=? 1)%nat then addData iterator hashString
  else
    let hashString := nth 0 elements "" in
    let tp := nth 1 elements "" in
    if String.eqb tp BLOCK_USE_TAG && (3 <=? length elements)%nat then
      let deviceId := nth 2 elements "" in
      addUse iterator hashString deviceId
    else if String.eqb tp BLOCK_DELETE_TAG then
      if (now - ModTime obj <? TIME_CONSTANT_BASE)%Z
      then addDelete iterator hashString
      else iterator
    else iterator.

(** The loop over one page; [true] when the context was found cancelled. *)
Fixpoint iteratePage (page : list ListObject) (iterator : HashBlockStorageMapBuilder)
  : M (bool * HashBlockStorageMapBuilder) :=
  match page with
  | [] => ret (false, iterator)
  | obj :: rest =>
      now <- getClock;;
      let iterator := processObject now iterator obj in
      done <- IsDone;;
      if done then ret (true, iterator)
      else iteratePage rest iterator
  end.

(** The loop over the pages; [fuel] bounds their number. *)
Fixpoint iteratePages (fuel : nat) (prefix : string) (pageToken : nat)
    (iterator : HashBlockStorageMapBuilder)
  : M (option error * HashBlockStorageMapBuilder) :=
  match fuel with
  | O => outOfFuel
  | S fuel' =>
      done <- IsDone;;
      if done then ret (Some ErrCanceled, iterator)
      else
        let perPageCount := (1024 * 4)%nat in
        r <- bucket_ListPage prefix pageToken perPageCount;;
        match r with
        | inl err => ret (Some err, iterator)
        | inr (page, nextPageToken) =>
            r <- iteratePage page iterator;;
            let '(cancelled, iterator) := r in
            if cancelled then ret (Some ErrCanceled, iterator)
            else match nextPageToken with
                 | None => ret (None, close iterator)
                 | Some token => iteratePages fuel' prefix token iterator
                 end
        end
  end.

(** The error, and the records handed to [fn] in the order of the
    calls. A bucket never has more pages than objects, which bounds the
    loop. *)
Definition IterateBlocksInternal (hm : GoCloudUrlStorage) (prefix : string)
  : M (option error * list HashAndState) :=
  fun w =>
    let iterator := NewHashBlockStorageMapBuilder (myDeviceId hm) in
    let folderPrefix := BlockDataSubFolder +:+ "/" in
    let fuel := S (length (objects w)) in
    (r <- iteratePages fuel (folderPrefix +:+ prefix) 0 iterator;;
     ret (fst r, emitted (snd r))) w.

Definition GetBlockHashState (hm : GoCloudUrlStorage) (hash : list byte) : M HashBlockState :=
  r <- IterateBlocksInternal hm (HashToStringMapKey hash);;
  ret (fold_left (fun (blockState : HashBlockState) (d : HashAndState) => state d)
         (snd r) emptyState).

(** *** The sharded pass

    [IterateBlocks] starts one goroutine per shard; each sends its
    records, then its error if it has one, on a channel of its own, and
    the channels are queued in shard order. Every goroutine meets the
    faults and the cancellation at moments of its own, so each runs in a
    world of its own ([producer] for the one that starts the shards,
    [shard i] for shard [i]), and the caller's world is that of the
    consuming loop. *)

Record HashStateAndError := mkHashStateAndError {
  d : HashAndState;
  err : option error
}.

Definition shardByte (i : nat) : byte :=
  match Byte.of_N (N.of_nat i) with
  | Some b => b
  | None => x00
  end.

(** What the goroutine of shard [i] sends on its channel. *)
Definition partChannel (hm : GoCloudUrlStorage) (i : nat) (w : World) : list HashStateAndError :=
  let b_str := HashToStringMapKey [shardByte i] in
  match IterateBlocksInternal hm b_str w with
  | (Ok (e, recs), _) =>
      List.map (fun r => mkHashStateAndError r None) recs ++
      match e with
      | Some e => [mkHashStateAndError (mkHashAndState [] emptyState) (Some e)]
      | None => []
      end
  | _ => []
  end.

(** The shards started before the producer finds the context cancelled. *)
Fixpoint startShards (hm : GoCloudUrlStorage) (shard : nat -> World) (shards : list nat)
  : M (list (list HashStateAndError)) :=
  match shards with
  | [] => ret []
  | i :: rest =>
      done <- IsDone;;
      if done then ret []
      else
        chans <- startShards hm shard rest;;
        ret (partChannel hm i (shard i) :: chans)
  end.

(** [for d := range channel]: [Some r] when the function returns [r]
    from inside the loop. *)
Fixpoint rangeChannel (channel : list HashStateAndError) (out : list HashAndState)
  : M (option (option error) * list HashAndState) :=
  match channel with
  | [] => ret (None, out)
  | x :: rest =>
      done <- IsDone;;
      if done then ret (Some None, out)
      else match err x with
           | Some e => ret (Some (Some e), out)
           | None => rangeChannel rest (out ++ [d x])
           end
  end.

(** [for channel := range chanOfChannels]. *)
Fixpoint rangeChannels (chans : list (list HashStateAndError)) (out : list HashAndState)
  : M (option error * list HashAndState) :=
  match chans with
  | [] => ret (None, out)
  | channel :: rest =>
      done <- IsDone;;
      if done then ret (None, out)
      else
        r <- rangeChannel channel out;;
        match r with
        | (Some e, out) => ret (e, out)
        | (None, out) => rangeChannels rest out
        end
  end.

(** The error, and the records handed to [fn] in the order of the calls. *)
Definition IterateBlocks (hm : GoCloudUrlStorage) (producer : World) (shard : nat -> World)
  : M (option error * list HashAndState) :=
  let chanOfChannels :=
    match startShards hm shard (seq 0 256) producer with
    | (Ok chans, _) => chans
    | _ => []
    end in
  rangeChannels chanOfChannels [].

(** ** The checked-delete service *)

(** Modelled from the spec: [AsyncCheckedDeleteService] is not among the
    sources at hand. [RequestCheckedDelete] puts a hash in the queue of
    the service (section 4.4: "callers enqueue (H) with
    RequestCheckedDelete"). *)
Definition RequestCheckedDelete (hash : list byte) : M unit :=
  fun w =>
    let w := record (EvRequestCheckedDelete hash) w in
    (Ok tt, mkWorld (objects w) (clock w) (faults w) (polls w) (trace w) (deleteQueue w ++ [hash])).

(** Modelled from the spec: the worker of [AsyncCheckedDeleteService],
    which is not among the sources at hand, for one request (section
    4.4): re-query the state and go on only if it is IsAvailableAndFree;
    write the deletion tag; wait TIME_CONSTANT_BASE; re-query; if still
    IsAvailableAndFree, UncheckedDelete then DeAnnounceDelete, otherwise
    drop the request. The section says nothing of a call that fails: its
    error is dropped. [finishCheckedDelete] is step 3, from the second
    query on. *)
Definition finishCheckedDelete (hm : GoCloudUrlStorage) (hash : list byte) : M unit :=
  st <- GetBlockHashState hm hash;;
  if IsAvailableAndFree st then
    UncheckedDelete hm hash ;;;
    DeAnnounceDelete hm hash ;;;
    ret tt
  else ret tt.

Definition checkedDelete (hm : GoCloudUrlStorage) (hash : list byte) : M unit :=
  st <- GetBlockHashState hm hash;;
  if IsAvailableAndFree st then
    AnnounceDelete hm hash ;;;
    Sleep TIME_CONSTANT_BASE ;;;
    finishCheckedDelete hm hash
  else ret tt.

(** ** Reclamation after a scan *)

Record FileInfo := mkFileInfo {
  FileName : string;
  Blocks : list (list byte)
}.

(** A snapshot of the file set: the files [WithHave] visits for the
    local device, and [Get] for the local device. *)
Record Snapshot := mkSnapshot {
  WithHave : list FileInfo;
  Get : string -> option FileInfo
}.

(** The hashes of the blocks of the locally held files, as keys. *)
Definition usedBy (snap : Snapshot) (hs : string) : Prop :=
  exists (f fi : FileInfo) (bi : list byte),
    In f (WithHave snap) /\ Get snap (FileName f) = Some fi /\
    In bi (Blocks fi) /\ hs = HashToStringMapKey bi.

(** The callback of [snap.WithHave], run after the files before it. *)
Definition usedStep (snap : Snapshot) (acc : M (gset string)) (f : FileInfo) : M (gset string) :=
  usedBlockHashes <- acc;;
  match Get snap (FileName f) with
  | None => panic "cleanupUnneeded: inconsistent snapshot!"
  | Some fi =>
      ret (fold_left
             (fun (u : gset string) (bi : list byte) => {[HashToStringMapKey bi]} ∪ u)
             (Blocks fi) usedBlockHashes)
  end.

Definition collectUsedBlockHashes (snap : Snapshot) : M (gset string) :=
  fold_left (usedStep snap) (WithHave snap) (ret ∅).

(** The body of [for hash, state := range checkMap]. *)
Definition cleanupEntry (hm : GoCloudUrlStorage) (usedBlockHashes : gset string)
    (entry : string * HashBlockState) : M unit :=
  let '(hash, state) := entry in
  if IsAvailableAndFree state then
    let byteHash := StringMapKeyToHashNoError hash in
    RequestCheckedDelete byteHash
  else if IsAvailableAndReservedByMe state then
    let stillNeeded := bool_decide (hash ∈ usedBlockHashes) in
    if negb stillNeeded then
      let byteHash := StringMapKeyToHashNoError hash in
      DeleteReservation hm byteHash ;;;
      RequestCheckedDelete byteHash
    else ret tt
  else ret tt.

Fixpoint rangeCheckMap (hm : GoCloudUrlStorage) (usedBlockHashes : gset string)
    (entries : list (string * HashBlockState)) : M unit :=
  match entries with
  | [] => ret tt
  | entry :: rest =>
      cleanupEntry hm usedBlockHashes entry ;;;
      rangeCheckMap hm usedBlockHashes rest
  end.

(** [checkMap] comes as the list of its entries in the order the [range]
    loop visits them, which Go leaves open. [fsetSnapshot] is what
    [fset.Snapshot()] returns. *)
Definition cleanupUnneededReservations (hm : GoCloudUrlStorage)
    (fsetSnapshot : error + Snapshot) (checkMap : list (string * HashBlockState))
  : M (option error) :=
  match fsetSnapshot with
  | inl e => ret (Some e)
  | inr snap =>
      usedBlockHashes <- collectUsedBlockHashes snap;;
      rangeCheckMap hm usedBlockHashes checkMap ;;;
      ret None
  end.

(** What the builder hands to its callback when it leaves the hash it
    is at: the record of that hash if the body was seen, nothing
    otherwise. *)
Definition flushed (b : HashBlockStorageMapBuilder) : list HashAndState :=
  if dataExists (currentState b)
  then [mkHashAndState (StringMapKeyToHashNoError (currentHash b)) (currentState b)]
  else [].

Fixpoint noDot (s : string) : bool :=
  match s with
  | EmptyString => true
  | String c s' => negb (Ascii.eqb c ".") && noDot s'
  end.

(** ** The key schema *)

(** The keys of one block: its bare key and its tag keys. *)
Definition blockKeyOf (h : list byte) (key : string) : Prop :=
  key = getBlockStringKey h \/
  exists tag id : string, key = getBlockStringKey h +:+ "." +:+ tag +:+ "." +:+ id.

(** What may follow the hexadecimal digits in a key of a block: nothing,
    or the separator and the rest of a tag. *)
Definition tagSuffix (s : string) : Prop := s = "" \/ exists r, s = String "." r.

(** ** Reclamation, in the words of the specification *)

Inductive ReclaimAction :=
| ActDeleteReservation (h : list byte)
| ActRequestCheckedDelete (h : list byte).

(** Section 4.5, for one entry [(H, state)] of the scan map:
    IsAvailableAndFree: enqueue a checked delete; otherwise
    IsAvailableAndReservedByMe and H not in usedBlockHashes:
    DeleteReservation(H), then enqueue a checked delete; otherwise
    nothing. *)
Definition reclaimRule (usedBlockHashes : gset string) (entry : string * HashBlockState)
  : list ReclaimAction :=
  let H := StringMapKeyToHashNoError (fst entry) in
  if IsAvailableAndFree (snd entry) then [ActRequestCheckedDelete H]
  else if IsAvailableAndReservedByMe (snd entry) && negb (bool_decide (fst entry ∈ usedBlockHashes))
       then [ActDeleteReservation H; ActRequestCheckedDelete H]
       else [].

Definition perform (hm : GoCloudUrlStorage) (a : ReclaimAction) : M unit :=
  match a with
  | ActDeleteReservation h => DeleteReservation hm h
  | ActRequestCheckedDelete h => RequestCheckedDelete h
  end.

Fixpoint performAll (hm : GoCloudUrlStorage) (actions : list ReclaimAction) : M unit :=
  match actions with
  | [] => ret tt
  | a :: rest => perform hm a ;;; performAll hm rest
  end.

(** A key under [blocks/] that follows the schema: the hexadecimal form
    of a hash, alone or followed by the separator and the rest of a tag. *)
Definition schemaKey (h : list byte) (key : string) : Prop :=
  exists s, tagSuffix s /\ key = "blocks/" +:+ (HashToStringMapKey h +:+ s).

(** A bucket as an object store lists it and as the handles of this
    store fill it: keys ascending in byte order, and every key under
    [blocks/] following the schema. *)
Definition wellFormedBucket (b : Bucket) : Prop :=
  StronglySorted str_lt (bucket_keys b) /\
  forall key, In key (bucket_keys b) -> String.prefix "blocks/" key = true ->
              exists h, schemaKey h key.

Definition hash_le (h1 h2 : list byte) : Prop := hash_compare h1 h2 <> Gt.

(** The hash of a record lies in shard [i]: its first byte is [i]. *)
Definition inShard (i : nat) (h : list byte) : Prop :=
  exists rest, h = shardByte i :: rest.

(** What a listed object makes the builder do. *)
Inductive BuilderOp :=
| OpData
| OpUse (who : string)
| OpDelete
| OpNone.

Definition applyOp (b : HashBlockStorageMapBuilder) (hs : string) (op : BuilderOp)
  : HashBlockStorageMapBuilder :=
  match op with
  | OpData => addData b hs
  | OpUse who => addUse b hs who
  | OpDelete => addDelete b hs
  | OpNone => b
  end.

(** The bucket and the clock of a world are those of another. *)
Definition sameBucket (w w' : World) : Prop :=
  objects w' = objects w /\ clock w' = clock w.

(** What holds of a builder that has been fed keys in ascending order:
    it is at the hash [hc], the hashes it has handed over ascend and lie
    below [hc], and they satisfy [P] as the hashes of the keys do. *)
Definition builderInv (P : list byte -> Prop) (b : HashBlockStorageMapBuilder)
    (hc : list byte) : Prop :=
  currentHash b = HashToStringMapKey hc /\
  StronglySorted hash_lt (List.map hash (emitted b)) /\
  List.Forall (fun x => hash_lt x hc) (List.map hash (emitted b)) /\
  List.Forall P (List.map hash (emitted b)) /\
  (dataExists (currentState b) = true -> P hc).

(** The records a channel carries: what its entries without an error
    hold. *)
Definition chanRecords (channel : list HashStateAndError) : list HashAndState :=
  List.map d (List.filter (fun x => match err x with None => true | Some _ => false end) channel).

(** What [processObject] reads off a key: the hash string it passes to
    the builder, and what it makes the builder do. *)
Definition keyHashString (obj : ListObject) : string :=
  let hashString := fst (CutPrefix (Key obj) (BlockDataSubFolder +:+ "/")) in
  let elements := Split hashString "." in
  if (length elements <=? 1)%nat then hashString else nth 0 elements "".

Definition keyOp (now : Z) (obj : ListObject) : BuilderOp :=
  let hashString := fst (CutPrefix (Key obj) (BlockDataSubFolder +:+ "/")) in
  let elements := Split hashString "." in
  if (length elements <=? 1)%nat then OpData
  else
    let tp := nth 1 elements "" in
    if String.eqb tp BLOCK_USE_TAG && (3 <=? length elements)%nat then OpUse (nth 2 elements "")
    else if String.eqb tp BLOCK_DELETE_TAG then
      if (now - ModTime obj <? TIME_CONSTANT_BASE)%Z then OpDelete else OpNone
    else OpNone.

(** What the builder does to the state of the hash it is at. *)
Definition stateOp (own : string) (s : HashBlockState) (op : BuilderOp) : HashBlockState :=
  match op with
  | OpData => mkState true (reservedByMe s) (reservedByOthers s) (deletionPending s)
  | OpUse who =>
      if IsAvailable s then
        if String.eqb who own
        then mkState (dataExists s) true (reservedByOthers s) (deletionPending s)
        else mkState (dataExists s) (reservedByMe s) true (deletionPending s)
      else s
  | OpDelete => mkState (dataExists s) (reservedByMe s) (reservedByOthers s) true
  | OpNone => s
  end.

(** A use tag or a fresh deletion tag has left its mark on the state. *)
Definition held (s : HashBlockState) : bool :=
  reservedByMe s || reservedByOthers s || deletionPending s.

(** A builder that has only met keys of the hash [h] so far. *)
Definition atHash (h : list byte) (b : HashBlockStorageMapBuilder) : Prop :=
  emitted b = [] /\
  (currentHash b = HashToStringMapKey h \/
   (currentHash b = "" /\ currentState b = emptyState)).

(** Every key of the bucket that starts with the key of the block [h] is
    a key of [h]: no other stored hash continues [h]. *)
Definition keysBelongTo (h : list byte) (b : Bucket) : Prop :=
  forall key, In key (bucket_keys b) ->
              String.prefix (getBlockStringKey h) key = true -> schemaKey h key.

(** Some participant's use tag for the block [h] is in the bucket. *)
Definition hasUseTag (h : list byte) (b : Bucket) : Prop :=
  exists id, In (getBlockStringKey h +:+ "." +:+ BLOCK_USE_TAG +:+ "." +:+ id) (bucket_keys b).

(** A key the store may write: under [blocks/] only keys of the schema. *)
Definition storeKey (key : string) : Prop :=
  String.prefix "blocks/" key = true -> exists h, schemaKey h key.

(** The call [m] keeps a well-formed bucket well-formed, however it ends. *)
Definition preservesWF {A : Type} (m : M A) : Prop :=
  forall (w : World) (r : Result A) (w' : World),
    wellFormedBucket (objects w) -> m w = (r, w') -> wellFormedBucket (objects w').

(** All hashes stored under [blocks/] have [n] bytes. *)
Definition uniformLength (n : nat) (b : Bucket) : Prop :=
  forall key, In key (bucket_keys b) -> String.prefix "blocks/" key = true ->
              exists h, length h = n /\ schemaKey h key.

(** ** What a call finds and leaves in the bucket *)

(** The bucket [b] once the handle [hm] has made sure of its use tag for
    [hash] at the time [now]: a tag that is there stays as it is. *)
Definition reserved (hm : GoCloudUrlStorage) (hash : list byte) (now : Z) (b : Bucket) : Bucket :=
  match bucket_get (getATag hm hash BLOCK_USE_TAG) b with
  | Some _ => b
  | None => bucket_put (getATag hm hash BLOCK_USE_TAG) (mkBlob now []) b
  end.

(** No deletion tag of the block [hash] in [b] is younger than
    TIME_CONSTANT_BASE at the time [now]. *)
Definition noFreshDeletion (hash : list byte) (now : Z) (b : Bucket) : Prop :=
  forall (id : string) (v : Blob),
    bucket_get (getBlockStringKey hash +:+ "." +:+ BLOCK_DELETE_TAG +:+ "." +:+ id) b = Some v ->
    (TIME_CONSTANT_BASE <= now - blobModTime v)%Z.

(** The world [w'] differs from [w] in its bucket and its trace only. *)
Definition sameTimes (w w' : World) : Prop :=
  clock w' = clock w /\ faults w' = faults w /\ polls w' = polls w /\
  deleteQueue w' = deleteQueue w.

Definition isSome {A : Type} (o : option A) : bool :=
  match o with
  | Some _ => true
  | None => false
  end.

(** The call [m] leaves the bucket as it is, however it ends. *)
Definition keepsBucket {A : Type} (m : M A) : Prop :=
  forall (w : World) (r : Result A) (w' : World), m w = (r, w') -> objects w' = objects w.

(** The call [m] changes no key outside [P], however it ends. *)
Definition touchesOnly {A : Type} (P : string -> Prop) (m : M A) : Prop :=
  forall (w : World) (r : Result A) (w' : World) (key : string),
    m w = (r, w') -> ~ P key -> bucket_get key (objects w') = bucket_get key (objects w).

(** The call [m] leaves a bucket that satisfies [I] as it is, however it
    ends. *)
Definition keepsBucketIf {A : Type} (I : Bucket -> Prop) (m : M A) : Prop :=
  forall (w : World) (r : Result A) (w' : World),
    I (objects w) -> m w = (r, w') -> objects w' = objects w.

(** ** What a pass over the bucket hands over *)

(** The records of a pass under [prefix] that meets no failure and no
    cancellation: the builder fed with the whole listing, then closed. *)
Definition fullScan (own : string) (now : Z) (prefix : string) (b : Bucket) : list HashAndState :=
  emitted (close (fold_left (processObject now)
                    (bucket_list ((BlockDataSubFolder +:+ "/") +:+ prefix) b)
                    (NewHashBlockStorageMapBuilder own))).

(** A world in which no bucket call fails and the context is never
    cancelled. *)
Definition quiet (w : World) : Prop := faults w = [] /\ polls w = None.

(** The builder has met the body of [h]: it has handed the record of [h]
    over, or it is at [h] with the body seen. *)
Definition seenData (b : HashBlockStorageMapBuilder) (h : list byte) : Prop :=
  In h (List.map hash (emitted b)) \/
  (currentHash b = HashToStringMapKey h /\ dataExists (currentState b) = true).

(** Every record handed over so far is of a block whose body was seen. *)
Definition allData (b : HashBlockStorageMapBuilder) : Prop :=
  List.Forall (fun d => dataExists (state d) = true) (emitted b).

(** The hash string [hs] is that of a body key of the bucket. *)
Definition bodyString (b : Bucket) (hs : string) : Prop :=
  In ("blocks/" +:+ hs) (bucket_keys b) /\ noDot hs = true.

(** The records the builder has handed over, and the one it is at if
    the body was seen, come from hash strings that satisfy [S]. *)
Definition fromBodies (S : string -> Prop) (b : HashBlockStorageMapBuilder) : Prop :=
  List.Forall (fun d => exists hs, S hs /\ hash d = StringMapKeyToHashNoError hs) (emitted b) /\
  (dataExists (currentState b) = true -> S (currentHash b)).

(** The records of a pass of [IterateBlocks] that nothing disturbs: the
    full scans of the 256 shards, one after the other. *)
Definition fullPass (own : string) (shard : nat -> World) : list HashAndState :=
  flat_map (fun i => fullScan own (clock (shard i)) (HashToStringMapKey [shardByte i])
                       (objects (shard i)))
    (seq 0 256).

(** The entry a shard sends for the error [e] of its pass. *)
Definition errorEntry (e : error) : HashStateAndError :=
  mkHashStateAndError (mkHashAndState [] emptyState) (Some e).

(** The channel [chan] carries an initial segment of the records [full],
    then nothing or an error; it carries all of [full] when it carries no
    error. *)
Definition segmentOf (full : list HashAndState) (chan : list HashStateAndError) : Prop :=
  exists (recs rest : list HashAndState) (tail : list HashStateAndError),
    chan = List.map (fun r => mkHashStateAndError r None) recs ++ tail /\
    (tail = [] \/ exists e, tail = [errorEntry e]) /\
    full = recs ++ rest /\ (tail = [] -> rest = []).

(** ** The scan map *)

(** [strconv.Itoa]: the decimal digits of [n], no leading zero, a minus
    sign before those of a negative number. *)
Definition Itoa (n : Z) : string := NilZero.string_of_int (Z.to_int n).

(** The callback [GetBlockHashesCache] passes to [IterateBlocks]: it
    puts the state of the record in [hashSet] under the hash string and
    calls [progressNotifier] with the size of the map and the hash;
    [notified] holds the arguments of these calls in their order. *)
Definition cacheStep (acc : gmap string HashBlockState * list (nat * list byte))
    (d : HashAndState) : gmap string HashBlockState * list (nat * list byte) :=
  let '(hashSet, notified) := acc in
  let hashString := HashToStringMapKey (hash d) in
  let hashSet := <[hashString := state d]> hashSet in
  (hashSet, notified ++ [(size hashSet, hash d)]).

(** The map, [None] for the [nil] map, and the calls of
    [progressNotifier]. The goroutines of the pass run in the worlds
    [producer] and [shard i], as for [IterateBlocks]. *)
Definition GetBlockHashesCache (hm : GoCloudUrlStorage) (producer : World)
    (shard : nat -> World)
  : M (option (gmap string HashBlockState) * list (nat * list byte)) :=
  r <- IterateBlocks hm producer shard;;
  let '(err, recs) := r in
  let '(hashSet, notified) := fold_left cacheStep recs (∅, []) in
  match err with
  | Some e =>
      Warnf ("IterateBlocks returned error: " +:+ errorText e) ;;;
      ret (None, notified)
  | None =>
      let blockCountHint := Itoa (Z.of_nat (size hashSet)) in
      SetMeta hm "BlockCountHint" (list_byte_of_string blockCountHint) ;;;
      ret (Some hashSet, notified)
  end.

(** The world [w'] is [w] but for the polls of the context. *)
Definition samePolled (w w' : World) : Prop :=
  objects w' = objects w /\ clock w' = clock w /\ faults w' = faults w /\
  trace w' = trace w /\ deleteQueue w' = deleteQueue w.

(** ** The tags of one block *)

(** The first of the parts of a string that its dots separate. *)
Definition firstSegment (s : string) : string := nth 0 (Split s ".") "".

(** A deletion tag of the block [h], with or without a device id, that
    is younger than TIME_CONSTANT_BASE at the time [now] is in [b]. *)
Definition freshDeletion (h : list byte) (now : Z) (b : Bucket) : Prop :=
  exists (key : string) (v : Blob),
    (key = getBlockStringKey h +:+ "." +:+ BLOCK_DELETE_TAG \/
     exists r, key = getBlockStringKey h +:+ "." +:+ BLOCK_DELETE_TAG +:+ "." +:+ r) /\
    bucket_get key b = Some v /\ (now - blobModTime v < TIME_CONSTANT_BASE)%Z.

(** A use tag of the block [h] is in [b] whose device id is [who], or
    goes on after [who] with a dot. *)
Definition hasUseTagOf (h : list byte) (who : string) (b : Bucket) : Prop :=
  exists r, In (getBlockStringKey h +:+ "." +:+ BLOCK_USE_TAG +:+ "." +:+ r) (bucket_keys b) /\
            firstSegment r = who.

Definition isDelete (now : Z) (obj : ListObject) : bool :=
  match keyOp now obj with
  | OpDelete => true
  | _ => false
  end.

Definition isUseOf (now : Z) (P : string -> bool) (obj : ListObject) : bool :=
  match keyOp now obj with
  | OpUse who => P who
  | _ => false
  end.

(** No fresh deletion tag is listed after a use tag. *)
Fixpoint usesLast (now : Z) (objs : list ListObject) : Prop :=
  match objs with
  | [] => True
  | o :: rest =>
      ((exists who, keyOp now o = OpUse who) -> List.existsb (isDelete now) rest = false) /\
      usesLast now rest
  end.

(** ** The buckets the store reaches *)

(** The property [I] of buckets survives the write of a key in [P] and
    the removal of any key. *)
Definition closedUnder (P : string -> Prop) (I : Bucket -> Prop) : Prop :=
  (forall (key : string) (v : Blob) (b : Bucket), P key -> I b -> I (bucket_put key v b)) /\
  (forall (key : string) (b : Bucket), I b -> I (bucket_remove key b)).

(** The call [m] changes the bucket only by writes of keys in [P] and
    by removals, however it ends. *)
Definition writesOnly {A : Type} (P : string -> Prop) (m : M A) : Prop :=
  forall I : Bucket -> Prop, closedUnder P I ->
  forall (w : World) (r : Result A) (w' : World),
    I (objects w) -> m w = (r, w') -> I (objects w').

(** A key of a block whose hash has [n] bytes, or a metadata key. *)
Definition keyOfLength (n : nat) (key : string) : Prop :=
  (exists h, length h = n /\ schemaKey h key) \/ (exists name, key = getMetadataStringKey name).

(** The buckets that the calls of the store that write, made by any
    handles in any order with hashes of [n] bytes, reach from the empty
    bucket, whatever fails and however each call ends. *)
Inductive reachable (n : nat) : Bucket -> Prop :=
| reach_empty : reachable n []
| reach_ReserveAndSet (hm : GoCloudUrlStorage) (h data : list byte) (w : World) :
    reachable n (objects w) -> length h = n ->
    reachable n (objects (snd (ReserveAndSet hm h data w)))
| reach_ReserveAndGet (fuel : nat) (hm : GoCloudUrlStorage) (h : list byte) (dl : bool)
    (w : World) :
    reachable n (objects w) -> length h = n ->
    reachable n (objects (snd (ReserveAndGet fuel hm h dl w)))
| reach_DeleteReservation (hm : GoCloudUrlStorage) (h : list byte) (w : World) :
    reachable n (objects w) ->
    reachable n (objects (snd (DeleteReservation hm h w)))
| reach_AnnounceDelete (hm : GoCloudUrlStorage) (h : list byte) (w : World) :
    reachable n (objects w) -> length h = n ->
    reachable n (objects (snd (AnnounceDelete hm h w)))
| reach_DeAnnounceDelete (hm : GoCloudUrlStorage) (h : list byte) (w : World) :
    reachable n (objects w) ->
    reachable n (objects (snd (DeAnnounceDelete hm h w)))
| reach_UncheckedDelete (hm : GoCloudUrlStorage) (h : list byte) (w : World) :
    reachable n (objects w) ->
    reachable n (objects (snd (UncheckedDelete hm h w)))
| reach_SetMeta (hm : GoCloudUrlStorage) (name : string) (data : list byte) (w : World) :
    reachable n (objects w) ->
    reachable n (objects (snd (SetMeta hm name data w)))
| reach_DeleteMeta (hm : GoCloudUrlStorage) (name : string) (w : World) :
    reachable n (objects w) ->
    reachable n (objects (snd (DeleteMeta hm name w)))
| reach_GetBlockHashesCache (hm : GoCloudUrlStorage) (producer : World) (shard : nat -> World)
    (w : World) :
    reachable n (objects w) ->
    reachable n (objects (snd (GetBlockHashesCache hm producer shard w)))
| reach_cleanupUnneededReservations (hm : GoCloudUrlStorage) (fsetSnapshot : error + Snapshot)
    (checkMap : list (string * HashBlockState)) (w : World) :
    reachable n (objects w) ->
    reachable n (objects (snd (cleanupUnneededReservations hm fsetSnapshot checkMap w))).

(** ** The folder service on top of the store *)

Inductive GetBlockDataResult :=
| GET_BLOCK_FAILED
| GET_BLOCK_CACHED
| GET_BLOCK_DOWNLOAD.

(** A byte slice that may be nil, as the bytes it holds. *)
Definition bytesOf (data : option (list byte)) : list byte :=
  match data with
  | Some d => d
  | None => []
  end.

(** [pullBlockBase] fetches the block from a peer and is not part of
    the store: it comes as what it did, [pulled] being the block it
    handed to its callback, if it called it, and [err] the error it
    returned. [blockCache] is the handle of the service. *)
Definition GetBlockDataFromCacheOrDownload (fuel : nat) (blockCache : GoCloudUrlStorage)
    (blockHash : list byte) (pulled : option (list byte)) (err : option error)
  : M (option (list byte) * bool * GetBlockDataResult) :=
  r <- ReserveAndGet fuel blockCache blockHash true;;
  let '(data, ok) := r in
  if ok then ret (data, true, GET_BLOCK_CACHED)
  else
    let data := match pulled with
                | Some blockData => Some blockData
                | None => data
                end in
    match err with
    | Some _ => ret (None, false, GET_BLOCK_FAILED)
    | None =>
        ReserveAndSet blockCache blockHash (bytesOf data) ;;;
        ret (data, true, GET_BLOCK_DOWNLOAD)
    end.

(** Go's [copy(dst, src)]: the number of bytes copied and [dst] after
    the call. *)
Definition copy (dst src : list byte) : nat * list byte :=
  let n := Nat.min (length dst) (length src) in
  (n, firstn n src ++ skipn n dst).

Inductive protocolError :=
| ErrNoSuchFile.

(** The result holds, after the two values the Go function returns,
    the caller's buffer [response_data] as the call leaves it. *)
Definition GetHashBlockData (fuel : nat) (blockCache : GoCloudUrlStorage)
    (hash response_data : list byte) : M (nat * option protocolError * list byte) :=
  r <- ReserveAndGet fuel blockCache hash true;;
  let '(data, ok) := r in
  if negb ok then ret (0%nat, Some ErrNoSuchFile, response_data)
  else
    let '(n, response_data) := copy response_data (bytesOf data) in
    ret (n, None, response_data).

(** ** The check of one file against the map of a scan *)

Module FolderScan.

Record BlockInfo := mkBlockInfo {
  Hash : list byte;
  Offset : Z;
  Size : Z
}.

Record FileInfo := mkFileInfo {
  Name : string;
  Version : list (Z * Z);
  Blocks : list BlockInfo
}.

(** What [scanOne] asks of the file [f] it is given. *)
Record FileIntf := mkFileIntf {
  FileName : string;
  IsDirectory : bool;
  FileSize : Z
}.

(** What [scanOne] does besides its calls of the store, in the order it
    happens: it calls the progress function [fn] and [fset.UpdateOne]. *)
Inductive ScanEffect :=
| Progress (deltaBytes : Z) (done : bool)
| UpdateOne (fi : FileInfo).

(** The check of one block in the loop of [scanOne]: what [ok] is
    after it. The debug log line of a failed block is left out. *)
Definition checkBlock (fuel : nat) (blockCache : GoCloudUrlStorage)
    (checkMap : gmap string HashBlockState) (bi : BlockInfo) : M bool :=
  let '(blockState, inMap) :=
    match checkMap !! HashToStringMapKey (Hash bi) with
    | Some s => (s, true)
    | None => (emptyState, false)
    end in
  if inMap && negb (IsAvailableAndReservedByMe blockState)
  then r <- ReserveAndGet fuel blockCache (Hash bi) false;; ret (snd r)
  else ret inMap.

(** The [for] loop over the blocks of the file. The result holds
    whether the loop was left by the [return] after a cancellation,
    [all_ok], and the effects so far. *)
Fixpoint scanBlocks (fuel : nat) (blockCache : GoCloudUrlStorage)
    (checkMap : gmap string HashBlockState) (blocks : list BlockInfo) (all_ok : bool)
    (out : list ScanEffect) : M (bool * bool * list ScanEffect) :=
  match blocks with
  | [] => ret (false, all_ok, out)
  | bi :: rest =>
      ok <- checkBlock fuel blockCache checkMap bi;;
      let all_ok := all_ok && ok in
      let out := out ++ [Progress (Size bi) false] in
      done <- IsDone;;
      if done then ret (true, all_ok, out)
      else scanBlocks fuel blockCache checkMap rest all_ok out
  end.

(** [snapGet] is [snap.Get] for the local device; the deferred
    [fn(0, true)] is the last effect on every way out of the closure. *)
Definition scanOne (fuel : nat) (blockCache : GoCloudUrlStorage)
    (snapGet : string -> option FileInfo) (f : FileIntf)
    (checkMap : gmap string HashBlockState) : M (list ScanEffect) :=
  if IsDirectory f then ret [Progress (FileSize f) true]
  else
    match snapGet (FileName f) with
    | None => ret [Progress 0 true]
    | Some fi =>
        r <- scanBlocks fuel blockCache checkMap (Blocks fi) true [];;
        let '(cancelled, all_ok, out) := r in
        if cancelled then ret (out ++ [Progress 0 true])
        else if negb all_ok
             then ret (out ++ [UpdateOne (mkFileInfo (Name fi) [] (Blocks fi)); Progress 0 true])
             else ret (out ++ [Progress 0 true])
    end.

(** What the check of the block [bi] comes to in the bucket [b] when
    no call fails: the block is in the map, and either the map has it
    as reserved by this handle or its body is in the bucket. *)
Definition blockOk (checkMap : gmap string HashBlockState) (b : Bucket) (bi : BlockInfo) : bool :=
  match checkMap !! HashToStringMapKey (Hash bi) with
  | None => false
  | Some blockState =>
      IsAvailableAndReservedByMe blockState ||
      (negb (length (Hash bi) =? 0)%nat &&
       isSome (bucket_get (getBlockStringKey (Hash bi)) b))
  end.

End FolderScan.

(** ** The attempts of one [ReserveAndGet] *)

(** The world in which the attempt of [ReserveAndGet] after [k] retries
    starts: each of the [k] attempts before it asked for a retry and
    was followed by the sleep of one minute. [None] when one of them
    did not ask for a retry. *)
Fixpoint afterRetries (hm : GoCloudUrlStorage) (hash : list byte) (k : nat) (w : World)
  : option World :=
  match k with
  | O => Some w
  | S k' =>
      match reserveAndCheckExistence hm hash w with
      | (Ok (_, true), w1) => afterRetries hm hash k' (snd (Sleep (Minute * 1) w1))
      | _ => None
      end
  end.

(** ** Starting points *)

(** A bucket nobody has written to, at time [0], with no fault and no
    cancellation ahead. *)
Definition freshWorld : World := mkWorld [] 0 [] None [] [].

(** A handle with no participant id: read-only. *)
Definition readOnlyHandle (url : string) : GoCloudUrlStorage := mkStorage url "".

(** A bucket with three blocks: [01] and [ab] stored by participant A,
    [abcd] stored by participant B. *)
Definition exampleWorld : World :=
  snd (ReserveAndSet (mkStorage "mem://" "A") [x01] [x03]
         (snd (ReserveAndSet (mkStorage "mem://" "B") [xab; xcd] [x02]
                 (snd (ReserveAndSet (mkStorage "mem://" "A") [xab] [x01] freshWorld))))).

(** The first step of [reserveAndCheckExistence], which makes sure of the
    use tag of a writable handle. *)
Definition reserveStep (hm : GoCloudUrlStorage) (hash : list byte) : M (option error) :=
  if negb (IsReadOnly hm) then putATag hm hash BLOCK_USE_TAG false else ret None.

(** The world [w] with the bucket calls to come decided by [fs]. *)
Definition withFaults (fs : list bool) (w : World) : World :=
  mkWorld (objects w) (clock w) fs (polls w) (trace w) (deleteQueue w).

(** The world [w] at the time [t]. *)
Definition atTime (t : Z) (w : World) : World :=
  mkWorld (objects w) t (faults w) (polls w) (trace w) (deleteQueue w).

(* ================================================================== *)
(** * Part II: properties                                              *)
(* ================================================================== *)

(** ** The order of keys *)

Lemma ascii_compare_refl (c : ascii) : Ascii.compare c c = Eq.
Proof. unfold Ascii.compare. apply N.compare_refl. Qed.

Lemma ascii_compare_lt_trans (a b c : ascii) :
  Ascii.compare a b = Lt -> Ascii.compare b c = Lt -> Ascii.compare a c = Lt.
Proof. unfold Ascii.compare. rewrite !N.compare_lt_iff. lia. Qed.

Lemma str_compare_refl (s : string) : String.compare s s = Eq.
Proof.
  induction s as [|c s IH]; simpl; [reflexivity|].
  rewrite ascii_compare_refl. exact IH.
Qed.

Lemma str_compare_eq (a b : string) : String.compare a b = Eq <-> a = b.
Proof.
  split; [apply String.compare_eq_iff | intros ->; apply str_compare_refl].
Qed.

Lemma str_lt_irrefl (s : string) : ~ str_lt s s.
Proof. unfold str_lt. rewrite str_compare_refl. discriminate. Qed.

Lemma str_lt_trans (a b c : string) : str_lt a b -> str_lt b c -> str_lt a c.
Proof.
  unfold str_lt. revert b c.
  induction a as [|x a IH]; intros [|y b] [|z c]; simpl; try discriminate; auto.
  destruct (Ascii.compare x y) eqn:Exy; try discriminate;
    destruct (Ascii.compare y z) eqn:Eyz; try discriminate; intros H1 H2.
  - apply Ascii.compare_eq_iff in Exy, Eyz. subst.
    rewrite ascii_compare_refl. eauto.
  - apply Ascii.compare_eq_iff in Exy. subst. rewrite Eyz. reflexivity.
  - apply Ascii.compare_eq_iff in Eyz. subst. rewrite Exy. reflexivity.
  - rewrite (ascii_compare_lt_trans _ _ _ Exy Eyz). reflexivity.
Qed.

Lemma str_lt_asym (a b : string) : str_lt a b -> ~ str_lt b a.
Proof.
  intros H1 H2. exact (str_lt_irrefl _ (str_lt_trans _ _ _ H1 H2)).
Qed.

Lemma str_compare_gt (a b : string) : String.compare a b = Gt <-> str_lt b a.
Proof.
  unfold str_lt. rewrite (String.compare_antisym b a).
  destruct (String.compare a b); simpl; split; congruence.
Qed.

(** A common prefix takes no part in a comparison. *)
Lemma str_compare_app (p a b : string) :
  String.compare (p +:+ a) (p +:+ b) = String.compare a b.
Proof.
  induction p as [|c p IH]; simpl; [reflexivity|].
  rewrite ascii_compare_refl. exact IH.
Qed.

Lemma str_app_assoc (a b c : string) : (a +:+ b) +:+ c = a +:+ (b +:+ c).
Proof. induction a as [|x a IH]; simpl; [reflexivity | f_equal; exact IH]. Qed.

Lemma str_app_nil_r (a : string) : a +:+ "" = a.
Proof. induction a as [|x a IH]; simpl; [reflexivity | f_equal; exact IH]. Qed.

Lemma str_app_inv_head (p a b : string) : p +:+ a = p +:+ b -> a = b.
Proof. induction p as [|x p IH]; simpl; [auto | intros [=]; auto]. Qed.

(** A string precedes each of its proper extensions. *)
Lemma str_lt_app (p : string) (c : ascii) (r : string) : str_lt p (p +:+ String c r).
Proof.
  unfold str_lt. rewrite <- (str_app_nil_r p) at 1. rewrite str_compare_app. reflexivity.
Qed.

Lemma prefix_app (p s : string) : String.prefix p (p +:+ s) = true.
Proof.
  induction p as [|c p IH]; simpl; [now destruct s|].
  destruct (ascii_dec c c); [exact IH | congruence].
Qed.

Lemma prefix_inv (p s : string) : String.prefix p s = true -> exists r, s = p +:+ r.
Proof.
  revert s. induction p as [|c p IH]; intros s H.
  - exists s. reflexivity.
  - destruct s as [|x s]; simpl in H; [discriminate|].
    destruct (ascii_dec c x); [subst|discriminate].
    destruct (IH _ H) as [r ->]. now exists r.
Qed.

Lemma CutPrefix_app (p s : string) : CutPrefix (p +:+ s) p = (s, true).
Proof.
  induction p as [|c p IH]; simpl; [reflexivity|].
  rewrite Ascii.eqb_refl, IH. reflexivity.
Qed.

(** ** The bucket as a map *)

Lemma bucket_get_put_eq (key : string) (v : Blob) (b : Bucket) :
  bucket_get key (bucket_put key v b) = Some v.
Proof.
  induction b as [|[k x] b IH]; simpl.
  - rewrite String.eqb_refl. reflexivity.
  - destruct (String.compare key k) eqn:E; simpl.
    + rewrite String.eqb_refl. reflexivity.
    + rewrite String.eqb_refl. reflexivity.
    + destruct (String.eqb_spec k key) as [->|_]; [|exact IH].
      rewrite str_compare_refl in E. discriminate.
Qed.

Lemma bucket_get_put_ne (key k' : string) (v : Blob) (b : Bucket) :
  key <> k' -> bucket_get k' (bucket_put key v b) = bucket_get k' b.
Proof.
  intros Hne. induction b as [|[k x] b IH]; simpl.
  - destruct (String.eqb_spec key k'); [contradiction | reflexivity].
  - destruct (String.compare key k) eqn:E; simpl.
    + apply str_compare_eq in E. subst k.
      destruct (String.eqb_spec key k'); [contradiction | reflexivity].
    + destruct (String.eqb_spec key k'); [contradiction | reflexivity].
    + rewrite IH. reflexivity.
Qed.

Lemma bucket_get_remove_ne (key k' : string) (b : Bucket) :
  key <> k' -> bucket_get k' (bucket_remove key b) = bucket_get k' b.
Proof.
  intros Hne. induction b as [|[k x] b IH]; simpl; [reflexivity|].
  destruct (String.eqb_spec k key) as [->|Hk]; simpl.
  - destruct (String.eqb_spec key k'); [contradiction | exact IH].
  - rewrite IH. reflexivity.
Qed.

Lemma bucket_get_remove_eq (key : string) (b : Bucket) :
  bucket_get key (bucket_remove key b) = None.
Proof.
  induction b as [|[k x] b IH]; simpl; [reflexivity|].
  destruct (String.eqb_spec k key) as [->|Hk]; simpl; [exact IH|].
  destruct (String.eqb_spec k key); [contradiction | exact IH].
Qed.

(** ** The count hint *)

Lemma SetMeta_writable (hm : GoCloudUrlStorage) (name : string) (data : list byte) (w : World) :
  IsReadOnly hm = false -> faults w = [] ->
  snd (SetMeta hm name data w) =
    setObjects (record (EvWriteAll (getMetadataStringKey name) data) w)
      (bucket_put (getMetadataStringKey name) (mkBlob (clock w) data) (objects w)).
Proof.
  intros Hro Hf. unfold SetMeta. rewrite Hro.
  unfold bind, bucket_WriteAll, nextFault, record. simpl. rewrite Hf. reflexivity.
Qed.

Lemma GetBlockHashesCountHint_read (hm : GoCloudUrlStorage) (w : World) (r : option (list byte)) :
  fst (GetMeta hm "BlockCountHint" w) = Ok r ->
  fst (GetBlockHashesCountHint hm w) =
    Ok (match r with
        | None => 100%Z
        | Some data =>
            match Atoi (string_of_list_byte data) with
            | Some v => Z.max 100 v
            | None => 100%Z
            end
        end).
Proof.
  intros H. unfold GetBlockHashesCountHint, bind.
  destruct (GetMeta hm "BlockCountHint" w) as [[a| | |] w']; simpl in H; try discriminate.
  injection H as ->. destruct r as [data|]; [|reflexivity].
  destruct (Atoi (string_of_list_byte data)) as [v|]; [|reflexivity].
  simpl. f_equal. destruct (Z.ltb_spec v 100); lia.
Qed.

(** C7, as amended: after a writable handle has stored a count hint,
    [GetBlockHashesCountHint] returns the parsed number raised to the
    floor of 100 (so 100 for "7" and for "3"), and 100 when the hint does
    not parse; it returns 100 as well whenever the meta object cannot be
    read. *)
Theorem C7_count_hint_floor (hm : GoCloudUrlStorage) (w : World) :
  IsReadOnly hm = false -> faults w = [] ->
  (forall data : list byte,
     fst (GetBlockHashesCountHint hm (snd (SetMeta hm "BlockCountHint" data w))) =
       Ok (match Atoi (string_of_list_byte data) with
           | Some v => Z.max 100 v
           | None => 100%Z
           end)) /\
  (forall w' : World,
     fst (GetMeta hm "BlockCountHint" w') = Ok None ->
     fst (GetBlockHashesCountHint hm w') = Ok 100%Z).
Proof.
  intros Hro Hf. split.
  - intros data.
    apply (GetBlockHashesCountHint_read hm _ (Some data)).
    rewrite (SetMeta_writable hm _ data w Hro Hf).
    unfold GetMeta, bind, bucket_ReadAll, nextFault, record, setObjects. simpl.
    rewrite Hf. cbn [objects]. rewrite bucket_get_put_eq. reflexivity.
  - intros w' H. exact (GetBlockHashesCountHint_read hm w' None H).
Qed.

(** The first scenario of the specification, step by step. *)
Lemma C7_count_hint_floor_witness :
  let A := mkStorage "mem://" "A" in
  let w7 := snd (SetMeta A "BlockCountHint" (list_byte_of_string "7") freshWorld) in
  let w3 := snd (SetMeta A "BlockCountHint" (list_byte_of_string "3") w7) in
  let wabc := snd (SetMeta A "BlockCountHint" (list_byte_of_string "abc") w3) in
  fst (GetBlockHashesCountHint A w7) = Ok 100%Z /\
  fst (GetBlockHashesCountHint A w3) = Ok 100%Z /\
  fst (GetBlockHashesCountHint A wabc) = Ok 100%Z /\
  fst (GetBlockHashesCountHint A freshWorld) = Ok 100%Z.
Proof.
  intros A w7 w3 wabc.
  split; [|split; [|split]].
  - exact (proj1 (C7_count_hint_floor A freshWorld eq_refl eq_refl) (list_byte_of_string "7")).
  - exact (proj1 (C7_count_hint_floor A w7 eq_refl eq_refl) (list_byte_of_string "3")).
  - exact (proj1 (C7_count_hint_floor A w3 eq_refl eq_refl) (list_byte_of_string "abc")).
  - exact (proj2 (C7_count_hint_floor A freshWorld eq_refl eq_refl) freshWorld eq_refl).
Defined.

(** C7, as stated, fails on its first step: with the hint "7" stored the
    call returns the floor, 100, and not 7. *)
Lemma C7_counterexample :
  fst (GetBlockHashesCountHint (mkStorage "mem://" "A")
         (snd (SetMeta (mkStorage "mem://" "A") "BlockCountHint"
                 (list_byte_of_string "7") freshWorld))) = Ok 100%Z /\
  (Ok 100%Z : Result Z) <> Ok 7%Z.
Proof. split; [vm_compute; reflexivity | discriminate]. Qed.

(** ** Reserve and read: the empty hash *)

(** C10: for the empty hash [ReserveAndGet] returns [(nil, false)] at
    once, whatever [downloadData] and the handle are: the world (bucket,
    trace of bucket calls, clock) is the one it started in. *)
Theorem C10_empty_hash (fuel : nat) (hm : GoCloudUrlStorage) (downloadData : bool) (w : World) :
  ReserveAndGet fuel hm [] downloadData w = (Ok (None, false), w).
Proof. unfold ReserveAndGet. simpl. reflexivity. Qed.

(** ** Writes on a read-only handle *)

Lemma DeleteReservation_read_only (url : string) (hash : list byte) (w : World) :
  DeleteReservation (readOnlyHandle url) hash w = (Fatal "removeATag: read only", w).
Proof. reflexivity. Qed.

(** C8, as amended: on a read-only handle [ReserveAndSet], [SetMeta] and
    [DeleteMeta] drop the write with a warning, and [AnnounceDelete],
    [DeAnnounceDelete] and [UncheckedDelete] drop it and hand a
    read-only error back to the caller without a warning; in all six
    the bucket, the clock and the trace of bucket calls stay as they
    were, and the call ends normally. *)
Theorem C8_read_only_writes_dropped (url : string) (hash data : list byte) (name : string)
    (w : World) :
  let hm := readOnlyHandle url in
  (ReserveAndSet hm hash data w = (Ok tt, record (EvWarnf "ReserveAndSet: read only") w) /\
   SetMeta hm name data w = (Ok tt, record (EvWarnf "SetMeta: read only") w) /\
   DeleteMeta hm name w = (Ok tt, record (EvWarnf "SetMeta: read only") w) /\
   AnnounceDelete hm hash w = (Ok (Some (ErrReadOnly "putATag: read only")), w) /\
   DeAnnounceDelete hm hash w = (Ok (Some (ErrReadOnly "removeATag: read only")), w) /\
   UncheckedDelete hm hash w = (Ok (Some (ErrReadOnly "UncheckedDelete: read only")), w)) /\
  (objects (snd (ReserveAndSet hm hash data w)) = objects w /\
   objects (snd (SetMeta hm name data w)) = objects w /\
   objects (snd (DeleteMeta hm name w)) = objects w).
Proof.
  intros hm. repeat split.
Qed.

(** C8, as stated, fails: on a read-only handle [DeleteReservation] ends
    in [log.Fatal], and [AnnounceDelete] logs no warning (the trace stays
    empty) but returns an error. *)
Lemma C8_counterexample :
  DeleteReservation (readOnlyHandle "mem://") [xab] freshWorld =
    (Fatal "removeATag: read only", freshWorld) /\
  AnnounceDelete (readOnlyHandle "mem://") [xab] freshWorld =
    (Ok (Some (ErrReadOnly "putATag: read only")), freshWorld) /\
  trace freshWorld = [].
Proof. repeat split. Qed.

(** ** Reserve and read: failures *)

Lemma ReserveAndGet_nonempty (fuel : nat) (hm : GoCloudUrlStorage) (hash : list byte)
    (downloadData : bool) :
  hash <> [] ->
  ReserveAndGet fuel hm hash downloadData =
    (ok <- ReserveAndGet_loop fuel hm hash;;
     if ok && downloadData then
       r <- bucket_ReadAll (getBlockStringKey hash);;
       match r with
       | inl _ => panic "failed to read existing block data!"
       | inr data => ret (Some data, ok)
       end
     else ret (None, ok)).
Proof.
  intros Hne. unfold ReserveAndGet. destruct hash; [contradiction | reflexivity].
Qed.

Lemma putATag_result (hm : GoCloudUrlStorage) (hash : list byte) (tag : string)
    (updateTime : bool) (w : World) :
  exists r, fst (putATag hm hash tag updateTime w) = Ok r.
Proof.
  unfold putATag. destruct (IsReadOnly hm); [eexists; reflexivity|].
  unfold bind. destruct updateTime; simpl.
  - unfold bucket_WriteAll. destruct (nextFault _) as [[|] w1]; eexists; reflexivity.
  - unfold bucket_Exists. destruct (nextFault _) as [[|] w1]; simpl; [eexists; reflexivity|].
    destruct (bucket_get _ _); [eexists; reflexivity|].
    unfold bucket_WriteAll. destruct (nextFault _) as [[|] w2]; eexists; reflexivity.
Qed.

(** C9, as stated, fails for the download: the block is there, the use
    tag and the listing go through, the read of the body fails, and the
    call panics instead of returning [found = false]. *)
Lemma C9_counterexample :
  fst (ReserveAndGet 1 (mkStorage "mem://" "A") [xab] true
         (withFaults [false; false; true]
            (snd (ReserveAndSet (mkStorage "mem://" "A") [xab] [x01] freshWorld)))) =
    Panic "failed to read existing block data!".
Proof. vm_compute. reflexivity. Qed.

(** ** The key schema: hexadecimal digits and the separator *)

Lemma dot_before_hex_digit (c : ascii) :
  isHexDigit c = true -> Ascii.compare "." c = Lt.
Proof.
  unfold isHexDigit, unhex, Ascii.compare.
  change (N_of_ascii ".") with 46%N.
  destruct ((48 <=? N_of_ascii c) && (N_of_ascii c <=? 57))%N eqn:E1.
  { intros _. apply andb_prop in E1 as [E1 _]. apply N.leb_le in E1.
    apply N.compare_lt_iff. lia. }
  destruct ((97 <=? N_of_ascii c) && (N_of_ascii c <=? 102))%N eqn:E2.
  { intros _. apply andb_prop in E2 as [E2 _]. apply N.leb_le in E2.
    apply N.compare_lt_iff. lia. }
  destruct ((65 <=? N_of_ascii c) && (N_of_ascii c <=? 70))%N eqn:E3.
  { intros _. apply andb_prop in E3 as [E3 _]. apply N.leb_le in E3.
    apply N.compare_lt_iff. lia. }
  discriminate.
Qed.

Lemma hexdigits_compare (i j : nat) :
  (i < 16)%nat -> (j < 16)%nat ->
  Ascii.compare (nth i hexdigits "0"%char) (nth j hexdigits "0"%char) = Nat.compare i j.
Proof.
  intros Hi Hj.
  do 16 (destruct i as [|i]; [do 16 (destruct j as [|j]; [reflexivity|]); lia|]).
  lia.
Qed.

Lemma hexdigit_compare (a b : N) :
  (a < 16)%N -> (b < 16)%N ->
  Ascii.compare (hexdigit a) (hexdigit b) = N.compare a b.
Proof.
  intros Ha Hb. unfold hexdigit.
  rewrite hexdigits_compare by lia.
  symmetry. apply N2Nat.inj_compare.
Qed.

Lemma hexdigit_isHexDigit (a : N) : (a < 16)%N -> isHexDigit (hexdigit a) = true.
Proof.
  intros Ha. unfold hexdigit.
  assert (H : (N.to_nat a < 16)%nat) by lia.
  revert H. generalize (N.to_nat a) as i. intros i H.
  do 16 (destruct i as [|i]; [reflexivity|]). lia.
Qed.

Lemma byte_nibbles (b : byte) :
  (Byte.to_N b / 16 < 16)%N /\ (Byte.to_N b mod 16 < 16)%N.
Proof.
  pose proof (Byte.to_N_bounded b) as Hb.
  split.
  - apply N.Div0.div_lt_upper_bound. lia.
  - apply N.mod_lt. lia.
Qed.

Lemma to_N_inj (b1 b2 : byte) : Byte.to_N b1 = Byte.to_N b2 -> b1 = b2.
Proof.
  intros H. pose proof (Byte.of_to_N b1) as H1. pose proof (Byte.of_to_N b2) as H2.
  rewrite H in H1. congruence.
Qed.

Lemma nibbles_compare (n1 n2 : N) :
  N.compare n1 n2 =
    match N.compare (n1 / 16) (n2 / 16) with
    | Eq => N.compare (n1 mod 16) (n2 mod 16)
    | c => c
    end.
Proof.
  pose proof (N.div_mod n1 16 ltac:(lia)) as E1.
  pose proof (N.div_mod n2 16 ltac:(lia)) as E2.
  pose proof (N.mod_lt n1 16 ltac:(lia)) as L1.
  pose proof (N.mod_lt n2 16 ltac:(lia)) as L2.
  revert E1 E2 L1 L2.
  generalize (n1 / 16)%N (n1 mod 16)%N (n2 / 16)%N (n2 mod 16)%N.
  intros q1 r1 q2 r2 E1 E2 L1 L2.
  destruct (N.compare_spec q1 q2) as [H|H|H].
  - destruct (N.compare_spec r1 r2) as [G|G|G].
    + apply N.compare_eq_iff. lia.
    + apply N.compare_lt_iff. lia.
    + apply N.compare_gt_iff. lia.
  - apply N.compare_lt_iff. lia.
  - apply N.compare_gt_iff. lia.
Qed.

(** Two digits of one byte against two digits of another. *)
Lemma hex_of_byte_compare (b1 b2 : byte) (x y : string) :
  String.compare (hex_of_byte b1 +:+ x) (hex_of_byte b2 +:+ y) =
    match N.compare (Byte.to_N b1) (Byte.to_N b2) with
    | Eq => String.compare x y
    | c => c
    end.
Proof.
  destruct (byte_nibbles b1) as [H1 L1]. destruct (byte_nibbles b2) as [H2 L2].
  unfold hex_of_byte. simpl.
  rewrite !hexdigit_compare by assumption.
  rewrite (nibbles_compare (Byte.to_N b1) (Byte.to_N b2)).
  destruct (N.compare (Byte.to_N b1 / 16) (Byte.to_N b2 / 16)); reflexivity.
Qed.

(** The mapping of hashes to keys keeps the order of the hashes. *)
Lemma HashToStringMapKey_compare (h1 h2 : list byte) :
  String.compare (HashToStringMapKey h1) (HashToStringMapKey h2) = hash_compare h1 h2.
Proof.
  revert h2.
  induction h1 as [|b1 r1 IH]; intros [|b2 r2];
    cbn [HashToStringMapKey hash_compare]; try reflexivity.
  rewrite hex_of_byte_compare, IH. reflexivity.
Qed.

Lemma hash_compare_eq (h1 h2 : list byte) : hash_compare h1 h2 = Eq <-> h1 = h2.
Proof.
  split.
  - revert h2. induction h1 as [|b1 r1 IH]; intros [|b2 r2]; simpl; try discriminate; auto.
    destruct (N.compare (Byte.to_N b1) (Byte.to_N b2)) eqn:E; try discriminate.
    intros H. apply N.compare_eq_iff, to_N_inj in E. f_equal; auto.
  - intros ->. induction h2 as [|b r IH]; simpl; [reflexivity|].
    rewrite N.compare_refl. exact IH.
Qed.

Lemma hash_compare_antisym (h1 h2 : list byte) :
  hash_compare h1 h2 = CompOpp (hash_compare h2 h1).
Proof.
  rewrite <- !HashToStringMapKey_compare. apply String.compare_antisym.
Qed.

Lemma HashToStringMapKey_inj (h1 h2 : list byte) :
  HashToStringMapKey h1 = HashToStringMapKey h2 -> h1 = h2.
Proof.
  intros H. apply hash_compare_eq. rewrite <- HashToStringMapKey_compare.
  apply str_compare_eq. exact H.
Qed.

Lemma compare_suffix_hex (s : string) (b : byte) (x : string) :
  tagSuffix s -> String.compare s (hex_of_byte b +:+ x) = Lt.
Proof.
  intros [->|[r ->]]; [reflexivity|].
  unfold hex_of_byte. simpl.
  rewrite dot_before_hex_digit; [reflexivity|].
  apply hexdigit_isHexDigit, byte_nibbles.
Qed.

(** The keys of two different blocks compare as the hashes do, whatever
    tags they carry. *)
Lemma block_keys_compare (h1 h2 : list byte) (s1 s2 : string) :
  h1 <> h2 -> tagSuffix s1 -> tagSuffix s2 ->
  String.compare (HashToStringMapKey h1 +:+ s1) (HashToStringMapKey h2 +:+ s2) =
    hash_compare h1 h2.
Proof.
  intros Hne T1 T2. revert h2 Hne.
  induction h1 as [|b1 r1 IH]; intros [|b2 r2] Hne;
    cbn [HashToStringMapKey hash_compare].
  - contradiction.
  - rewrite str_app_assoc. change ("" +:+ s1) with s1.
    apply compare_suffix_hex. exact T1.
  - rewrite str_app_assoc. change ("" +:+ s2) with s2.
    rewrite String.compare_antisym, compare_suffix_hex by exact T2. reflexivity.
  - rewrite !str_app_assoc, hex_of_byte_compare.
    destruct (N.compare (Byte.to_N b1) (Byte.to_N b2)) eqn:E; try reflexivity.
    apply N.compare_eq_iff, to_N_inj in E. subst b2.
    apply IH. congruence.
Qed.

Lemma getBlockStringKey_app (h : list byte) (s : string) :
  getBlockStringKey h +:+ s = "blocks/" +:+ (HashToStringMapKey h +:+ s).
Proof.
  unfold getBlockStringKey, BlockDataSubFolder.
  rewrite !str_app_assoc. reflexivity.
Qed.

Lemma blockKeyOf_suffix (h : list byte) (key : string) :
  blockKeyOf h key ->
  exists s, tagSuffix s /\ key = "blocks/" +:+ (HashToStringMapKey h +:+ s).
Proof.
  intros [->|(tag & id & ->)].
  - exists "". split; [now left|].
    rewrite <- getBlockStringKey_app, str_app_nil_r. reflexivity.
  - exists ("." +:+ tag +:+ "." +:+ id). split; [right; eexists; reflexivity|].
    apply getBlockStringKey_app.
Qed.

Lemma blockKeyOf_compare (h1 h2 : list byte) (k1 k2 : string) :
  h1 <> h2 -> blockKeyOf h1 k1 -> blockKeyOf h2 k2 ->
  String.compare k1 k2 = hash_compare h1 h2.
Proof.
  intros Hne B1 B2.
  destruct (blockKeyOf_suffix _ _ B1) as (s1 & T1 & ->).
  destruct (blockKeyOf_suffix _ _ B2) as (s2 & T2 & ->).
  rewrite str_compare_app. apply block_keys_compare; assumption.
Qed.

Lemma sorted_middle (l1 l2 : list string) (a b : string) (rest : list string) :
  StronglySorted str_lt (l1 ++ a :: l2 ++ b :: rest) -> str_lt a b.
Proof.
  intros H. induction l1 as [|x l1 IH].
  2:{ apply IH. simpl in H. apply StronglySorted_inv in H as [H _]. exact H. }
  simpl in H. apply StronglySorted_inv in H as [_ H].
  rewrite List.Forall_forall in H. apply H.
  apply in_or_app. right. left. reflexivity.
Qed.

(** C6, as amended: the separator [.] sorts before every hexadecimal
    digit; the bare key of a block precedes each of its tag keys; all
    keys of one block lie on the same side of all keys of a block with
    another hash (they compare as the two hashes do), and so in a
    byte-lexicographic listing no key of another block stands between
    two keys of one block. *)
Theorem C6_block_keys_contiguous :
  (forall c : ascii, isHexDigit c = true -> Ascii.compare "." c = Lt) /\
  (forall (hm : GoCloudUrlStorage) (h : list byte) (tag : string),
     str_lt (getBlockStringKey h) (getATag hm h tag)) /\
  (forall (h1 h2 : list byte) (k1 k2 : string),
     h1 <> h2 -> blockKeyOf h1 k1 -> blockKeyOf h2 k2 ->
     String.compare k1 k2 = hash_compare h1 h2 /\ hash_compare h1 h2 <> Eq) /\
  (forall (h h' : list byte) (l1 l2 l3 l4 : list string) (k1 k2 k3 : string),
     StronglySorted str_lt (l1 ++ k1 :: l2 ++ k2 :: l3 ++ k3 :: l4) ->
     blockKeyOf h k1 -> blockKeyOf h k3 -> blockKeyOf h' k2 ->
     h' = h).
Proof.
  split; [exact dot_before_hex_digit|]. split; [|split].
  - intros hm h tag. unfold getATag. apply str_lt_app.
  - intros h1 h2 k1 k2 Hne B1 B2. split.
    + apply blockKeyOf_compare; assumption.
    + intros E. apply hash_compare_eq in E. contradiction.
  - intros h h' l1 l2 l3 l4 k1 k2 k3 Hs B1 B3 B2.
    destruct (hash_compare h' h) eqn:E; [apply hash_compare_eq; exact E | exfalso..].
    all: assert (Hne : h' <> h)
      by (intros ->; rewrite (proj2 (hash_compare_eq h h) eq_refl) in E; discriminate).
    all: clear E.
    all: assert (H12 : str_lt k1 k2) by exact (sorted_middle _ _ _ _ _ Hs).
    all: assert (H23 : str_lt k2 k3)
      by (rewrite app_comm_cons, app_assoc in Hs; exact (sorted_middle _ _ _ _ _ Hs)).
    all: unfold str_lt in H12, H23.
    all: rewrite (blockKeyOf_compare h h' k1 k2) in H12 by (try assumption; congruence).
    all: rewrite (blockKeyOf_compare h' h k2 k3) in H23 by assumption.
    all: rewrite hash_compare_antisym, H12 in H23; discriminate.
Qed.

Lemma C6_block_keys_contiguous_witness :
  Ascii.compare "." "a" = Lt /\
  str_lt "blocks/ab" "blocks/ab.used-by.A" /\
  String.compare "blocks/ab.used-by.A" "blocks/abcd" = Lt /\
  [xab] = [xab].
Proof.
  split; [|split; [|split]].
  - exact (proj1 C6_block_keys_contiguous "a"%char eq_refl).
  - exact (proj1 (proj2 C6_block_keys_contiguous) (mkStorage "mem://" "A") [xab] "used-by").
  - apply (proj1 (proj1 (proj2 (proj2 C6_block_keys_contiguous)) [xab] [xab; xcd]
                    "blocks/ab.used-by.A" "blocks/abcd"
                    ltac:(discriminate)
                    ltac:(right; exists "used-by", "A"; reflexivity)
                    ltac:(left; reflexivity))).
  - apply (proj2 (proj2 (proj2 C6_block_keys_contiguous)) [xab] [xab]
             [] [] [] ["blocks/abcd"]
             "blocks/ab" "blocks/ab.deletion-by.B" "blocks/ab.used-by.A").
    + repeat constructor.
    + left; reflexivity.
    + right; exists "used-by", "A"; reflexivity.
    + right; exists "deletion-by", "B"; reflexivity.
Defined.

(** C6, as stated, fails on its premise: [.] does not sort after the
    hexadecimal digit [0], it sorts before it. *)
Lemma C6_counterexample :
  isHexDigit "0" = true /\ Ascii.compare "." "0" = Lt.
Proof. split; reflexivity. Qed.

(** ** The builder, one key at a time *)

Lemma Split_noDot (a : string) : noDot a = true -> Split a "." = [a].
Proof.
  induction a as [|c a IH]; simpl; [reflexivity|].
  intros H. apply andb_prop in H as [Hc Ha].
  apply negb_true_iff in Hc. rewrite Hc, (IH Ha). reflexivity.
Qed.

Lemma Split_app_dot (a r : string) :
  noDot a = true -> Split (a +:+ String "." r) "." = a :: Split r ".".
Proof.
  induction a as [|c a IH]; simpl; [reflexivity|].
  intros H. apply andb_prop in H as [Hc Ha].
  apply negb_true_iff in Hc. rewrite Hc, (IH Ha). reflexivity.
Qed.

Lemma Split_nonempty (s : string) (sep : ascii) : Split s sep <> [].
Proof.
  destruct s as [|c s]; simpl; [discriminate|].
  destruct (Ascii.eqb c sep); [discriminate|].
  destruct (Split s sep); discriminate.
Qed.

Lemma noDot_hexdigit (a : N) : (a < 16)%N -> Ascii.eqb (hexdigit a) "." = false.
Proof.
  intros Ha. unfold hexdigit.
  assert (H : (N.to_nat a < 16)%nat) by lia.
  revert H. generalize (N.to_nat a) as i. intros i H.
  do 16 (destruct i as [|i]; [reflexivity|]). lia.
Qed.

Lemma noDot_HashToStringMapKey (h : list byte) : noDot (HashToStringMapKey h) = true.
Proof.
  induction h as [|b r IH]; [reflexivity|].
  cbn [HashToStringMapKey]. unfold hex_of_byte. simpl.
  destruct (byte_nibbles b) as [H1 H2].
  rewrite !noDot_hexdigit by assumption. exact IH.
Qed.

Lemma processObject_data (now : Z) (b : HashBlockStorageMapBuilder) (hs : string) (mt : Z) :
  noDot hs = true ->
  processObject now b (mkListObject ("blocks/" +:+ hs) mt) = addData b hs.
Proof.
  intros H. unfold processObject. cbn [Key].
  change (BlockDataSubFolder +:+ "/") with "blocks/".
  rewrite CutPrefix_app. cbn [fst]. rewrite (Split_noDot _ H). reflexivity.
Qed.

Lemma processObject_use (now : Z) (b : HashBlockStorageMapBuilder) (hs id : string) (mt : Z) :
  noDot hs = true -> noDot id = true ->
  processObject now b (mkListObject ("blocks/" +:+ hs +:+ ".used-by." +:+ id) mt) =
    addUse b hs id.
Proof.
  intros H Hid. unfold processObject. cbn [Key].
  change (BlockDataSubFolder +:+ "/") with "blocks/".
  rewrite CutPrefix_app. cbn [fst].
  change (".used-by." +:+ id) with (String "." ("used-by" +:+ String "." id)).
  rewrite (Split_app_dot _ _ H).
  assert (Hu : noDot "used-by" = true) by reflexivity.
  rewrite (Split_app_dot _ _ Hu), (Split_noDot _ Hid). reflexivity.
Qed.

(** ** Reserve and read: deletion tags *)

Lemma CutPrefix_found (s p r : string) : CutPrefix s p = (r, true) -> s = p +:+ r.
Proof.
  revert s r. induction p as [|c p IH]; intros s r; simpl.
  - intros [= ->]. reflexivity.
  - destruct s as [|x s]; [discriminate|].
    destruct (Ascii.eqb_spec x c) as [->|_]; [|discriminate].
    destruct (CutPrefix s p) as [r' [|]] eqn:E; [|discriminate].
    intros [= <-]. rewrite (IH _ _ E). reflexivity.
Qed.

Lemma reserveAndCheckExistence_listed (hm : GoCloudUrlStorage) (hash : list byte)
    (w w1 w2 : World) (page : list ListObject) (next : option nat) :
  reserveStep hm hash w = (Ok None, w1) ->
  bucket_ListPage (getBlockStringKey hash) 0 10 w1 = (Ok (inr (page, next)), w2) ->
  reserveAndCheckExistence hm hash w =
    (let scan := fold_left (scanEntry (clock w2) (getBlockStringKey hash)) page
                   (mkPageScan ∅ ∅ None) in
     if (0 <? size (deletesMap scan))%nat then (Ok (false, true), w2)
     else match dataEntry scan with
          | None => (Ok (false, false), w2)
          | Some _ => (Ok (true, false), w2)
          end).
Proof.
  intros H1 H2. unfold reserveAndCheckExistence.
  unfold bind at 1. unfold reserveStep in H1. rewrite H1.
  unfold bind at 1. rewrite H2.
  unfold bind at 1. unfold getClock. cbv zeta.
  destruct (0 <? size _)%nat; [reflexivity|].
  destruct (dataEntry _); reflexivity.
Qed.

Lemma scanEntry_fresh_delete (now : Z) (hashKey id : string) (acc : PageScan) (mt : Z) :
  (now - mt < TIME_CONSTANT_BASE)%Z ->
  deletesMap (scanEntry now hashKey acc
                (mkListObject (hashKey +:+ "." +:+ BLOCK_DELETE_TAG +:+ "." +:+ id) mt)) =
    <[id := mkListObject (hashKey +:+ "." +:+ BLOCK_DELETE_TAG +:+ "." +:+ id) mt]>
      (deletesMap acc).
Proof.
  intros Hfresh. unfold scanEntry. cbn [Key ModTime].
  rewrite CutPrefix_app. cbn [fst].
  change ("." +:+ BLOCK_DELETE_TAG +:+ "." +:+ id) with (".deletion-by." +:+ id).
  change (String.length (".deletion-by." +:+ id) =? 0)%nat with false.
  change (CutPrefix (".deletion-by." +:+ id) ("." +:+ BLOCK_USE_TAG +:+ "."))
    with (".deletion-by." +:+ id, false).
  change ("." +:+ BLOCK_DELETE_TAG +:+ ".") with ".deletion-by.".
  rewrite CutPrefix_app.
  apply Z.ltb_lt in Hfresh. rewrite Hfresh. reflexivity.
Qed.

Lemma scanEntry_deletes_kept (now : Z) (hashKey : string) (acc : PageScan) (entry : ListObject) :
  deletesMap acc <> ∅ -> deletesMap (scanEntry now hashKey acc entry) <> ∅.
Proof.
  intros H. unfold scanEntry.
  destruct (String.length _ =? 0)%nat; [exact H|].
  destruct (CutPrefix _ ("." +:+ BLOCK_USE_TAG +:+ ".")) as [id [|]]; [exact H|].
  destruct (CutPrefix _ ("." +:+ BLOCK_DELETE_TAG +:+ ".")) as [id' [|]]; [|exact H].
  destruct (_ <? _)%Z; [|exact H].
  cbn [deletesMap]. apply insert_non_empty.
Qed.

Lemma fold_scanEntry_deletes_kept (now : Z) (hashKey : string) (page : list ListObject)
    (acc : PageScan) :
  deletesMap acc <> ∅ ->
  deletesMap (fold_left (scanEntry now hashKey) page acc) <> ∅.
Proof.
  revert acc. induction page as [|e page IH]; intros acc H; simpl; [exact H|].
  apply IH, scanEntry_deletes_kept, H.
Qed.

(** The scan of a page that has no fresh deletion tag leaves
    [deletesMap] empty. *)
Lemma fold_scanEntry_stale (now : Z) (hashKey : string) (page : list ListObject)
    (acc : PageScan) :
  deletesMap acc = ∅ ->
  (forall (obj : ListObject) (id : string),
     In obj page ->
     Key obj = hashKey +:+ "." +:+ BLOCK_DELETE_TAG +:+ "." +:+ id ->
     (TIME_CONSTANT_BASE <= now - ModTime obj)%Z) ->
  (forall obj : ListObject, In obj page -> exists r, Key obj = hashKey +:+ r) ->
  deletesMap (fold_left (scanEntry now hashKey) page acc) = ∅.
Proof.
  revert acc. induction page as [|e page IH]; intros acc Hacc Hstale Hpre; simpl; [exact Hacc|].
  apply IH.
  - destruct (Hpre e (or_introl eq_refl)) as [r Hr].
    unfold scanEntry. rewrite Hr, CutPrefix_app. cbn [fst].
    destruct (String.length r =? 0)%nat; [exact Hacc|].
    destruct (CutPrefix r ("." +:+ BLOCK_USE_TAG +:+ ".")) as [id [|]]; [exact Hacc|].
    destruct (CutPrefix r ("." +:+ BLOCK_DELETE_TAG +:+ ".")) as [id' [|]] eqn:E; [|exact Hacc].
    apply CutPrefix_found in E.
    assert (Hs : (TIME_CONSTANT_BASE <= now - ModTime e)%Z).
    { apply (Hstale e id' (or_introl eq_refl)). rewrite Hr, E.
      rewrite !str_app_assoc. reflexivity. }
    destruct (Z.ltb_spec (now - ModTime e) TIME_CONSTANT_BASE); [lia | exact Hacc].
  - intros obj id Hin. apply Hstale. right. exact Hin.
  - intros obj Hin. apply Hpre. right. exact Hin.
Qed.

Lemma bucket_list_prefix (prefix : string) (b : Bucket) (obj : ListObject) :
  In obj (bucket_list prefix b) -> exists r, Key obj = prefix +:+ r.
Proof.
  unfold bucket_list. intros H. apply in_map_iff in H as ([k v] & <- & H).
  apply filter_In in H as [_ H]. cbn [Key fst]. apply prefix_inv. exact H.
Qed.

Lemma bucket_ListPage_ok (prefix : string) (tok n : nat) (w w' : World)
    (page : list ListObject) (next : option nat) :
  bucket_ListPage prefix tok n w = (Ok (inr (page, next)), w') ->
  page = firstn n (skipn tok (bucket_list prefix (objects w))) /\
  objects w' = objects w /\ clock w' = clock w.
Proof.
  unfold bucket_ListPage, nextFault, record. cbn [faults objects clock].
  destruct (faults w) as [|[|] fs]; intros [= <- _ <-]; repeat split; reflexivity.
Qed.

Lemma ReserveAndGet_loop_retry (fuel : nat) (hm : GoCloudUrlStorage) (hash : list byte)
    (w w2 : World) :
  reserveAndCheckExistence hm hash w = (Ok (false, true), w2) ->
  ReserveAndGet_loop (S fuel) hm hash w =
    ReserveAndGet_loop fuel hm hash (snd (Sleep (Minute * 1) w2)).
Proof.
  intros H. cbn [ReserveAndGet_loop]. unfold bind at 1. rewrite H. reflexivity.
Qed.

Lemma ReserveAndGet_loop_done (fuel : nat) (hm : GoCloudUrlStorage) (hash : list byte)
    (w w2 : World) (found : bool) :
  reserveAndCheckExistence hm hash w = (Ok (found, false), w2) ->
  ReserveAndGet_loop (S fuel) hm hash w = (Ok found, w2).
Proof.
  intros H. cbn [ReserveAndGet_loop]. unfold bind at 1. rewrite H. reflexivity.
Qed.

Lemma In_firstn_inv {A : Type} (n : nat) (l : list A) (x : A) :
  In x (firstn n l) -> In x l.
Proof.
  revert l. induction n as [|n IH]; intros [|y l]; simpl; try tauto.
  intros [H|H]; [left; exact H | right; exact (IH _ H)].
Qed.

Lemma In_skipn_inv {A : Type} (n : nat) (l : list A) (x : A) :
  In x (skipn n l) -> In x l.
Proof.
  revert l. induction n as [|n IH]; intros [|y l]; simpl; try tauto.
  intros H. right. exact (IH _ H).
Qed.

(** After a successful [AnnounceDelete] at the time [clock w] the bucket
    holds the deletion tag of the announcer with that modification time. *)
Lemma AnnounceDelete_tag (p : GoCloudUrlStorage) (hash : list byte) (w w' : World) :
  AnnounceDelete p hash w = (Ok None, w') ->
  bucket_get (getATag p hash BLOCK_DELETE_TAG) (objects w') = Some (mkBlob (clock w) []).
Proof.
  unfold AnnounceDelete, putATag. destruct (IsReadOnly p); [discriminate|].
  cbn [negb]. unfold bind, ret, bucket_WriteAll, nextFault, record, setObjects.
  cbn [faults objects clock].
  destruct (faults w) as [|[|] fs]; intros [= <-]; cbn [objects]; apply bucket_get_put_eq.
Qed.

(** C3, as amended: when the page of ten entries that
    [reserveAndCheckExistence] lists under the key of the block holds a
    deletion tag whose modification time [t] has the time of the listing
    in [t, t + TIME_CONSTANT_BASE), the check asks for a retry, and
    [ReserveAndGet] does not return: it sleeps one minute and starts the
    whole reserve-and-check over; when every deletion tag on that page
    was modified TIME_CONSTANT_BASE or longer ago, there is no retry and
    [ReserveAndGet] returns what the page says of the body. *)
Theorem C3_fresh_deletion_tag_retries (fuel : nat) (hm : GoCloudUrlStorage)
    (hash : list byte) (downloadData : bool) (w w1 w2 : World)
    (page : list ListObject) (next : option nat) :
  hash <> [] ->
  reserveStep hm hash w = (Ok None, w1) ->
  bucket_ListPage (getBlockStringKey hash) 0 10 w1 = (Ok (inr (page, next)), w2) ->
  (forall (id : string) (t : Z),
     In (mkListObject (getBlockStringKey hash +:+ "." +:+ BLOCK_DELETE_TAG +:+ "." +:+ id) t)
        page ->
     (t <= clock w2 < t + TIME_CONSTANT_BASE)%Z ->
     reserveAndCheckExistence hm hash w = (Ok (false, true), w2) /\
     ReserveAndGet (S fuel) hm hash downloadData w =
       ReserveAndGet fuel hm hash downloadData (snd (Sleep (Minute * 1) w2))) /\
  ((forall (obj : ListObject) (id : string),
      In obj page ->
      Key obj = getBlockStringKey hash +:+ "." +:+ BLOCK_DELETE_TAG +:+ "." +:+ id ->
      (TIME_CONSTANT_BASE <= clock w2 - ModTime obj)%Z) ->
   exists found : bool,
     reserveAndCheckExistence hm hash w = (Ok (found, false), w2) /\
     ReserveAndGet (S fuel) hm hash false w = (Ok (None, found), w2)).
Proof.
  intros Hne H1 H2.
  pose proof (reserveAndCheckExistence_listed hm hash w w1 w2 page next H1 H2) as Hcheck.
  cbv zeta in Hcheck. split.
  - intros id t Hin [_ Hwin].
    assert (Hc : reserveAndCheckExistence hm hash w = (Ok (false, true), w2)).
    { rewrite Hcheck.
      assert (Hd : deletesMap (fold_left (scanEntry (clock w2) (getBlockStringKey hash)) page
                                 (mkPageScan ∅ ∅ None)) <> ∅).
      { apply in_split in Hin as (l1 & l2 & ->).
        rewrite fold_left_app. cbn [fold_left].
        apply fold_scanEntry_deletes_kept.
        rewrite scanEntry_fresh_delete by lia. apply insert_non_empty. }
      apply map_size_non_empty_iff in Hd.
      destruct (Nat.ltb_spec 0 (size (deletesMap
                 (fold_left (scanEntry (clock w2) (getBlockStringKey hash)) page
                    (mkPageScan ∅ ∅ None))))); [reflexivity | lia]. }
    split; [exact Hc|].
    rewrite !(ReserveAndGet_nonempty _ _ _ _ Hne).
    unfold bind at 1 3. rewrite (ReserveAndGet_loop_retry _ _ _ _ _ Hc). reflexivity.
  - intros Hstale.
    assert (Hd : deletesMap (fold_left (scanEntry (clock w2) (getBlockStringKey hash)) page
                               (mkPageScan ∅ ∅ None)) = ∅).
    { apply fold_scanEntry_stale; [reflexivity | exact Hstale |].
      intros obj Hin. apply bucket_ListPage_ok in H2 as (-> & _ & _).
      apply (bucket_list_prefix _ (objects w1)).
      apply (In_skipn_inv 0), (In_firstn_inv 10). exact Hin. }
    rewrite Hd in Hcheck. rewrite map_size_empty in Hcheck. cbn [Nat.ltb Nat.leb] in Hcheck.
    exists (match dataEntry (fold_left (scanEntry (clock w2) (getBlockStringKey hash)) page
                               (mkPageScan ∅ ∅ None)) with
            | Some _ => true
            | None => false
            end).
    assert (Hc : reserveAndCheckExistence hm hash w =
                 (Ok (match dataEntry (fold_left (scanEntry (clock w2) (getBlockStringKey hash))
                                         page (mkPageScan ∅ ∅ None)) with
                      | Some _ => true
                      | None => false
                      end, false), w2)).
    { rewrite Hcheck. destruct (dataEntry _); reflexivity. }
    split; [exact Hc|].
    rewrite (ReserveAndGet_nonempty _ _ _ _ Hne).
    unfold bind at 1. rewrite (ReserveAndGet_loop_done _ _ _ _ _ _ Hc).
    rewrite andb_false_r. reflexivity.
Qed.

Lemma C3_fresh_deletion_tag_retries_witness :
  let A := mkStorage "mem://" "A" in
  let B := mkStorage "mem://" "B" in
  let w := snd (AnnounceDelete A [xab] (snd (ReserveAndSet A [xab] [x01] freshWorld))) in
  fst (reserveAndCheckExistence B [xab] w) = Ok (false, true) /\
  fst (ReserveAndGet 1 B [xab] false w) = OutOfFuel /\
  fst (ReserveAndGet 1 B [xab] false (atTime TIME_CONSTANT_BASE w)) = Ok (None, true).
Proof.
  intros A B w.
  assert (Hne : [xab] <> []) by discriminate.
  split; [|split].
  - destruct (C3_fresh_deletion_tag_retries 0 B [xab] false w _ _ _ _ Hne eq_refl eq_refl)
      as [Hfresh _].
    destruct (Hfresh "A" 0%Z) as [Hc _].
    + vm_compute. tauto.
    + vm_compute. split; [discriminate | reflexivity].
    + rewrite Hc. reflexivity.
  - destruct (C3_fresh_deletion_tag_retries 0 B [xab] false w _ _ _ _ Hne eq_refl eq_refl)
      as [Hfresh _].
    destruct (Hfresh "A" 0%Z) as [_ Hr].
    + vm_compute. tauto.
    + vm_compute. split; [discriminate | reflexivity].
    + rewrite Hr. reflexivity.
  - destruct (C3_fresh_deletion_tag_retries 0 B [xab] false (atTime TIME_CONSTANT_BASE w)
                _ _ _ _ Hne eq_refl eq_refl) as [_ Hstale].
    destruct Hstale as (found & Hc & Hr).
    + intros obj id Hin Hkey. vm_compute in Hin.
      destruct Hin as [<-|[<-|[<-|[<-|[]]]]]; vm_compute; discriminate.
    + rewrite Hr. vm_compute in Hc. injection Hc as <-. reflexivity.
Defined.

(** C3, as stated, fails when the tag lies past the page of ten entries:
    nine deletion tags of other participants have gone stale, a tenth
    participant announces the deletion, and a [ReserveAndGet] at that
    very time finds the block and returns without a retry (with fuel for
    one attempt it could not have returned after a retry). *)
Lemma C3_counterexample :
  let A := mkStorage "mem://" "A" in
  let Z := mkStorage "mem://" "Z" in
  let B := mkStorage "mem://" "B" in
  let base := snd (ReserveAndSet A [xab] [x01] freshWorld) in
  let stale :=
    fold_left (fun w p => snd (AnnounceDelete (mkStorage "mem://" p) [xab] w))
      ["P1"; "P2"; "P3"; "P4"; "P5"; "P6"; "P7"; "P8"; "P9"] base in
  let w := atTime (2 * Minute) stale in
  let w' := snd (AnnounceDelete Z [xab] w) in
  fst (AnnounceDelete Z [xab] w) = Ok None /\
  bucket_get (getATag Z [xab] BLOCK_DELETE_TAG) (objects w') = Some (mkBlob (2 * Minute) []) /\
  clock w' = (2 * Minute)%Z /\
  fst (ReserveAndGet 1 B [xab] false w') = Ok (None, true).
Proof. vm_compute. repeat split; reflexivity. Qed.

(** ** Reclamation after a scan *)

Lemma performAll_app (hm : GoCloudUrlStorage) (l1 l2 : list ReclaimAction) (w : World) :
  performAll hm (l1 ++ l2) w = (performAll hm l1 ;;; performAll hm l2) w.
Proof.
  revert w. induction l1 as [|a l1 IH]; intros w; [reflexivity|].
  cbn [app performAll]. unfold bind at 1 2 3.
  destruct (perform hm a w) as [[[]| | |] w1]; try reflexivity.
  rewrite IH. reflexivity.
Qed.

Lemma cleanupEntry_rule (hm : GoCloudUrlStorage) (used : gset string)
    (entry : string * HashBlockState) (w : World) :
  cleanupEntry hm used entry w = performAll hm (reclaimRule used entry) w.
Proof.
  destruct entry as [h st]. unfold cleanupEntry, reclaimRule. cbn [fst snd].
  destruct (IsAvailableAndFree st); [reflexivity|].
  destruct (IsAvailableAndReservedByMe st); [|reflexivity].
  cbn [andb]. destruct (bool_decide (h ∈ used)); [reflexivity|].
  cbn [negb performAll perform]. unfold bind.
  destruct (DeleteReservation hm (StringMapKeyToHashNoError h) w) as [[[]| | |] w1];
    reflexivity.
Qed.

Lemma DeleteReservation_done (hm : GoCloudUrlStorage) (h : list byte) (w : World) (v : Blob) :
  IsReadOnly hm = false -> faults w = [] ->
  bucket_get (getATag hm h BLOCK_USE_TAG) (objects w) = Some v ->
  DeleteReservation hm h w =
    (Ok tt, setObjects (record (EvDelete (getATag hm h BLOCK_USE_TAG)) w)
              (bucket_remove (getATag hm h BLOCK_USE_TAG) (objects w))).
Proof.
  intros Hro Hf Hget. unfold DeleteReservation, removeATag. rewrite Hro.
  unfold bind, bucket_Delete, nextFault, record. cbn [faults objects].
  rewrite Hf. cbn [objects]. unfold getATag in Hget. rewrite Hget. reflexivity.
Qed.

Lemma used_blocks_fold (blocks : list (list byte)) (u : gset string) (hs : string) :
  hs ∈ fold_left (fun (u : gset string) (bi : list byte) => {[HashToStringMapKey bi]} ∪ u)
         blocks u <->
  hs ∈ u \/ exists bi, In bi blocks /\ hs = HashToStringMapKey bi.
Proof.
  revert u. induction blocks as [|b blocks IH]; intros u; cbn [fold_left].
  - split; [auto | intros [H|(bi & [] & _)]; exact H].
  - rewrite IH. rewrite elem_of_union, elem_of_singleton. split.
    + intros [[->|H]|(bi & Hin & ->)].
      * right. exists b. split; [left|]; reflexivity.
      * left. exact H.
      * right. exists bi. split; [right; exact Hin | reflexivity].
    + intros [H|(bi & [<-|Hin] & ->)].
      * left. right. exact H.
      * left. left. reflexivity.
      * right. exists bi. split; [exact Hin | reflexivity].
Qed.

Lemma collect_fold (snap : Snapshot) (files : list FileInfo) (acc : M (gset string))
    (u : gset string) (w : World) :
  acc w = (Ok u, w) ->
  (forall f, In f files -> Get snap (FileName f) <> None) ->
  exists u' : gset string,
    fold_left (usedStep snap) files acc w = (Ok u', w) /\
    forall hs : string,
      hs ∈ u' <->
      hs ∈ u \/
      exists f fi bi, In f files /\ Get snap (FileName f) = Some fi /\
                      In bi (Blocks fi) /\ hs = HashToStringMapKey bi.
Proof.
  revert acc u. induction files as [|f files IH]; intros acc u Hacc Hget; cbn [fold_left].
  - exists u. split; [exact Hacc|]. intros hs. split; [auto|].
    intros [H|(f & fi & bi & [] & _)]. exact H.
  - destruct (Get snap (FileName f)) as [fi|] eqn:Ef;
      [|exfalso; exact (Hget f (or_introl eq_refl) Ef)].
    destruct (IH (usedStep snap acc f)
                (fold_left (fun (u : gset string) (bi : list byte) =>
                              {[HashToStringMapKey bi]} ∪ u) (Blocks fi) u))
      as (u' & Hrun & Hmem).
    + unfold usedStep, bind. rewrite Hacc, Ef. reflexivity.
    + intros g Hg. apply Hget. right. exact Hg.
    + exists u'. split; [exact Hrun|]. intros hs. rewrite Hmem, used_blocks_fold. split.
      * intros [[H|(bi & Hin & ->)]|(g & gi & bi & Hg & Hgi & Hin & ->)].
        -- left. exact H.
        -- right. exists f, fi, bi. repeat split; [left; reflexivity | exact Ef | exact Hin].
        -- right. exists g, gi, bi. repeat split; [right; exact Hg | exact Hgi | exact Hin].
      * intros [H|(g & gi & bi & [<-|Hg] & Hgi & Hin & ->)].
        -- left. left. exact H.
        -- left. right. exists bi. rewrite Ef in Hgi. injection Hgi as <-.
           split; [exact Hin | reflexivity].
        -- right. exists g, gi, bi. repeat split; assumption.
Qed.

(** C2: the body of the loop over the scan map does to an entry
    [(H, state)] what the rule of section 4.5 says (a checked delete is
    enqueued for IsAvailableAndFree; otherwise, for
    IsAvailableAndReservedByMe with H not among the hashes of the local
    files, [DeleteReservation] and then the enqueueing; otherwise the
    world is left as it is), and the whole loop does so entry after
    entry, with the set of hashes collected from the snapshot; when the
    reservation is there and the bucket call goes through, the use tag
    of the handle is gone afterwards and the hash is at the end of the
    queue. *)
Theorem C2_reclamation_rule (hm : GoCloudUrlStorage) :
  (forall (used : gset string) (entry : string * HashBlockState) (w : World),
     cleanupEntry hm used entry w = performAll hm (reclaimRule used entry) w) /\
  (forall (used : gset string) (entries : list (string * HashBlockState)) (w : World),
     rangeCheckMap hm used entries w =
       performAll hm (flat_map (reclaimRule used) entries) w) /\
  (forall (used : gset string) (H : string) (state : HashBlockState) (w : World),
     IsAvailableAndFree state = false ->
     IsAvailableAndReservedByMe state && negb (bool_decide (H ∈ used)) = false ->
     cleanupEntry hm used (H, state) w = (Ok tt, w)) /\
  (forall (used : gset string) (H : string) (state : HashBlockState) (w : World),
     IsAvailableAndFree state = true ->
     cleanupEntry hm used (H, state) w =
       (Ok tt, mkWorld (objects w) (clock w) (faults w) (polls w)
                 (trace w ++ [EvRequestCheckedDelete (StringMapKeyToHashNoError H)])
                 (deleteQueue w ++ [StringMapKeyToHashNoError H]))) /\
  (forall (used : gset string) (H : string) (state : HashBlockState) (w : World) (v : Blob),
     IsAvailableAndFree state = false ->
     IsAvailableAndReservedByMe state = true ->
     H ∉ used ->
     IsReadOnly hm = false -> faults w = [] ->
     bucket_get (getATag hm (StringMapKeyToHashNoError H) BLOCK_USE_TAG) (objects w) = Some v ->
     exists w' : World,
       cleanupEntry hm used (H, state) w = (Ok tt, w') /\
       objects w' =
         bucket_remove (getATag hm (StringMapKeyToHashNoError H) BLOCK_USE_TAG) (objects w) /\
       deleteQueue w' = deleteQueue w ++ [StringMapKeyToHashNoError H]) /\
  (forall (snap : Snapshot) (checkMap : list (string * HashBlockState)) (w : World),
     (forall f, In f (WithHave snap) -> Get snap (FileName f) <> None) ->
     exists used : gset string,
       (forall hs : string, hs ∈ used <-> usedBy snap hs) /\
       cleanupUnneededReservations hm (inr snap) checkMap w =
         (performAll hm (flat_map (reclaimRule used) checkMap) ;;; ret None) w).
Proof.
  assert (Hloop : forall (used : gset string) (entries : list (string * HashBlockState))
                         (w : World),
             rangeCheckMap hm used entries w =
               performAll hm (flat_map (reclaimRule used) entries) w).
  { intros used entries. induction entries as [|e rest IH]; intros w; [reflexivity|].
    cbn [rangeCheckMap flat_map]. rewrite performAll_app.
    unfold bind. rewrite cleanupEntry_rule.
    destruct (performAll hm (reclaimRule used e) w) as [[[]| | |] w1]; try reflexivity.
    apply IH. }
  split; [|split; [|split; [|split; [|split]]]].
  - intros used. apply cleanupEntry_rule.
  - exact Hloop.
  - intros used H state w Hfree Hmine. rewrite cleanupEntry_rule.
    unfold reclaimRule. cbn [fst snd]. rewrite Hfree, Hmine. reflexivity.
  - intros used H state w Hfree. rewrite cleanupEntry_rule.
    unfold reclaimRule. cbn [fst snd]. rewrite Hfree. reflexivity.
  - intros used H state w v Hfree Hmine Hused Hro Hf Hget.
    eexists. split; [|split].
    + rewrite cleanupEntry_rule. unfold reclaimRule. cbn [fst snd].
      rewrite Hfree, Hmine. rewrite bool_decide_eq_false_2 by exact Hused.
      cbn [andb negb performAll perform]. unfold bind.
      rewrite (DeleteReservation_done hm _ w v Hro Hf Hget). reflexivity.
    + reflexivity.
    + reflexivity.
  - intros snap checkMap w Hget.
    destruct (collect_fold snap (WithHave snap) (ret ∅) ∅ w eq_refl Hget) as (used & Hrun & Hmem).
    exists used. split.
    + intros hs. rewrite Hmem. unfold usedBy. split; [|auto].
      intros [H|H]; [|exact H]. exfalso. exact (not_elem_of_empty hs H).
    + unfold cleanupUnneededReservations, collectUsedBlockHashes.
      unfold bind at 1. rewrite Hrun. unfold bind. rewrite Hloop. reflexivity.
Qed.

Lemma C2_reclamation_rule_witness :
  let A := mkStorage "mem://" "A" in
  let B := mkStorage "mem://" "B" in
  let w := snd (ReserveAndSet B [xee] [x03]
             (snd (ReserveAndSet A [xcd] [x02]
                (snd (ReserveAndSet A [xab] [x01] freshWorld))))) in
  let used : gset string := {["ab"]} in
  cleanupEntry A used ("ab", mkState true true false false) w = (Ok tt, w) /\
  cleanupEntry A used ("ee", mkState true false true false) w = (Ok tt, w) /\
  deleteQueue (snd (cleanupEntry A used ("ef", mkState true false false false) w)) = [[xef]] /\
  exists w' : World,
    cleanupEntry A used ("cd", mkState true true false false) w = (Ok tt, w') /\
    objects w' = bucket_remove "blocks/cd.used-by.A" (objects w) /\
    deleteQueue w' = [[xcd]].
Proof.
  intros A B w used.
  destruct (C2_reclamation_rule A) as (_ & _ & Hother & Hfree & Hmine & _).
  split; [|split; [|split]].
  - apply Hother; [reflexivity|].
    apply andb_false_iff. right. apply negb_false_iff.
    apply bool_decide_eq_true_2. apply elem_of_singleton. reflexivity.
  - apply Hother; reflexivity.
  - rewrite Hfree by reflexivity. reflexivity.
  - apply (Hmine used "cd" (mkState true true false false) w (mkBlob 0 [])).
    + reflexivity.
    + reflexivity.
    + intros H. apply elem_of_singleton in H. discriminate.
    + reflexivity.
    + reflexivity.
    + reflexivity.
Defined.

(** ** Enumeration: what a pass has seen when it ends *)

Lemma sameBucket_refl (w : World) : sameBucket w w.
Proof. split; reflexivity. Qed.

Lemma sameBucket_trans (w1 w2 w3 : World) :
  sameBucket w1 w2 -> sameBucket w2 w3 -> sameBucket w1 w3.
Proof. intros [A1 B1] [A2 B2]. split; congruence. Qed.

Lemma IsDone_spec (w : World) :
  exists (c : bool) (w' : World), IsDone w = (Ok c, w') /\ sameBucket w w'.
Proof.
  unfold IsDone. destruct (polls w) as [[|n]|];
    eexists; eexists; (split; [reflexivity | split; reflexivity]).
Qed.

Lemma iteratePage_spec (page : list ListObject) (it : HashBlockStorageMapBuilder) (w : World) :
  exists (c : bool) (pre post : list ListObject) (w' : World),
    iteratePage page it w = (Ok (c, fold_left (processObject (clock w)) pre it), w') /\
    page = pre ++ post /\ (c = false -> post = []) /\ sameBucket w w'.
Proof.
  revert it w. induction page as [|obj rest IH]; intros it w.
  - exists false, [], [], w. repeat split; reflexivity.
  - cbn [iteratePage]. unfold bind at 1. unfold getClock. unfold bind at 1.
    destruct (IsDone_spec w) as (c & w1 & Hd & Hs1). rewrite Hd.
    destruct c.
    + exists true, [obj], rest, w1. repeat split; try reflexivity; try apply Hs1.
      discriminate.
    + destruct (IH (processObject (clock w) it obj) w1) as (c & pre & post & w' & Hrun & Hp & Hc & Hs2).
      exists c, (obj :: pre), post, w'. split; [|split; [|split]].
      * rewrite Hrun. destruct Hs1 as [_ ->]. reflexivity.
      * rewrite Hp. reflexivity.
      * exact Hc.
      * exact (sameBucket_trans _ _ _ Hs1 Hs2).
Qed.

Lemma bucket_ListPage_spec (prefix : string) (tok n : nat) (w : World) :
  exists (r : error + (list ListObject * option nat)) (w' : World),
    bucket_ListPage prefix tok n w = (Ok r, w') /\ sameBucket w w' /\
    match r with
    | inl _ => True
    | inr (page, next) =>
        page = firstn n (skipn tok (bucket_list prefix (objects w))) /\
        next = if (n <? length (skipn tok (bucket_list prefix (objects w))))%nat
               then Some (tok + n)%nat else None
    end.
Proof.
  unfold bucket_ListPage, nextFault, record. cbn [faults objects clock].
  destruct (faults w) as [|[|] fs]; eexists; eexists;
    (split; [reflexivity | split; [split; reflexivity|]]); cbn [objects];
    try exact I; split; reflexivity.
Qed.

(** The pages loop, given fuel for the objects still to list: it ends
    with a value; the builder it ends with has seen a prefix of those
    objects, in order, and has seen all of them and was closed exactly
    when there is no error. *)
Lemma iteratePages_spec (fuel : nat) (prefix : string) (tok : nat)
    (it : HashBlockStorageMapBuilder) (w : World) :
  (length (skipn tok (bucket_list prefix (objects w))) < fuel)%nat ->
  exists (e : option error) (pre post : list ListObject) (w' : World),
    iteratePages fuel prefix tok it w =
      (Ok (e, match e with
              | None => close (fold_left (processObject (clock w)) pre it)
              | Some _ => fold_left (processObject (clock w)) pre it
              end), w') /\
    skipn tok (bucket_list prefix (objects w)) = pre ++ post /\
    (e = None -> post = []) /\ sameBucket w w'.
Proof.
  revert tok it w. induction fuel as [|fuel IH]; intros tok it w Hfuel; [lia|].
  cbn [iteratePages]. unfold bind at 1.
  destruct (IsDone_spec w) as (c & w1 & Hd & Hs1). rewrite Hd.
  destruct c.
  { exists (Some ErrCanceled), [], (skipn tok (bucket_list prefix (objects w))), w1.
    repeat split; try reflexivity; try apply Hs1. discriminate. }
  cbv zeta. unfold bind at 1.
  assert (Hn : (0 < 1024 * 4)%nat) by lia.
  revert Hn. generalize (1024 * 4)%nat as n. intros n Hn.
  destruct (bucket_ListPage_spec prefix tok n w1) as (r & w2 & Hl & Hs2 & Hr). rewrite Hl.
  pose proof (sameBucket_trans _ _ _ Hs1 Hs2) as Hs12.
  destruct r as [err|[page next]].
  { exists (Some err), [], (skipn tok (bucket_list prefix (objects w))), w2.
    repeat split; try reflexivity; try apply Hs12. discriminate. }
  destruct Hr as [Hpage Hnext].
  unfold bind at 1.
  destruct (iteratePage_spec page it w2) as (c & pre & post & w3 & Hrun & Hp & Hc & Hs3).
  rewrite Hrun.
  pose proof (sameBucket_trans _ _ _ Hs12 Hs3) as Hs13.
  assert (Eo : objects w1 = objects w) by apply Hs1.
  assert (Ec2 : clock w2 = clock w) by apply Hs12.
  rewrite Eo in Hpage, Hnext. rewrite Ec2.
  set (L := skipn tok (bucket_list prefix (objects w))) in *.
  destruct c.
  { exists (Some ErrCanceled), pre, (post ++ skipn n L), w3.
    split; [reflexivity|]. split; [|split; [discriminate | exact Hs13]].
    rewrite app_assoc, <- Hp, Hpage. symmetry. apply List.firstn_skipn. }
  specialize (Hc eq_refl). subst post. rewrite app_nil_r in Hp. subst pre.
  destruct (Nat.ltb_spec n (length L)) as [Hlt|Hge]; subst next.
  - (* another page follows *)
    assert (E3 : objects w3 = objects w) by apply Hs13.
    assert (Hskip : skipn (tok + n) (bucket_list prefix (objects w3)) = skipn n L).
    { rewrite E3. unfold L. rewrite List.skipn_skipn. f_equal. lia. }
    destruct (IH (tok + n)%nat (fold_left (processObject (clock w)) page it) w3)
      as (e & pre & post & w4 & Hrun4 & Hp4 & Hc4 & Hs4).
    { rewrite Hskip, List.length_skipn. lia. }
    assert (Ec3 : clock w3 = clock w) by apply Hs13.
    rewrite Ec3 in Hrun4. rewrite Hskip in Hp4.
    exists e, (page ++ pre), post, w4.
    split; [|split; [|split]].
    + rewrite Hrun4. rewrite fold_left_app. reflexivity.
    + rewrite <- app_assoc, <- Hp4, Hpage. symmetry. apply List.firstn_skipn.
    + exact Hc4.
    + exact (sameBucket_trans _ _ _ Hs13 Hs4).
  - (* the last page *)
    exists None, page, [], w3.
    split; [reflexivity|]. split; [|split; [reflexivity | exact Hs13]].
    rewrite app_nil_r, Hpage. symmetry. apply List.firstn_all2. exact Hge.
Qed.

Lemma bucket_list_length (prefix : string) (b : Bucket) :
  (length (bucket_list prefix b) <= length b)%nat.
Proof.
  unfold bucket_list. rewrite length_map. apply List.filter_length_le.
Qed.

Lemma IterateBlocksInternal_spec (hm : GoCloudUrlStorage) (prefix : string) (w : World) :
  exists (e : option error) (pre post : list ListObject) (w' : World),
    IterateBlocksInternal hm prefix w =
      (Ok (e, emitted
                (match e with
                 | None => close (fold_left (processObject (clock w)) pre
                                    (NewHashBlockStorageMapBuilder (myDeviceId hm)))
                 | Some _ => fold_left (processObject (clock w)) pre
                               (NewHashBlockStorageMapBuilder (myDeviceId hm))
                 end)), w') /\
    bucket_list ("blocks/" +:+ prefix) (objects w) = pre ++ post /\
    (e = None -> post = []) /\ sameBucket w w'.
Proof.
  unfold IterateBlocksInternal. cbv zeta.
  change ((BlockDataSubFolder +:+ "/") +:+ prefix) with ("blocks/" +:+ prefix).
  destruct (iteratePages_spec (S (length (objects w))) ("blocks/" +:+ prefix) 0
              (NewHashBlockStorageMapBuilder (myDeviceId hm)) w)
    as (e & pre & post & w' & Hrun & Hp & Hc & Hs).
  { rewrite List.skipn_0. pose proof (bucket_list_length ("blocks/" +:+ prefix) (objects w)). lia. }
  exists e, pre, post, w'. rewrite List.skipn_0 in Hp.
  split; [|split; [exact Hp | split; [exact Hc | exact Hs]]].
  unfold bind. rewrite Hrun. reflexivity.
Qed.

(** ** The mapping of hashes to keys, there and back *)

Lemma unhex_hexdigit (a : N) : (a < 16)%N -> unhex (hexdigit a) = Some a.
Proof.
  intros Ha. unfold hexdigit.
  assert (H : (N.to_nat a < 16)%nat) by lia.
  rewrite <- (N2Nat.id a) at 2.
  revert H. generalize (N.to_nat a) as i. intros i H.
  do 16 (destruct i as [|i]; [reflexivity|]). lia.
Qed.

Lemma StringMapKeyToHash_roundtrip (h : list byte) :
  StringMapKeyToHashNoError (HashToStringMapKey h) = h.
Proof.
  induction h as [|b r IH]; [reflexivity|].
  cbn [HashToStringMapKey]. unfold hex_of_byte.
  cbn [String.append StringMapKeyToHashNoError].
  destruct (byte_nibbles b) as [H1 H2].
  rewrite !unhex_hexdigit by assumption.
  rewrite <- (N.div_mod (Byte.to_N b) 16) by lia.
  rewrite Byte.of_to_N, IH. reflexivity.
Qed.

Lemma hash_lt_trans (a b c : list byte) : hash_lt a b -> hash_lt b c -> hash_lt a c.
Proof.
  unfold hash_lt. rewrite <- !HashToStringMapKey_compare. apply str_lt_trans.
Qed.

Lemma hash_le_refl (a : list byte) : hash_le a a.
Proof.
  unfold hash_le. rewrite (proj2 (hash_compare_eq a a) eq_refl). discriminate.
Qed.

Lemma hash_le_cases (a b : list byte) : hash_le a b <-> a = b \/ hash_lt a b.
Proof.
  unfold hash_le, hash_lt. split.
  - destruct (hash_compare a b) eqn:E; intros H.
    + left. apply hash_compare_eq. exact E.
    + right. reflexivity.
    + contradiction.
  - intros [->|H].
    + apply hash_le_refl.
    + rewrite H. discriminate.
Qed.

Lemma hash_le_trans (a b c : list byte) : hash_le a b -> hash_le b c -> hash_le a c.
Proof.
  rewrite !hash_le_cases. intros [->|H1] [->|H2]; auto.
  right. exact (hash_lt_trans _ _ _ H1 H2).
Qed.

Lemma hash_lt_le_trans (a b c : list byte) : hash_lt a b -> hash_le b c -> hash_lt a c.
Proof.
  rewrite hash_le_cases. intros H1 [->|H2]; [exact H1|].
  exact (hash_lt_trans _ _ _ H1 H2).
Qed.

Lemma hash_lt_irrefl (a : list byte) : ~ hash_lt a a.
Proof.
  unfold hash_lt. rewrite (proj2 (hash_compare_eq a a) eq_refl). discriminate.
Qed.

(** ** The builder over a sorted listing *)

(** What a listed object whose key follows the schema makes the builder
    do depends on the object alone, and is done at the hash of the key. *)
Lemma processObject_op (now : Z) (obj : ListObject) (h : list byte) :
  schemaKey h (Key obj) ->
  exists op : BuilderOp,
    forall b : HashBlockStorageMapBuilder,
      processObject now b obj = applyOp b (HashToStringMapKey h) op.
Proof.
  intros (s & Ts & Hk).
  pose proof (noDot_HashToStringMapKey h) as Hnd.
  destruct Ts as [->|[r ->]].
  - exists OpData. intros b. unfold processObject. rewrite Hk.
    change (BlockDataSubFolder +:+ "/") with "blocks/".
    rewrite CutPrefix_app, str_app_nil_r. cbn [fst].
    rewrite (Split_noDot _ Hnd). reflexivity.
  - pose proof (Split_nonempty r ".") as Hne.
    destruct (Split r ".") as [|tp rest] eqn:Er; [contradiction|].
    exists (if String.eqb tp BLOCK_USE_TAG && (3 <=? length (HashToStringMapKey h :: tp :: rest))%nat
            then OpUse (nth 2 (HashToStringMapKey h :: tp :: rest) "")
            else if String.eqb tp BLOCK_DELETE_TAG
                 then if (now - ModTime obj <? TIME_CONSTANT_BASE)%Z then OpDelete else OpNone
                 else OpNone).
    intros b. unfold processObject. rewrite Hk.
    change (BlockDataSubFolder +:+ "/") with "blocks/".
    rewrite CutPrefix_app. cbn [fst].
    rewrite (Split_app_dot _ _ Hnd), Er.
    change (length (HashToStringMapKey h :: tp :: rest) <=? 1)%nat with false.
    cbv iota. change (nth 0 (HashToStringMapKey h :: tp :: rest) "") with (HashToStringMapKey h).
    change (nth 1 (HashToStringMapKey h :: tp :: rest) "") with tp.
    destruct (String.eqb tp BLOCK_USE_TAG && (3 <=? length (HashToStringMapKey h :: tp :: rest))%nat);
      [reflexivity|].
    destruct (String.eqb tp BLOCK_DELETE_TAG); [|reflexivity].
    destruct (now - ModTime obj <? TIME_CONSTANT_BASE)%Z; reflexivity.
Qed.

Lemma StronglySorted_snoc {A : Type} (R : A -> A -> Prop) (l : list A) (x : A) :
  StronglySorted R l -> List.Forall (fun y => R y x) l -> StronglySorted R (l ++ [x]).
Proof.
  induction l as [|y l IH]; intros Hs Hf; simpl.
  - constructor; constructor.
  - apply StronglySorted_inv in Hs as [Hs Hy].
    apply List.Forall_cons_iff in Hf as [Hyx Hf].
    constructor; [exact (IH Hs Hf)|].
    apply List.Forall_app. split; [exact Hy | constructor; [exact Hyx | constructor]].
Qed.

(** Leaving the hash [hc] for a greater one. *)
Lemma builderInv_switch (P : list byte -> Prop) (b : HashBlockStorageMapBuilder)
    (hc h : list byte) :
  builderInv P b hc -> hash_lt hc h ->
  let b' := snd (completeIfNextHash b (HashToStringMapKey h)) in
  currentHash b' = HashToStringMapKey h /\ currentState b' = emptyState /\
  ownName b' = ownName b /\
  StronglySorted hash_lt (List.map hash (emitted b')) /\
  List.Forall (fun x => hash_lt x h) (List.map hash (emitted b')) /\
  List.Forall P (List.map hash (emitted b')).
Proof.
  intros (Hcur & Hs & Hlt & HP & Hd) Hh. cbv zeta.
  unfold completeIfNextHash. cbn [snd].
  destruct (String.eqb_spec (HashToStringMapKey h) (currentHash b)) as [E|_].
  { rewrite Hcur in E. apply HashToStringMapKey_inj in E. subst h.
    exfalso. exact (hash_lt_irrefl _ Hh). }
  cbn [negb].
  assert (Hlt' : List.Forall (fun x => hash_lt x h) (List.map hash (emitted b))).
  { eapply List.Forall_impl; [|exact Hlt]. intros x Hx. exact (hash_lt_trans _ _ _ Hx Hh). }
  destruct (dataExists (currentState b)) eqn:Ed;
    cbn [currentHash currentState ownName emitted cb].
  - rewrite List.map_app. cbn [List.map hash].
    rewrite Hcur, StringMapKeyToHash_roundtrip.
    repeat split.
    + apply StronglySorted_snoc; assumption.
    + apply List.Forall_app. split; [exact Hlt' | constructor; [exact Hh | constructor]].
    + apply List.Forall_app. split; [exact HP | constructor; [exact (Hd eq_refl) | constructor]].
  - repeat split; assumption.
Qed.

Lemma completeIfNextHash_same (b : HashBlockStorageMapBuilder) :
  completeIfNextHash b (currentHash b) = (false, b).
Proof. unfold completeIfNextHash. rewrite String.eqb_refl. reflexivity. Qed.

Ltac builderInv_done :=
  unfold builderInv, setState;
  cbn [currentHash emitted currentState dataExists ownName];
  repeat split; try assumption; try (intros _; assumption).

(** One listed object with a hash not below the current one. *)
Lemma builderInv_applyOp (P : list byte -> Prop) (b : HashBlockStorageMapBuilder)
    (hc h : list byte) (op : BuilderOp) :
  builderInv P b hc -> hash_le hc h -> P h ->
  exists hc', builderInv P (applyOp b (HashToStringMapKey h) op) hc' /\ hash_le hc' h.
Proof.
  intros Hinv Hle HPh.
  destruct op as [|who| |]; cbn [applyOp]; [| | |exists hc; split; assumption].
  all: exists h; split; [|apply hash_le_refl].
  all: apply hash_le_cases in Hle as [->|Hlt].
  - destruct Hinv as (Hcur & Hs & Hl & HP & Hd).
    unfold addData. rewrite <- Hcur, completeIfNextHash_same. cbv iota.
    builderInv_done.
  - pose proof (builderInv_switch P b hc h Hinv Hlt) as H. cbv zeta in H.
    unfold addData. destruct (completeIfNextHash b (HashToStringMapKey h)) as [done b'] eqn:E.
    assert (Hdone : done = false) by (unfold completeIfNextHash in E; congruence).
    subst done. cbn [snd] in H. destruct H as (Hcur & Hst & Hown & Hs & Hl & HP).
    builderInv_done.
  - destruct Hinv as (Hcur & Hs & Hl & HP & Hd).
    unfold addUse. rewrite <- Hcur, completeIfNextHash_same. cbv iota.
    destruct (IsAvailable (currentState b)); [|builderInv_done].
    destruct (String.eqb who (ownName b)); builderInv_done.
  - pose proof (builderInv_switch P b hc h Hinv Hlt) as H. cbv zeta in H.
    unfold addUse. destruct (completeIfNextHash b (HashToStringMapKey h)) as [done b'] eqn:E.
    assert (Hdone : done = false) by (unfold completeIfNextHash in E; congruence).
    subst done. cbn [snd] in H. destruct H as (Hcur & Hst & Hown & Hs & Hl & HP).
    rewrite Hst. change (IsAvailable emptyState) with false. cbv iota.
    builderInv_done.
  - destruct Hinv as (Hcur & Hs & Hl & HP & Hd).
    unfold addDelete. rewrite <- Hcur, completeIfNextHash_same. cbv iota.
    builderInv_done.
  - pose proof (builderInv_switch P b hc h Hinv Hlt) as H. cbv zeta in H.
    unfold addDelete. destruct (completeIfNextHash b (HashToStringMapKey h)) as [done b'] eqn:E.
    assert (Hdone : done = false) by (unfold completeIfNextHash in E; congruence).
    subst done. cbn [snd] in H. destruct H as (Hcur & Hst & Hown & Hs & Hl & HP).
    builderInv_done.
Qed.

Lemma StronglySorted_filter {A : Type} (R : A -> A -> Prop) (f : A -> bool) (l : list A) :
  StronglySorted R l -> StronglySorted R (List.filter f l).
Proof.
  induction l as [|x l IH]; intros H; simpl; [constructor|].
  apply StronglySorted_inv in H as [Hs Hx].
  destruct (f x); [|exact (IH Hs)].
  constructor; [exact (IH Hs)|].
  apply List.Forall_forall. intros y Hy. apply List.filter_In in Hy as [Hy _].
  rewrite List.Forall_forall in Hx. exact (Hx y Hy).
Qed.

Lemma StronglySorted_app_l {A : Type} (R : A -> A -> Prop) (l1 l2 : list A) :
  StronglySorted R (l1 ++ l2) -> StronglySorted R l1.
Proof.
  induction l1 as [|x l1 IH]; intros H; simpl in *; [constructor|].
  apply StronglySorted_inv in H as [Hs Hx].
  constructor; [exact (IH Hs)|].
  apply List.Forall_app in Hx as [Hx _]. exact Hx.
Qed.

Lemma bucket_list_keys (prefix : string) (b : Bucket) :
  List.map Key (bucket_list prefix b) =
    List.filter (fun k => String.prefix prefix k) (bucket_keys b).
Proof.
  unfold bucket_list, bucket_keys. induction b as [|[k v] b IH]; simpl; [reflexivity|].
  destruct (String.prefix prefix k); simpl; rewrite IH; reflexivity.
Qed.

Lemma bucket_list_In (prefix : string) (b : Bucket) (obj : ListObject) :
  In obj (bucket_list prefix b) ->
  In (Key obj) (bucket_keys b) /\ String.prefix prefix (Key obj) = true.
Proof.
  intros H. apply (in_map Key) in H. rewrite bucket_list_keys in H.
  apply List.filter_In in H. exact H.
Qed.

Lemma schemaKey_le (h1 h2 : list byte) (k1 k2 : string) :
  schemaKey h1 k1 -> schemaKey h2 k2 -> str_lt k1 k2 -> hash_le h1 h2.
Proof.
  intros (s1 & T1 & ->) (s2 & T2 & ->) Hlt.
  unfold str_lt in Hlt. rewrite str_compare_app in Hlt.
  unfold hash_le. intros Hgt.
  assert (Hne : h1 <> h2).
  { intros ->. rewrite (proj2 (hash_compare_eq h2 h2) eq_refl) in Hgt. discriminate. }
  rewrite (block_keys_compare h1 h2 s1 s2 Hne T1 T2) in Hlt. congruence.
Qed.

Lemma hash_le_nil (h : list byte) : hash_le [] h.
Proof. unfold hash_le. destruct h; simpl; discriminate. Qed.

(** The builder over objects in ascending key order, all following the
    schema with hashes that satisfy [P]. *)
Lemma fold_processObject_inv (P : list byte -> Prop) (now : Z) (objs : list ListObject)
    (b : HashBlockStorageMapBuilder) (hc : list byte) :
  builderInv P b hc ->
  StronglySorted str_lt (List.map Key objs) ->
  (forall obj, In obj objs -> exists h, schemaKey h (Key obj) /\ P h /\ hash_le hc h) ->
  exists hc', builderInv P (fold_left (processObject now) objs b) hc'.
Proof.
  revert b hc. induction objs as [|obj rest IH]; intros b hc Hinv Hs Hobjs.
  - exists hc. exact Hinv.
  - cbn [fold_left]. cbn [List.map] in Hs. apply StronglySorted_inv in Hs as [Hs Hhd].
    destruct (Hobjs obj (or_introl eq_refl)) as (h & Hk & HP & Hle).
    destruct (processObject_op now obj h Hk) as [op Hop]. rewrite Hop.
    destruct (builderInv_applyOp P b hc h op Hinv Hle HP) as (hc1 & Hinv1 & Hle1).
    apply (IH _ hc1 Hinv1 Hs).
    intros obj2 Hin2. destruct (Hobjs obj2 (or_intror Hin2)) as (h2 & Hk2 & HP2 & _).
    exists h2. split; [exact Hk2 | split; [exact HP2|]].
    apply (hash_le_trans _ h); [exact Hle1|].
    apply (schemaKey_le h h2 (Key obj) (Key obj2) Hk Hk2).
    rewrite List.Forall_forall in Hhd. apply Hhd. apply in_map. exact Hin2.
Qed.

Lemma builderInv_close (P : list byte -> Prop) (b : HashBlockStorageMapBuilder) (hc : list byte) :
  builderInv P b hc ->
  StronglySorted hash_lt (List.map hash (emitted (close b))) /\
  List.Forall P (List.map hash (emitted (close b))).
Proof.
  intros (Hcur & Hs & Hl & HP & Hd).
  unfold close, completeIfNextHash. cbn [snd].
  destruct (String.eqb "" (currentHash b)); cbn [negb]; [split; assumption|].
  destruct (dataExists (currentState b)) eqn:Ed; cbn [emitted cb]; [|split; assumption].
  rewrite List.map_app. cbn [List.map hash].
  rewrite Hcur, StringMapKeyToHash_roundtrip. split.
  - apply StronglySorted_snoc; assumption.
  - apply List.Forall_app. split; [exact HP | constructor; [exact (Hd eq_refl) | constructor]].
Qed.

Lemma builderInv_new (P : list byte -> Prop) (own : string) :
  builderInv P (NewHashBlockStorageMapBuilder own) [].
Proof.
  unfold builderInv, NewHashBlockStorageMapBuilder.
  cbn [currentHash emitted currentState dataExists emptyState List.map].
  repeat split; try constructor. discriminate.
Qed.

Lemma hex_head_byte (h : list byte) (s r : string) (bi : byte) :
  tagSuffix s -> HashToStringMapKey h +:+ s = hex_of_byte bi +:+ r ->
  exists rest, h = bi :: rest.
Proof.
  intros Ts E. destruct h as [|b rest].
  - exfalso. cbn [HashToStringMapKey String.append] in E.
    pose proof (compare_suffix_hex s bi r Ts) as Hc.
    rewrite E, str_compare_refl in Hc. discriminate.
  - exists rest. f_equal. cbn [HashToStringMapKey] in E. rewrite str_app_assoc in E.
    pose proof (hex_of_byte_compare b bi (HashToStringMapKey rest +:+ s) r) as Hc.
    rewrite E, str_compare_refl in Hc.
    destruct (N.compare (Byte.to_N b) (Byte.to_N bi)) eqn:En; try discriminate.
    apply N.compare_eq_iff, to_N_inj in En. exact En.
Qed.

(** The records one shard sends: ascending, and all of that shard. *)
Lemma shard_records (hm : GoCloudUrlStorage) (i : nat) (w w' : World)
    (e : option error) (recs : list HashAndState) :
  wellFormedBucket (objects w) ->
  IterateBlocksInternal hm (HashToStringMapKey [shardByte i]) w = (Ok (e, recs), w') ->
  StronglySorted hash_lt (List.map hash recs) /\
  List.Forall (inShard i) (List.map hash recs).
Proof.
  intros [Hsorted Hschema] Hrun.
  destruct (IterateBlocksInternal_spec hm (HashToStringMapKey [shardByte i]) w)
    as (e1 & pre & post & w1 & Hrun1 & Hp & _ & _).
  rewrite Hrun in Hrun1. injection Hrun1 as -> -> _.
  destruct (fold_processObject_inv (inShard i) (clock w) pre
              (NewHashBlockStorageMapBuilder (myDeviceId hm)) [])
    as (hc & Hinv).
  - apply builderInv_new.
  - apply (StronglySorted_app_l _ _ (List.map Key post)). rewrite <- List.map_app, <- Hp.
    rewrite bucket_list_keys. apply StronglySorted_filter. exact Hsorted.
  - intros obj Hin.
    assert (Hin' : In obj (bucket_list ("blocks/" +:+ HashToStringMapKey [shardByte i]) (objects w))).
    { rewrite Hp. apply in_or_app. left. exact Hin. }
    apply bucket_list_In in Hin' as [Hkey Hpre].
    apply prefix_inv in Hpre as [r Hr].
    destruct (Hschema (Key obj) Hkey) as (h & s & Ts & Hk).
    { rewrite Hr, str_app_assoc. apply prefix_app. }
    exists h. split; [exists s; split; assumption|]. split; [|apply hash_le_nil].
    rewrite Hk, str_app_assoc in Hr. apply str_app_inv_head in Hr.
    cbn [HashToStringMapKey] in Hr. rewrite str_app_nil_r in Hr.
    exact (hex_head_byte h s r (shardByte i) Ts Hr).
  - destruct e1.
    + destruct Hinv as (_ & Hs & _ & HP & _). split; assumption.
    + exact (builderInv_close _ _ _ Hinv).
Qed.

(** ** The sharded pass *)

Lemma chanRecords_partChannel (hm : GoCloudUrlStorage) (i : nat) (w : World) :
  wellFormedBucket (objects w) ->
  StronglySorted hash_lt (List.map hash (chanRecords (partChannel hm i w))) /\
  List.Forall (inShard i) (List.map hash (chanRecords (partChannel hm i w))).
Proof.
  intros Hwf. unfold partChannel. cbv zeta.
  destruct (IterateBlocksInternal hm (HashToStringMapKey [shardByte i]) w)
    as [[[e recs]| | |] w'] eqn:Hrun; try (split; constructor).
  assert (E : chanRecords
                (List.map (fun r => mkHashStateAndError r None) recs ++
                 match e with
                 | Some e0 => [mkHashStateAndError (mkHashAndState [] emptyState) (Some e0)]
                 | None => []
                 end) = recs).
  { unfold chanRecords. rewrite List.filter_app, List.map_app.
    assert (E1 : List.map d (List.filter
                   (fun x => match err x with None => true | Some _ => false end)
                   (List.map (fun r => mkHashStateAndError r None) recs)) = recs).
    { clear. induction recs as [|r recs IH]; simpl; [reflexivity | rewrite IH; reflexivity]. }
    rewrite E1. destruct e; simpl; apply app_nil_r. }
  rewrite E. exact (shard_records hm i w w' e recs Hwf Hrun).
Qed.

Lemma rangeChannel_spec (channel : list HashStateAndError) (out : list HashAndState) (w : World) :
  exists (r : option (option error)) (pre post : list HashAndState) (w' : World),
    rangeChannel channel out w = (Ok (r, out ++ pre), w') /\
    chanRecords channel = pre ++ post.
Proof.
  revert out w. induction channel as [|x rest IH]; intros out w.
  - exists None, [], [], w. split; [cbn; rewrite app_nil_r; reflexivity | reflexivity].
  - cbn [rangeChannel]. unfold bind at 1.
    destruct (IsDone_spec w) as (c & w1 & Hd & _). rewrite Hd.
    destruct c.
    { exists (Some None), [], (chanRecords (x :: rest)), w1.
      split; [cbn; rewrite app_nil_r; reflexivity | reflexivity]. }
    destruct (err x) as [e|] eqn:Ex.
    { exists (Some (Some e)), [], (chanRecords (x :: rest)), w1.
      split; [cbn; rewrite app_nil_r; reflexivity | reflexivity]. }
    destruct (IH (out ++ [d x]) w1) as (r & pre & post & w' & Hrun & Hp).
    exists r, (d x :: pre), post, w'. split.
    + rewrite Hrun, <- app_assoc. reflexivity.
    + unfold chanRecords in *. cbn [List.filter]. rewrite Ex. cbn [List.map].
      rewrite Hp. reflexivity.
Qed.

Lemma rangeChannels_spec (chans : list (list HashStateAndError)) (out : list HashAndState)
    (w : World) :
  exists (e : option error) (pre post : list HashAndState) (w' : World),
    rangeChannels chans out w = (Ok (e, out ++ pre), w') /\
    flat_map chanRecords chans = pre ++ post.
Proof.
  revert out w. induction chans as [|ch rest IH]; intros out w.
  - exists None, [], [], w. split; [cbn; rewrite app_nil_r; reflexivity | reflexivity].
  - cbn [rangeChannels]. unfold bind at 1.
    destruct (IsDone_spec w) as (c & w1 & Hd & _). rewrite Hd.
    destruct c.
    { exists None, [], (flat_map chanRecords (ch :: rest)), w1.
      split; [cbn; rewrite app_nil_r; reflexivity | reflexivity]. }
    unfold bind at 1.
    destruct (rangeChannel_spec ch out w1) as (r & pre & post & w2 & Hrun & Hp).
    rewrite Hrun. destruct r as [e|].
    { exists e, pre, (post ++ flat_map chanRecords rest), w2.
      split; [reflexivity|]. cbn [flat_map]. rewrite Hp, app_assoc. reflexivity. }
    destruct (IH (out ++ pre) w2) as (e & pre2 & post2 & w3 & Hrun3 & Hp3).
    exists e, (chanRecords ch ++ pre2), post2, w3. split.
    + rewrite Hrun3. rewrite <- app_assoc.
      (* the channel was read to its end *)
      assert (Hall : pre = chanRecords ch).
      { clear -Hrun Hp. revert out w1 w2 pre post Hrun Hp.
        induction ch as [|x ch IHch]; intros out w1 w2 pre post Hrun Hp.
        - cbn in Hrun. injection Hrun as Ho _.
          apply (f_equal (@length _)) in Ho. rewrite length_app in Ho.
          destruct pre; [reflexivity | cbn in Ho; lia].
        - cbn [rangeChannel] in Hrun. unfold bind at 1 in Hrun.
          destruct (IsDone_spec w1) as (c & w1' & Hd & _). rewrite Hd in Hrun.
          destruct c; [discriminate|].
          destruct (err x) as [e|] eqn:Ex; [discriminate|].
          destruct (rangeChannel_spec ch (out ++ [d x]) w1') as (r & pre' & post' & w' & Hrun' & Hp').
          rewrite Hrun' in Hrun. injection Hrun as -> Ho _.
          rewrite <- app_assoc in Ho. apply app_inv_head in Ho. subst pre.
          unfold chanRecords. cbn [List.filter]. rewrite Ex. cbn [List.map]. f_equal.
          exact (IHch _ _ _ _ _ Hrun' Hp'). }
      rewrite Hall. reflexivity.
    + cbn [flat_map]. rewrite Hp3, app_assoc. reflexivity.
Qed.

Lemma startShards_spec (hm : GoCloudUrlStorage) (shard : nat -> World) (shards : list nat)
    (w : World) :
  exists (k : nat) (w' : World),
    startShards hm shard shards w =
      (Ok (List.map (fun i => partChannel hm i (shard i)) (firstn k shards)), w').
Proof.
  revert w. induction shards as [|i rest IH]; intros w.
  - exists 0%nat, w. reflexivity.
  - cbn [startShards]. unfold bind at 1.
    destruct (IsDone_spec w) as (c & w1 & Hd & _). rewrite Hd.
    destruct c; [exists 0%nat, w1; reflexivity|].
    destruct (IH w1) as (k & w2 & Hrun).
    exists (S k), w2. unfold bind. rewrite Hrun. reflexivity.
Qed.

Lemma shardByte_to_N (i : nat) : (i < 256)%nat -> Byte.to_N (shardByte i) = N.of_nat i.
Proof.
  intros Hi. unfold shardByte.
  pose proof (Byte.to_of_N_option_map (N.of_nat i)) as H.
  destruct (Byte.of_N (N.of_nat i)) as [b|] eqn:E.
  - apply Byte.to_of_N. exact E.
  - exfalso. cbn [option_map] in H.
    destruct (N.leb_spec (N.of_nat i) 255); [discriminate | lia].
Qed.

Lemma inShard_lt (i j : nat) (x y : list byte) :
  (i < j)%nat -> (j < 256)%nat -> inShard i x -> inShard j y -> hash_lt x y.
Proof.
  intros Hij Hj [rx ->] [ry ->]. unfold hash_lt. cbn [hash_compare].
  rewrite !shardByte_to_N by lia.
  assert (E : N.compare (N.of_nat i) (N.of_nat j) = Lt) by (apply N.compare_lt_iff; lia).
  rewrite E. reflexivity.
Qed.

Lemma StronglySorted_app {A : Type} (R : A -> A -> Prop) (l1 l2 : list A) :
  StronglySorted R l1 -> StronglySorted R l2 ->
  (forall x y, In x l1 -> In y l2 -> R x y) ->
  StronglySorted R (l1 ++ l2).
Proof.
  induction l1 as [|a l1 IH]; intros H1 H2 H12; simpl; [exact H2|].
  apply StronglySorted_inv in H1 as [H1 Ha].
  constructor.
  - apply IH; [exact H1 | exact H2|]. intros x y Hx Hy. apply H12; [right; exact Hx | exact Hy].
  - apply List.Forall_app. split; [exact Ha|].
    apply List.Forall_forall. intros y Hy. apply H12; [left; reflexivity | exact Hy].
Qed.

(** The records of shards started in ascending order, one shard after
    the other. *)
Lemma shards_sorted (recs : nat -> list HashAndState) (shards : list nat) :
  StronglySorted lt shards ->
  (forall i, In i shards ->
     (i < 256)%nat /\
     StronglySorted hash_lt (List.map hash (recs i)) /\
     List.Forall (inShard i) (List.map hash (recs i))) ->
  StronglySorted hash_lt (List.map hash (flat_map recs shards)) /\
  (forall x, In x (List.map hash (flat_map recs shards)) ->
     exists i, In i shards /\ inShard i x).
Proof.
  induction shards as [|i rest IH]; intros Hs Hall.
  - split; [constructor | intros x []].
  - apply StronglySorted_inv in Hs as [Hs Hi].
    destruct (IH Hs) as [IHs IHin]; [intros j Hj; apply Hall; right; exact Hj|].
    destruct (Hall i (or_introl eq_refl)) as (Hi256 & Hsi & Hini).
    cbn [flat_map]. rewrite List.map_app. split.
    + apply StronglySorted_app; [exact Hsi | exact IHs|].
      intros x y Hx Hy. destruct (IHin y Hy) as (j & Hj & Hyj).
      rewrite List.Forall_forall in Hini, Hi.
      apply (inShard_lt i j); [exact (Hi j Hj) | apply Hall; right; exact Hj
                              | exact (Hini x Hx) | exact Hyj].
    + intros x Hx. apply in_app_or in Hx as [Hx|Hx].
      * exists i. split; [left; reflexivity|].
        rewrite List.Forall_forall in Hini. exact (Hini x Hx).
      * destruct (IHin x Hx) as (j & Hj & Hxj). exists j. split; [right; exact Hj | exact Hxj].
Qed.

Lemma seq_sorted (a n : nat) : StronglySorted lt (seq a n).
Proof.
  revert a. induction n as [|n IH]; intros a; cbn [seq]; constructor; [apply IH|].
  apply List.Forall_forall. intros x Hx. apply in_seq in Hx. lia.
Qed.

(** C5: for a bucket whose keys ascend in byte order and follow the key
    schema, a full pass of [IterateBlocks] over the 256 shards ends with
    a value, and the records it hands to its callback have strictly
    ascending hashes, whatever the goroutines meet on their way (each
    shard, the producer and the consumer with faults and a cancellation
    of their own). *)
Theorem C5_enumeration_ascending (hm : GoCloudUrlStorage) (producer : World)
    (shard : nat -> World) (w : World) :
  (forall i : nat, wellFormedBucket (objects (shard i))) ->
  exists (e : option error) (recs : list HashAndState) (w' : World),
    IterateBlocks hm producer shard w = (Ok (e, recs), w') /\
    StronglySorted hash_lt (List.map hash recs).
Proof.
  intros Hwf. unfold IterateBlocks. cbv zeta.
  destruct (startShards_spec hm shard (seq 0 256) producer) as (k & pw & Hstart).
  rewrite Hstart.
  destruct (rangeChannels_spec
              (List.map (fun i => partChannel hm i (shard i)) (firstn k (seq 0 256))) [] w)
    as (e & pre & post & w' & Hrun & Hp).
  exists e, pre, w'. split; [exact Hrun|].
  rewrite List.flat_map_concat_map, List.map_map, <- List.flat_map_concat_map in Hp.
  destruct (shards_sorted (fun i => chanRecords (partChannel hm i (shard i)))
              (firstn k (seq 0 256))) as [Hs _].
  - apply (StronglySorted_app_l _ _ (skipn k (seq 0 256))).
    rewrite List.firstn_skipn. apply seq_sorted.
  - intros i Hi. apply In_firstn_inv, in_seq in Hi.
    split; [lia|]. apply chanRecords_partChannel, Hwf.
  - rewrite Hp, List.map_app in Hs. exact (StronglySorted_app_l _ _ _ Hs).
Qed.

Lemma exampleWorld_wellFormed : wellFormedBucket (objects exampleWorld).
Proof.
  assert (Hk : bucket_keys (objects exampleWorld) =
               ["blocks/01"; "blocks/01.used-by.A"; "blocks/ab"; "blocks/ab.used-by.A";
                "blocks/abcd"; "blocks/abcd.used-by.B"]) by (vm_compute; reflexivity).
  unfold wellFormedBucket. rewrite Hk. clear Hk. split.
  - repeat (constructor; [|repeat (constructor; [reflexivity|]); constructor]). constructor.
  - intros key Hin _.
    destruct Hin as [<-|[<-|[<-|[<-|[<-|[<-|[]]]]]]].
    + exists [x01], "". split; [left; reflexivity | reflexivity].
    + exists [x01], ".used-by.A". split; [right; eexists; reflexivity | reflexivity].
    + exists [xab], "". split; [left; reflexivity | reflexivity].
    + exists [xab], ".used-by.A". split; [right; eexists; reflexivity | reflexivity].
    + exists [xab; xcd], "". split; [left; reflexivity | reflexivity].
    + exists [xab; xcd], ".used-by.B". split; [right; eexists; reflexivity | reflexivity].
Qed.

Lemma C5_enumeration_ascending_witness :
  let A := mkStorage "mem://" "A" in
  (exists (e : option error) (recs : list HashAndState) (w' : World),
     IterateBlocks A exampleWorld (fun _ => exampleWorld) exampleWorld = (Ok (e, recs), w') /\
     StronglySorted hash_lt (List.map hash recs)) /\
  List.map hash (snd (match fst (IterateBlocks A exampleWorld (fun _ => exampleWorld)
                                   exampleWorld) with
                      | Ok r => r
                      | _ => (None, [])
                      end)) = [[x01]; [xab]; [xab; xcd]].
Proof.
  intros A. split.
  - apply (C5_enumeration_ascending A exampleWorld (fun _ => exampleWorld) exampleWorld).
    intros _. exact exampleWorld_wellFormed.
  - vm_compute. reflexivity.
Defined.

(** ** The state of one hash *)

Lemma processObject_key (now : Z) (b : HashBlockStorageMapBuilder) (obj : ListObject) :
  processObject now b obj = applyOp b (keyHashString obj) (keyOp now obj).
Proof.
  unfold processObject, keyHashString, keyOp. cbv zeta.
  destruct (length (Split (fst (CutPrefix (Key obj) (BlockDataSubFolder +:+ "/"))) ".") <=? 1)%nat;
    [reflexivity|].
  destruct (String.eqb _ BLOCK_USE_TAG && _); [reflexivity|].
  destruct (String.eqb _ BLOCK_DELETE_TAG); [|reflexivity].
  destruct (_ <? _)%Z; reflexivity.
Qed.

Lemma keyHashString_schema (obj : ListObject) (h : list byte) :
  schemaKey h (Key obj) -> keyHashString obj = HashToStringMapKey h.
Proof.
  intros (s & Ts & Hk). unfold keyHashString. rewrite Hk.
  change (BlockDataSubFolder +:+ "/") with "blocks/".
  rewrite CutPrefix_app. cbn [fst].
  pose proof (noDot_HashToStringMapKey h) as Hnd.
  destruct Ts as [->|[r ->]].
  - rewrite str_app_nil_r, (Split_noDot _ Hnd). reflexivity.
  - rewrite (Split_app_dot _ _ Hnd).
    pose proof (Split_nonempty r ".") as Hne.
    destruct (Split r ".") as [|tp rest]; [contradiction | reflexivity].
Qed.

Lemma keyOp_tag (now : Z) (obj : ListObject) (h : list byte) (r : string) :
  Key obj = "blocks/" +:+ (HashToStringMapKey h +:+ String "." r) ->
  keyOp now obj <> OpData.
Proof.
  intros Hk. unfold keyOp. rewrite Hk.
  change (BlockDataSubFolder +:+ "/") with "blocks/".
  rewrite CutPrefix_app. cbn [fst].
  rewrite (Split_app_dot _ _ (noDot_HashToStringMapKey h)).
  pose proof (Split_nonempty r ".") as Hne.
  destruct (Split r ".") as [|tp rest]; [contradiction|].
  change (length (HashToStringMapKey h :: tp :: rest) <=? 1)%nat with false. cbv iota zeta.
  destruct (String.eqb _ BLOCK_USE_TAG && _); [discriminate|].
  destruct (String.eqb _ BLOCK_DELETE_TAG); [|discriminate].
  destruct (_ <? _)%Z; discriminate.
Qed.

Lemma keyOp_use (now : Z) (obj : ListObject) (h : list byte) (id : string) :
  Key obj = "blocks/" +:+ (HashToStringMapKey h +:+ ".used-by." +:+ id) ->
  exists who, keyOp now obj = OpUse who.
Proof.
  intros Hk. unfold keyOp. rewrite Hk.
  change (BlockDataSubFolder +:+ "/") with "blocks/".
  rewrite CutPrefix_app. cbn [fst].
  change (".used-by." +:+ id) with (String "." ("used-by" +:+ String "." id)).
  rewrite (Split_app_dot _ _ (noDot_HashToStringMapKey h)).
  assert (Hu : noDot "used-by" = true) by reflexivity.
  rewrite (Split_app_dot _ _ Hu).
  pose proof (Split_nonempty id ".") as Hne.
  destruct (Split id ".") as [|who rest]; [contradiction|].
  exists who. reflexivity.
Qed.

Lemma applyOp_atHash (h : list byte) (b : HashBlockStorageMapBuilder) (op : BuilderOp) :
  atHash h b ->
  atHash h (applyOp b (HashToStringMapKey h) op) /\
  currentState (applyOp b (HashToStringMapKey h) op) = stateOp (ownName b) (currentState b) op /\
  ownName (applyOp b (HashToStringMapKey h) op) = ownName b.
Proof.
  intros [Hem Hcur].
  destruct b as [own em cur st]. cbn [emitted currentHash currentState ownName] in *. subst em.
  assert (Hcases : cur = HashToStringMapKey h \/
                   (cur <> HashToStringMapKey h /\ cur = "" /\ st = emptyState)).
  { destruct Hcur as [E|[E1 E2]]; [left; exact E|].
    destruct (String.eqb_spec cur (HashToStringMapKey h)); [left; assumption | right; auto]. }
  clear Hcur. destruct Hcases as [->|(Hne & -> & ->)].
  - destruct op as [|who| |]; cbn [applyOp stateOp];
      unfold addData, addUse, addDelete, completeIfNextHash, setState, atHash;
      cbn [emitted currentHash currentState ownName];
      rewrite ?String.eqb_refl; cbn [negb]; cbn [emitted currentHash currentState ownName];
      try (repeat split; auto; fail).
    destruct (IsAvailable st); [|repeat split; auto].
    destruct (String.eqb who own); cbn [emitted currentHash currentState ownName];
      repeat split; auto.
  - assert (E : String.eqb (HashToStringMapKey h) "" = false).
    { apply String.eqb_neq. congruence. }
    destruct op as [|who| |]; cbn [applyOp stateOp];
      unfold addData, addUse, addDelete, completeIfNextHash, setState, atHash, cb;
      cbn [emitted currentHash currentState ownName];
      rewrite ?E; cbn [negb emptyState dataExists];
      cbn [emitted currentHash currentState ownName];
      repeat split; auto.
Qed.

Lemma fold_atHash (h : list byte) (now : Z) (objs : list ListObject)
    (b : HashBlockStorageMapBuilder) :
  atHash h b ->
  (forall obj, In obj objs -> schemaKey h (Key obj)) ->
  atHash h (fold_left (processObject now) objs b) /\
  currentState (fold_left (processObject now) objs b) =
    fold_left (fun st obj => stateOp (ownName b) st (keyOp now obj)) objs (currentState b) /\
  ownName (fold_left (processObject now) objs b) = ownName b.
Proof.
  revert b. induction objs as [|obj rest IH]; intros b Hb Hall; cbn [fold_left].
  - split; [exact Hb | split; reflexivity].
  - rewrite processObject_key, (keyHashString_schema obj h (Hall obj (or_introl eq_refl))).
    destruct (applyOp_atHash h b (keyOp now obj) Hb) as (Hb1 & Hst1 & Hown1).
    destruct (IH _ Hb1) as (Hb2 & Hst2 & Hown2).
    { intros o Ho. apply Hall. right. exact Ho. }
    split; [exact Hb2|]. split; [|congruence].
    rewrite Hst2, Hst1, Hown1. reflexivity.
Qed.

Lemma stateOp_dataExists (own : string) (s : HashBlockState) (op : BuilderOp) :
  dataExists s = true -> dataExists (stateOp own s op) = true.
Proof.
  intros H. destruct op as [|who| |]; cbn [stateOp dataExists]; auto.
  destruct (IsAvailable s); [|exact H].
  destruct (String.eqb who own); exact H.
Qed.

Lemma stateOp_held (own : string) (s : HashBlockState) (op : BuilderOp) :
  held s = true -> held (stateOp own s op) = true.
Proof.
  unfold held. intros H. destruct op as [|who| |]; cbn [stateOp]; auto.
  - destruct (IsAvailable s); [|exact H].
    destruct (String.eqb who own); cbn [reservedByMe reservedByOthers deletionPending];
      rewrite ?orb_true_r; reflexivity.
  - cbn [reservedByMe reservedByOthers deletionPending]. apply orb_true_r.
Qed.

Lemma stateOp_use_held (own who : string) (s : HashBlockState) :
  dataExists s = true -> held (stateOp own s (OpUse who)) = true.
Proof.
  intros Hd. unfold held. cbn [stateOp]. unfold IsAvailable. rewrite Hd. cbn [andb].
  destruct (deletionPending s) eqn:Ep; cbn [negb].
  - rewrite Ep. apply orb_true_r.
  - destruct (String.eqb who own); cbn [reservedByMe reservedByOthers deletionPending];
      rewrite ?orb_true_r; reflexivity.
Qed.

Lemma fold_stateOp_no_data (own : string) (now : Z) (objs : list ListObject)
    (s : HashBlockState) :
  dataExists s = false ->
  (forall obj, In obj objs -> keyOp now obj <> OpData) ->
  dataExists (fold_left (fun st obj => stateOp own st (keyOp now obj)) objs s) = false.
Proof.
  revert s. induction objs as [|obj rest IH]; intros s Hd Hall; cbn [fold_left]; [exact Hd|].
  apply IH; [|intros o Ho; apply Hall; right; exact Ho].
  pose proof (Hall obj (or_introl eq_refl)) as Hop.
  destruct (keyOp now obj) as [|who| |]; cbn [stateOp]; try assumption; try contradiction.
  destruct (IsAvailable s); [|exact Hd]. destruct (String.eqb who own); exact Hd.
Qed.

Lemma fold_stateOp_held (own : string) (now : Z) (objs : list ListObject) (s : HashBlockState) :
  held s = true ->
  held (fold_left (fun st obj => stateOp own st (keyOp now obj)) objs s) = true.
Proof.
  revert s. induction objs as [|obj rest IH]; intros s H; cbn [fold_left]; [exact H|].
  apply IH, stateOp_held, H.
Qed.

Lemma fold_stateOp_use (own : string) (now : Z) (objs : list ListObject) (s : HashBlockState) :
  dataExists s = true ->
  (exists obj who, In obj objs /\ keyOp now obj = OpUse who) ->
  held (fold_left (fun st obj => stateOp own st (keyOp now obj)) objs s) = true.
Proof.
  revert s. induction objs as [|obj rest IH]; intros s Hd (o & who & Hin & Hop); [destruct Hin|].
  cbn [fold_left]. destruct Hin as [->|Hin].
  - apply fold_stateOp_held. rewrite Hop. apply stateOp_use_held, Hd.
  - apply IH; [apply stateOp_dataExists, Hd | exists o, who; split; assumption].
Qed.

Lemma keyOp_bare (now : Z) (obj : ListObject) (h : list byte) :
  Key obj = "blocks/" +:+ HashToStringMapKey h -> keyOp now obj = OpData.
Proof.
  intros Hk. unfold keyOp. rewrite Hk.
  change (BlockDataSubFolder +:+ "/") with "blocks/".
  rewrite CutPrefix_app. cbn [fst].
  rewrite (Split_noDot _ (noDot_HashToStringMapKey h)). reflexivity.
Qed.

(** Over the keys of one block in ascending order, a use tag leaves its
    mark whenever the body is there. *)
Lemma single_hash_state (own : string) (now : Z) (h : list byte) (id : string)
    (objs : list ListObject) :
  StronglySorted str_lt (List.map Key objs) ->
  (forall obj, In obj objs -> schemaKey h (Key obj)) ->
  (exists obj, In obj objs /\
               Key obj = "blocks/" +:+ (HashToStringMapKey h +:+ ".used-by." +:+ id)) ->
  dataExists (fold_left (fun st obj => stateOp own st (keyOp now obj)) objs emptyState) = true ->
  held (fold_left (fun st obj => stateOp own st (keyOp now obj)) objs emptyState) = true.
Proof.
  intros Hs Hall (ou & Hin & Hku) Hd.
  destruct (keyOp_use now ou h id Hku) as [who Hop].
  destruct objs as [|o rest]; [destruct Hin|].
  cbn [fold_left] in *. cbn [List.map] in Hs. apply StronglySorted_inv in Hs as [Hs Hhd].
  destruct (Hall o (or_introl eq_refl)) as (s & Ts & Hko).
  destruct Ts as [->|[r ->]].
  - (* the bare key comes first *)
    rewrite str_app_nil_r in Hko.
    rewrite (keyOp_bare now o h Hko) in *. cbn [stateOp] in *.
    apply fold_stateOp_use; [reflexivity|].
    exists ou, who. split; [|exact Hop].
    destruct Hin as [->|Hin]; [|exact Hin].
    rewrite (keyOp_bare now ou h Hko) in Hop. discriminate.
  - (* no bare key at all *)
    exfalso.
    assert (Hno : forall obj, In obj (o :: rest) -> keyOp now obj <> OpData).
    { intros obj [<-|Hobj]; [exact (keyOp_tag now o h r Hko)|].
      destruct (Hall obj (or_intror Hobj)) as (s' & Ts' & Hk').
      destruct Ts' as [->|[r' ->]]; [|exact (keyOp_tag now obj h r' Hk')].
      exfalso. rewrite List.Forall_forall in Hhd.
      pose proof (Hhd (Key obj) (in_map Key _ _ Hobj)) as Hlt.
      rewrite Hko, Hk' in Hlt. unfold str_lt in Hlt.
      rewrite !str_compare_app in Hlt. discriminate. }
    pose proof (fold_stateOp_no_data own now (o :: rest) emptyState eq_refl Hno) as Hf.
    cbn [fold_left] in Hf. congruence.
Qed.

Lemma held_not_free (s : HashBlockState) :
  (dataExists s = true -> held s = true) -> IsAvailableAndFree s = false.
Proof.
  unfold IsAvailableAndFree, IsAvailable, held.
  destruct s as [[] [] [] []]; cbn; intros H; try reflexivity.
  specialize (H eq_refl). discriminate.
Qed.

Lemma bucket_list_has (prefix key : string) (b : Bucket) :
  In key (bucket_keys b) -> String.prefix prefix key = true ->
  exists obj, In obj (bucket_list prefix b) /\ Key obj = key.
Proof.
  intros Hin Hp.
  assert (H : In key (List.map Key (bucket_list prefix b))).
  { rewrite bucket_list_keys. apply List.filter_In. split; assumption. }
  apply in_map_iff in H as (obj & Hk & Ho). exists obj. split; assumption.
Qed.

(** The state [GetBlockHashState] returns for a block that some
    participant has reserved is never IsAvailableAndFree. *)
Lemma GetBlockHashState_reserved (hm : GoCloudUrlStorage) (h : list byte) (w : World) :
  StronglySorted str_lt (bucket_keys (objects w)) ->
  keysBelongTo h (objects w) ->
  hasUseTag h (objects w) ->
  exists (st : HashBlockState) (w' : World),
    GetBlockHashState hm h w = (Ok st, w') /\
    IsAvailableAndFree st = false /\ sameBucket w w'.
Proof.
  intros Hs Hown [id Htag].
  unfold GetBlockHashState, bind.
  destruct (IterateBlocksInternal_spec hm (HashToStringMapKey h) w)
    as (e & pre & post & w' & Hrun & Hp & Hc & Hsame).
  rewrite Hrun. cbn [snd].
  set (L := bucket_list ("blocks/" +:+ HashToStringMapKey h) (objects w)) in *.
  assert (Hall : forall obj, In obj L -> schemaKey h (Key obj)).
  { intros obj Hin. apply bucket_list_In in Hin as [Hk Hpre]. exact (Hown _ Hk Hpre). }
  destruct (fold_atHash h (clock w) pre (NewHashBlockStorageMapBuilder (myDeviceId hm)))
    as ([Hem Hcur] & Hst & _).
  { split; [reflexivity | right; split; reflexivity]. }
  { intros obj Hin. apply Hall. rewrite Hp. apply in_or_app. left. exact Hin. }
  cbn [currentState ownName NewHashBlockStorageMapBuilder] in Hst.
  eexists. exists w'. split; [reflexivity|]. split; [|exact Hsame].
  destruct e as [err|].
  { rewrite Hem. reflexivity. }
  specialize (Hc eq_refl). subst post. rewrite app_nil_r in Hp.
  unfold close, completeIfNextHash. cbn [snd].
  destruct (String.eqb "" (currentHash _)); cbn [negb]; [rewrite Hem; reflexivity|].
  destruct (dataExists (currentState _)) eqn:Ed; cbn [emitted cb]; [|rewrite Hem; reflexivity].
  rewrite Hem. cbn [app fold_left state].
  apply held_not_free. intros _.
  rewrite Hst in Ed |- *.
  apply (single_hash_state (myDeviceId hm) (clock w) h id pre); [| |  | exact Ed].
  - rewrite <- Hp. unfold L. rewrite bucket_list_keys. apply StronglySorted_filter. exact Hs.
  - intros obj Hin. apply Hall. rewrite Hp. exact Hin.
  - rewrite <- Hp. rewrite getBlockStringKey_app in Htag.
    change ("." +:+ BLOCK_USE_TAG +:+ "." +:+ id) with (".used-by." +:+ id) in Htag.
    apply (bucket_list_has ("blocks/" +:+ HashToStringMapKey h)) in Htag; [exact Htag|].
    rewrite <- str_app_assoc. apply prefix_app.
Qed.

(** ** The checked delete of a reserved block *)

(** A query under the key of a block lists every key that starts with
    it: were a hash stored that continues another one, block [abcd]
    beside block [ab], the state queried for [ab] would be the last
    record of the listing, that of [abcd], and the worker would delete
    the body of [ab] under the use tag of A. Hashes of one length rule
    this out ([uniformLength_keysBelongTo]). *)
Lemma state_query_of_continued_hash :
  let A := mkStorage "mem://" "A" in
  let B := mkStorage "mem://" "B" in
  let w := snd (DeleteReservation B [xab; xcd] exampleWorld) in
  let w' := snd (checkedDelete B [xab] w) in
  bucket_get (getATag A [xab] BLOCK_USE_TAG) (objects w) = Some (mkBlob 0 []) /\
  bucket_get (getBlockStringKey [xab]) (objects w) = Some (mkBlob 0 [x01]) /\
  fst (GetBlockHashState B [xab] w) = Ok (mkState true false false false) /\
  bucket_get (getATag A [xab] BLOCK_USE_TAG) (objects w') = Some (mkBlob 0 []) /\
  bucket_get (getBlockStringKey [xab]) (objects w') = None /\
  existsb (fun ev => match ev with
                     | EvDelete key => String.eqb key (getBlockStringKey [xab])
                     | _ => false
                     end) (trace w') = true.
Proof. vm_compute. repeat split; reflexivity. Qed.

(** ** Well-formed buckets stay well-formed *)

Lemma bucket_keys_put (key k' : string) (v : Blob) (b : Bucket) :
  In k' (bucket_keys (bucket_put key v b)) -> k' = key \/ In k' (bucket_keys b).
Proof.
  unfold bucket_keys. induction b as [|[k x] b IH]; simpl.
  - intros [<-|[]]. left. reflexivity.
  - destruct (String.compare key k) eqn:E; simpl.
    + intros [<-|H]; [left; reflexivity | right; right; exact H].
    + intros [<-|[<-|H]]; [left; reflexivity | right; left; reflexivity | right; right; exact H].
    + intros [<-|H]; [right; left; reflexivity|].
      destruct (IH H) as [->|H']; [left; reflexivity | right; right; exact H'].
Qed.

Lemma bucket_put_sorted (key : string) (v : Blob) (b : Bucket) :
  StronglySorted str_lt (bucket_keys b) ->
  StronglySorted str_lt (bucket_keys (bucket_put key v b)).
Proof.
  unfold bucket_keys. induction b as [|[k x] b IH]; intros Hs; simpl.
  - repeat constructor.
  - simpl in Hs. pose proof Hs as Hs0. apply StronglySorted_inv in Hs as [Hs Hk].
    destruct (String.compare key k) eqn:E; simpl.
    + apply str_compare_eq in E. subst k. constructor; assumption.
    + constructor; [exact Hs0|]. constructor; [exact E|].
      eapply List.Forall_impl; [|exact Hk]. intros a Ha. exact (str_lt_trans _ _ _ E Ha).
    + constructor; [exact (IH Hs)|].
      apply List.Forall_forall. intros a Ha.
      apply (bucket_keys_put key a v b) in Ha as [->|Ha].
      * apply str_compare_gt. exact E.
      * rewrite List.Forall_forall in Hk. exact (Hk a Ha).
Qed.

Lemma bucket_keys_remove (key : string) (b : Bucket) :
  bucket_keys (bucket_remove key b) =
    List.filter (fun k => negb (String.eqb k key)) (bucket_keys b).
Proof.
  unfold bucket_keys, bucket_remove. induction b as [|[k x] b IH]; simpl; [reflexivity|].
  destruct (String.eqb k key); simpl; rewrite IH; reflexivity.
Qed.

Lemma wellFormed_put (key : string) (v : Blob) (b : Bucket) :
  storeKey key -> wellFormedBucket b -> wellFormedBucket (bucket_put key v b).
Proof.
  intros Hkey [Hs Hschema]. split; [apply bucket_put_sorted, Hs|].
  intros k Hin Hpre. apply bucket_keys_put in Hin as [->|Hin]; [exact (Hkey Hpre)|].
  exact (Hschema k Hin Hpre).
Qed.

Lemma wellFormed_remove (key : string) (b : Bucket) :
  wellFormedBucket b -> wellFormedBucket (bucket_remove key b).
Proof.
  intros [Hs Hschema]. unfold wellFormedBucket. rewrite bucket_keys_remove. split.
  - apply StronglySorted_filter, Hs.
  - intros k Hin Hpre. apply List.filter_In in Hin as [Hin _]. exact (Hschema k Hin Hpre).
Qed.

Lemma storeKey_block (h : list byte) : storeKey (getBlockStringKey h).
Proof.
  intros _. exists h, "". split; [left; reflexivity|].
  rewrite <- getBlockStringKey_app, str_app_nil_r. reflexivity.
Qed.

Lemma storeKey_tag (hm : GoCloudUrlStorage) (h : list byte) (tag : string) :
  storeKey (getATag hm h tag).
Proof.
  intros _. exists h, ("." +:+ tag +:+ "." +:+ myDeviceId hm).
  split; [right; eexists; reflexivity|]. unfold getATag. apply getBlockStringKey_app.
Qed.

Lemma storeKey_meta (name : string) : storeKey (getMetadataStringKey name).
Proof. intros H. discriminate H. Qed.

Create HintDb wf discriminated.

Lemma preservesWF_ret {A : Type} (a : A) : preservesWF (ret a).
Proof. intros w r w' Hwf [= _ <-]. exact Hwf. Qed.

Lemma preservesWF_bind {A B : Type} (m : M A) (k : A -> M B) :
  preservesWF m -> (forall a, preservesWF (k a)) -> preservesWF (x <- m;; k x).
Proof.
  intros Hm Hk w r w' Hwf. unfold bind.
  destruct (m w) as [[a| | |] w1] eqn:E; intros H.
  - exact (Hk a w1 r w' (Hm _ _ _ Hwf E) H).
  - injection H as _ <-. exact (Hm _ _ _ Hwf E).
  - injection H as _ <-. exact (Hm _ _ _ Hwf E).
  - injection H as _ <-. exact (Hm _ _ _ Hwf E).
Qed.

Lemma nextFault_objects (w : World) : objects (snd (nextFault w)) = objects w.
Proof. unfold nextFault. destruct (faults w); reflexivity. Qed.

Lemma preservesWF_read {A : Type} (m : M A) :
  (forall w, objects (snd (m w)) = objects w) -> preservesWF m.
Proof.
  intros H w r w' Hwf E. pose proof (H w) as Ho. rewrite E in Ho. cbn [snd] in Ho.
  rewrite Ho. exact Hwf.
Qed.

Lemma preservesWF_panic {A : Type} (msg : string) : preservesWF (@panic A msg).
Proof. apply preservesWF_read. reflexivity. Qed.

Lemma preservesWF_fatal {A : Type} (msg : string) : preservesWF (@fatal A msg).
Proof. apply preservesWF_read. reflexivity. Qed.

Lemma preservesWF_outOfFuel {A : Type} : preservesWF (@outOfFuel A).
Proof. apply preservesWF_read. reflexivity. Qed.

Lemma preservesWF_Warnf (msg : string) : preservesWF (Warnf msg).
Proof. apply preservesWF_read. reflexivity. Qed.

Lemma preservesWF_Sleep (t : Z) : preservesWF (Sleep t).
Proof. apply preservesWF_read. reflexivity. Qed.

Lemma preservesWF_getClock : preservesWF getClock.
Proof. apply preservesWF_read. reflexivity. Qed.

Lemma preservesWF_RequestCheckedDelete (h : list byte) : preservesWF (RequestCheckedDelete h).
Proof. apply preservesWF_read. reflexivity. Qed.

Lemma preservesWF_Exists (key : string) : preservesWF (bucket_Exists key).
Proof.
  apply preservesWF_read. intros w. unfold bucket_Exists, nextFault, record.
  cbn [faults]. destruct (faults w) as [|[|] fs]; reflexivity.
Qed.

Lemma preservesWF_ReadAll (key : string) : preservesWF (bucket_ReadAll key).
Proof.
  apply preservesWF_read. intros w. unfold bucket_ReadAll, nextFault, record.
  cbn [faults objects]. destruct (faults w) as [|[|] fs]; cbn [objects];
    try reflexivity; destruct (bucket_get key (objects w)); reflexivity.
Qed.

Lemma preservesWF_ListPage (prefix : string) (tok n : nat) :
  preservesWF (bucket_ListPage prefix tok n).
Proof.
  intros w r w' Hwf E.
  destruct (bucket_ListPage_spec prefix tok n w) as (r1 & w1 & E1 & [Ho _] & _).
  rewrite E in E1. injection E1 as _ <-. rewrite Ho. exact Hwf.
Qed.

Lemma preservesWF_WriteAll (key : string) (data : list byte) :
  storeKey key -> preservesWF (bucket_WriteAll key data).
Proof.
  intros Hk w r w' Hwf. unfold bucket_WriteAll, nextFault, record, setObjects.
  cbn [faults objects clock].
  destruct (faults w) as [|[|] fs]; intros [= _ <-]; cbn [objects];
    try exact Hwf; apply wellFormed_put; assumption.
Qed.

Lemma preservesWF_Delete (key : string) : preservesWF (bucket_Delete key).
Proof.
  intros w r w' Hwf. unfold bucket_Delete, nextFault, record, setObjects.
  cbn [faults objects clock].
  destruct (faults w) as [|[|] fs]; cbn [objects];
    try (intros [= _ <-]; exact Hwf);
    destruct (bucket_get key (objects w)); intros [= _ <-]; cbn [objects];
    try exact Hwf; apply wellFormed_remove; assumption.
Qed.

Lemma preservesWF_IsDone : preservesWF IsDone.
Proof.
  intros w r w' Hwf E. destruct (IsDone_spec w) as (c & w1 & E1 & [Ho _]).
  rewrite E in E1. injection E1 as _ <-. rewrite Ho. exact Hwf.
Qed.

#[local] Hint Resolve preservesWF_ret preservesWF_panic preservesWF_fatal
  preservesWF_outOfFuel preservesWF_Warnf preservesWF_Sleep preservesWF_getClock
  preservesWF_RequestCheckedDelete preservesWF_Exists preservesWF_ReadAll
  preservesWF_ListPage preservesWF_WriteAll preservesWF_Delete preservesWF_IsDone
  storeKey_block storeKey_tag storeKey_meta : wf.

Ltac wf_step :=
  match goal with
  | |- preservesWF (bind _ _) => apply preservesWF_bind; [|intros ?]
  | |- preservesWF (if ?c then _ else _) => destruct c
  | |- preservesWF (match ?x with _ => _ end) => destruct x
  | |- preservesWF (let '(_, _) := ?x in _) => destruct x
  | |- _ => solve [auto with wf]
  | |- _ => progress cbv zeta
  end.

Lemma preservesWF_putATag (hm : GoCloudUrlStorage) (h : list byte) (tag : string) (u : bool) :
  preservesWF (putATag hm h tag u).
Proof. unfold putATag. repeat wf_step. Qed.

Lemma preservesWF_removeATag (hm : GoCloudUrlStorage) (h : list byte) (tag : string) :
  preservesWF (removeATag hm h tag).
Proof.
  unfold removeATag. destruct (IsReadOnly hm); [auto with wf|].
  apply preservesWF_Delete.
Qed.

#[local] Hint Resolve preservesWF_putATag preservesWF_removeATag : wf.

Lemma preservesWF_reserveAndCheckExistence (hm : GoCloudUrlStorage) (h : list byte) :
  preservesWF (reserveAndCheckExistence hm h).
Proof. unfold reserveAndCheckExistence. repeat wf_step. Qed.

#[local] Hint Resolve preservesWF_reserveAndCheckExistence : wf.

Lemma preservesWF_ReserveAndGet_loop (fuel : nat) (hm : GoCloudUrlStorage) (h : list byte) :
  preservesWF (ReserveAndGet_loop fuel hm h).
Proof.
  induction fuel as [|fuel IH]; cbn [ReserveAndGet_loop]; [auto with wf|].
  apply preservesWF_bind; [auto with wf|]. intros [ok retry].
  destruct retry; cbn [negb]; [|auto with wf].
  apply preservesWF_bind; [auto with wf | intros _; exact IH].
Qed.

#[local] Hint Resolve preservesWF_ReserveAndGet_loop : wf.

Lemma preservesWF_GetBlockHashState (hm : GoCloudUrlStorage) (h : list byte) :
  preservesWF (GetBlockHashState hm h).
Proof.
  unfold GetBlockHashState. apply preservesWF_bind; [|auto with wf].
  intros w r w' Hwf E.
  destruct (IterateBlocksInternal_spec hm (HashToStringMapKey h) w)
    as (e & pre & post & w1 & E1 & _ & _ & [Ho _]).
  rewrite E in E1. injection E1 as _ <-. rewrite Ho. exact Hwf.
Qed.

#[local] Hint Resolve preservesWF_GetBlockHashState : wf.

(** Every operation of the store, the worker of the checked-delete
    service and the reclamation keep a well-formed bucket well-formed:
    the buckets these operations reach from the empty one are
    well-formed. *)
Lemma store_preserves_wellFormed (hm : GoCloudUrlStorage) (h data : list byte)
    (name : string) (fuel : nat) (dl : bool) (used : gset string)
    (entries : list (string * HashBlockState)) :
  preservesWF (ReserveAndSet hm h data) /\
  preservesWF (ReserveAndGet fuel hm h dl) /\
  preservesWF (DeleteReservation hm h) /\
  preservesWF (AnnounceDelete hm h) /\
  preservesWF (DeAnnounceDelete hm h) /\
  preservesWF (UncheckedDelete hm h) /\
  preservesWF (SetMeta hm name data) /\
  preservesWF (DeleteMeta hm name) /\
  preservesWF (GetMeta hm name) /\
  preservesWF (GetBlockHashesCountHint hm) /\
  preservesWF (GetBlockHashState hm h) /\
  preservesWF (checkedDelete hm h) /\
  preservesWF (rangeCheckMap hm used entries).
Proof.
  assert (HDR : forall h', preservesWF (DeleteReservation hm h')).
  { intros h'. unfold DeleteReservation. repeat wf_step. }
  assert (HUD : preservesWF (UncheckedDelete hm h)).
  { unfold UncheckedDelete. repeat wf_step. }
  assert (HGM : preservesWF (GetMeta hm "BlockCountHint")).
  { unfold GetMeta. repeat wf_step. }
  repeat match goal with |- _ /\ _ => split end.
  - unfold ReserveAndSet. repeat wf_step.
  - unfold ReserveAndGet. repeat wf_step.
  - apply HDR.
  - unfold AnnounceDelete. auto with wf.
  - unfold DeAnnounceDelete. auto with wf.
  - exact HUD.
  - unfold SetMeta. repeat wf_step.
  - unfold DeleteMeta. repeat wf_step.
  - unfold GetMeta. repeat wf_step.
  - unfold GetBlockHashesCountHint. cbv zeta.
    apply preservesWF_bind; [exact HGM|]. intros r. repeat wf_step.
  - auto with wf.
  - unfold checkedDelete, finishCheckedDelete, AnnounceDelete, DeAnnounceDelete.
    repeat wf_step.
  - induction entries as [|[hs st] rest IH]; cbn [rangeCheckMap]; [auto with wf|].
    apply preservesWF_bind; [|intros _; exact IH].
    unfold cleanupEntry. destruct (IsAvailableAndFree st); [auto with wf|].
    destruct (IsAvailableAndReservedByMe st); [|auto with wf].
    destruct (bool_decide (hs ∈ used)); cbn [negb]; [auto with wf|].
    apply preservesWF_bind; [apply HDR | intros _; auto with wf].
Qed.

Lemma freshWorld_wellFormed : wellFormedBucket (objects freshWorld).
Proof. split; [constructor | intros key []]. Qed.

(** ** Hashes of one length *)

Lemma HashToStringMapKey_length (h : list byte) :
  String.length (HashToStringMapKey h) = (2 * length h)%nat.
Proof.
  induction h as [|b r IH]; [reflexivity|].
  cbn [HashToStringMapKey]. unfold hex_of_byte. cbn [String.append String.length length].
  rewrite IH. lia.
Qed.

Lemma str_app_eq_length (a b r s : string) :
  a +:+ r = b +:+ s -> String.length a = String.length b -> a = b /\ r = s.
Proof.
  revert b. induction a as [|x a IH]; intros [|y b]; cbn [String.append String.length];
    try discriminate.
  - intros E _. split; [reflexivity | exact E].
  - intros [= -> E] [= L]. destruct (IH b E L) as [-> ->]. split; reflexivity.
Qed.

(** When all stored hashes have the length of [h], no other stored hash
    continues [h]. *)
Lemma uniformLength_keysBelongTo (h : list byte) (b : Bucket) :
  uniformLength (length h) b -> keysBelongTo h b.
Proof.
  intros Hu key Hin Hpre.
  apply prefix_inv in Hpre as [r Hr]. rewrite getBlockStringKey_app in Hr.
  destruct (Hu key Hin) as (h' & Hlen & s & Ts & Hk).
  { rewrite Hr. apply prefix_app. }
  rewrite Hk in Hr. apply str_app_inv_head in Hr.
  destruct (str_app_eq_length _ _ _ _ Hr) as [E _].
  { rewrite !HashToStringMapKey_length, Hlen. reflexivity. }
  apply HashToStringMapKey_inj in E. subst h'.
  exists s. split; assumption.
Qed.

(** ** Bucket calls that do not fail *)

Lemma sameTimes_refl (w : World) : sameTimes w w.
Proof. repeat split. Qed.

Lemma sameTimes_trans (w1 w2 w3 : World) :
  sameTimes w1 w2 -> sameTimes w2 w3 -> sameTimes w1 w3.
Proof.
  intros (a1 & a2 & a3 & a4) (b1 & b2 & b3 & b4).
  repeat split; congruence.
Qed.

Lemma bucket_Exists_quiet (key : string) (w : World) :
  faults w = [] ->
  exists w', bucket_Exists key w = (Ok (inr (isSome (bucket_get key (objects w)))), w') /\
             objects w' = objects w /\ sameTimes w w'.
Proof.
  intros Hf. unfold bucket_Exists, nextFault, record. cbn [faults objects]. rewrite Hf.
  cbn [objects clock polls trace deleteQueue faults].
  eexists. split; [reflexivity|].
  split; [reflexivity|]. repeat split; cbn; symmetry; assumption.
Qed.

Lemma bucket_WriteAll_quiet (key : string) (data : list byte) (w : World) :
  faults w = [] ->
  exists w', bucket_WriteAll key data w = (Ok None, w') /\
             objects w' = bucket_put key (mkBlob (clock w) data) (objects w) /\
             sameTimes w w'.
Proof.
  intros Hf. unfold bucket_WriteAll, nextFault, record, setObjects.
  cbn [faults objects clock polls trace deleteQueue]. rewrite Hf.
  cbn [objects clock polls trace deleteQueue faults].
  eexists. split; [reflexivity|]. split; [reflexivity|].
  repeat split; cbn; symmetry; assumption.
Qed.

Lemma bucket_ReadAll_quiet (key : string) (w : World) :
  faults w = [] ->
  exists w', bucket_ReadAll key w =
               (Ok (match bucket_get key (objects w) with
                    | Some v => inr (blobData v)
                    | None => inl ErrNotFound
                    end), w') /\
             objects w' = objects w /\ sameTimes w w'.
Proof.
  intros Hf. unfold bucket_ReadAll, nextFault, record. cbn [faults objects]. rewrite Hf.
  cbn [objects clock polls trace deleteQueue faults].
  destruct (bucket_get key (objects w)); (eexists; split; [reflexivity|]);
    (split; [reflexivity|]); repeat split; cbn; symmetry; assumption.
Qed.

Lemma bucket_Delete_quiet (key : string) (w : World) :
  faults w = [] ->
  exists w', bucket_Delete key w =
               (Ok (match bucket_get key (objects w) with
                    | Some _ => None
                    | None => Some ErrNotFound
                    end), w') /\
             objects w' = bucket_remove key (objects w) /\ sameTimes w w'.
Proof.
  intros Hf. unfold bucket_Delete, nextFault, record, setObjects.
  cbn [faults objects clock polls trace deleteQueue]. rewrite Hf.
  cbn [objects clock polls trace deleteQueue faults].
  destruct (bucket_get key (objects w)) eqn:E.
  - eexists. split; [reflexivity|]. split; [reflexivity|].
    repeat split; cbn; symmetry; assumption.
  - eexists. split; [reflexivity|]. split.
    + cbn [objects]. clear Hf. induction (objects w) as [|[k x] b IH]; [reflexivity|].
      cbn in E |- *. destruct (String.eqb k key); [discriminate|].
      cbn. f_equal. apply IH, E.
    + repeat split; cbn; symmetry; assumption.
Qed.

Lemma bucket_ListPage_quiet (prefix : string) (tok n : nat) (w : World) :
  faults w = [] ->
  exists w', bucket_ListPage prefix tok n w =
               (Ok (inr (firstn n (skipn tok (bucket_list prefix (objects w))),
                         if (n <? length (skipn tok (bucket_list prefix (objects w))))%nat
                         then Some (tok + n)%nat else None)), w') /\
             objects w' = objects w /\ sameTimes w w'.
Proof.
  intros Hf. unfold bucket_ListPage, nextFault, record. cbn [faults objects]. rewrite Hf.
  cbn [objects clock polls trace deleteQueue faults].
  eexists. split; [reflexivity|]. split; [reflexivity|].
  repeat split; cbn; symmetry; assumption.
Qed.

(** ** Keys that cannot be confused *)

Lemma noDot_app (a b : string) : noDot (a +:+ b) = noDot a && noDot b.
Proof.
  induction a as [|c a IH]; cbn [String.append noDot]; [reflexivity|].
  rewrite IH, andb_assoc. reflexivity.
Qed.

Lemma noDot_getBlockStringKey (h : list byte) : noDot (getBlockStringKey h) = true.
Proof.
  unfold getBlockStringKey. rewrite !noDot_app, noDot_HashToStringMapKey. reflexivity.
Qed.

(** Up to its first separator a key is read in one way only. *)
Lemma noDot_split (a a' r r' : string) :
  noDot a = true -> noDot a' = true ->
  a +:+ String "." r = a' +:+ String "." r' -> a = a' /\ r = r'.
Proof.
  revert a'. induction a as [|c a IH]; intros [|c' a'] Ha Ha'; cbn [String.append].
  - intros [= ->]. split; reflexivity.
  - intros [= <- _]. cbn in Ha'. discriminate.
  - intros [= -> _]. cbn in Ha. discriminate.
  - intros [= -> E]. cbn [noDot] in Ha, Ha'.
    apply andb_true_iff in Ha as [_ Ha]. apply andb_true_iff in Ha' as [_ Ha'].
    destruct (IH a' Ha Ha' E) as [-> ->]. split; reflexivity.
Qed.

Lemma tag_key_app (h : list byte) (tag id : string) :
  getBlockStringKey h +:+ "." +:+ tag +:+ "." +:+ id =
    getBlockStringKey h +:+ String "." ((tag +:+ ".") +:+ id).
Proof. rewrite !str_app_assoc. reflexivity. Qed.

(** A tag key is no body key. *)
Lemma tag_key_not_body (h h' : list byte) (tag id : string) :
  getBlockStringKey h +:+ "." +:+ tag +:+ "." +:+ id <> getBlockStringKey h'.
Proof.
  intros E. pose proof (noDot_getBlockStringKey h') as Hn.
  rewrite <- E, tag_key_app, noDot_app in Hn.
  apply andb_true_iff in Hn as [_ Hn]. cbn in Hn. discriminate.
Qed.

Lemma body_key_inj (h h' : list byte) :
  getBlockStringKey h = getBlockStringKey h' -> h = h'.
Proof.
  unfold getBlockStringKey. intros E.
  do 2 apply str_app_inv_head in E. apply HashToStringMapKey_inj, E.
Qed.

(** Tag keys of two blocks, of two kinds or of two participants differ. *)
Lemma tag_key_inj (h h' : list byte) (tag tag' id id' : string) :
  noDot tag = true -> noDot tag' = true ->
  getBlockStringKey h +:+ "." +:+ tag +:+ "." +:+ id =
    getBlockStringKey h' +:+ "." +:+ tag' +:+ "." +:+ id' ->
  h = h' /\ tag = tag' /\ id = id'.
Proof.
  intros Ht Ht' E. rewrite !tag_key_app in E.
  apply noDot_split in E as [E1 E2]; try apply noDot_getBlockStringKey.
  apply body_key_inj in E1.
  rewrite !str_app_assoc in E2. cbn [String.append] in E2.
  apply noDot_split in E2 as [-> ->]; try assumption.
  repeat split; assumption.
Qed.

Lemma use_key_not_delete_key (hm : GoCloudUrlStorage) (h h' : list byte) (id : string) :
  getATag hm h BLOCK_USE_TAG <>
    getBlockStringKey h' +:+ "." +:+ BLOCK_DELETE_TAG +:+ "." +:+ id.
Proof.
  unfold getATag. cbv zeta. intros E.
  apply tag_key_inj in E as (_ & E & _); [discriminate | reflexivity | reflexivity].
Qed.

Lemma meta_key_not_block (name : string) (h : list byte) (s : string) :
  getMetadataStringKey name <> getBlockStringKey h +:+ s.
Proof.
  unfold getMetadataStringKey, getBlockStringKey, MetaDataSubFolder, BlockDataSubFolder.
  cbn [String.append]. discriminate.
Qed.

Lemma meta_key_inj (name name' : string) :
  getMetadataStringKey name = getMetadataStringKey name' -> name = name'.
Proof. unfold getMetadataStringKey. intros E. do 2 apply str_app_inv_head in E. exact E. Qed.

(** ** Sorted buckets *)

Lemma bucket_get_In (key : string) (b : Bucket) (v : Blob) :
  bucket_get key b = Some v -> In (key, v) b.
Proof.
  induction b as [|[k x] b IH]; cbn [bucket_get]; [discriminate|].
  destruct (String.eqb_spec k key) as [->|_].
  - intros [= ->]. left. reflexivity.
  - intros H. right. exact (IH H).
Qed.

Lemma bucket_get_None (key : string) (b : Bucket) :
  bucket_get key b = None <-> ~ In key (bucket_keys b).
Proof.
  induction b as [|[k x] b IH]; cbn [bucket_get bucket_keys List.map fst].
  - split; [intros _ [] | reflexivity].
  - destruct (String.eqb_spec k key) as [->|Hne].
    + split; [discriminate | intros H; exfalso; apply H; left; reflexivity].
    + rewrite IH. unfold bucket_keys. split.
      * intros H [E|Hin]; [contradiction | exact (H Hin)].
      * intros H Hin. apply H. right. exact Hin.
Qed.

Lemma sorted_In_get (key : string) (v : Blob) (b : Bucket) :
  StronglySorted str_lt (bucket_keys b) -> In (key, v) b -> bucket_get key b = Some v.
Proof.
  induction b as [|[k x] b IH]; cbn [bucket_keys List.map fst bucket_get]; [intros _ []|].
  intros Hs [E|Hin]; apply StronglySorted_inv in Hs as [Hs Hall].
  - injection E as -> ->. rewrite String.eqb_refl. reflexivity.
  - destruct (String.eqb_spec k key) as [->|_]; [|exact (IH Hs Hin)].
    rewrite List.Forall_forall in Hall.
    exfalso. apply (str_lt_irrefl key), Hall.
    apply in_map_iff. exists (key, v). split; [reflexivity | exact Hin].
Qed.

Lemma prefix_not_gt (p s : string) : String.prefix p s = true -> ~ str_lt s p.
Proof.
  intros H. apply prefix_inv in H as [r ->]. destruct r as [|c r].
  - rewrite str_app_nil_r. apply str_lt_irrefl.
  - apply str_lt_asym, str_lt_app.
Qed.

(** In a sorted bucket the listing under a key that is there starts with
    that key. *)
Lemma bucket_list_head (key : string) (v : Blob) (b : Bucket) :
  StronglySorted str_lt (bucket_keys b) -> bucket_get key b = Some v ->
  exists rest, bucket_list key b = mkListObject key (blobModTime v) :: rest.
Proof.
  induction b as [|[k x] b IH]; cbn [bucket_keys List.map fst bucket_get]; [discriminate|].
  intros Hs Hg. apply StronglySorted_inv in Hs as [Hs Hall].
  unfold bucket_list. cbn [List.filter fst].
  destruct (String.eqb_spec k key) as [->|Hne].
  - injection Hg as ->. rewrite (prefix_app key ""%string) || idtac.
    assert (Hp : String.prefix key key = true).
    { rewrite <- (str_app_nil_r key) at 2. apply prefix_app. }
    rewrite Hp. cbn [List.map fst snd]. eexists. reflexivity.
  - assert (Hp : String.prefix key k = false).
    { destruct (String.prefix key k) eqn:Hp; [|reflexivity].
      exfalso. apply (prefix_not_gt _ _ Hp).
      rewrite List.Forall_forall in Hall. apply Hall.
      apply in_map_iff. exists (key, v). split; [reflexivity | apply bucket_get_In, Hg]. }
    rewrite Hp. exact (IH Hs Hg).
Qed.

Lemma bucket_list_entry (prefix : string) (b : Bucket) (obj : ListObject) :
  StronglySorted str_lt (bucket_keys b) -> In obj (bucket_list prefix b) ->
  exists v, bucket_get (Key obj) b = Some v /\ ModTime obj = blobModTime v.
Proof.
  intros Hs Hin. unfold bucket_list in Hin.
  apply in_map_iff in Hin as ([k v] & <- & Hin). apply filter_In in Hin as [Hin _].
  exists v. cbn [Key ModTime fst snd]. split; [apply sorted_In_get; assumption | reflexivity].
Qed.

(** ** What the scan of a page finds *)

Lemma scanEntry_data_kept (now : Z) (hashKey : string) (acc : PageScan) (entry : ListObject) :
  isSome (dataEntry acc) = true -> isSome (dataEntry (scanEntry now hashKey acc entry)) = true.
Proof.
  intros H. unfold scanEntry.
  destruct (String.length _ =? 0)%nat; [reflexivity|].
  destruct (CutPrefix _ ("." +:+ BLOCK_USE_TAG +:+ ".")) as [id [|]]; [exact H|].
  destruct (CutPrefix _ ("." +:+ BLOCK_DELETE_TAG +:+ ".")) as [id' [|]]; [|exact H].
  destruct (_ <? _)%Z; exact H.
Qed.

Lemma fold_scanEntry_data_kept (now : Z) (hashKey : string) (page : list ListObject)
    (acc : PageScan) :
  isSome (dataEntry acc) = true ->
  isSome (dataEntry (fold_left (scanEntry now hashKey) page acc)) = true.
Proof.
  revert acc. induction page as [|e page IH]; intros acc H; cbn [fold_left]; [exact H|].
  apply IH, scanEntry_data_kept, H.
Qed.

Lemma fold_scanEntry_no_data (now : Z) (hashKey : string) (page : list ListObject)
    (acc : PageScan) :
  dataEntry acc = None ->
  (forall obj, In obj page -> exists c r, Key obj = hashKey +:+ String c r) ->
  dataEntry (fold_left (scanEntry now hashKey) page acc) = None.
Proof.
  revert acc. induction page as [|e page IH]; intros acc Hacc Hk; cbn [fold_left]; [exact Hacc|].
  apply IH; [|intros obj Hin; apply Hk; right; exact Hin].
  destruct (Hk e (or_introl eq_refl)) as (c & r & Hr).
  unfold scanEntry. rewrite Hr, CutPrefix_app. cbn [fst String.length Nat.eqb].
  destruct (CutPrefix _ ("." +:+ BLOCK_USE_TAG +:+ ".")) as [id [|]]; [exact Hacc|].
  destruct (CutPrefix _ ("." +:+ BLOCK_DELETE_TAG +:+ ".")) as [id' [|]]; [|exact Hacc].
  destruct (_ <? _)%Z; exact Hacc.
Qed.

(** The page [reserveAndCheckExistence] lists in a sorted bucket tells
    whether the body is there. *)
Lemma page_data (now : Z) (h : list byte) (b : Bucket) :
  StronglySorted str_lt (bucket_keys b) ->
  isSome (dataEntry (fold_left (scanEntry now (getBlockStringKey h))
                       (firstn 10 (skipn 0 (bucket_list (getBlockStringKey h) b)))
                       (mkPageScan ∅ ∅ None))) =
    isSome (bucket_get (getBlockStringKey h) b).
Proof.
  intros Hs. cbn [skipn]. destruct (bucket_get (getBlockStringKey h) b) as [v|] eqn:Hg.
  - destruct (bucket_list_head _ _ _ Hs Hg) as [rest ->].
    change (firstn 10 (mkListObject (getBlockStringKey h) (blobModTime v) :: rest))
      with (mkListObject (getBlockStringKey h) (blobModTime v) :: firstn 9 rest).
    cbn [fold_left].
    apply (fold_scanEntry_data_kept now _ (firstn 9 rest)).
    unfold scanEntry. cbn [Key].
    replace (CutPrefix (getBlockStringKey h) (getBlockStringKey h)) with (""%string, true);
      [reflexivity|].
    rewrite <- (str_app_nil_r (getBlockStringKey h)) at 1. rewrite CutPrefix_app.
    reflexivity.
  - cbn [isSome]. rewrite fold_scanEntry_no_data; [reflexivity | reflexivity |].
    intros obj Hin. apply In_firstn_inv in Hin.
    destruct (bucket_list_prefix _ _ _ Hin) as [[|c r] Hr]; [|exists c, r; exact Hr].
    exfalso. rewrite str_app_nil_r in Hr.
    apply bucket_get_None in Hg. apply Hg.
    apply bucket_list_In in Hin as [Hin _]. rewrite Hr in Hin. exact Hin.
Qed.

Lemma page_no_fresh_deletion (now : Z) (h : list byte) (b : Bucket) :
  StronglySorted str_lt (bucket_keys b) -> noFreshDeletion h now b ->
  deletesMap (fold_left (scanEntry now (getBlockStringKey h))
                (firstn 10 (skipn 0 (bucket_list (getBlockStringKey h) b)))
                (mkPageScan ∅ ∅ None)) = ∅.
Proof.
  intros Hs Hd. apply fold_scanEntry_stale; [reflexivity | |].
  - intros obj id Hin Hk. apply In_firstn_inv in Hin. cbn [skipn] in Hin.
    destruct (bucket_list_entry _ _ _ Hs Hin) as (v & Hg & ->).
    rewrite Hk in Hg. exact (Hd id v Hg).
  - intros obj Hin. apply In_firstn_inv in Hin. exact (bucket_list_prefix _ _ _ Hin).
Qed.

(** ** Reserve and read, when no call fails *)

Lemma reserved_sorted (hm : GoCloudUrlStorage) (h : list byte) (now : Z) (b : Bucket) :
  StronglySorted str_lt (bucket_keys b) -> StronglySorted str_lt (bucket_keys (reserved hm h now b)).
Proof.
  intros Hs. unfold reserved. destruct (bucket_get _ b); [exact Hs|].
  apply bucket_put_sorted, Hs.
Qed.

Lemma reserved_get_ne (hm : GoCloudUrlStorage) (h : list byte) (now : Z) (b : Bucket)
    (key : string) :
  getATag hm h BLOCK_USE_TAG <> key ->
  bucket_get key (reserved hm h now b) = bucket_get key b.
Proof.
  intros Hne. unfold reserved. destruct (bucket_get (getATag _ _ _) b); [reflexivity|].
  apply bucket_get_put_ne, Hne.
Qed.

Lemma reserved_get_tag (hm : GoCloudUrlStorage) (h : list byte) (now : Z) (b : Bucket) :
  isSome (bucket_get (getATag hm h BLOCK_USE_TAG) (reserved hm h now b)) = true.
Proof.
  unfold reserved. destruct (bucket_get (getATag _ _ _) b) eqn:E.
  - rewrite E. reflexivity.
  - rewrite bucket_get_put_eq. reflexivity.
Qed.

Lemma reserved_body (hm : GoCloudUrlStorage) (h h' : list byte) (now : Z) (b : Bucket) :
  bucket_get (getBlockStringKey h') (reserved hm h now b) = bucket_get (getBlockStringKey h') b.
Proof. apply reserved_get_ne. unfold getATag. cbv zeta. apply tag_key_not_body. Qed.

Lemma reserved_noFreshDeletion (hm : GoCloudUrlStorage) (h h' : list byte) (now t : Z)
    (b : Bucket) :
  noFreshDeletion h' t b -> noFreshDeletion h' t (reserved hm h now b).
Proof.
  intros H id v Hg. rewrite reserved_get_ne in Hg by apply use_key_not_delete_key.
  exact (H id v Hg).
Qed.

Lemma reserveStep_quiet (hm : GoCloudUrlStorage) (h : list byte) (w : World) :
  faults w = [] ->
  exists w', reserveStep hm h w = (Ok None, w') /\
             objects w' = (if IsReadOnly hm then objects w
                           else reserved hm h (clock w) (objects w)) /\
             sameTimes w w'.
Proof.
  intros Hf. unfold reserveStep, putATag.
  destruct (IsReadOnly hm); cbn [negb].
  - exists w. split; [reflexivity|]. split; [reflexivity | apply sameTimes_refl].
  - unfold bind.
    destruct (bucket_Exists_quiet (getATag hm h BLOCK_USE_TAG) w Hf) as (w1 & -> & Ho1 & Ht1).
    unfold reserved.
    destruct (bucket_get (getATag hm h BLOCK_USE_TAG) (objects w)) eqn:E; cbn [isSome].
    + exists w1. split; [reflexivity|]. split; assumption.
    + assert (Hf1 : faults w1 = []) by (destruct Ht1 as (_ & -> & _); exact Hf).
      destruct (bucket_WriteAll_quiet (getATag hm h BLOCK_USE_TAG) [] w1 Hf1)
        as (w2 & -> & Ho2 & Ht2).
      exists w2. split; [reflexivity|]. split.
      * rewrite Ho2, Ho1. destruct Ht1 as (-> & _). reflexivity.
      * exact (sameTimes_trans _ _ _ Ht1 Ht2).
Qed.

(** With no call failing and no fresh deletion tag,
    [reserveAndCheckExistence] asks for no retry, tells whether the body
    is there, and leaves the use tag of a writable handle behind. *)
Lemma reserveAndCheckExistence_quiet (hm : GoCloudUrlStorage) (h : list byte) (w : World) :
  faults w = [] ->
  StronglySorted str_lt (bucket_keys (objects w)) ->
  noFreshDeletion h (clock w) (objects w) ->
  exists w',
    reserveAndCheckExistence hm h w =
      (Ok (isSome (bucket_get (getBlockStringKey h) (objects w)), false), w') /\
    objects w' = (if IsReadOnly hm then objects w else reserved hm h (clock w) (objects w)) /\
    sameTimes w w'.
Proof.
  intros Hf Hs Hd.
  destruct (reserveStep_quiet hm h w Hf) as (w1 & H1 & Ho1 & Ht1).
  assert (Hf1 : faults w1 = []) by (destruct Ht1 as (_ & -> & _); exact Hf).
  destruct (bucket_ListPage_quiet (getBlockStringKey h) 0 10 w1 Hf1) as (w2 & H2 & Ho2 & Ht2).
  exists w2. rewrite (reserveAndCheckExistence_listed hm h w w1 w2 _ _ H1 H2). cbv zeta.
  assert (Hc : clock w2 = clock w).
  { destruct Ht1 as (<- & _). destruct Ht2 as (-> & _). reflexivity. }
  assert (Hs1 : StronglySorted str_lt (bucket_keys (objects w1))).
  { rewrite Ho1. destruct (IsReadOnly hm); [exact Hs | apply reserved_sorted, Hs]. }
  assert (Hd1 : noFreshDeletion h (clock w) (objects w1)).
  { rewrite Ho1. destruct (IsReadOnly hm); [exact Hd | apply reserved_noFreshDeletion, Hd]. }
  assert (Hb1 : bucket_get (getBlockStringKey h) (objects w1) =
                bucket_get (getBlockStringKey h) (objects w)).
  { rewrite Ho1. destruct (IsReadOnly hm); [reflexivity | apply reserved_body]. }
  rewrite Hc, page_no_fresh_deletion by assumption.
  rewrite map_size_empty. cbn [Nat.ltb Nat.leb].
  pose proof (page_data (clock w) h (objects w1) Hs1) as Hp. rewrite Hb1 in Hp.
  split; [|split; [rewrite Ho2; exact Ho1 | exact (sameTimes_trans _ _ _ Ht1 Ht2)]].
  destruct (dataEntry _); cbn [isSome] in Hp; rewrite <- Hp; reflexivity.
Qed.

Lemma ReserveAndGet_quiet (fuel : nat) (hm : GoCloudUrlStorage) (h : list byte)
    (downloadData : bool) (w : World) :
  h <> [] -> faults w = [] ->
  StronglySorted str_lt (bucket_keys (objects w)) ->
  noFreshDeletion h (clock w) (objects w) ->
  exists w',
    ReserveAndGet (S fuel) hm h downloadData w =
      (Ok (match bucket_get (getBlockStringKey h) (objects w) with
           | Some v => (if downloadData then Some (blobData v) else None, true)
           | None => (None, false)
           end), w') /\
    objects w' = (if IsReadOnly hm then objects w else reserved hm h (clock w) (objects w)) /\
    sameTimes w w'.
Proof.
  intros Hne Hf Hs Hd.
  destruct (reserveAndCheckExistence_quiet hm h w Hf Hs Hd) as (w1 & Hc & Ho1 & Ht1).
  rewrite (ReserveAndGet_nonempty _ _ _ _ Hne).
  unfold bind at 1. rewrite (ReserveAndGet_loop_done _ _ _ _ _ _ Hc).
  assert (Hb1 : bucket_get (getBlockStringKey h) (objects w1) =
                bucket_get (getBlockStringKey h) (objects w)).
  { rewrite Ho1. destruct (IsReadOnly hm); [reflexivity | apply reserved_body]. }
  destruct (bucket_get (getBlockStringKey h) (objects w)) as [v|] eqn:Hg; cbn [isSome andb].
  - destruct downloadData.
    + assert (Hf1 : faults w1 = []) by (destruct Ht1 as (_ & -> & _); exact Hf).
      destruct (bucket_ReadAll_quiet (getBlockStringKey h) w1 Hf1) as (w2 & Hr & Ho2 & Ht2).
      unfold bind. rewrite Hr, Hb1. exists w2.
      split; [reflexivity|]. split; [rewrite Ho2; exact Ho1|].
      exact (sameTimes_trans _ _ _ Ht1 Ht2).
    + exists w1. split; [reflexivity|]. split; assumption.
  - exists w1. split; [reflexivity|]. split; assumption.
Qed.

(** ** What a call leaves alone *)

Create HintDb frame discriminated.

Lemma keepsBucket_touchesOnly {A : Type} (P : string -> Prop) (m : M A) :
  keepsBucket m -> touchesOnly P m.
Proof. intros H w r w' key E _. rewrite (H w r w' E). reflexivity. Qed.

Lemma touchesOnly_weaken {A : Type} (P Q : string -> Prop) (m : M A) :
  (forall key, P key -> Q key) -> touchesOnly P m -> touchesOnly Q m.
Proof. intros HPQ H w r w' key E Hk. apply (H w r w' key E). intros HP. exact (Hk (HPQ _ HP)). Qed.

Lemma keepsBucket_ret {A : Type} (a : A) : keepsBucket (ret a).
Proof. intros w r w' [= _ <-]. reflexivity. Qed.

Lemma keepsBucket_bind {A B : Type} (m : M A) (k : A -> M B) :
  keepsBucket m -> (forall a, keepsBucket (k a)) -> keepsBucket (x <- m;; k x).
Proof.
  intros Hm Hk w r w'. unfold bind.
  destruct (m w) as [[a| | |] w1] eqn:E; intros H.
  - rewrite (Hk a w1 r w' H). exact (Hm _ _ _ E).
  - injection H as _ <-. exact (Hm _ _ _ E).
  - injection H as _ <-. exact (Hm _ _ _ E).
  - injection H as _ <-. exact (Hm _ _ _ E).
Qed.

Lemma touchesOnly_bind {A B : Type} (P : string -> Prop) (m : M A) (k : A -> M B) :
  touchesOnly P m -> (forall a, touchesOnly P (k a)) -> touchesOnly P (x <- m;; k x).
Proof.
  intros Hm Hk w r w' key. unfold bind.
  destruct (m w) as [[a| | |] w1] eqn:E; intros H Hn.
  - rewrite (Hk a w1 r w' key H Hn). exact (Hm _ _ _ _ E Hn).
  - injection H as _ <-. exact (Hm _ _ _ _ E Hn).
  - injection H as _ <-. exact (Hm _ _ _ _ E Hn).
  - injection H as _ <-. exact (Hm _ _ _ _ E Hn).
Qed.

Lemma keepsBucket_read {A : Type} (m : M A) :
  (forall w, objects (snd (m w)) = objects w) -> keepsBucket m.
Proof. intros H w r w' E. pose proof (H w) as Ho. rewrite E in Ho. exact Ho. Qed.

Lemma keepsBucket_panic {A : Type} (msg : string) : keepsBucket (@panic A msg).
Proof. apply keepsBucket_read. reflexivity. Qed.

Lemma keepsBucket_fatal {A : Type} (msg : string) : keepsBucket (@fatal A msg).
Proof. apply keepsBucket_read. reflexivity. Qed.

Lemma keepsBucket_outOfFuel {A : Type} : keepsBucket (@outOfFuel A).
Proof. apply keepsBucket_read. reflexivity. Qed.

Lemma keepsBucket_Warnf (msg : string) : keepsBucket (Warnf msg).
Proof. apply keepsBucket_read. reflexivity. Qed.

Lemma keepsBucket_Sleep (t : Z) : keepsBucket (Sleep t).
Proof. apply keepsBucket_read. reflexivity. Qed.

Lemma keepsBucket_getClock : keepsBucket getClock.
Proof. apply keepsBucket_read. reflexivity. Qed.

Lemma keepsBucket_RequestCheckedDelete (h : list byte) : keepsBucket (RequestCheckedDelete h).
Proof. apply keepsBucket_read. reflexivity. Qed.

Lemma keepsBucket_Exists (key : string) : keepsBucket (bucket_Exists key).
Proof.
  apply keepsBucket_read. intros w. unfold bucket_Exists, nextFault, record.
  cbn [faults]. destruct (faults w) as [|[|] fs]; reflexivity.
Qed.

Lemma keepsBucket_ReadAll (key : string) : keepsBucket (bucket_ReadAll key).
Proof.
  apply keepsBucket_read. intros w. unfold bucket_ReadAll, nextFault, record.
  cbn [faults objects]. destruct (faults w) as [|[|] fs]; cbn [objects];
    try reflexivity; destruct (bucket_get key (objects w)); reflexivity.
Qed.

Lemma keepsBucket_ListPage (prefix : string) (tok n : nat) :
  keepsBucket (bucket_ListPage prefix tok n).
Proof.
  intros w r w' E.
  destruct (bucket_ListPage_spec prefix tok n w) as (r1 & w1 & E1 & [Ho _] & _).
  rewrite E in E1. injection E1 as _ <-. exact Ho.
Qed.

Lemma keepsBucket_IsDone : keepsBucket IsDone.
Proof.
  intros w r w' E. destruct (IsDone_spec w) as (c & w1 & E1 & [Ho _]).
  rewrite E in E1. injection E1 as _ <-. exact Ho.
Qed.

Lemma touchesOnly_WriteAll (key : string) (data : list byte) :
  touchesOnly (eq key) (bucket_WriteAll key data).
Proof.
  intros w r w' k. unfold bucket_WriteAll, nextFault, record, setObjects.
  cbn [faults objects clock].
  destruct (faults w) as [|[|] fs]; intros [= _ <-] Hk; cbn [objects];
    try reflexivity; apply bucket_get_put_ne; exact Hk.
Qed.

Lemma touchesOnly_Delete (key : string) : touchesOnly (eq key) (bucket_Delete key).
Proof.
  intros w r w' k. unfold bucket_Delete, nextFault, record, setObjects.
  cbn [faults objects clock].
  destruct (faults w) as [|[|] fs]; cbn [objects];
    try (intros [= _ <-] _; reflexivity);
    destruct (bucket_get key (objects w)); intros [= _ <-] Hk; cbn [objects];
    try reflexivity; apply bucket_get_remove_ne; exact Hk.
Qed.

#[local] Hint Resolve keepsBucket_ret keepsBucket_panic keepsBucket_fatal
  keepsBucket_outOfFuel keepsBucket_Warnf keepsBucket_Sleep keepsBucket_getClock
  keepsBucket_RequestCheckedDelete keepsBucket_Exists keepsBucket_ReadAll
  keepsBucket_ListPage keepsBucket_IsDone keepsBucket_touchesOnly : frame.

Ltac frame_step :=
  match goal with
  | |- keepsBucket (bind _ _) => apply keepsBucket_bind; [|intros ?]
  | |- touchesOnly _ (bind _ _) => apply touchesOnly_bind; [|intros ?]
  | |- keepsBucket (if ?c then _ else _) => destruct c
  | |- touchesOnly _ (if ?c then _ else _) => destruct c
  | |- keepsBucket (match ?x with _ => _ end) => destruct x
  | |- touchesOnly _ (match ?x with _ => _ end) => destruct x
  | |- _ => solve [auto with frame]
  | |- _ => progress cbv zeta
  end.

Lemma touchesOnly_putATag (hm : GoCloudUrlStorage) (h : list byte) (tag : string) (u : bool) :
  touchesOnly (eq (getATag hm h tag)) (putATag hm h tag u).
Proof.
  unfold putATag. repeat frame_step; apply touchesOnly_WriteAll.
Qed.

Lemma touchesOnly_removeATag (hm : GoCloudUrlStorage) (h : list byte) (tag : string) :
  touchesOnly (eq (getATag hm h tag)) (removeATag hm h tag).
Proof.
  unfold removeATag. destruct (IsReadOnly hm); [auto with frame|].
  apply touchesOnly_Delete.
Qed.

Lemma touchesOnly_reserveAndCheckExistence (hm : GoCloudUrlStorage) (h : list byte) :
  touchesOnly (eq (getATag hm h BLOCK_USE_TAG)) (reserveAndCheckExistence hm h).
Proof.
  unfold reserveAndCheckExistence. cbv zeta.
  apply touchesOnly_bind.
  - destruct (negb (IsReadOnly hm)); [apply touchesOnly_putATag | auto with frame].
  - intros e. repeat frame_step.
Qed.

Lemma touchesOnly_ReserveAndGet_loop (fuel : nat) (hm : GoCloudUrlStorage) (h : list byte) :
  touchesOnly (eq (getATag hm h BLOCK_USE_TAG)) (ReserveAndGet_loop fuel hm h).
Proof.
  induction fuel as [|fuel IH]; cbn [ReserveAndGet_loop]; [auto with frame|].
  apply touchesOnly_bind; [apply touchesOnly_reserveAndCheckExistence|]. intros [ok retry].
  destruct retry; cbn [negb]; [|auto with frame].
  apply touchesOnly_bind; [auto with frame | intros _; exact IH].
Qed.

Lemma touchesOnly_ReserveAndGet (fuel : nat) (hm : GoCloudUrlStorage) (h : list byte)
    (dl : bool) :
  touchesOnly (eq (getATag hm h BLOCK_USE_TAG)) (ReserveAndGet fuel hm h dl).
Proof.
  unfold ReserveAndGet. destruct (length h =? 0)%nat; [auto with frame|].
  apply touchesOnly_bind; [apply touchesOnly_ReserveAndGet_loop|].
  intros ok. repeat frame_step.
Qed.

Lemma touchesOnly_DeleteReservation (hm : GoCloudUrlStorage) (h : list byte) :
  touchesOnly (eq (getATag hm h BLOCK_USE_TAG)) (DeleteReservation hm h).
Proof.
  unfold DeleteReservation. apply touchesOnly_bind; [apply touchesOnly_removeATag|].
  intros e. repeat frame_step.
Qed.

Lemma keepsBucket_collect (snap : Snapshot) (files : list FileInfo) (acc : M (gset string)) :
  keepsBucket acc -> keepsBucket (fold_left (usedStep snap) files acc).
Proof.
  revert acc. induction files as [|f files IH]; intros acc Hacc; cbn [fold_left]; [exact Hacc|].
  apply IH. unfold usedStep. repeat frame_step.
Qed.

Lemma touchesOnly_rangeCheckMap (hm : GoCloudUrlStorage) (used : gset string)
    (entries : list (string * HashBlockState)) :
  touchesOnly (fun key => exists h, key = getATag hm h BLOCK_USE_TAG)
    (rangeCheckMap hm used entries).
Proof.
  induction entries as [|[hs st] rest IH]; cbn [rangeCheckMap]; [auto with frame|].
  apply touchesOnly_bind; [|intros _; exact IH].
  unfold cleanupEntry. destruct (IsAvailableAndFree st); [auto with frame|].
  destruct (IsAvailableAndReservedByMe st); [|auto with frame].
  destruct (bool_decide (hs ∈ used)); cbn [negb]; [auto with frame|].
  apply touchesOnly_bind; [|intros _; auto with frame].
  apply (touchesOnly_weaken (eq (getATag hm (StringMapKeyToHashNoError hs) BLOCK_USE_TAG)));
    [|apply touchesOnly_DeleteReservation].
  intros key <-. eexists. reflexivity.
Qed.

Lemma touchesOnly_cleanup (hm : GoCloudUrlStorage) (fsetSnapshot : error + Snapshot)
    (checkMap : list (string * HashBlockState)) :
  touchesOnly (fun key => exists h, key = getATag hm h BLOCK_USE_TAG)
    (cleanupUnneededReservations hm fsetSnapshot checkMap).
Proof.
  unfold cleanupUnneededReservations. destruct fsetSnapshot as [e|snap]; [auto with frame|].
  apply touchesOnly_bind.
  - apply keepsBucket_touchesOnly. unfold collectUsedBlockHashes.
    apply keepsBucket_collect. auto with frame.
  - intros used. apply touchesOnly_bind; [apply touchesOnly_rangeCheckMap|].
    intros _. auto with frame.
Qed.

(** ** Store, read, release *)

Lemma ReserveAndSet_quiet (hm : GoCloudUrlStorage) (h data : list byte) (w : World) :
  IsReadOnly hm = false -> faults w = [] ->
  exists w',
    ReserveAndSet hm h data w = (Ok tt, w') /\
    objects w' = bucket_put (getBlockStringKey h) (mkBlob (clock w) data)
                   (reserved hm h (clock w) (objects w)) /\
    sameTimes w w'.
Proof.
  intros Hro Hf. unfold ReserveAndSet. rewrite Hro.
  destruct (reserveStep_quiet hm h w Hf) as (w1 & H1 & Ho1 & Ht1).
  unfold reserveStep in H1. rewrite Hro in H1, Ho1. cbn [negb] in H1.
  unfold bind at 1. rewrite H1.
  assert (Hf1 : faults w1 = []) by (destruct Ht1 as (_ & -> & _); exact Hf).
  destruct (bucket_WriteAll_quiet (getBlockStringKey h) data w1 Hf1) as (w2 & H2 & Ho2 & Ht2).
  unfold bind. rewrite H2. exists w2. split; [reflexivity|]. split.
  - rewrite Ho2, Ho1. destruct Ht1 as (-> & _). reflexivity.
  - exact (sameTimes_trans _ _ _ Ht1 Ht2).
Qed.

Lemma put_noFreshDeletion (h h' : list byte) (now t : Z) (v : Blob) (b : Bucket) :
  noFreshDeletion h' t b -> noFreshDeletion h' t (bucket_put (getBlockStringKey h) v b).
Proof.
  intros H id x Hg. rewrite bucket_get_put_ne in Hg; [exact (H id x Hg)|].
  intros E. symmetry in E. exact (tag_key_not_body _ _ _ _ E).
Qed.

(** X1: a block stored with [ReserveAndSet] is read back by
    [ReserveAndGet], by the handle that stored it or by any other one:
    when no bucket call fails and no deletion tag of the block is fresh,
    the read finds the block and, if asked to download, returns the bytes
    that were stored. *)
Theorem stored_block_is_read_back (fuel : nat) (writer reader : GoCloudUrlStorage)
    (h data : list byte) (downloadData : bool) (w : World) :
  IsReadOnly writer = false -> h <> [] -> faults w = [] ->
  StronglySorted str_lt (bucket_keys (objects w)) ->
  noFreshDeletion h (clock w) (objects w) ->
  exists w1 w2 : World,
    ReserveAndSet writer h data w = (Ok tt, w1) /\
    ReserveAndGet (S fuel) reader h downloadData w1 =
      (Ok (if downloadData then Some data else None, true), w2).
Proof.
  intros Hro Hne Hf Hs Hd.
  destruct (ReserveAndSet_quiet writer h data w Hro Hf) as (w1 & H1 & Ho1 & Ht1).
  assert (Hf1 : faults w1 = []) by (destruct Ht1 as (_ & -> & _); exact Hf).
  assert (Hc1 : clock w1 = clock w) by (destruct Ht1 as (-> & _); reflexivity).
  destruct (ReserveAndGet_quiet fuel reader h downloadData w1 Hne Hf1) as (w2 & H2 & _).
  - rewrite Ho1. apply bucket_put_sorted, reserved_sorted, Hs.
  - rewrite Ho1, Hc1. apply (put_noFreshDeletion h h (clock w)), reserved_noFreshDeletion, Hd.
  - exists w1, w2. split; [exact H1|]. rewrite H2, Ho1, bucket_get_put_eq. reflexivity.
Qed.

Lemma stored_block_is_read_back_witness :
  exists w1 w2 : World,
    ReserveAndSet (mkStorage "mem://" "A") [xab] [x01; x02] freshWorld = (Ok tt, w1) /\
    ReserveAndGet 1 (mkStorage "mem://" "B") [xab] true w1 = (Ok (Some [x01; x02], true), w2).
Proof.
  apply (stored_block_is_read_back 0 (mkStorage "mem://" "A") (mkStorage "mem://" "B")
           [xab] [x01; x02] true freshWorld).
  - reflexivity.
  - discriminate.
  - reflexivity.
  - constructor.
  - intros id v Hg. discriminate Hg.
Defined.

(** X2: [ReserveAndGet] of a block whose body is not in the bucket
    reports that it was not found, and a writable handle has by then
    written its use tag: the tag stays in the bucket although there is no
    block under it. *)
Theorem missing_block_leaves_use_tag (fuel : nat) (hm : GoCloudUrlStorage) (h : list byte)
    (downloadData : bool) (w : World) :
  IsReadOnly hm = false -> h <> [] -> faults w = [] ->
  StronglySorted str_lt (bucket_keys (objects w)) ->
  noFreshDeletion h (clock w) (objects w) ->
  bucket_get (getBlockStringKey h) (objects w) = None ->
  exists w' : World,
    ReserveAndGet (S fuel) hm h downloadData w = (Ok (None, false), w') /\
    isSome (bucket_get (getATag hm h BLOCK_USE_TAG) (objects w')) = true /\
    bucket_get (getBlockStringKey h) (objects w') = None.
Proof.
  intros Hro Hne Hf Hs Hd Hg.
  destruct (ReserveAndGet_quiet fuel hm h downloadData w Hne Hf Hs Hd) as (w' & H & Ho & _).
  rewrite Hg in H. rewrite Hro in Ho. exists w'. split; [exact H|].
  rewrite Ho. split; [apply reserved_get_tag|]. rewrite reserved_body. exact Hg.
Qed.

Lemma missing_block_leaves_use_tag_witness :
  exists w' : World,
    ReserveAndGet 1 (mkStorage "mem://" "A") [xab] true freshWorld = (Ok (None, false), w') /\
    isSome (bucket_get "blocks/ab.used-by.A" (objects w')) = true /\
    bucket_get "blocks/ab" (objects w') = None.
Proof.
  apply (missing_block_leaves_use_tag 0 (mkStorage "mem://" "A") [xab] true freshWorld).
  - reflexivity.
  - discriminate.
  - reflexivity.
  - constructor.
  - intros id v Hg. discriminate Hg.
  - reflexivity.
Defined.

Lemma keepsBucket_ReserveAndGet_read_only (fuel : nat) (hm : GoCloudUrlStorage)
    (h : list byte) (dl : bool) :
  IsReadOnly hm = true -> keepsBucket (ReserveAndGet fuel hm h dl).
Proof.
  intros Hro.
  assert (Hc : keepsBucket (reserveAndCheckExistence hm h)).
  { unfold reserveAndCheckExistence. rewrite Hro. cbn [negb]. repeat frame_step. }
  assert (Hl : keepsBucket (ReserveAndGet_loop fuel hm h)).
  { induction fuel as [|fuel IH]; cbn [ReserveAndGet_loop]; [auto with frame|].
    apply keepsBucket_bind; [exact Hc|]. intros [ok retry].
    destruct retry; cbn [negb]; [|auto with frame].
    apply keepsBucket_bind; [auto with frame | intros _; exact IH]. }
  unfold ReserveAndGet. destruct (length h =? 0)%nat; [auto with frame|].
  apply keepsBucket_bind; [exact Hl|]. intros ok. repeat frame_step.
Qed.

(** X3: a read-only handle reads blocks without leaving a reservation:
    its [ReserveAndGet] leaves the bucket as it is however the call ends,
    and when no bucket call fails and no deletion tag of the block is
    fresh it returns the body that is stored. *)
Theorem read_only_handle_reads_without_tag (fuel : nat) (hm : GoCloudUrlStorage)
    (h : list byte) (v : Blob) (w : World) :
  IsReadOnly hm = true ->
  (forall (n : nat) (downloadData : bool) (w0 : World),
     objects (snd (ReserveAndGet n hm h downloadData w0)) = objects w0) /\
  (h <> [] -> faults w = [] ->
   StronglySorted str_lt (bucket_keys (objects w)) ->
   noFreshDeletion h (clock w) (objects w) ->
   bucket_get (getBlockStringKey h) (objects w) = Some v ->
   fst (ReserveAndGet (S fuel) hm h true w) = Ok (Some (blobData v), true)).
Proof.
  intros Hro. split.
  - intros n dl w0. destruct (ReserveAndGet n hm h dl w0) as [r w'] eqn:E.
    exact (keepsBucket_ReserveAndGet_read_only n hm h dl Hro w0 r w' E).
  - intros Hne Hf Hs Hd Hg.
    destruct (ReserveAndGet_quiet fuel hm h true w Hne Hf Hs Hd) as (w' & H & _).
    rewrite H, Hg. reflexivity.
Qed.

Lemma exampleWorld_noFreshDeletion (h : list byte) (now : Z) :
  noFreshDeletion h now (objects exampleWorld).
Proof.
  intros id x Hg. apply bucket_get_In in Hg.
  assert (Hin : In (getBlockStringKey h +:+ "." +:+ BLOCK_DELETE_TAG +:+ "." +:+ id)
                  (bucket_keys (objects exampleWorld))).
  { apply in_map_iff. eexists. split; [|exact Hg]. reflexivity. }
  assert (Hk : bucket_keys (objects exampleWorld) =
               ["blocks/01"; "blocks/01.used-by.A"; "blocks/ab"; "blocks/ab.used-by.A";
                "blocks/abcd"; "blocks/abcd.used-by.B"]) by (vm_compute; reflexivity).
  rewrite Hk in Hin. clear Hk Hg. exfalso.
  assert (Hno : forall (hh : list byte) (tag idd : string),
            noDot tag = true ->
            getBlockStringKey hh +:+ "." +:+ tag +:+ "." +:+ idd =
              getBlockStringKey h +:+ "." +:+ BLOCK_DELETE_TAG +:+ "." +:+ id ->
            tag = BLOCK_DELETE_TAG).
  { intros hh tag idd Ht E. apply tag_key_inj in E as (_ & E & _); [exact E | exact Ht | reflexivity]. }
  destruct Hin as [E|[E|[E|[E|[E|[E|[]]]]]]].
  - exact (tag_key_not_body h [x01] _ _ (eq_sym E)).
  - specialize (Hno [x01] "used-by" "A" eq_refl E). discriminate Hno.
  - exact (tag_key_not_body h [xab] _ _ (eq_sym E)).
  - specialize (Hno [xab] "used-by" "A" eq_refl E). discriminate Hno.
  - exact (tag_key_not_body h [xab; xcd] _ _ (eq_sym E)).
  - specialize (Hno [xab; xcd] "used-by" "B" eq_refl E). discriminate Hno.
Qed.

Lemma exampleWorld_body_ab :
  bucket_get (getBlockStringKey [xab]) (objects exampleWorld) = Some (mkBlob 0 [x01]).
Proof. vm_compute. reflexivity. Qed.

Lemma exampleWorld_sorted : StronglySorted str_lt (bucket_keys (objects exampleWorld)).
Proof. exact (proj1 exampleWorld_wellFormed). Qed.

Lemma read_only_handle_reads_without_tag_witness :
  objects (snd (ReserveAndGet 1 (readOnlyHandle "mem://") [xab] true exampleWorld)) =
    objects exampleWorld /\
  fst (ReserveAndGet 1 (readOnlyHandle "mem://") [xab] true exampleWorld) =
    Ok (Some [x01], true).
Proof.
  destruct (read_only_handle_reads_without_tag 0 (readOnlyHandle "mem://") [xab]
              (mkBlob 0 [x01]) exampleWorld eq_refl) as [H1 H2].
  split; [apply H1|]. apply H2.
  - discriminate.
  - reflexivity.
  - exact exampleWorld_sorted.
  - apply exampleWorld_noFreshDeletion.
  - exact exampleWorld_body_ab.
Defined.

(** ** Calls and the keys they change *)

(** X4: the reservation calls of a handle (ReserveAndGet,
    DeleteReservation and the reclamation after a scan) change no key
    but use tags of that handle, however they end: every block body,
    every tag of another participant and every metadata object keeps
    its content. *)
Theorem reservation_calls_touch_own_use_tags (hm : GoCloudUrlStorage) (key : string) :
  (forall h : list byte, key <> getATag hm h BLOCK_USE_TAG) ->
  (forall (fuel : nat) (h : list byte) (downloadData : bool) (w : World),
     bucket_get key (objects (snd (ReserveAndGet fuel hm h downloadData w))) =
       bucket_get key (objects w)) /\
  (forall (h : list byte) (w : World),
     bucket_get key (objects (snd (DeleteReservation hm h w))) = bucket_get key (objects w)) /\
  (forall (fsetSnapshot : error + Snapshot) (checkMap : list (string * HashBlockState))
          (w : World),
     bucket_get key (objects (snd (cleanupUnneededReservations hm fsetSnapshot checkMap w))) =
       bucket_get key (objects w)).
Proof.
  intros Hk. split; [|split].
  - intros fuel h dl w. destruct (ReserveAndGet fuel hm h dl w) as [r w'] eqn:E.
    apply (touchesOnly_ReserveAndGet fuel hm h dl w r w' key E).
    intros E'. exact (Hk h (eq_sym E')).
  - intros h w. destruct (DeleteReservation hm h w) as [r w'] eqn:E.
    apply (touchesOnly_DeleteReservation hm h w r w' key E).
    intros E'. exact (Hk h (eq_sym E')).
  - intros snap cm w. destruct (cleanupUnneededReservations hm snap cm w) as [r w'] eqn:E.
    apply (touchesOnly_cleanup hm snap cm w r w' key E).
    intros [h E']. exact (Hk h E').
Qed.

Lemma reservation_calls_touch_own_use_tags_witness :
  bucket_get "blocks/abcd.used-by.B"
    (objects (snd (ReserveAndGet 1 (mkStorage "mem://" "A") [xab; xcd] true exampleWorld))) =
    bucket_get "blocks/abcd.used-by.B" (objects exampleWorld) /\
  bucket_get "blocks/ab"
    (objects (snd (DeleteReservation (mkStorage "mem://" "A") [xab] exampleWorld))) =
    bucket_get "blocks/ab" (objects exampleWorld).
Proof.
  split.
  - apply (reservation_calls_touch_own_use_tags (mkStorage "mem://" "A") "blocks/abcd.used-by.B").
    intros h E.
    apply (tag_key_inj [xab; xcd] h "used-by" "used-by" "B" "A") in E as (_ & _ & E);
      [discriminate E | reflexivity | reflexivity].
  - apply (reservation_calls_touch_own_use_tags (mkStorage "mem://" "A") "blocks/ab").
    intros h E. exact (tag_key_not_body h [xab] "used-by" "A" (eq_sym E)).
Defined.

(** X5: each write of the store changes only the keys it is about,
    however it ends: ReserveAndSet the body of the block and the
    caller's use tag, AnnounceDelete and DeAnnounceDelete the caller's
    deletion tag, UncheckedDelete the body, SetMeta and DeleteMeta the
    metadata object of that name. *)
Theorem writes_change_only_their_keys (hm : GoCloudUrlStorage) (h data : list byte)
    (name key : string) (w : World) :
  (key <> getBlockStringKey h -> key <> getATag hm h BLOCK_USE_TAG ->
   bucket_get key (objects (snd (ReserveAndSet hm h data w))) = bucket_get key (objects w)) /\
  (key <> getATag hm h BLOCK_DELETE_TAG ->
   bucket_get key (objects (snd (AnnounceDelete hm h w))) = bucket_get key (objects w) /\
   bucket_get key (objects (snd (DeAnnounceDelete hm h w))) = bucket_get key (objects w)) /\
  (key <> getBlockStringKey h ->
   bucket_get key (objects (snd (UncheckedDelete hm h w))) = bucket_get key (objects w)) /\
  (key <> getMetadataStringKey name ->
   bucket_get key (objects (snd (SetMeta hm name data w))) = bucket_get key (objects w) /\
   bucket_get key (objects (snd (DeleteMeta hm name w))) = bucket_get key (objects w)).
Proof.
  assert (K : forall (A : Type) (P : string -> Prop) (m : M A),
            touchesOnly P m -> ~ P key ->
            bucket_get key (objects (snd (m w))) = bucket_get key (objects w)).
  { intros A P m T Hn. destruct (m w) as [r w'] eqn:E. exact (T w r w' key E Hn). }
  split; [|split; [|split]].
  - intros Hb Ht.
    apply (K _ (fun k => k = getATag hm h BLOCK_USE_TAG \/ k = getBlockStringKey h)).
    + unfold ReserveAndSet. destruct (IsReadOnly hm); [auto with frame|].
      apply touchesOnly_bind.
      * apply (touchesOnly_weaken (eq (getATag hm h BLOCK_USE_TAG)));
          [intros k <-; left; reflexivity | apply touchesOnly_putATag].
      * intros [e|]; [auto with frame|]. cbv zeta. apply touchesOnly_bind.
        -- apply (touchesOnly_weaken (eq (getBlockStringKey h)));
             [intros k <-; right; reflexivity | apply touchesOnly_WriteAll].
        -- intros e. repeat frame_step.
    + intros [E|E]; [exact (Ht E) | exact (Hb E)].
  - intros Hk. split.
    + apply (K _ (eq (getATag hm h BLOCK_DELETE_TAG))); [apply touchesOnly_putATag|].
      intros E. exact (Hk (eq_sym E)).
    + apply (K _ (eq (getATag hm h BLOCK_DELETE_TAG))); [apply touchesOnly_removeATag|].
      intros E. exact (Hk (eq_sym E)).
  - intros Hk. apply (K _ (eq (getBlockStringKey h))); [|intros E; exact (Hk (eq_sym E))].
    unfold UncheckedDelete. destruct (IsReadOnly hm); [auto with frame|].
    apply touchesOnly_Delete.
  - intros Hk. split.
    + apply (K _ (eq (getMetadataStringKey name))); [|intros E; exact (Hk (eq_sym E))].
      unfold SetMeta. destruct (IsReadOnly hm); [auto with frame|].
      apply touchesOnly_bind; [apply touchesOnly_WriteAll | intros _; auto with frame].
    + apply (K _ (eq (getMetadataStringKey name))); [|intros E; exact (Hk (eq_sym E))].
      unfold DeleteMeta. destruct (IsReadOnly hm); [auto with frame|].
      apply touchesOnly_bind; [apply touchesOnly_Delete | intros _; auto with frame].
Qed.

Lemma keepsBucket_IterateBlocksInternal (hm : GoCloudUrlStorage) (prefix : string) :
  keepsBucket (IterateBlocksInternal hm prefix).
Proof.
  intros w r w' E.
  destruct (IterateBlocksInternal_spec hm prefix w) as (e & pre & post & w1 & E1 & _ & _ & [Ho _]).
  rewrite E in E1. injection E1 as _ <-. exact Ho.
Qed.

Lemma keepsBucket_rangeChannel (channel : list HashStateAndError) (out : list HashAndState) :
  keepsBucket (rangeChannel channel out).
Proof.
  revert out. induction channel as [|x rest IH]; intros out; cbn [rangeChannel];
    [auto with frame|].
  apply keepsBucket_bind; [auto with frame|]. intros done.
  destruct done; [auto with frame|]. destruct (err x); [auto with frame | apply IH].
Qed.

Lemma keepsBucket_rangeChannels (chans : list (list HashStateAndError))
    (out : list HashAndState) :
  keepsBucket (rangeChannels chans out).
Proof.
  revert out. induction chans as [|c rest IH]; intros out; cbn [rangeChannels];
    [auto with frame|].
  apply keepsBucket_bind; [auto with frame|]. intros done.
  destruct done; [auto with frame|].
  apply keepsBucket_bind; [apply keepsBucket_rangeChannel|].
  intros [[e|] out']; [auto with frame | apply IH].
Qed.

#[local] Hint Resolve keepsBucket_IterateBlocksInternal keepsBucket_rangeChannels : frame.

Lemma keepsBucket_GetMeta (hm : GoCloudUrlStorage) (name : string) :
  keepsBucket (GetMeta hm name).
Proof. unfold GetMeta. repeat frame_step. Qed.

Lemma keepsBucket_GetBlockHashState (hm : GoCloudUrlStorage) (h : list byte) :
  keepsBucket (GetBlockHashState hm h).
Proof. unfold GetBlockHashState. repeat frame_step. Qed.

#[local] Hint Resolve keepsBucket_GetMeta keepsBucket_GetBlockHashState : frame.

(** X6: the reads of the store never change the bucket, however they
    end: GetMeta, GetBlockHashesCountHint, GetBlockHashState,
    IterateBlocksInternal and IterateBlocks leave every object as it
    is. *)
Theorem reads_keep_the_bucket (hm : GoCloudUrlStorage) (name prefix : string)
    (h : list byte) (producer : World) (shard : nat -> World) (w : World) :
  objects (snd (GetMeta hm name w)) = objects w /\
  objects (snd (GetBlockHashesCountHint hm w)) = objects w /\
  objects (snd (GetBlockHashState hm h w)) = objects w /\
  objects (snd (IterateBlocksInternal hm prefix w)) = objects w /\
  objects (snd (IterateBlocks hm producer shard w)) = objects w.
Proof.
  assert (K : forall (A : Type) (m : M A), keepsBucket m -> objects (snd (m w)) = objects w).
  { intros A m Hm. destruct (m w) as [r w'] eqn:E. exact (Hm w r w' E). }
  repeat match goal with |- _ /\ _ => split end; apply K.
  - auto with frame.
  - unfold GetBlockHashesCountHint. cbv zeta.
    apply keepsBucket_bind; [auto with frame|]. intros r. repeat frame_step.
  - auto with frame.
  - auto with frame.
  - unfold IterateBlocks. cbv zeta. auto with frame.
Qed.

Lemma writes_change_only_their_keys_witness :
  bucket_get "blocks/ab"
    (objects (snd (SetMeta (mkStorage "mem://" "A") "BlockCountHint" [x31] exampleWorld))) =
    bucket_get "blocks/ab" (objects exampleWorld) /\
  bucket_get "blocks/ab.used-by.A"
    (objects (snd (UncheckedDelete (mkStorage "mem://" "A") [xab] exampleWorld))) =
    bucket_get "blocks/ab.used-by.A" (objects exampleWorld).
Proof.
  split.
  - apply (writes_change_only_their_keys (mkStorage "mem://" "A") [xab] [x31]
             "BlockCountHint" "blocks/ab" exampleWorld).
    discriminate.
  - apply (writes_change_only_their_keys (mkStorage "mem://" "A") [xab] [x31]
             "BlockCountHint" "blocks/ab.used-by.A" exampleWorld).
    discriminate.
Defined.

(** ** Metadata objects *)

Lemma GetMeta_quiet (hm : GoCloudUrlStorage) (name : string) (w : World) :
  faults w = [] ->
  fst (GetMeta hm name w) =
    Ok (option_map blobData (bucket_get (getMetadataStringKey name) (objects w))).
Proof.
  intros Hf. unfold GetMeta, bind.
  destruct (bucket_ReadAll_quiet (getMetadataStringKey name) w Hf) as (w1 & -> & _).
  destruct (bucket_get _ (objects w)); reflexivity.
Qed.

Lemma SetMeta_quiet (hm : GoCloudUrlStorage) (name : string) (data : list byte) (w : World) :
  IsReadOnly hm = false -> faults w = [] ->
  exists w', SetMeta hm name data w = (Ok tt, w') /\
             objects w' = bucket_put (getMetadataStringKey name) (mkBlob (clock w) data)
                            (objects w) /\
             sameTimes w w'.
Proof.
  intros Hro Hf. unfold SetMeta, bind. rewrite Hro.
  destruct (bucket_WriteAll_quiet (getMetadataStringKey name) data w Hf) as (w1 & -> & Ho & Ht).
  exists w1. split; [reflexivity|]. split; assumption.
Qed.

Lemma DeleteMeta_quiet (hm : GoCloudUrlStorage) (name : string) (w : World) :
  IsReadOnly hm = false -> faults w = [] ->
  exists w', DeleteMeta hm name w = (Ok tt, w') /\
             objects w' = bucket_remove (getMetadataStringKey name) (objects w) /\
             sameTimes w w'.
Proof.
  intros Hro Hf. unfold DeleteMeta, bind. rewrite Hro.
  destruct (bucket_Delete_quiet (getMetadataStringKey name) w Hf) as (w1 & -> & Ho & Ht).
  exists w1. split; [reflexivity|]. split; assumption.
Qed.

(** X7: metadata written with [SetMeta] is what [GetMeta] returns
    under the same name, objects of other names are not affected, and
    after [DeleteMeta] the name reads as missing; this for a writable
    handle when no bucket call fails. *)
Theorem meta_round_trip (hm : GoCloudUrlStorage) (name : string) (data : list byte)
    (w : World) :
  IsReadOnly hm = false -> faults w = [] ->
  fst (GetMeta hm name (snd (SetMeta hm name data w))) = Ok (Some data) /\
  (forall name' : string, name' <> name ->
     fst (GetMeta hm name' (snd (SetMeta hm name data w))) = fst (GetMeta hm name' w)) /\
  fst (GetMeta hm name (snd (DeleteMeta hm name (snd (SetMeta hm name data w))))) = Ok None /\
  fst (GetMeta hm name (snd (DeleteMeta hm name w))) = Ok None.
Proof.
  intros Hro Hf.
  destruct (SetMeta_quiet hm name data w Hro Hf) as (w1 & H1 & Ho1 & Ht1).
  assert (Hf1 : faults w1 = []) by (destruct Ht1 as (_ & -> & _); exact Hf).
  destruct (DeleteMeta_quiet hm name w1 Hro Hf1) as (w2 & H2 & Ho2 & Ht2).
  assert (Hf2 : faults w2 = []) by (destruct Ht2 as (_ & -> & _); exact Hf1).
  destruct (DeleteMeta_quiet hm name w Hro Hf) as (w3 & H3 & Ho3 & Ht3).
  assert (Hf3 : faults w3 = []) by (destruct Ht3 as (_ & -> & _); exact Hf).
  rewrite H1, H3. cbn [snd]. rewrite H2. cbn [snd].
  repeat match goal with |- _ /\ _ => split end.
  - rewrite (GetMeta_quiet _ _ _ Hf1), Ho1, bucket_get_put_eq. reflexivity.
  - intros name' Hne. rewrite (GetMeta_quiet _ _ _ Hf1), (GetMeta_quiet _ _ _ Hf), Ho1.
    rewrite bucket_get_put_ne; [reflexivity|].
    intros E. apply meta_key_inj in E. exact (Hne (eq_sym E)).
  - rewrite (GetMeta_quiet _ _ _ Hf2), Ho2, bucket_get_remove_eq. reflexivity.
  - rewrite (GetMeta_quiet _ _ _ Hf3), Ho3, bucket_get_remove_eq. reflexivity.
Qed.

Lemma meta_round_trip_witness :
  fst (GetMeta (mkStorage "mem://" "A") "token"
         (snd (SetMeta (mkStorage "mem://" "A") "token" [x01; x02] exampleWorld))) =
    Ok (Some [x01; x02]).
Proof.
  apply (meta_round_trip (mkStorage "mem://" "A") "token" [x01; x02] exampleWorld);
    reflexivity.
Defined.

Lemma GetMeta_result (hm : GoCloudUrlStorage) (name : string) (w : World) :
  fst (GetMeta hm name w) =
    match faults w with
    | true :: _ => Ok None
    | _ => Ok (option_map blobData (bucket_get (getMetadataStringKey name) (objects w)))
    end.
Proof.
  unfold GetMeta, bind, bucket_ReadAll, nextFault, record. cbn [faults objects].
  destruct (faults w) as [|[|] fs]; cbn [objects]; try reflexivity;
    destruct (bucket_get _ (objects w)); reflexivity.
Qed.

(** X8: [SetMeta] and [DeleteMeta] drop the error of the bucket call:
    when the call fails they return as if nothing had happened, the
    bucket is as before, and a later [GetMeta] returns what it would
    have returned without the call. *)
Theorem meta_write_failure_is_silent (hm : GoCloudUrlStorage) (name : string)
    (data : list byte) (w : World) (fs : list bool) :
  faults w = true :: fs ->
  fst (SetMeta hm name data w) = Ok tt /\
  objects (snd (SetMeta hm name data w)) = objects w /\
  fst (DeleteMeta hm name w) = Ok tt /\
  objects (snd (DeleteMeta hm name w)) = objects w /\
  (forall (name' : string) (later : list bool),
     fst (GetMeta hm name' (withFaults later (snd (SetMeta hm name data w)))) =
       fst (GetMeta hm name' (withFaults later w))).
Proof.
  intros Hf.
  assert (H : fst (SetMeta hm name data w) = Ok tt /\
              objects (snd (SetMeta hm name data w)) = objects w /\
              fst (DeleteMeta hm name w) = Ok tt /\
              objects (snd (DeleteMeta hm name w)) = objects w).
  { unfold SetMeta, DeleteMeta. destruct (IsReadOnly hm); [repeat split|].
    unfold bind, bucket_WriteAll, bucket_Delete, nextFault, record.
    cbn [faults]. rewrite Hf. repeat split. }
  destruct H as (H1 & H2 & H3 & H4).
  repeat match goal with |- _ /\ _ => split end; try assumption.
  intros name' later. rewrite !GetMeta_result. unfold withFaults. cbn [faults objects].
  rewrite H2. reflexivity.
Qed.

Lemma meta_write_failure_is_silent_witness :
  fst (SetMeta (mkStorage "mem://" "A") "token" [x01] (withFaults [true] exampleWorld)) = Ok tt /\
  objects (snd (SetMeta (mkStorage "mem://" "A") "token" [x01]
                  (withFaults [true] exampleWorld))) = objects exampleWorld.
Proof.
  destruct (meta_write_failure_is_silent (mkStorage "mem://" "A") "token" [x01]
              (withFaults [true] exampleWorld) [] eq_refl) as (H1 & H2 & _).
  split; [exact H1 | exact H2].
Defined.

(** ** Releasing a reservation *)

Lemma remove_put_absent (key : string) (v : Blob) (b : Bucket) :
  StronglySorted str_lt (bucket_keys b) -> bucket_get key b = None ->
  bucket_remove key (bucket_put key v b) = b.
Proof.
  induction b as [|[k x] b IH]; cbn [bucket_keys List.map fst bucket_get bucket_put].
  - intros _ _. unfold bucket_remove. cbn. rewrite String.eqb_refl. reflexivity.
  - intros Hs Hg. apply StronglySorted_inv in Hs as [Hs Hall].
    destruct (String.eqb_spec k key) as [->|Hne]; [discriminate|].
    assert (Hrest : bucket_remove key b = b).
    { clear -Hg. induction b as [|[k' x'] b IH]; [reflexivity|].
      cbn in Hg |- *. destruct (String.eqb k' key); [discriminate|].
      cbn. f_equal. apply IH, Hg. }
    destruct (String.compare key k) eqn:E.
    + apply str_compare_eq in E. congruence.
    + unfold bucket_remove. cbn [List.filter fst]. rewrite String.eqb_refl. cbn [negb].
      destruct (String.eqb_spec k key) as [E'|_]; [congruence|]. cbn [negb].
      f_equal. exact Hrest.
    + unfold bucket_remove. cbn [List.filter fst].
      destruct (String.eqb_spec k key) as [E'|_]; [congruence|]. cbn [negb].
      f_equal. apply IH; assumption.
Qed.

Lemma DeleteReservation_quiet (hm : GoCloudUrlStorage) (h : list byte) (w : World) :
  IsReadOnly hm = false -> faults w = [] ->
  isSome (bucket_get (getATag hm h BLOCK_USE_TAG) (objects w)) = true ->
  exists w', DeleteReservation hm h w = (Ok tt, w') /\
             objects w' = bucket_remove (getATag hm h BLOCK_USE_TAG) (objects w) /\
             sameTimes w w'.
Proof.
  intros Hro Hf Hg. unfold DeleteReservation, removeATag, bind. rewrite Hro.
  destruct (bucket_Delete_quiet (getATag hm h BLOCK_USE_TAG) w Hf) as (w1 & H1 & Ho & Ht).
  unfold getATag in H1, Ho, Hg. cbv zeta in H1, Ho, Hg. rewrite H1.
  destruct (bucket_get _ (objects w)); [|discriminate].
  exists w1. split; [reflexivity|]. split; assumption.
Qed.

(** X9: [DeleteReservation] undoes the reservation [ReserveAndGet] made:
    when the handle had no use tag for the block before, no bucket call
    fails and no deletion tag of the block is fresh, reserving and then
    releasing leaves the bucket exactly as it was. *)
Theorem release_undoes_reservation (fuel : nat) (hm : GoCloudUrlStorage) (h : list byte)
    (downloadData : bool) (w : World) :
  IsReadOnly hm = false -> h <> [] -> faults w = [] ->
  StronglySorted str_lt (bucket_keys (objects w)) ->
  noFreshDeletion h (clock w) (objects w) ->
  bucket_get (getATag hm h BLOCK_USE_TAG) (objects w) = None ->
  exists (r : option (list byte) * bool) (w1 w2 : World),
    ReserveAndGet (S fuel) hm h downloadData w = (Ok r, w1) /\
    isSome (bucket_get (getATag hm h BLOCK_USE_TAG) (objects w1)) = true /\
    DeleteReservation hm h w1 = (Ok tt, w2) /\
    objects w2 = objects w.
Proof.
  intros Hro Hne Hf Hs Hd Hg.
  destruct (ReserveAndGet_quiet fuel hm h downloadData w Hne Hf Hs Hd) as (w1 & H1 & Ho1 & Ht1).
  rewrite Hro in Ho1.
  assert (Hf1 : faults w1 = []) by (destruct Ht1 as (_ & -> & _); exact Hf).
  assert (Htag : isSome (bucket_get (getATag hm h BLOCK_USE_TAG) (objects w1)) = true).
  { rewrite Ho1. apply reserved_get_tag. }
  destruct (DeleteReservation_quiet hm h w1 Hro Hf1 Htag) as (w2 & H2 & Ho2 & _).
  eexists _, w1, w2. split; [exact H1|]. split; [exact Htag|]. split; [exact H2|].
  rewrite Ho2, Ho1. unfold reserved. rewrite Hg. apply remove_put_absent; assumption.
Qed.

Lemma release_undoes_reservation_witness :
  exists (r : option (list byte) * bool) (w1 w2 : World),
    ReserveAndGet 1 (mkStorage "mem://" "C") [xab] true exampleWorld = (Ok r, w1) /\
    isSome (bucket_get (getATag (mkStorage "mem://" "C") [xab] BLOCK_USE_TAG) (objects w1)) = true /\
    DeleteReservation (mkStorage "mem://" "C") [xab] w1 = (Ok tt, w2) /\
    objects w2 = objects exampleWorld.
Proof.
  apply (release_undoes_reservation 0 (mkStorage "mem://" "C") [xab] true exampleWorld).
  - reflexivity.
  - discriminate.
  - reflexivity.
  - exact exampleWorld_sorted.
  - apply exampleWorld_noFreshDeletion.
  - vm_compute. reflexivity.
Defined.

(** X10: [DeleteReservation] for a block the handle holds no use tag of
    does not return: the bucket's delete of the missing tag fails, and
    the error goes to [log.Fatal]; the bucket is left as it was. *)
Theorem release_without_reservation_is_fatal (hm : GoCloudUrlStorage) (h : list byte)
    (w : World) :
  bucket_get (getATag hm h BLOCK_USE_TAG) (objects w) = None ->
  exists (msg : string) (w' : World),
    DeleteReservation hm h w = (Fatal msg, w') /\ objects w' = objects w.
Proof.
  intros Hg. unfold DeleteReservation, removeATag, bind.
  destruct (IsReadOnly hm).
  - eexists _, w. split; reflexivity.
  - unfold getATag in Hg. cbv zeta in Hg.
    unfold bucket_Delete, nextFault, record. cbn [faults objects].
    destruct (faults w) as [|[|] fs]; cbn [objects]; rewrite ?Hg;
      eexists _, _; split; reflexivity.
Qed.

Lemma release_without_reservation_is_fatal_witness :
  exists (msg : string) (w' : World),
    DeleteReservation (mkStorage "mem://" "B") [xab] exampleWorld = (Fatal msg, w') /\
    objects w' = objects exampleWorld.
Proof.
  apply (release_without_reservation_is_fatal (mkStorage "mem://" "B") [xab] exampleWorld).
  reflexivity.
Defined.

Lemma keepsBucketIf_keeps {A : Type} (I : Bucket -> Prop) (m : M A) :
  keepsBucket m -> keepsBucketIf I m.
Proof. intros H w r w' _ E. exact (H w r w' E). Qed.

Lemma keepsBucketIf_bind {A B : Type} (I : Bucket -> Prop) (m : M A) (k : A -> M B) :
  keepsBucketIf I m -> (forall a, keepsBucketIf I (k a)) -> keepsBucketIf I (x <- m;; k x).
Proof.
  intros Hm Hk w r w' HI. unfold bind.
  destruct (m w) as [[a| | |] w1] eqn:E; intros H; pose proof (Hm _ _ _ HI E) as Ho.
  - rewrite <- Ho. apply (Hk a w1 r w'); [rewrite Ho; exact HI | exact H].
  - injection H as _ <-. exact Ho.
  - injection H as _ <-. exact Ho.
  - injection H as _ <-. exact Ho.
Qed.

(** A use tag that is there is not written again. *)
Lemma putATag_present (hm : GoCloudUrlStorage) (h : list byte) (tag : string) :
  keepsBucketIf (fun b => isSome (bucket_get (getATag hm h tag) b) = true)
    (putATag hm h tag false).
Proof.
  intros w r w' Hg. unfold putATag. destruct (IsReadOnly hm); [intros [= _ <-]; reflexivity|].
  cbn [negb]. unfold bind, bucket_Exists, nextFault, record. cbn [faults objects].
  destruct (faults w) as [|[|] fs]; cbn [objects]; try (intros [= _ <-]; reflexivity);
    (destruct (bucket_get _ (objects w)); [intros [= _ <-]; reflexivity | discriminate Hg]).
Qed.

(** X11: reserving again changes nothing: when the handle's use tag for
    the block is in the bucket, [ReserveAndGet] leaves the whole bucket
    as it is, the tag with its modification time included, whatever
    fails on the way and however many times it retries. *)
Theorem reserving_again_keeps_the_bucket (fuel : nat) (hm : GoCloudUrlStorage)
    (h : list byte) (downloadData : bool) (w : World) :
  isSome (bucket_get (getATag hm h BLOCK_USE_TAG) (objects w)) = true ->
  objects (snd (ReserveAndGet fuel hm h downloadData w)) = objects w.
Proof.
  intros Hg.
  set (I := fun b => isSome (bucket_get (getATag hm h BLOCK_USE_TAG) b) = true).
  assert (Hc : keepsBucketIf I (reserveAndCheckExistence hm h)).
  { unfold reserveAndCheckExistence. cbv zeta. apply keepsBucketIf_bind.
    - destruct (negb (IsReadOnly hm)); [apply putATag_present|].
      apply keepsBucketIf_keeps. auto with frame.
    - intros e. apply keepsBucketIf_keeps. repeat frame_step. }
  assert (Hl : keepsBucketIf I (ReserveAndGet_loop fuel hm h)).
  { induction fuel as [|fuel IH]; cbn [ReserveAndGet_loop];
      [apply keepsBucketIf_keeps; auto with frame|].
    apply keepsBucketIf_bind; [exact Hc|]. intros [ok retry].
    destruct retry; cbn [negb]; [|apply keepsBucketIf_keeps; auto with frame].
    apply keepsBucketIf_bind; [apply keepsBucketIf_keeps; auto with frame|].
    intros _. exact IH. }
  assert (H : keepsBucketIf I (ReserveAndGet fuel hm h downloadData)).
  { unfold ReserveAndGet.
    destruct (length h =? 0)%nat; [apply keepsBucketIf_keeps; auto with frame|].
    apply keepsBucketIf_bind; [exact Hl|]. intros ok.
    apply keepsBucketIf_keeps. repeat frame_step. }
  destruct (ReserveAndGet fuel hm h downloadData w) as [r w'] eqn:E.
  exact (H w r w' Hg E).
Qed.

Lemma reserving_again_keeps_the_bucket_witness :
  objects (snd (ReserveAndGet 3 (mkStorage "mem://" "A") [xab] true
                  (withFaults [false; true] exampleWorld))) = objects exampleWorld.
Proof.
  apply (reserving_again_keeps_the_bucket 3 (mkStorage "mem://" "A") [xab] true
           (withFaults [false; true] exampleWorld)).
  reflexivity.
Defined.

(** ** Enumeration: what the records are *)

Lemma completeIfNextHash_emitted (b : HashBlockStorageMapBuilder) (hs : string) :
  let b' := snd (completeIfNextHash b hs) in
  ownName b' = ownName b /\
  ((hs = currentHash b /\ b' = b) \/
   (hs <> currentHash b /\ currentHash b' = hs /\ currentState b' = emptyState /\
    emitted b' = emitted b ++ flushed b)).
Proof.
  unfold completeIfNextHash, flushed, cb. cbv zeta. cbn [snd].
  destruct (String.eqb_spec hs (currentHash b)) as [->|Hne]; cbn [negb].
  - split; [reflexivity|]. left. split; reflexivity.
  - destruct (dataExists (currentState b)); cbn [ownName emitted currentHash currentState];
      (split; [reflexivity|]); right; repeat split; try assumption.
    rewrite app_nil_r. reflexivity.
Qed.

Lemma applyOp_shape (b : HashBlockStorageMapBuilder) (hs : string) (op : BuilderOp) :
  op <> OpNone ->
  let b1 := snd (completeIfNextHash b hs) in
  applyOp b hs op =
    mkBuilder (ownName b1) (emitted b1) (currentHash b1) (stateOp (ownName b1) (currentState b1) op).
Proof.
  intros Hop. cbv zeta. destruct op as [|who| |]; cbn [applyOp stateOp]; try contradiction.
  - unfold addData. destruct (completeIfNextHash b hs) as [done b1] eqn:E.
    assert (done = false) as -> by (unfold completeIfNextHash in E; injection E as <- _; reflexivity).
    reflexivity.
  - unfold addUse. destruct (completeIfNextHash b hs) as [done b1] eqn:E.
    assert (done = false) as -> by (unfold completeIfNextHash in E; injection E as <- _; reflexivity).
    cbn [snd]. destruct (IsAvailable (currentState b1)); [|destruct b1; reflexivity].
    destruct (String.eqb who (ownName b1)); reflexivity.
  - unfold addDelete. destruct (completeIfNextHash b hs) as [done b1] eqn:E.
    assert (done = false) as -> by (unfold completeIfNextHash in E; injection E as <- _; reflexivity).
    reflexivity.
Qed.

(** What the builder has handed over stays handed over. *)
Lemma applyOp_emitted (b : HashBlockStorageMapBuilder) (hs : string) (op : BuilderOp) :
  exists l, emitted (applyOp b hs op) = emitted b ++ l /\
            (l = [] \/ (l = flushed b /\ hs <> currentHash b)).
Proof.
  assert (Hop : op = OpNone \/ op <> OpNone)
    by (destruct op; try (right; discriminate); left; reflexivity).
  destruct Hop as [->|Hop].
  - exists []. cbn [applyOp]. rewrite app_nil_r. split; [reflexivity | left; reflexivity].
  - rewrite (applyOp_shape b hs op Hop). cbn [emitted].
    destruct (completeIfNextHash_emitted b hs) as [_ [[_ ->]|(Hne & _ & _ & ->)]].
    + exists []. rewrite app_nil_r. split; [reflexivity | left; reflexivity].
    + exists (flushed b). split; [reflexivity | right; split; [reflexivity | exact Hne]].
Qed.

Lemma flushed_hash (b : HashBlockStorageMapBuilder) (h : list byte) :
  currentHash b = HashToStringMapKey h -> dataExists (currentState b) = true ->
  flushed b = [mkHashAndState h (currentState b)].
Proof.
  intros Hc Hd. unfold flushed. rewrite Hd, Hc, StringMapKeyToHash_roundtrip. reflexivity.
Qed.

Lemma applyOp_seen (b : HashBlockStorageMapBuilder) (hs : string) (op : BuilderOp)
    (h : list byte) :
  seenData b h -> seenData (applyOp b hs op) h.
Proof.
  intros [Hin|[Hc Hd]].
  - left. destruct (applyOp_emitted b hs op) as (l & -> & _).
    rewrite List.map_app. apply in_or_app. left. exact Hin.
  - assert (Hop : op = OpNone \/ op <> OpNone)
      by (destruct op; try (right; discriminate); left; reflexivity).
    destruct Hop as [->|Hop]; [right; split; assumption|].
    rewrite (applyOp_shape b hs op Hop).
    destruct (completeIfNextHash_emitted b hs) as [Ho [[_ ->]|(Hne & _ & _ & He)]].
    + right. cbn [currentHash currentState]. split; [exact Hc|].
      apply stateOp_dataExists, Hd.
    + left. cbn [emitted]. rewrite He, (flushed_hash b h Hc Hd), List.map_app.
      apply in_or_app. right. left. reflexivity.
Qed.

Lemma applyOp_data_seen (b : HashBlockStorageMapBuilder) (h : list byte) :
  seenData (applyOp b (HashToStringMapKey h) OpData) h.
Proof.
  right. rewrite applyOp_shape by discriminate. cbn [currentHash currentState stateOp dataExists].
  split; [|reflexivity].
  destruct (completeIfNextHash_emitted b (HashToStringMapKey h)) as [_ [[E ->]|(_ & E & _)]];
    [symmetry|]; exact E.
Qed.

Lemma close_emitted (b : HashBlockStorageMapBuilder) :
  exists l, emitted (close b) = emitted b ++ l.
Proof.
  unfold close. destruct (completeIfNextHash_emitted b "") as [_ [[_ ->]|(_ & _ & _ & ->)]].
  - exists []. rewrite app_nil_r. reflexivity.
  - eexists. reflexivity.
Qed.

Lemma hex_nonempty (h : list byte) : h <> [] -> HashToStringMapKey h <> "".
Proof. destruct h as [|b r]; [contradiction|]. intros _. cbn. discriminate. Qed.

Lemma close_seen (b : HashBlockStorageMapBuilder) (h : list byte) :
  h <> [] -> seenData b h -> In h (List.map hash (emitted (close b))).
Proof.
  intros Hne [Hin|[Hc Hd]].
  - destruct (close_emitted b) as [l ->]. rewrite List.map_app. apply in_or_app. left. exact Hin.
  - unfold close. destruct (completeIfNextHash_emitted b "") as [_ [[E _]|(_ & _ & _ & ->)]].
    + exfalso. apply (hex_nonempty h Hne). rewrite <- Hc, <- E. reflexivity.
    + rewrite (flushed_hash b h Hc Hd), List.map_app. apply in_or_app. right. left. reflexivity.
Qed.

Lemma processObject_body (now : Z) (b : HashBlockStorageMapBuilder) (obj : ListObject)
    (h : list byte) :
  Key obj = getBlockStringKey h ->
  processObject now b obj = applyOp b (HashToStringMapKey h) OpData.
Proof.
  intros Hk. destruct obj as [key mt]. cbn [Key] in Hk. subst key.
  unfold getBlockStringKey. change ((BlockDataSubFolder +:+ "/") +:+ HashToStringMapKey h)
    with ("blocks/" +:+ HashToStringMapKey h).
  apply processObject_data, noDot_HashToStringMapKey.
Qed.

(** Whatever keys the listing holds, a body that was listed has its
    record handed over or under way. *)
Lemma fold_seen (now : Z) (objs : list ListObject) (b : HashBlockStorageMapBuilder)
    (h : list byte) :
  seenData b h \/ (exists obj, In obj objs /\ Key obj = getBlockStringKey h) ->
  seenData (fold_left (processObject now) objs b) h.
Proof.
  revert b. induction objs as [|obj objs IH]; intros b H; cbn [fold_left].
  - destruct H as [H|(obj & [] & _)]. exact H.
  - apply IH. destruct H as [H|(o & [<-|Hin] & Hk)].
    + left. rewrite processObject_key. apply applyOp_seen, H.
    + left. rewrite (processObject_body now b obj h Hk). apply applyOp_data_seen.
    + right. exists o. split; assumption.
Qed.

Lemma applyOp_allData (b : HashBlockStorageMapBuilder) (hs : string) (op : BuilderOp) :
  allData b -> allData (applyOp b hs op).
Proof.
  unfold allData. intros H. destruct (applyOp_emitted b hs op) as (l & -> & [->|[-> _]]).
  - rewrite app_nil_r. exact H.
  - apply Forall_app. split; [exact H|]. unfold flushed.
    destruct (dataExists (currentState b)) eqn:E; constructor; [exact E | constructor].
Qed.

Lemma close_allData (b : HashBlockStorageMapBuilder) : allData b -> allData (close b).
Proof.
  unfold allData, close. intros H.
  destruct (completeIfNextHash_emitted b "") as [_ [[_ ->]|(_ & _ & _ & ->)]]; [exact H|].
  apply Forall_app. split; [exact H|]. unfold flushed.
  destruct (dataExists (currentState b)) eqn:E; constructor; [exact E | constructor].
Qed.

Lemma fold_allData (now : Z) (objs : list ListObject) (b : HashBlockStorageMapBuilder) :
  allData b -> allData (fold_left (processObject now) objs b).
Proof.
  revert b. induction objs as [|obj objs IH]; intros b H; cbn [fold_left]; [exact H|].
  apply IH. rewrite processObject_key. apply applyOp_allData, H.
Qed.

Lemma fold_emitted (now : Z) (objs : list ListObject) (b : HashBlockStorageMapBuilder) :
  exists l, emitted (fold_left (processObject now) objs b) = emitted b ++ l.
Proof.
  revert b. induction objs as [|obj objs IH]; intros b; cbn [fold_left].
  - exists []. rewrite app_nil_r. reflexivity.
  - destruct (IH (processObject now b obj)) as [l ->].
    rewrite processObject_key. destruct (applyOp_emitted b (keyHashString obj) (keyOp now obj))
      as (l' & -> & _).
    exists (l' ++ l). rewrite app_assoc. reflexivity.
Qed.

(** ** A pass that nothing disturbs *)

Lemma IsDone_quiet (w : World) : polls w = None -> IsDone w = (Ok false, w).
Proof. intros H. unfold IsDone. rewrite H. reflexivity. Qed.

Lemma iteratePage_quiet (page : list ListObject) (it : HashBlockStorageMapBuilder) (w : World) :
  polls w = None ->
  iteratePage page it w = (Ok (false, fold_left (processObject (clock w)) page it), w).
Proof.
  intros Hp. revert it. induction page as [|obj rest IH]; intros it; [reflexivity|].
  cbn [iteratePage fold_left]. unfold bind, getClock. rewrite (IsDone_quiet w Hp). apply IH.
Qed.

Lemma iteratePages_quiet (fuel : nat) (prefix : string) (tok : nat)
    (it : HashBlockStorageMapBuilder) (w : World) :
  quiet w ->
  (length (skipn tok (bucket_list prefix (objects w))) < fuel)%nat ->
  exists w',
    iteratePages fuel prefix tok it w =
      (Ok (None, close (fold_left (processObject (clock w))
                          (skipn tok (bucket_list prefix (objects w))) it)), w') /\
    objects w' = objects w /\ sameTimes w w'.
Proof.
  revert tok it w. induction fuel as [|fuel IH]; intros tok it w [Hf Hp] Hfuel; [lia|].
  cbn [iteratePages]. unfold bind at 1. rewrite (IsDone_quiet w Hp). cbv zeta.
  assert (Hn : (0 < 1024 * 4)%nat) by lia.
  revert Hn. generalize (1024 * 4)%nat as n. intros n Hn.
  destruct (bucket_ListPage_quiet prefix tok n w Hf) as (w1 & Hl & Ho1 & Ht1).
  unfold bind at 1. rewrite Hl.
  assert (Hp1 : polls w1 = None) by (destruct Ht1 as (_ & _ & -> & _); exact Hp).
  assert (Hf1 : faults w1 = []) by (destruct Ht1 as (_ & -> & _); exact Hf).
  assert (Hc1 : clock w1 = clock w) by (destruct Ht1 as (-> & _); reflexivity).
  unfold bind at 1. rewrite (iteratePage_quiet _ _ w1 Hp1), Hc1.
  set (L := skipn tok (bucket_list prefix (objects w))) in *.
  destruct (Nat.ltb_spec n (length L)) as [Hlt|Hge].
  - assert (Hskip : skipn (tok + n) (bucket_list prefix (objects w1)) = skipn n L).
    { rewrite Ho1. unfold L. rewrite List.skipn_skipn. f_equal. lia. }
    destruct (IH (tok + n)%nat (fold_left (processObject (clock w)) (firstn n L) it) w1)
      as (w2 & Hrun & Ho2 & Ht2).
    { split; assumption. }
    { rewrite Hskip, List.length_skipn. lia. }
    exists w2. rewrite Hrun, Hskip, Hc1, <- fold_left_app, List.firstn_skipn.
    split; [reflexivity|]. split; [rewrite Ho2; exact Ho1|].
    exact (sameTimes_trans _ _ _ Ht1 Ht2).
  - exists w1. rewrite List.firstn_all2 by exact Hge.
    split; [reflexivity|]. split; assumption.
Qed.

(** [IterateBlocksInternal], when nothing fails and nothing is cancelled,
    returns no error and hands over the records of the full scan. *)
Lemma IterateBlocksInternal_quiet (hm : GoCloudUrlStorage) (prefix : string) (w : World) :
  quiet w ->
  exists w',
    IterateBlocksInternal hm prefix w =
      (Ok (None, fullScan (myDeviceId hm) (clock w) prefix (objects w)), w') /\
    objects w' = objects w /\ sameTimes w w'.
Proof.
  intros Hq. unfold IterateBlocksInternal. cbv zeta.
  destruct (iteratePages_quiet (S (length (objects w))) ((BlockDataSubFolder +:+ "/") +:+ prefix) 0
              (NewHashBlockStorageMapBuilder (myDeviceId hm)) w Hq)
    as (w' & Hrun & Ho & Ht).
  { rewrite List.skipn_0.
    pose proof (bucket_list_length ((BlockDataSubFolder +:+ "/") +:+ prefix) (objects w)). lia. }
  exists w'. unfold bind. rewrite Hrun. rewrite List.skipn_0.
  split; [reflexivity|]. split; assumption.
Qed.

(** Whatever happens, [IterateBlocksInternal] hands over an initial
    segment of the records of the full scan, and all of them when it
    returns no error. *)
Lemma IterateBlocksInternal_segment (hm : GoCloudUrlStorage) (prefix : string) (w : World) :
  exists (e : option error) (recs rest : list HashAndState) (w' : World),
    IterateBlocksInternal hm prefix w = (Ok (e, recs), w') /\
    fullScan (myDeviceId hm) (clock w) prefix (objects w) = recs ++ rest /\
    (e = None -> rest = []) /\ sameBucket w w'.
Proof.
  destruct (IterateBlocksInternal_spec hm prefix w) as (e & pre & post & w' & Hrun & Hl & Hc & Hs).
  unfold fullScan. change ((BlockDataSubFolder +:+ "/") +:+ prefix) with ("blocks/" +:+ prefix).
  rewrite Hl. destruct e as [e|].
  - rewrite fold_left_app.
    set (b := fold_left (processObject (clock w)) pre
                (NewHashBlockStorageMapBuilder (myDeviceId hm))) in *.
    destruct (fold_emitted (clock w) post b) as [l1 E1].
    destruct (close_emitted (fold_left (processObject (clock w)) post b)) as [l2 E2].
    exists (Some e), (emitted b), (l1 ++ l2), w'.
    split; [exact Hrun|]. split; [|split; [discriminate | exact Hs]].
    rewrite E2, E1, app_assoc. reflexivity.
  - rewrite (Hc eq_refl), app_nil_r. eexists None, _, [], w'.
    split; [exact Hrun|]. split; [|split; [reflexivity | exact Hs]].
    rewrite app_nil_r. reflexivity.
Qed.

Lemma fullScan_allData (own : string) (now : Z) (prefix : string) (b : Bucket) :
  List.Forall (fun d => dataExists (state d) = true) (fullScan own now prefix b).
Proof.
  unfold fullScan. apply close_allData, fold_allData. constructor.
Qed.

(** The full scan under [prefix] has the record of every block with a
    non-empty hash under that prefix whose body is in the bucket. *)
Lemma fullScan_complete (own : string) (now : Z) (prefix : string) (b : Bucket) (h : list byte) :
  h <> [] -> In (getBlockStringKey h) (bucket_keys b) ->
  String.prefix prefix (HashToStringMapKey h) = true ->
  In h (List.map hash (fullScan own now prefix b)).
Proof.
  intros Hne Hin Hp. unfold fullScan. apply close_seen; [exact Hne|].
  apply fold_seen. right.
  apply (bucket_list_has ((BlockDataSubFolder +:+ "/") +:+ prefix)) in Hin; [exact Hin|].
  apply prefix_inv in Hp as [r Hr]. unfold getBlockStringKey. rewrite Hr.
  change (BlockDataSubFolder +:+ "/" +:+ prefix +:+ r)
    with ((BlockDataSubFolder +:+ "/") +:+ (prefix +:+ r)).
  rewrite <- str_app_assoc. apply prefix_app.
Qed.

(** ** The sharded pass that nothing disturbs *)

Lemma partChannel_quiet (hm : GoCloudUrlStorage) (i : nat) (w : World) :
  quiet w ->
  partChannel hm i w =
    List.map (fun r => mkHashStateAndError r None)
      (fullScan (myDeviceId hm) (clock w) (HashToStringMapKey [shardByte i]) (objects w)).
Proof.
  intros Hq. unfold partChannel. cbv zeta.
  destruct (IterateBlocksInternal_quiet hm (HashToStringMapKey [shardByte i]) w Hq)
    as (w' & -> & _).
  rewrite app_nil_r. reflexivity.
Qed.

Lemma startShards_quiet (hm : GoCloudUrlStorage) (shard : nat -> World) (shards : list nat)
    (w : World) :
  polls w = None ->
  startShards hm shard shards w =
    (Ok (List.map (fun i => partChannel hm i (shard i)) shards), w).
Proof.
  intros Hp. induction shards as [|i rest IH]; [reflexivity|].
  cbn [startShards List.map]. unfold bind at 1. rewrite (IsDone_quiet w Hp).
  unfold bind. rewrite IH. reflexivity.
Qed.

Lemma rangeChannel_quiet (recs out : list HashAndState) (w : World) :
  polls w = None ->
  rangeChannel (List.map (fun r => mkHashStateAndError r None) recs) out w =
    (Ok (None, out ++ recs), w).
Proof.
  intros Hp. revert out. induction recs as [|r recs IH]; intros out.
  - cbn. rewrite app_nil_r. reflexivity.
  - cbn [List.map rangeChannel]. unfold bind. rewrite (IsDone_quiet w Hp).
    cbn [err d]. rewrite IH, <- app_assoc. reflexivity.
Qed.

Lemma rangeChannels_quiet (rs : list (list HashAndState)) (out : list HashAndState) (w : World) :
  polls w = None ->
  rangeChannels (List.map (List.map (fun r => mkHashStateAndError r None)) rs) out w =
    (Ok (None, out ++ concat rs), w).
Proof.
  intros Hp. revert out. induction rs as [|r rs IH]; intros out.
  - cbn. rewrite app_nil_r. reflexivity.
  - cbn [List.map rangeChannels concat]. unfold bind at 1. rewrite (IsDone_quiet w Hp).
    unfold bind at 1. rewrite (rangeChannel_quiet r out w Hp).
    rewrite IH, <- app_assoc. reflexivity.
Qed.

(** [IterateBlocks], when no goroutine meets a failure or a
    cancellation, returns no error and hands over the full pass. *)
Lemma IterateBlocks_quiet (hm : GoCloudUrlStorage) (producer : World) (shard : nat -> World)
    (w : World) :
  polls producer = None -> polls w = None -> (forall i, quiet (shard i)) ->
  IterateBlocks hm producer shard w = (Ok (None, fullPass (myDeviceId hm) shard), w).
Proof.
  intros Hpp Hpw Hq. unfold IterateBlocks. cbv zeta.
  rewrite (startShards_quiet hm shard (seq 0 256) producer Hpp).
  rewrite (List.map_ext_in _ (fun i => List.map (fun r => mkHashStateAndError r None)
             (fullScan (myDeviceId hm) (clock (shard i)) (HashToStringMapKey [shardByte i])
                (objects (shard i))))) by (intros i _; apply partChannel_quiet, Hq).
  rewrite <- (List.map_map
                (fun i => fullScan (myDeviceId hm) (clock (shard i))
                            (HashToStringMapKey [shardByte i]) (objects (shard i)))
                (List.map (fun r => mkHashStateAndError r None))).
  rewrite (rangeChannels_quiet _ [] w Hpw). cbn [app].
  unfold fullPass. rewrite List.flat_map_concat_map. reflexivity.
Qed.

(** ** Records and bodies *)

Lemma Split_length_noDot (s : string) :
  (length (Split s ".") <=? 1)%nat = true -> noDot s = true.
Proof.
  induction s as [|c s IH]; [reflexivity|].
  cbn [Split noDot]. destruct (Ascii.eqb c ".") eqn:E; cbn [negb andb].
  - cbn [length]. pose proof (Split_nonempty s ".") as Hne.
    destruct (Split s "."); [contradiction | discriminate].
  - intros H. apply IH. destruct (Split s "."); exact H.
Qed.

Lemma applyOp_fromBodies (S : string -> Prop) (b : HashBlockStorageMapBuilder) (hs : string)
    (op : BuilderOp) :
  (op = OpData -> S hs) -> fromBodies S b -> fromBodies S (applyOp b hs op).
Proof.
  intros Hop [Hem Hcur].
  assert (Hn : op = OpNone \/ op <> OpNone)
    by (destruct op; try (right; discriminate); left; reflexivity).
  destruct Hn as [->|Hn]; [split; assumption|].
  rewrite (applyOp_shape b hs op Hn).
  destruct (completeIfNextHash_emitted b hs) as [_ [[E ->]|(_ & Hc & Hs & He)]].
  - split; cbn [emitted currentState currentHash]; [exact Hem|].
    destruct op as [|who| |]; cbn [stateOp].
    + intros _. rewrite <- E. apply Hop. reflexivity.
    + destruct (IsAvailable _); [destruct (String.eqb _ _)|]; exact Hcur.
    + exact Hcur.
    + contradiction.
  - split; cbn [emitted currentState currentHash].
    + rewrite He. apply Forall_app. split; [exact Hem|]. unfold flushed.
      destruct (dataExists (currentState b)) eqn:Ed; constructor; [|constructor].
      exists (currentHash b). split; [exact (Hcur eq_refl) | reflexivity].
    + rewrite Hs, Hc. destruct op as [|who| |]; cbn; try discriminate.
      intros _. apply Hop. reflexivity.
Qed.

Lemma keyOp_data_body (now : Z) (b : Bucket) (prefix : string) (obj : ListObject) :
  In obj (bucket_list ("blocks/" +:+ prefix) b) ->
  keyOp now obj = OpData ->
  bodyString b (keyHashString obj) /\ String.prefix prefix (keyHashString obj) = true.
Proof.
  intros Hin Hop. apply bucket_list_In in Hin as [Hin Hp].
  apply prefix_inv in Hp as [r Hr]. rewrite str_app_assoc in Hr.
  unfold keyOp, keyHashString in *. cbv zeta in *.
  rewrite Hr in *. change (BlockDataSubFolder +:+ "/") with "blocks/" in *.
  rewrite CutPrefix_app in *. cbn [fst] in *.
  destruct (length (Split (prefix +:+ r) ".") <=? 1)%nat eqn:E.
  - split; [split; [exact Hin | apply Split_length_noDot, E] | apply prefix_app].
  - destruct (String.eqb _ BLOCK_USE_TAG && _); [discriminate|].
    destruct (String.eqb _ BLOCK_DELETE_TAG); [|discriminate].
    destruct (_ <? _)%Z; discriminate.
Qed.

Lemma fold_fromBodies (now : Z) (bk : Bucket) (prefix : string) (objs : list ListObject)
    (b : HashBlockStorageMapBuilder) :
  (forall obj, In obj objs -> In obj (bucket_list ("blocks/" +:+ prefix) bk)) ->
  fromBodies (fun hs => bodyString bk hs /\ String.prefix prefix hs = true) b ->
  fromBodies (fun hs => bodyString bk hs /\ String.prefix prefix hs = true)
    (fold_left (processObject now) objs b).
Proof.
  revert b. induction objs as [|obj objs IH]; intros b Hin H; cbn [fold_left]; [exact H|].
  apply IH; [intros o Ho; apply Hin; right; exact Ho|].
  rewrite processObject_key. apply applyOp_fromBodies; [|exact H].
  apply (keyOp_data_body now bk prefix). apply Hin. left. reflexivity.
Qed.

Lemma close_fromBodies (S : string -> Prop) (b : HashBlockStorageMapBuilder) :
  fromBodies S b ->
  List.Forall (fun d => exists hs, S hs /\ hash d = StringMapKeyToHashNoError hs)
    (emitted (close b)).
Proof.
  intros [Hem Hcur]. unfold close.
  destruct (completeIfNextHash_emitted b "") as [_ [[_ ->]|(_ & _ & _ & ->)]]; [exact Hem|].
  apply Forall_app. split; [exact Hem|]. unfold flushed.
  destruct (dataExists (currentState b)) eqn:Ed; constructor; [|constructor].
  exists (currentHash b). split; [exact (Hcur eq_refl) | reflexivity].
Qed.

Lemma tagSuffix_noDot (s : string) : tagSuffix s -> noDot s = true -> s = "".
Proof. intros [->|[r ->]] H; [reflexivity | cbn in H; discriminate]. Qed.

(** In a well-formed bucket a body key is the key of the body of a
    hash. *)
Lemma bodyString_hash (b : Bucket) (hs : string) :
  wellFormedBucket b -> bodyString b hs ->
  exists h, hs = HashToStringMapKey h /\ In (getBlockStringKey h) (bucket_keys b).
Proof.
  intros [_ Hschema] [Hin Hnd].
  destruct (Hschema _ Hin (prefix_app "blocks/" hs)) as (h & s & Hs & Hk).
  apply str_app_inv_head in Hk. subst hs.
  rewrite noDot_app in Hnd. apply andb_true_iff in Hnd as [_ Hnd].
  rewrite (tagSuffix_noDot s Hs Hnd), str_app_nil_r in *.
  exists h. split; [reflexivity | exact Hin].
Qed.

(** In a well-formed bucket the full scan under [prefix] has records
    only of hashes under that prefix whose body is in the bucket. *)
Lemma fullScan_sound (own : string) (now : Z) (prefix : string) (b : Bucket) (h : list byte) :
  wellFormedBucket b ->
  In h (List.map hash (fullScan own now prefix b)) ->
  In (getBlockStringKey h) (bucket_keys b) /\
  String.prefix prefix (HashToStringMapKey h) = true.
Proof.
  intros Hwf Hin. apply in_map_iff in Hin as (d & <- & Hin).
  assert (Hall : List.Forall
            (fun d => exists hs, (bodyString b hs /\ String.prefix prefix hs = true) /\
                      hash d = StringMapKeyToHashNoError hs)
            (fullScan own now prefix b)).
  { unfold fullScan. apply close_fromBodies. apply (fold_fromBodies now b prefix).
    - intros obj Ho. exact Ho.
    - split; [constructor | discriminate]. }
  rewrite List.Forall_forall in Hall. destruct (Hall d Hin) as (hs & [Hbody Hp] & Hd).
  destruct (bodyString_hash b hs Hwf Hbody) as (h & -> & Hin').
  rewrite Hd, StringMapKeyToHash_roundtrip. split; [exact Hin' | exact Hp].
Qed.

(** ** The sharded pass, whatever happens *)

Lemma partChannel_segment (hm : GoCloudUrlStorage) (i : nat) (w : World) :
  segmentOf (fullScan (myDeviceId hm) (clock w) (HashToStringMapKey [shardByte i]) (objects w))
    (partChannel hm i w).
Proof.
  unfold partChannel. cbv zeta.
  destruct (IterateBlocksInternal_segment hm (HashToStringMapKey [shardByte i]) w)
    as (e & recs & rest & w' & -> & Hfull & Hc & _).
  exists recs, rest. destruct e as [e|].
  - exists [errorEntry e]. split; [reflexivity|]. split; [right; exists e; reflexivity|].
    split; [exact Hfull | discriminate].
  - exists []. split; [reflexivity|]. split; [left; reflexivity|].
    split; [exact Hfull | intros _; exact (Hc eq_refl)].
Qed.

Lemma rangeChannel_segment (recs : list HashAndState) (tail : list HashStateAndError)
    (out : list HashAndState) (w : World) :
  (tail = [] \/ exists e, tail = [errorEntry e]) ->
  exists (r : option (option error)) (pre post : list HashAndState) (w' : World),
    rangeChannel (List.map (fun r => mkHashStateAndError r None) recs ++ tail) out w =
      (Ok (r, out ++ pre), w') /\
    recs = pre ++ post /\ (r = None -> post = [] /\ tail = []) /\
    (forall e, r = Some (Some e) -> tail = [errorEntry e]).
Proof.
  intros Ht. revert out w. induction recs as [|r0 recs IH]; intros out w.
  - cbn [List.map app]. destruct Ht as [->|[e ->]].
    + exists None, [], [], w. cbn. rewrite app_nil_r.
      repeat split; try reflexivity. discriminate.
    + cbn [rangeChannel]. unfold bind.
      destruct (IsDone_spec w) as (c & w1 & -> & _). destruct c.
      * exists (Some None), [], [], w1. rewrite app_nil_r.
        repeat split; try reflexivity; discriminate.
      * cbn [err errorEntry]. exists (Some (Some e)), [], [], w1. rewrite app_nil_r.
        repeat split; try reflexivity; try discriminate. intros e' [= ->]. reflexivity.
  - cbn [List.map app rangeChannel]. unfold bind at 1.
    destruct (IsDone_spec w) as (c & w1 & -> & _). destruct c.
    + exists (Some None), [], (r0 :: recs), w1. rewrite app_nil_r.
      repeat split; try reflexivity; discriminate.
    + cbn [err d]. destruct (IH (out ++ [r0]) w1) as (r & pre & post & w' & Hrun & Hp & Hn & He).
      exists r, (r0 :: pre), post, w'. rewrite Hrun, <- app_assoc.
      split; [reflexivity|]. split; [rewrite Hp; reflexivity|]. split; assumption.
Qed.

(** The consuming loop hands over an initial segment of the records the
    shards have for it, in the order of the shards. *)
Lemma rangeChannels_segment (fulls : list (list HashAndState))
    (chans : list (list HashStateAndError)) (out : list HashAndState) (w : World) :
  Forall2 segmentOf fulls chans ->
  exists (e : option error) (pre post : list HashAndState) (w' : World),
    rangeChannels chans out w = (Ok (e, out ++ pre), w') /\
    concat fulls = pre ++ post /\
    (forall e', e = Some e' -> exists chan, In chan chans /\ In (errorEntry e') chan).
Proof.
  intros H. revert out w. induction H as [|full chan fulls chans Hseg _ IH]; intros out w.
  - exists None, [], [], w. cbn. rewrite app_nil_r. repeat split. discriminate.
  - cbn [rangeChannels concat]. unfold bind at 1.
    destruct (IsDone_spec w) as (c & w1 & -> & _). destruct c.
    { exists None, [], (full ++ concat fulls), w1. rewrite app_nil_r.
      repeat split. discriminate. }
    destruct Hseg as (recs & rest & tail & -> & Ht & -> & Hrest).
    destruct (rangeChannel_segment recs tail out w1 Ht) as (r & pre & post & w2 & Hrun & Hp & Hn & He).
    unfold bind at 1. rewrite Hrun. destruct r as [e|].
    + exists e, pre, (post ++ rest ++ concat fulls), w2.
      split; [reflexivity|]. split; [rewrite Hp, <- !app_assoc; reflexivity|].
      intros e' ->. exists (List.map (fun r => mkHashStateAndError r None) recs ++ tail).
      split; [left; reflexivity|]. rewrite (He e' eq_refl).
      apply in_or_app. right. left. reflexivity.
    + destruct (Hn eq_refl) as [-> ->]. rewrite (Hrest eq_refl), !app_nil_r in *. subst recs.
      destruct (IH (out ++ pre) w2) as (e & pre2 & post2 & w3 & Hrun3 & Hp3 & He3).
      exists e, (pre ++ pre2), post2, w3. rewrite Hrun3, <- !app_assoc.
      split; [reflexivity|]. split; [rewrite Hp3; reflexivity|].
      intros e' Ee. destruct (He3 e' Ee) as (chan & Hin & Hx).
      exists chan. split; [right; exact Hin | exact Hx].
Qed.

Lemma partChannel_error (hm : GoCloudUrlStorage) (i : nat) (w : World) (e : error) :
  In (errorEntry e) (partChannel hm i w) ->
  exists (recs : list HashAndState) (w' : World),
    IterateBlocksInternal hm (HashToStringMapKey [shardByte i]) w = (Ok (Some e, recs), w').
Proof.
  unfold partChannel. cbv zeta.
  destruct (IterateBlocksInternal hm (HashToStringMapKey [shardByte i]) w)
    as [[[e0 recs]| | |] w'] eqn:Hrun; try (intros []).
  intros Hin. apply in_app_or in Hin as [Hin|Hin].
  - apply in_map_iff in Hin as (r & Hr & _). discriminate Hr.
  - destruct e0 as [e0|]; [|destruct Hin]. destruct Hin as [[= ->]|[]].
    exists recs, w'. reflexivity.
Qed.

(** What [IterateBlocks] hands over is an initial segment of the full
    pass, and an error it returns is the error of a shard. *)
Lemma IterateBlocks_segment (hm : GoCloudUrlStorage) (producer : World) (shard : nat -> World)
    (w : World) :
  exists (e : option error) (recs rest : list HashAndState) (w' : World),
    IterateBlocks hm producer shard w = (Ok (e, recs), w') /\
    fullPass (myDeviceId hm) shard = recs ++ rest /\
    (forall e', e = Some e' ->
       exists (i : nat) (recs_i : list HashAndState) (w_i : World),
         (i < 256)%nat /\
         IterateBlocksInternal hm (HashToStringMapKey [shardByte i]) (shard i) =
           (Ok (Some e', recs_i), w_i)).
Proof.
  unfold IterateBlocks. cbv zeta.
  destruct (startShards_spec hm shard (seq 0 256) producer) as (k & pw & ->).
  set (full := fun i => fullScan (myDeviceId hm) (clock (shard i))
                          (HashToStringMapKey [shardByte i]) (objects (shard i))).
  destruct (rangeChannels_segment (List.map full (firstn k (seq 0 256)))
              (List.map (fun i => partChannel hm i (shard i)) (firstn k (seq 0 256))) [] w)
    as (e & pre & post & w' & Hrun & Hp & He).
  { induction (firstn k (seq 0 256)) as [|i l IHl]; cbn [List.map]; constructor;
      [apply partChannel_segment | exact IHl]. }
  exists e, pre, (post ++ concat (List.map full (skipn k (seq 0 256)))), w'.
  split; [exact Hrun|]. split.
  - unfold fullPass. fold full. rewrite List.flat_map_concat_map.
    rewrite <- (List.firstn_skipn k (seq 0 256)) at 1.
    rewrite List.map_app, List.concat_app, Hp, <- app_assoc. reflexivity.
  - intros e' Ee. destruct (He e' Ee) as (chan & Hin & Hx).
    apply in_map_iff in Hin as (i & <- & Hi).
    apply In_firstn_inv, in_seq in Hi.
    destruct (partChannel_error hm i (shard i) e' Hx) as (recs_i & w_i & Hrun_i).
    exists i, recs_i, w_i. split; [lia | exact Hrun_i].
Qed.

(** ** The full pass over a well-formed bucket *)

Lemma fullScan_shard (own : string) (now : Z) (i : nat) (b : Bucket) :
  wellFormedBucket b ->
  StronglySorted hash_lt
    (List.map hash (fullScan own now (HashToStringMapKey [shardByte i]) b)) /\
  List.Forall (inShard i)
    (List.map hash (fullScan own now (HashToStringMapKey [shardByte i]) b)).
Proof.
  intros Hwf.
  destruct (IterateBlocksInternal_quiet (mkStorage "" own) (HashToStringMapKey [shardByte i])
              (mkWorld b now [] None [] [])) as (w' & Hrun & _); [split; reflexivity|].
  exact (shard_records (mkStorage "" own) i (mkWorld b now [] None [] []) w' None _ Hwf Hrun).
Qed.

Lemma fullPass_sorted (own : string) (shard : nat -> World) :
  (forall i, wellFormedBucket (objects (shard i))) ->
  StronglySorted hash_lt (List.map hash (fullPass own shard)).
Proof.
  intros Hwf. unfold fullPass.
  apply (shards_sorted (fun i => fullScan own (clock (shard i))
                                   (HashToStringMapKey [shardByte i]) (objects (shard i)))).
  - apply seq_sorted.
  - intros i Hi. apply in_seq in Hi. split; [lia|]. apply fullScan_shard, Hwf.
Qed.

Lemma shardByte_of_byte (b0 : byte) : shardByte (N.to_nat (Byte.to_N b0)) = b0.
Proof. unfold shardByte. rewrite N2Nat.id, Byte.of_to_N. reflexivity. Qed.

Lemma to_N_lt_256 (b0 : byte) : (N.to_nat (Byte.to_N b0) < 256)%nat.
Proof. pose proof (Byte.to_N_bounded b0). lia. Qed.

(** Over one well-formed bucket the full pass has the record of a hash
    exactly when the hash is not empty and its body is in the bucket. *)
Lemma fullPass_exact (own : string) (shard : nat -> World) (b : Bucket) (h : list byte) :
  (forall i, objects (shard i) = b) -> wellFormedBucket b ->
  In h (List.map hash (fullPass own shard)) <->
  h <> [] /\ In (getBlockStringKey h) (bucket_keys b).
Proof.
  intros Hb Hwf. unfold fullPass. rewrite List.flat_map_concat_map, List.concat_map, List.map_map.
  rewrite <- List.flat_map_concat_map, in_flat_map. split.
  - intros (i & _ & Hin). rewrite Hb in Hin.
    destruct (fullScan_sound own _ _ b h Hwf Hin) as [Hk Hp]. split; [|exact Hk].
    intros ->. cbn in Hp. unfold hex_of_byte in Hp. cbn in Hp. discriminate.
  - intros [Hne Hk]. destruct h as [|b0 r]; [contradiction|].
    exists (N.to_nat (Byte.to_N b0)). split; [apply in_seq; pose proof (to_N_lt_256 b0); lia|].
    rewrite Hb. apply fullScan_complete; [discriminate | exact Hk|].
    rewrite shardByte_of_byte. cbn [HashToStringMapKey]. rewrite str_app_nil_r. apply prefix_app.
Qed.

Lemma Forall_app_l {A : Type} (P : A -> Prop) (l1 l2 : list A) :
  List.Forall P (l1 ++ l2) -> List.Forall P l1.
Proof. intros H. apply Forall_app in H as [H _]. exact H. Qed.

Lemma fullPass_allData (own : string) (shard : nat -> World) :
  List.Forall (fun d => dataExists (state d) = true) (fullPass own shard).
Proof.
  unfold fullPass. apply List.Forall_forall. intros x Hx.
  apply in_flat_map in Hx as (i & _ & Hx).
  pose proof (fullScan_allData own (clock (shard i)) (HashToStringMapKey [shardByte i])
                (objects (shard i))) as H.
  rewrite List.Forall_forall in H. exact (H x Hx).
Qed.

Lemma last_state (recs : list HashAndState) (s : HashBlockState) :
  List.Forall (fun d => dataExists (state d) = true) recs ->
  fold_left (fun (blockState : HashBlockState) (d : HashAndState) => state d) recs s = s \/
  dataExists (fold_left (fun (blockState : HashBlockState) (d : HashAndState) => state d)
                recs s) = true.
Proof.
  revert s. induction recs as [|r recs IH]; intros s H; cbn [fold_left]; [left; reflexivity|].
  apply List.Forall_cons_iff in H as [Hr H]. right.
  destruct (IH (state r) H) as [->| ->]; [exact Hr | reflexivity].
Qed.

(** X12: a scan reports only blocks whose body exists: every record
    that [IterateBlocksInternal] or [IterateBlocks] hands over has
    [dataExists] set, whatever the bucket holds (tags without a body
    included) and however the pass ends; [GetBlockHashState] returns
    either the zero state or a state with [dataExists] set. *)
Theorem scan_reports_existing_bodies_only (hm : GoCloudUrlStorage) (prefix : string)
    (h : list byte) (producer : World) (shard : nat -> World) (w : World) :
  (exists (e : option error) (recs : list HashAndState) (w' : World),
     IterateBlocksInternal hm prefix w = (Ok (e, recs), w') /\
     List.Forall (fun d => dataExists (state d) = true) recs) /\
  (exists (e : option error) (recs : list HashAndState) (w' : World),
     IterateBlocks hm producer shard w = (Ok (e, recs), w') /\
     List.Forall (fun d => dataExists (state d) = true) recs) /\
  (exists (st : HashBlockState) (w' : World),
     GetBlockHashState hm h w = (Ok st, w') /\
     (st = emptyState \/ dataExists st = true)).
Proof.
  split; [|split].
  - destruct (IterateBlocksInternal_segment hm prefix w) as (e & recs & rest & w' & Hrun & Hf & _).
    exists e, recs, w'. split; [exact Hrun|].
    apply (Forall_app_l _ recs rest). rewrite <- Hf. apply fullScan_allData.
  - destruct (IterateBlocks_segment hm producer shard w) as (e & recs & rest & w' & Hrun & Hf & _).
    exists e, recs, w'. split; [exact Hrun|].
    apply (Forall_app_l _ recs rest). rewrite <- Hf. apply fullPass_allData.
  - destruct (IterateBlocksInternal_segment hm (HashToStringMapKey h) w)
      as (e & recs & rest & w' & Hrun & Hf & _).
    unfold GetBlockHashState, bind. rewrite Hrun. cbn [snd]. eexists _, w'.
    split; [reflexivity|]. apply last_state.
    apply (Forall_app_l _ recs rest). rewrite <- Hf. apply fullScan_allData.
Qed.

(** X13: whatever fails or is cancelled, in whichever goroutine, a
    pass hands over an initial segment of the records of the pass that
    nothing disturbs: [IterateBlocksInternal] of the listing under its
    prefix processed in one piece (the pages of 4096 keys do not show),
    all of it when it returns no error, which it does when no call
    fails and the context is not cancelled; [IterateBlocks] of the
    full scans of the 256 shards in shard order. *)
Theorem pass_hands_over_initial_segment (hm : GoCloudUrlStorage) (prefix : string)
    (producer : World) (shard : nat -> World) (w : World) :
  (exists (e : option error) (recs rest : list HashAndState) (w' : World),
     IterateBlocksInternal hm prefix w = (Ok (e, recs), w') /\
     fullScan (myDeviceId hm) (clock w) prefix (objects w) = recs ++ rest /\
     (e = None -> rest = []) /\
     (quiet w -> e = None)) /\
  (exists (e : option error) (recs rest : list HashAndState) (w' : World),
     IterateBlocks hm producer shard w = (Ok (e, recs), w') /\
     fullPass (myDeviceId hm) shard = recs ++ rest).
Proof.
  split.
  - destruct (IterateBlocksInternal_segment hm prefix w) as (e & recs & rest & w' & Hrun & Hf & Hc & _).
    exists e, recs, rest, w'. split; [exact Hrun|]. split; [exact Hf|]. split; [exact Hc|].
    intros Hq. destruct (IterateBlocksInternal_quiet hm prefix w Hq) as (w2 & Hrun2 & _).
    rewrite Hrun in Hrun2. injection Hrun2 as -> _ _. reflexivity.
  - destruct (IterateBlocks_segment hm producer shard w) as (e & recs & rest & w' & Hrun & Hf & _).
    exists e, recs, rest, w'. split; assumption.
Qed.

Lemma exampleWorld_quiet : quiet exampleWorld.
Proof. split; vm_compute; reflexivity. Qed.

(** X14: when no goroutine meets a failure or a cancellation and all
    see the same well-formed bucket, [IterateBlocks] returns no error
    and hands over exactly the blocks of the bucket: its records have
    ascending hashes, and a hash has a record exactly when it is not
    empty and its body is in the bucket. *)
Theorem undisturbed_pass_is_exact (hm : GoCloudUrlStorage) (producer : World)
    (shard : nat -> World) (w : World) (b : Bucket) :
  polls producer = None -> polls w = None ->
  (forall i, quiet (shard i)) -> (forall i, objects (shard i) = b) ->
  wellFormedBucket b ->
  exists recs : list HashAndState,
    IterateBlocks hm producer shard w = (Ok (None, recs), w) /\
    StronglySorted hash_lt (List.map hash recs) /\
    (forall h : list byte,
       In h (List.map hash recs) <-> h <> [] /\ In (getBlockStringKey h) (bucket_keys b)).
Proof.
  intros Hpp Hpw Hq Hb Hwf. exists (fullPass (myDeviceId hm) shard).
  split; [apply IterateBlocks_quiet; assumption|]. split.
  - apply fullPass_sorted. intros i. rewrite Hb. exact Hwf.
  - intros h. apply fullPass_exact; assumption.
Qed.

Lemma undisturbed_pass_is_exact_witness :
  exists recs : list HashAndState,
    IterateBlocks (mkStorage "mem://" "A") exampleWorld (fun _ => exampleWorld) exampleWorld =
      (Ok (None, recs), exampleWorld) /\
    StronglySorted hash_lt (List.map hash recs) /\
    (forall h : list byte,
       In h (List.map hash recs) <->
       h <> [] /\ In (getBlockStringKey h) (bucket_keys (objects exampleWorld))).
Proof.
  apply (undisturbed_pass_is_exact (mkStorage "mem://" "A") exampleWorld
           (fun _ => exampleWorld) exampleWorld (objects exampleWorld)).
  - exact (proj2 exampleWorld_quiet).
  - exact (proj2 exampleWorld_quiet).
  - intros _. exact exampleWorld_quiet.
  - intros _. reflexivity.
  - exact exampleWorld_wellFormed.
Defined.

(** X15: [IterateBlocks] reports a cancellation that its consuming
    loop finds as success: it returns nil, with the records handed over
    so far; when the context is cancelled from the start these are none.
    An error it returns is the error the pass of one of the 256 shards
    returned. *)
Theorem IterateBlocks_cancellation_is_nil (hm : GoCloudUrlStorage) (producer : World)
    (shard : nat -> World) (w : World) :
  (polls w = Some 0%nat -> IterateBlocks hm producer shard w = (Ok (None, []), w)) /\
  (forall (e : error) (recs : list HashAndState) (w' : World),
     IterateBlocks hm producer shard w = (Ok (Some e, recs), w') ->
     exists (i : nat) (recs_i : list HashAndState) (w_i : World),
       (i < 256)%nat /\
       IterateBlocksInternal hm (HashToStringMapKey [shardByte i]) (shard i) =
         (Ok (Some e, recs_i), w_i)).
Proof.
  split.
  - intros Hp. unfold IterateBlocks. cbv zeta.
    destruct (startShards_spec hm shard (seq 0 256) producer) as (k & pw & ->).
    destruct (List.map _ (firstn k (seq 0 256))) as [|c chans]; [reflexivity|].
    cbn [rangeChannels]. unfold bind, IsDone. rewrite Hp. reflexivity.
  - intros e recs w' Hrun.
    destruct (IterateBlocks_segment hm producer shard w) as (e0 & recs0 & rest & w0 & Hrun0 & _ & He).
    rewrite Hrun in Hrun0. injection Hrun0 as <- _ _. exact (He e eq_refl).
Qed.

(** ** Numbers written and read back *)

Lemma digits_value_acc (u : Decimal.uint) (acc : positive) :
  digits_value (Z.pos acc) (NilEmpty.string_of_uint u) = Z.pos (Pos.of_uint_acc u acc).
Proof.
  revert acc.
  induction u as [|u IH|u IH|u IH|u IH|u IH|u IH|u IH|u IH|u IH|u IH]; intros acc;
    cbn [NilEmpty.string_of_uint digits_value Pos.of_uint_acc];
    try reflexivity; rewrite <- IH; f_equal; cbv [N_of_ascii N_of_digits]; lia.
Qed.

Lemma digits_value_uint (u : Decimal.uint) :
  digits_value 0 (NilEmpty.string_of_uint u) = Z.of_N (Pos.of_uint u).
Proof.
  induction u as [|u IH|u IH|u IH|u IH|u IH|u IH|u IH|u IH|u IH|u IH];
    cbn [NilEmpty.string_of_uint digits_value Pos.of_uint]; try reflexivity;
    try exact IH; apply (digits_value_acc u).
Qed.

Lemma all_digits_uint (u : Decimal.uint) : all_digits (NilEmpty.string_of_uint u) = true.
Proof.
  induction u as [|u IH|u IH|u IH|u IH|u IH|u IH|u IH|u IH|u IH|u IH];
    cbn [NilEmpty.string_of_uint all_digits]; try reflexivity; exact IH.
Qed.

Lemma Atoi_digits (c : ascii) (s : string) :
  is_digit c = true -> all_digits s = true ->
  Atoi (String c s) =
    if ((- 2 ^ 63 <=? digits_value 0 (String c s)) && (digits_value 0 (String c s) <=? 2 ^ 63 - 1))%Z
    then Some (digits_value 0 (String c s)) else None.
Proof.
  intros Hc Hs. unfold Atoi.
  assert (Hm : c <> "-"%char /\ c <> "+"%char).
  { split; intros ->; discriminate Hc. }
  destruct Hm as [Hm Hp].
  assert (E : match String c s with
              | String "-" r => (true, r)
              | String "+" r => (false, r)
              | _ => (false, String c s)
              end = (false, String c s)).
  { destruct c as [[|] [|] [|] [|] [|] [|] [|] [|]]; try reflexivity; contradiction. }
  rewrite E. cbn [all_digits]. rewrite Hc, Hs. reflexivity.
Qed.

(** What [strconv.Itoa] writes, [strconv.Atoi] reads back. *)
Lemma Atoi_Itoa (n : Z) : (0 <= n < 2 ^ 63)%Z -> Atoi (Itoa n) = Some n.
Proof.
  intros Hn. destruct n as [|p|p]; [reflexivity| |lia].
  unfold Itoa. cbn [Z.to_int NilZero.string_of_int]. unfold NilZero.string_of_uint.
  pose proof (Unsigned.to_uint_nonnil p) as Hnn.
  pose proof (digits_value_uint (Pos.to_uint p)) as Hv. rewrite Unsigned.of_to in Hv.
  pose proof (all_digits_uint (Pos.to_uint p)) as Ha.
  destruct (Pos.to_uint p) as [|u|u|u|u|u|u|u|u|u|u] eqn:E; [contradiction|..];
    cbn [NilEmpty.string_of_uint] in *;
    (rewrite Atoi_digits; [|reflexivity | exact Ha]); rewrite Hv; cbn [Z.of_N];
    (destruct ((- 2 ^ 63 <=? Z.pos p) && (Z.pos p <=? 2 ^ 63 - 1))%Z eqn:Er; [reflexivity|]);
    apply andb_false_iff in Er as [Er|Er]; apply Z.leb_gt in Er; lia.
Qed.

(** ** The scan map and the count hint *)

Lemma cacheStep_fold (recs : list HashAndState) (m : gmap string HashBlockState)
    (notified : list (nat * list byte)) :
  fst (fold_left cacheStep recs (m, notified)) =
    fold_left (fun (hashSet : gmap string HashBlockState) d =>
                 <[HashToStringMapKey (hash d) := state d]> hashSet) recs m.
Proof.
  revert m notified. induction recs as [|r recs IH]; intros m notified; [reflexivity|].
  cbn [fold_left cacheStep]. apply IH.
Qed.

Lemma cache_lookup_other (recs : list HashAndState) (m : gmap string HashBlockState)
    (hs : string) :
  ~ In hs (List.map (fun d => HashToStringMapKey (hash d)) recs) ->
  fold_left (fun (hashSet : gmap string HashBlockState) d =>
               <[HashToStringMapKey (hash d) := state d]> hashSet) recs m !! hs = m !! hs.
Proof.
  revert m. induction recs as [|r recs IH]; intros m Hn; [reflexivity|].
  cbn [fold_left]. rewrite IH by (intros H; apply Hn; right; exact H).
  apply lookup_insert_ne. intros E. apply Hn. left. exact E.
Qed.

(** The map built from records of distinct hashes holds each record
    under its hash string, and nothing else. *)
Lemma cache_lookup (recs : list HashAndState) (m : gmap string HashBlockState) :
  List.NoDup (List.map hash recs) ->
  (forall d, In d recs -> m !! HashToStringMapKey (hash d) = None) ->
  (forall (hs : string) (st : HashBlockState),
     fold_left (fun (hashSet : gmap string HashBlockState) d =>
                  <[HashToStringMapKey (hash d) := state d]> hashSet) recs m !! hs = Some st <->
     m !! hs = Some st \/ exists h, hs = HashToStringMapKey h /\ In (mkHashAndState h st) recs) /\
  size (fold_left (fun (hashSet : gmap string HashBlockState) d =>
                     <[HashToStringMapKey (hash d) := state d]> hashSet) recs m) =
    (size m + length recs)%nat.
Proof.
  revert m. induction recs as [|r recs IH]; intros m Hnd Hm.
  - cbn [fold_left length]. split; [|lia]. intros hs st. split; [intros H; left; exact H|].
    intros [H|(h & _ & [])]. exact H.
  - cbn [fold_left length List.map] in *. apply List.NoDup_cons_iff in Hnd as [Hr Hnd].
    destruct (IH (<[HashToStringMapKey (hash r) := state r]> m) Hnd) as [IH1 IH2].
    { intros d Hd. rewrite lookup_insert_ne; [apply Hm; right; exact Hd|].
      intros E. apply HashToStringMapKey_inj in E. apply Hr. rewrite E.
      apply in_map. exact Hd. }
    split.
    + intros hs st. rewrite IH1. split.
      * intros [H|(h & -> & Hin)].
        -- destruct (String.eqb_spec (HashToStringMapKey (hash r)) hs) as [<-|Hne].
           ++ rewrite lookup_insert_eq in H. injection H as <-.
              right. exists (hash r). split; [reflexivity|]. left. destruct r; reflexivity.
           ++ rewrite lookup_insert_ne in H by exact Hne. left. exact H.
        -- right. exists h. split; [reflexivity | right; exact Hin].
      * intros [H|(h & -> & [E|Hin])].
        -- left. rewrite lookup_insert_ne; [exact H|].
           intros E. rewrite <- E in H. rewrite (Hm r (or_introl eq_refl)) in H. discriminate.
        -- left. subst r. cbn [hash state]. apply lookup_insert_eq.
        -- right. exists h. split; [reflexivity | exact Hin].
    + rewrite IH2, map_size_insert_None by (apply Hm; left; reflexivity). lia.
Qed.

Lemma sorted_NoDup (l : list (list byte)) : StronglySorted hash_lt l -> List.NoDup l.
Proof.
  induction 1 as [|x l Hs IH Hall]; constructor; [|exact IH].
  intros Hin. rewrite List.Forall_forall in Hall. exact (hash_lt_irrefl x (Hall x Hin)).
Qed.

Lemma GetBlockHashesCache_ok (hm : GoCloudUrlStorage) (producer : World) (shard : nat -> World)
    (w w1 : World) (recs : list HashAndState) :
  IterateBlocks hm producer shard w = (Ok (None, recs), w1) ->
  GetBlockHashesCache hm producer shard w =
    (SetMeta hm "BlockCountHint"
       (list_byte_of_string (Itoa (Z.of_nat (size (fst (fold_left cacheStep recs (∅, []))))))) ;;;
     ret (Some (fst (fold_left cacheStep recs (∅, []))),
          snd (fold_left cacheStep recs (∅, [])))) w1.
Proof.
  intros Hrun. unfold GetBlockHashesCache. unfold bind at 1. rewrite Hrun.
  destruct (fold_left cacheStep recs (∅, [])) as [hashSet notified]. reflexivity.
Qed.

Lemma samePolled_refl (w : World) : samePolled w w.
Proof. repeat split. Qed.

Lemma samePolled_trans (w1 w2 w3 : World) :
  samePolled w1 w2 -> samePolled w2 w3 -> samePolled w1 w3.
Proof.
  intros (a1 & a2 & a3 & a4 & a5) (b1 & b2 & b3 & b4 & b5). repeat split; congruence.
Qed.

Lemma IsDone_polled (w : World) (r : Result bool) (w' : World) :
  IsDone w = (r, w') -> samePolled w w'.
Proof.
  unfold IsDone. destruct (polls w) as [[|n]|]; intros [= _ <-]; repeat split.
Qed.

Lemma rangeChannel_polled (channel : list HashStateAndError) (out : list HashAndState)
    (w : World) (r : Result (option (option error) * list HashAndState)) (w' : World) :
  rangeChannel channel out w = (r, w') -> samePolled w w'.
Proof.
  revert out w. induction channel as [|x rest IH]; intros out w; cbn [rangeChannel].
  - intros [= _ <-]. apply samePolled_refl.
  - unfold bind. destruct (IsDone w) as [[c| | |] w1] eqn:Ed;
      pose proof (IsDone_polled _ _ _ Ed) as H1; try (intros [= _ <-]; exact H1).
    destruct c; [intros [= _ <-]; exact H1|].
    destruct (err x); [intros [= _ <-]; exact H1|].
    intros H. exact (samePolled_trans _ _ _ H1 (IH _ _ H)).
Qed.

Lemma rangeChannels_polled (chans : list (list HashStateAndError)) (out : list HashAndState)
    (w : World) (r : Result (option error * list HashAndState)) (w' : World) :
  rangeChannels chans out w = (r, w') -> samePolled w w'.
Proof.
  revert out w. induction chans as [|c rest IH]; intros out w; cbn [rangeChannels].
  - intros [= _ <-]. apply samePolled_refl.
  - unfold bind at 1. destruct (IsDone w) as [[done| | |] w1] eqn:Ed;
      pose proof (IsDone_polled _ _ _ Ed) as H1; try (intros [= _ <-]; exact H1).
    destruct done; [intros [= _ <-]; exact H1|].
    unfold bind at 1. destruct (rangeChannel c out w1) as [[[[e|] o]| | |] w2] eqn:Er;
      pose proof (samePolled_trans _ _ _ H1 (rangeChannel_polled _ _ _ _ _ Er)) as H2;
      try (intros [= _ <-]; exact H2).
    intros H. exact (samePolled_trans _ _ _ H2 (IH _ _ H)).
Qed.

(** The consuming loop of [IterateBlocks] makes no bucket call of its
    own: it only polls the context. *)
Lemma IterateBlocks_polled (hm : GoCloudUrlStorage) (producer : World) (shard : nat -> World)
    (w : World) (r : Result (option error * list HashAndState)) (w' : World) :
  IterateBlocks hm producer shard w = (r, w') -> samePolled w w'.
Proof. unfold IterateBlocks. cbv zeta. apply rangeChannels_polled. Qed.

(** X16: the count hint is what the last scan counted: when
    [GetBlockHashesCache] of a writable handle returns a map and the
    write of the hint does not fail, [GetBlockHashesCountHint] then
    returns the number of entries of that map, raised to the floor of
    100. *)
Theorem count_hint_follows_scan (hm : GoCloudUrlStorage) (producer : World)
    (shard : nat -> World) (w w' : World) (hashSet : gmap string HashBlockState)
    (notified : list (nat * list byte)) :
  IsReadOnly hm = false -> faults w = [] ->
  (Z.of_nat (size hashSet) < 2 ^ 63)%Z ->
  GetBlockHashesCache hm producer shard w = (Ok (Some hashSet, notified), w') ->
  fst (GetMeta hm "BlockCountHint" w') =
    Ok (Some (list_byte_of_string (Itoa (Z.of_nat (size hashSet))))) /\
  fst (GetBlockHashesCountHint hm w') = Ok (Z.max 100 (Z.of_nat (size hashSet))).
Proof.
  intros Hro Hf Hsz Hrun.
  destruct (IterateBlocks_segment hm producer shard w) as (e & recs & rest & w1 & Hit & _ & _).
  assert (Hf1 : faults w1 = []).
  { destruct (IterateBlocks_polled _ _ _ _ _ _ Hit) as (_ & _ & -> & _). exact Hf. }
  destruct e as [e|].
  { unfold GetBlockHashesCache in Hrun. unfold bind at 1 in Hrun. rewrite Hit in Hrun.
    destruct (fold_left cacheStep recs (∅, [])) as [hs nt]. discriminate Hrun. }
  rewrite (GetBlockHashesCache_ok hm producer shard w w1 recs Hit) in Hrun.
  destruct (fold_left cacheStep recs (∅, [])) as [hs nt]. cbn [fst snd] in Hrun.
  destruct (SetMeta_quiet hm "BlockCountHint"
              (list_byte_of_string (Itoa (Z.of_nat (size hs)))) w1 Hro Hf1) as (w2 & Hs & Ho & Ht).
  unfold bind in Hrun. rewrite Hs in Hrun. injection Hrun as <- _ <-.
  assert (Hf2 : faults w2 = []) by (destruct Ht as (_ & -> & _); exact Hf1).
  assert (Hg : fst (GetMeta hm "BlockCountHint" w2) =
               Ok (Some (list_byte_of_string (Itoa (Z.of_nat (size hs)))))).
  { rewrite (GetMeta_quiet _ _ _ Hf2), Ho, bucket_get_put_eq. reflexivity. }
  split; [exact Hg|].
  rewrite (GetBlockHashesCountHint_read hm w2 _ Hg).
  rewrite string_of_list_byte_of_string, Atoi_Itoa by lia. reflexivity.
Qed.


Lemma cacheStep_notified (recs : list HashAndState) (m : gmap string HashBlockState)
    (notified : list (nat * list byte)) :
  List.NoDup (List.map hash recs) ->
  (forall d, In d recs -> m !! HashToStringMapKey (hash d) = None) ->
  snd (fold_left cacheStep recs (m, notified)) =
    notified ++ combine (seq (S (size m)) (length recs)) (List.map hash recs).
Proof.
  revert m notified. induction recs as [|r recs IH]; intros m notified Hnd Hm.
  - cbn. rewrite app_nil_r. reflexivity.
  - cbn [fold_left cacheStep List.map length seq combine] in *.
    apply List.NoDup_cons_iff in Hnd as [Hr Hnd].
    rewrite IH; [|exact Hnd|].
    + rewrite map_size_insert_None by (apply Hm; left; reflexivity).
      rewrite <- app_assoc. reflexivity.
    + intros d Hd. rewrite lookup_insert_ne; [apply Hm; right; exact Hd|].
      intros E. apply HashToStringMapKey_inj in E. apply Hr. rewrite E.
      apply in_map. exact Hd.
Qed.

Lemma combine_seq_fst {A : Type} (k : nat) (l : list A) :
  List.map fst (combine (seq k (length l)) l) = seq k (length l).
Proof.
  revert k. induction l as [|x l IH]; intros k; [reflexivity|].
  cbn [length seq combine List.map fst]. f_equal. apply IH.
Qed.

Lemma combine_seq_snd {A : Type} (k : nat) (l : list A) :
  List.map snd (combine (seq k (length l)) l) = l.
Proof.
  revert k. induction l as [|x l IH]; intros k; [reflexivity|].
  cbn [length seq combine List.map snd]. f_equal. apply IH.
Qed.

(** [GetBlockHashesCache] of a writable handle, when nothing fails and
    nothing is cancelled: the map and the notifications built from the
    full pass, and the count hint written. *)
Lemma GetBlockHashesCache_quiet (hm : GoCloudUrlStorage) (producer : World)
    (shard : nat -> World) (w : World) :
  IsReadOnly hm = false -> polls producer = None -> quiet w -> (forall i, quiet (shard i)) ->
  exists w',
    GetBlockHashesCache hm producer shard w =
      (Ok (Some (fst (fold_left cacheStep (fullPass (myDeviceId hm) shard) (∅, []))),
           snd (fold_left cacheStep (fullPass (myDeviceId hm) shard) (∅, []))), w') /\
    objects w' =
      bucket_put (getMetadataStringKey "BlockCountHint")
        (mkBlob (clock w)
           (list_byte_of_string
              (Itoa (Z.of_nat (size (fst (fold_left cacheStep (fullPass (myDeviceId hm) shard)
                                            (∅, [])))))))) (objects w) /\
    sameTimes w w'.
Proof.
  intros Hro Hpp [Hf Hp] Hq.
  rewrite (GetBlockHashesCache_ok hm producer shard w w _
             (IterateBlocks_quiet hm producer shard w Hpp Hp Hq)).
  destruct (SetMeta_quiet hm "BlockCountHint"
              (list_byte_of_string
                 (Itoa (Z.of_nat (size (fst (fold_left cacheStep (fullPass (myDeviceId hm) shard)
                                               (∅, []))))))) w Hro Hf) as (w' & Hs & Ho & Ht).
  exists w'. unfold bind. rewrite Hs. split; [reflexivity|]. split; assumption.
Qed.

(** X17: the map of a scan that nothing disturbs is exact. When no
    goroutine meets a failure or a cancellation and all see the same
    well-formed bucket, [GetBlockHashesCache] of a writable handle
    returns a map in which a hash string has an entry exactly when it
    is the hash string of a non-empty hash whose body is in the bucket;
    every entry has [dataExists] set; and the progress notifier was
    called once per block, with the counts 1, 2, 3, ... and the hashes in
    ascending order. *)
Theorem scan_map_is_exact (hm : GoCloudUrlStorage) (producer : World)
    (shard : nat -> World) (w : World) (b : Bucket) :
  IsReadOnly hm = false -> polls producer = None -> quiet w ->
  (forall i, quiet (shard i)) -> (forall i, objects (shard i) = b) ->
  wellFormedBucket b ->
  exists (hashSet : gmap string HashBlockState) (notified : list (nat * list byte))
         (w' : World),
    GetBlockHashesCache hm producer shard w = (Ok (Some hashSet, notified), w') /\
    (forall hs : string,
       is_Some (hashSet !! hs) <->
       exists h, hs = HashToStringMapKey h /\ h <> [] /\
                 In (getBlockStringKey h) (bucket_keys b)) /\
    (forall (hs : string) (st : HashBlockState),
       hashSet !! hs = Some st -> dataExists st = true) /\
    List.map fst notified = seq 1 (size hashSet) /\
    StronglySorted hash_lt (List.map snd notified).
Proof.
  intros Hro Hpp Hqw Hq Hb Hwf.
  destruct (GetBlockHashesCache_quiet hm producer shard w Hro Hpp Hqw Hq) as (w' & Hrun & _).
  set (recs := fullPass (myDeviceId hm) shard) in *.
  assert (Hs : StronglySorted hash_lt (List.map hash recs)).
  { apply fullPass_sorted. intros i. rewrite Hb. exact Hwf. }
  pose proof (sorted_NoDup _ Hs) as Hnd.
  destruct (cache_lookup recs ∅ Hnd) as [Hl Hsz]; [intros d _; apply lookup_empty|].
  pose proof (cacheStep_notified recs ∅ [] Hnd) as Hn.
  rewrite map_size_empty in Hn, Hsz. cbn [app] in Hn. cbn [Nat.add] in Hsz.
  rewrite <- cacheStep_fold with (notified := []) in Hl, Hsz.
  eexists _, _, w'. split; [exact Hrun|].
  repeat match goal with |- _ /\ _ => split end.
  - intros hs. split.
    + intros [st Hst]. apply Hl in Hst as [Hst|(h & -> & Hin)];
        [rewrite lookup_empty in Hst; discriminate|].
      exists h. split; [reflexivity|].
      apply (fullPass_exact (myDeviceId hm) shard b h Hb Hwf).
      apply in_map_iff. exists (mkHashAndState h st). split; [reflexivity | exact Hin].
    + intros (h & -> & Hne & Hk).
      pose proof (proj2 (fullPass_exact (myDeviceId hm) shard b h Hb Hwf) (conj Hne Hk)) as Hin.
      apply in_map_iff in Hin as ([h' st] & Eh & Hin). cbn [hash] in Eh. subst h'.
      exists st. apply Hl. right. exists h. split; [reflexivity | exact Hin].
  - intros hs st Hst. apply Hl in Hst as [Hst|(h & -> & Hin)];
      [rewrite lookup_empty in Hst; discriminate|].
    pose proof (fullPass_allData (myDeviceId hm) shard) as Ha.
    rewrite List.Forall_forall in Ha. exact (Ha _ Hin).
  - rewrite Hn, Hsz; [|intros d _; apply lookup_empty].
    rewrite <- (length_map hash recs). apply combine_seq_fst.
  - rewrite Hn; [|intros d _; apply lookup_empty].
    rewrite <- (length_map hash recs), combine_seq_snd. exact Hs.
Qed.

Lemma scan_map_is_exact_witness :
  exists (hashSet : gmap string HashBlockState) (notified : list (nat * list byte))
         (w' : World),
    GetBlockHashesCache (mkStorage "mem://" "A") exampleWorld (fun _ => exampleWorld)
      exampleWorld = (Ok (Some hashSet, notified), w') /\
    (forall hs : string,
       is_Some (hashSet !! hs) <->
       exists h, hs = HashToStringMapKey h /\ h <> [] /\
                 In (getBlockStringKey h) (bucket_keys (objects exampleWorld))) /\
    (forall (hs : string) (st : HashBlockState),
       hashSet !! hs = Some st -> dataExists st = true) /\
    List.map fst notified = seq 1 (size hashSet) /\
    StronglySorted hash_lt (List.map snd notified).
Proof.
  apply (scan_map_is_exact (mkStorage "mem://" "A") exampleWorld (fun _ => exampleWorld)
           exampleWorld (objects exampleWorld)).
  - reflexivity.
  - exact (proj2 exampleWorld_quiet).
  - exact exampleWorld_quiet.
  - intros _. exact exampleWorld_quiet.
  - intros _. reflexivity.
  - exact exampleWorld_wellFormed.
Defined.

Lemma exampleWorld_scan_size :
  (Z.of_nat (size (fst (fold_left cacheStep (fullPass "A" (fun _ => exampleWorld)) (∅, []))))
   < 2 ^ 63)%Z.
Proof. vm_compute. reflexivity. Qed.

Lemma exampleWorld_scan :
  exists w' : World,
    GetBlockHashesCache (mkStorage "mem://" "A") exampleWorld (fun _ => exampleWorld)
      exampleWorld =
      (Ok (Some (fst (fold_left cacheStep (fullPass "A" (fun _ => exampleWorld)) (∅, []))),
           snd (fold_left cacheStep (fullPass "A" (fun _ => exampleWorld)) (∅, []))), w').
Proof.
  destruct (GetBlockHashesCache_quiet (mkStorage "mem://" "A") exampleWorld
              (fun _ => exampleWorld) exampleWorld eq_refl (proj2 exampleWorld_quiet)
              exampleWorld_quiet (fun _ => exampleWorld_quiet)) as (w' & H & _).
  exists w'. exact H.
Qed.

Lemma count_hint_follows_scan_witness :
  exists (hashSet : gmap string HashBlockState) (notified : list (nat * list byte))
         (w' : World),
    GetBlockHashesCache (mkStorage "mem://" "A") exampleWorld (fun _ => exampleWorld)
      exampleWorld = (Ok (Some hashSet, notified), w') /\
    fst (GetBlockHashesCountHint (mkStorage "mem://" "A") w') =
      Ok (Z.max 100 (Z.of_nat (size hashSet))).
Proof.
  destruct exampleWorld_scan as [w' Hrun].
  eexists _, _, w'. split; [exact Hrun|].
  apply (count_hint_follows_scan (mkStorage "mem://" "A") exampleWorld (fun _ => exampleWorld)
           exampleWorld w' _ _ eq_refl (proj1 exampleWorld_quiet) exampleWorld_scan_size Hrun).
Defined.

(** ** A scan that is cancelled, a scan that fails *)

Lemma touchesOnly_GetBlockHashesCache (hm : GoCloudUrlStorage) (producer : World)
    (shard : nat -> World) :
  touchesOnly (eq (getMetadataStringKey "BlockCountHint"))
    (GetBlockHashesCache hm producer shard).
Proof.
  unfold GetBlockHashesCache. apply touchesOnly_bind.
  - apply keepsBucket_touchesOnly. unfold IterateBlocks. cbv zeta. auto with frame.
  - intros [e recs]. destruct (fold_left cacheStep recs (∅, [])) as [hashSet notified].
    destruct e as [e|]; [repeat frame_step|]. cbv zeta.
    apply touchesOnly_bind; [|intros _; auto with frame].
    unfold SetMeta. destruct (IsReadOnly hm); [auto with frame|].
    apply touchesOnly_bind; [apply touchesOnly_WriteAll | intros _; auto with frame].
Qed.

(** X18: [GetBlockHashesCache] takes a cancelled pass for a complete
    one. When its consuming loop finds the context cancelled from the
    start, it returns the empty map, not nil, and a writable handle
    overwrites the count hint with "0". Only the error of a shard makes
    it return nil, and then it leaves the bucket, the count hint
    included, as it was. Whatever happens, it changes no key but the
    count hint. *)
Theorem cancelled_scan_counts_as_complete (hm : GoCloudUrlStorage) (producer : World)
    (shard : nat -> World) (w : World) :
  (IsReadOnly hm = false -> faults w = [] -> polls w = Some 0%nat ->
   exists w' : World,
     GetBlockHashesCache hm producer shard w = (Ok (Some ∅, []), w') /\
     bucket_get (getMetadataStringKey "BlockCountHint") (objects w') =
       Some (mkBlob (clock w) (list_byte_of_string "0"))) /\
  (forall (notified : list (nat * list byte)) (w' : World),
     GetBlockHashesCache hm producer shard w = (Ok (None, notified), w') ->
     objects w' = objects w /\
     exists (e : error) (recs : list HashAndState) (w1 : World),
       IterateBlocks hm producer shard w = (Ok (Some e, recs), w1)) /\
  (forall key : string,
     key <> getMetadataStringKey "BlockCountHint" ->
     bucket_get key (objects (snd (GetBlockHashesCache hm producer shard w))) =
       bucket_get key (objects w)).
Proof.
  split; [|split].
  - intros Hro Hf Hp.
    assert (Hit : IterateBlocks hm producer shard w = (Ok (None, []), w)).
    { unfold IterateBlocks. cbv zeta.
      destruct (startShards_spec hm shard (seq 0 256) producer) as (k & pw & ->).
      destruct (List.map _ (firstn k (seq 0 256))) as [|c chans]; [reflexivity|].
      cbn [rangeChannels]. unfold bind, IsDone. rewrite Hp. reflexivity. }
    rewrite (GetBlockHashesCache_ok hm producer shard w w [] Hit).
    cbn [fold_left fst snd]. rewrite map_size_empty.
    destruct (SetMeta_quiet hm "BlockCountHint" (list_byte_of_string (Itoa (Z.of_nat 0)))
                w Hro Hf) as (w' & Hs & Ho & _).
    exists w'. unfold bind. rewrite Hs. split; [reflexivity|].
    rewrite Ho, bucket_get_put_eq. reflexivity.
  - intros notified w' Hrun.
    destruct (IterateBlocks_segment hm producer shard w) as (e & recs & rest & w1 & Hit & _ & _).
    unfold GetBlockHashesCache in Hrun. unfold bind at 1 in Hrun. rewrite Hit in Hrun.
    destruct (fold_left cacheStep recs (∅, [])) as [hs nt].
    destruct e as [e|].
    + unfold bind, Warnf in Hrun. injection Hrun as _ <-. split.
      * cbn [objects record]. destruct (IterateBlocks_polled _ _ _ _ _ _ Hit) as (Ho & _). exact Ho.
      * exists e, recs, w1. exact Hit.
    + exfalso. cbv zeta in Hrun. unfold bind in Hrun.
      destruct (SetMeta hm "BlockCountHint" _ w1) as [[[]| | |] w2]; discriminate Hrun.
  - intros key Hk.
    destruct (GetBlockHashesCache hm producer shard w) as [r w'] eqn:E.
    apply (touchesOnly_GetBlockHashesCache hm producer shard w r w' key E).
    intros E'. exact (Hk (eq_sym E')).
Qed.

(** ** The state of a block when the query fails *)

Lemma IterateBlocksInternal_cancelled (hm : GoCloudUrlStorage) (prefix : string) (w : World) :
  polls w = Some 0%nat ->
  IterateBlocksInternal hm prefix w = (Ok (Some ErrCanceled, []), w).
Proof.
  intros Hp. unfold IterateBlocksInternal. cbv zeta. cbn [iteratePages].
  unfold bind, IsDone. rewrite Hp. reflexivity.
Qed.

Lemma IterateBlocksInternal_first_call_fails (hm : GoCloudUrlStorage) (prefix : string)
    (w : World) (fs : list bool) :
  faults w = true :: fs -> polls w <> Some 0%nat ->
  exists w', IterateBlocksInternal hm prefix w = (Ok (Some ErrIO, []), w').
Proof.
  intros Hf Hp. unfold IterateBlocksInternal. cbv zeta. cbn [iteratePages].
  unfold bind at 1 2. unfold IsDone.
  destruct (polls w) as [[|n]|]; [contradiction| |];
    cbv zeta; unfold bind, bucket_ListPage, nextFault, record; cbn [faults]; rewrite Hf;
    eexists; reflexivity.
Qed.

Lemma IterateBlocksInternal_failed_single (hm : GoCloudUrlStorage) (h : list byte) (w w' : World)
    (e : error) (recs : list HashAndState) :
  keysBelongTo h (objects w) ->
  IterateBlocksInternal hm (HashToStringMapKey h) w = (Ok (Some e, recs), w') ->
  recs = [].
Proof.
  intros Hown Hrun.
  destruct (IterateBlocksInternal_spec hm (HashToStringMapKey h) w)
    as (e0 & pre & post & w0 & Hrun0 & Hp & _ & _).
  rewrite Hrun in Hrun0. injection Hrun0 as <- -> _.
  destruct (fold_atHash h (clock w) pre (NewHashBlockStorageMapBuilder (myDeviceId hm)))
    as ([Hem _] & _ & _).
  - split; [reflexivity | right; split; reflexivity].
  - intros obj Hin.
    assert (Hl : In obj (bucket_list ("blocks/" +:+ HashToStringMapKey h) (objects w)))
      by (rewrite Hp; apply in_or_app; left; exact Hin).
    apply bucket_list_In in Hl as [Hk Hpre]. exact (Hown _ Hk Hpre).
  - exact Hem.
Qed.

(** X19: [GetBlockHashState] drops the error of its pass and reports
    the zero state instead: when the context is cancelled, when the
    listing fails at the first call, and, in a bucket where every key
    under the key of the block is a key of that block, whenever the
    pass ends with an error. *)
Theorem failed_state_query_is_zero_state (hm : GoCloudUrlStorage) (h : list byte) (w : World) :
  (polls w = Some 0%nat -> GetBlockHashState hm h w = (Ok emptyState, w)) /\
  (forall fs : list bool,
     faults w = true :: fs -> polls w <> Some 0%nat ->
     fst (GetBlockHashState hm h w) = Ok emptyState) /\
  (keysBelongTo h (objects w) ->
   forall (e : error) (recs : list HashAndState) (w' : World),
     IterateBlocksInternal hm (HashToStringMapKey h) w = (Ok (Some e, recs), w') ->
     GetBlockHashState hm h w = (Ok emptyState, w')).
Proof.
  split; [|split].
  - intros Hp. unfold GetBlockHashState, bind.
    rewrite (IterateBlocksInternal_cancelled hm _ w Hp). reflexivity.
  - intros fs Hf Hp. unfold GetBlockHashState, bind.
    destruct (IterateBlocksInternal_first_call_fails hm (HashToStringMapKey h) w fs Hf Hp)
      as [w' ->]. reflexivity.
  - intros Hown e recs w' Hrun. unfold GetBlockHashState, bind. rewrite Hrun.
    rewrite (IterateBlocksInternal_failed_single hm h w w' e recs Hown Hrun). reflexivity.
Qed.

(** ** The exact state of one block *)

Lemma Split_head_inv (r tp : string) (rest : list string) :
  Split r "." = tp :: rest ->
  noDot tp = true /\ (rest = [] -> r = tp) /\
  (rest <> [] -> exists r', r = tp +:+ String "." r' /\ Split r' "." = rest).
Proof.
  revert tp rest. induction r as [|c r IH]; intros tp rest; cbn [Split].
  - intros [= <- <-]. split; [reflexivity|]. split; [reflexivity | intros H; contradiction].
  - destruct (Ascii.eqb c ".") eqn:Ec.
    + intros [= <- <-]. apply Ascii.eqb_eq in Ec. subst c.
      split; [reflexivity|]. split.
      * intros H. exfalso. exact (Split_nonempty r "." H).
      * intros _. exists r. split; reflexivity.
    + destruct (Split r ".") as [|x t] eqn:Er; [exfalso; exact (Split_nonempty r "." Er)|].
      intros [= <- <-]. destruct (IH x t eq_refl) as (Hn & H1 & H2).
      split; [cbn [noDot]; rewrite Ec, Hn; reflexivity|]. split.
      * intros H. rewrite (H1 H). reflexivity.
      * intros H. destruct (H2 H) as (r' & -> & Hr'). exists r'. split; [reflexivity | exact Hr'].
Qed.

Lemma keyOp_tag_form (now : Z) (obj : ListObject) (h : list byte) (r tp : string)
    (rest : list string) :
  Key obj = "blocks/" +:+ (HashToStringMapKey h +:+ String "." r) ->
  Split r "." = tp :: rest ->
  keyOp now obj =
    if String.eqb tp BLOCK_USE_TAG && match rest with [] => false | _ :: _ => true end
    then OpUse (nth 0 rest "")
    else if String.eqb tp BLOCK_DELETE_TAG
         then if (now - ModTime obj <? TIME_CONSTANT_BASE)%Z then OpDelete else OpNone
         else OpNone.
Proof.
  intros Hk Hr. unfold keyOp. rewrite Hk.
  change (BlockDataSubFolder +:+ "/") with "blocks/".
  rewrite CutPrefix_app. cbn [fst].
  rewrite (Split_app_dot _ _ (noDot_HashToStringMapKey h)), Hr.
  destruct rest; reflexivity.
Qed.

Lemma keyOp_use_iff (now : Z) (obj : ListObject) (h : list byte) (r who : string) :
  Key obj = "blocks/" +:+ (HashToStringMapKey h +:+ String "." r) ->
  keyOp now obj = OpUse who <->
  exists r', r = "used-by." +:+ r' /\ firstSegment r' = who.
Proof.
  intros Hk.
  destruct (Split r ".") as [|tp rest] eqn:Er; [exfalso; exact (Split_nonempty r "." Er)|].
  rewrite (keyOp_tag_form now obj h r tp rest Hk Er).
  destruct (Split_head_inv r tp rest Er) as (Hn & H1 & H2).
  split.
  - destruct (String.eqb_spec tp BLOCK_USE_TAG) as [->|Hne]; cbn [andb].
    + destruct rest as [|x t].
      * cbn. intros H; discriminate.
      * intros [= <-]. destruct H2 as (r' & -> & Hr'); [discriminate|].
        exists r'. split; [reflexivity|]. unfold firstSegment. rewrite Hr'. reflexivity.
    + destruct (String.eqb tp BLOCK_DELETE_TAG); [|discriminate].
      destruct (_ <? _)%Z; discriminate.
  - intros (r' & -> & Hw).
    change ("used-by." +:+ r') with ("used-by" +:+ String "." r') in Er.
    rewrite (Split_app_dot "used-by" r' eq_refl) in Er. injection Er as <- <-.
    unfold firstSegment in Hw.
    destruct (Split r' ".") as [|x t] eqn:Er'; [exfalso; exact (Split_nonempty r' "." Er')|].
    cbn in Hw |- *. rewrite Hw. reflexivity.
Qed.

Lemma keyOp_delete_iff (now : Z) (obj : ListObject) (h : list byte) (r : string) :
  Key obj = "blocks/" +:+ (HashToStringMapKey h +:+ String "." r) ->
  keyOp now obj = OpDelete <->
  (r = "deletion-by" \/ exists r', r = "deletion-by." +:+ r') /\
  (now - ModTime obj < TIME_CONSTANT_BASE)%Z.
Proof.
  intros Hk.
  destruct (Split r ".") as [|tp rest] eqn:Er; [exfalso; exact (Split_nonempty r "." Er)|].
  rewrite (keyOp_tag_form now obj h r tp rest Hk Er).
  destruct (Split_head_inv r tp rest Er) as (Hn & H1 & H2).
  split.
  - destruct (String.eqb_spec tp BLOCK_USE_TAG) as [->|Hne]; cbn [andb].
    + destruct rest as [|x t]; [cbn | intros H; discriminate].
      intros H; discriminate.
    + destruct (String.eqb_spec tp BLOCK_DELETE_TAG) as [->|Hnd]; [|discriminate].
      destruct (Z.ltb_spec (now - ModTime obj) TIME_CONSTANT_BASE) as [Hlt|]; [|discriminate].
      intros _. split; [|exact Hlt].
      destruct rest as [|x t].
      * left. exact (H1 eq_refl).
      * right. destruct H2 as (r' & -> & _); [discriminate|]. exists r'. reflexivity.
  - intros [Hr Hlt]. apply Z.ltb_lt in Hlt. rewrite Hlt.
    destruct Hr as [->|[r' ->]].
    + cbn in Er. injection Er as <- <-. reflexivity.
    + change ("deletion-by." +:+ r') with ("deletion-by" +:+ String "." r') in Er.
      rewrite (Split_app_dot "deletion-by" r' eq_refl) in Er. injection Er as <- <-.
      reflexivity.
Qed.

Lemma delete_key_before_use_key (h : list byte) (rd ru : string) :
  rd = "deletion-by" \/ (exists r, rd = "deletion-by." +:+ r) ->
  str_lt ("blocks/" +:+ (HashToStringMapKey h +:+ String "." rd))
         ("blocks/" +:+ (HashToStringMapKey h +:+ String "." ("used-by." +:+ ru))).
Proof.
  intros H. unfold str_lt. rewrite !str_compare_app.
  destruct H as [->|[r ->]]; reflexivity.
Qed.

Lemma existsb_none {A : Type} (f : A -> bool) (l : list A) :
  (forall x, In x l -> f x = false) -> List.existsb f l = false.
Proof.
  induction l as [|x l IH]; intros H; cbn [List.existsb]; [reflexivity|].
  rewrite (H x (or_introl eq_refl)), IH; [reflexivity|].
  intros y Hy. apply H. right. exact Hy.
Qed.

(** In a listing of the keys of one block the deletion tags come before
    the use tags. *)
Lemma sorted_usesLast (h : list byte) (now : Z) (objs : list ListObject) :
  StronglySorted str_lt (List.map Key objs) ->
  (forall obj, In obj objs -> schemaKey h (Key obj)) ->
  usesLast now objs.
Proof.
  induction objs as [|o rest IH]; intros Hs Hall; cbn [usesLast]; [exact I|].
  cbn [List.map] in Hs. apply StronglySorted_inv in Hs as [Hs Hhd].
  split; [|apply IH; [exact Hs | intros x Hx; apply Hall; right; exact Hx]].
  intros [who Hu]. apply existsb_none. intros x Hx.
  unfold isDelete. destruct (keyOp now x) eqn:Ex; try reflexivity. exfalso.
  destruct (Hall o (or_introl eq_refl)) as (s & Ts & Hko).
  destruct Ts as [->|[r ->]].
  { rewrite str_app_nil_r in Hko. rewrite (keyOp_bare now o h Hko) in Hu. discriminate. }
  apply (keyOp_use_iff now o h r who Hko) in Hu as (ru & -> & _).
  destruct (Hall x (or_intror Hx)) as (s' & Ts' & Hkx).
  destruct Ts' as [->|[rd ->]].
  { rewrite str_app_nil_r in Hkx. rewrite (keyOp_bare now x h Hkx) in Ex. discriminate. }
  apply (keyOp_delete_iff now x h rd Hkx) in Ex as [Hrd _].
  rewrite List.Forall_forall in Hhd.
  pose proof (Hhd (Key x) (in_map Key _ _ Hx)) as Hlt.
  rewrite Hko, Hkx in Hlt.
  exact (str_lt_irrefl _ (str_lt_trans _ _ _ Hlt (delete_key_before_use_key h rd ru Hrd))).
Qed.

(** What the keys of a block that follow its body make of its state. *)
Lemma fold_stateOp_exact (own : string) (now : Z) (objs : list ListObject) (s : HashBlockState) :
  dataExists s = true -> usesLast now objs ->
  fold_left (fun st obj => stateOp own st (keyOp now obj)) objs s =
    mkState true
      (reservedByMe s ||
       negb (deletionPending s || List.existsb (isDelete now) objs) &&
       List.existsb (isUseOf now (fun who => String.eqb who own)) objs)
      (reservedByOthers s ||
       negb (deletionPending s || List.existsb (isDelete now) objs) &&
       List.existsb (isUseOf now (fun who => negb (String.eqb who own))) objs)
      (deletionPending s || List.existsb (isDelete now) objs).
Proof.
  revert s. induction objs as [|o rest IH]; intros [d m x p] Hd Hl;
    cbn [dataExists] in Hd; subst d;
    cbn [fold_left List.existsb reservedByMe reservedByOthers deletionPending].
  - rewrite !andb_false_r, !orb_false_r. reflexivity.
  - destruct Hl as [Hu Hl]. unfold isDelete at 1 3 5, isUseOf at 1 3.
    destruct (keyOp now o) as [|who| |] eqn:Eo; cbn [stateOp].
    + rewrite IH by (try reflexivity; exact Hl).
      cbn [reservedByMe reservedByOthers deletionPending orb]. reflexivity.
    + unfold IsAvailable. cbn [dataExists deletionPending andb].
      destruct p; cbn [negb].
      * rewrite IH by (try reflexivity; exact Hl).
        cbn [reservedByMe reservedByOthers deletionPending orb negb andb].
        rewrite !orb_false_r. reflexivity.
      * rewrite (Hu (ex_intro _ who eq_refl)) in *.
        destruct (String.eqb who own); rewrite IH by (try reflexivity; exact Hl);
          cbn [reservedByMe reservedByOthers deletionPending orb negb andb];
          rewrite ?(Hu (ex_intro _ who eq_refl));
          cbn [orb negb andb]; rewrite ?orb_true_r; reflexivity.
    + rewrite IH by (try reflexivity; exact Hl).
      cbn [reservedByMe reservedByOthers deletionPending orb negb andb].
      rewrite !orb_true_r. cbn [negb andb]. rewrite !orb_false_r. reflexivity.
    + rewrite IH by (try reflexivity; exact Hl).
      cbn [reservedByMe reservedByOthers deletionPending orb]. reflexivity.
Qed.

Lemma bucket_list_of_entry (prefix key : string) (v : Blob) (b : Bucket) :
  In (key, v) b -> String.prefix prefix key = true ->
  In (mkListObject key (blobModTime v)) (bucket_list prefix b).
Proof.
  intros Hin Hp. unfold bucket_list. apply in_map_iff. exists (key, v).
  split; [reflexivity|]. apply filter_In. split; assumption.
Qed.

Lemma listed_fresh_deletion (h : list byte) (now : Z) (b : Bucket) :
  StronglySorted str_lt (bucket_keys b) -> keysBelongTo h b ->
  List.existsb (isDelete now) (bucket_list (getBlockStringKey h) b) = true <->
  freshDeletion h now b.
Proof.
  intros Hs Hown. rewrite List.existsb_exists. split.
  - intros (obj & Hin & Hd). unfold isDelete in Hd.
    destruct (keyOp now obj) eqn:Eo; try discriminate.
    destruct (bucket_list_entry _ _ _ Hs Hin) as (v & Hg & Hm).
    apply bucket_list_In in Hin as [Hk Hp].
    destruct (Hown _ Hk Hp) as (s & Ts & Hks).
    destruct Ts as [->|[r ->]].
    { rewrite str_app_nil_r in Hks. rewrite (keyOp_bare now obj h Hks) in Eo. discriminate. }
    apply (keyOp_delete_iff now obj h r Hks) in Eo as [Hr Hlt].
    exists (Key obj), v. split; [|split; [exact Hg | rewrite <- Hm; exact Hlt]].
    rewrite Hks. destruct Hr as [->|[r' ->]].
    + left. rewrite getBlockStringKey_app. reflexivity.
    + right. exists r'. rewrite getBlockStringKey_app. reflexivity.
  - intros (key & v & Hform & Hg & Hlt).
    exists (mkListObject key (blobModTime v)). split.
    + apply bucket_list_of_entry; [apply bucket_get_In; exact Hg|].
      destruct Hform as [->|[r ->]]; apply prefix_app.
    + unfold isDelete.
      replace (keyOp now (mkListObject key (blobModTime v))) with OpDelete; [reflexivity|].
      symmetry. destruct Hform as [->|[r ->]].
      * apply (keyOp_delete_iff now _ h "deletion-by").
        -- cbn [Key]. rewrite getBlockStringKey_app. reflexivity.
        -- split; [left; reflexivity | exact Hlt].
      * apply (keyOp_delete_iff now _ h ("deletion-by." +:+ r)).
        -- cbn [Key]. rewrite getBlockStringKey_app. reflexivity.
        -- split; [right; exists r; reflexivity | exact Hlt].
Qed.

Lemma listed_use (h : list byte) (now : Z) (P : string -> bool) (b : Bucket) :
  keysBelongTo h b ->
  List.existsb (isUseOf now P) (bucket_list (getBlockStringKey h) b) = true <->
  exists who, P who = true /\ hasUseTagOf h who b.
Proof.
  intros Hown. rewrite List.existsb_exists. split.
  - intros (obj & Hin & Hu). unfold isUseOf in Hu.
    destruct (keyOp now obj) as [|who| |] eqn:Eo; try discriminate.
    apply bucket_list_In in Hin as [Hk Hp].
    destruct (Hown _ Hk Hp) as (s & Ts & Hks).
    destruct Ts as [->|[r ->]].
    { rewrite str_app_nil_r in Hks. rewrite (keyOp_bare now obj h Hks) in Eo. discriminate. }
    apply (keyOp_use_iff now obj h r who Hks) in Eo as (r' & -> & Hw).
    exists who. split; [exact Hu|]. exists r'. split; [|exact Hw].
    assert (E : getBlockStringKey h +:+ "." +:+ BLOCK_USE_TAG +:+ "." +:+ r' = Key obj)
      by (rewrite Hks, getBlockStringKey_app; reflexivity).
    rewrite E. exact Hk.
  - intros (who & HP & r & Hin & Hw).
    destruct (bucket_list_has (getBlockStringKey h) _ b Hin) as (obj & Ho & Hk);
      [apply prefix_app|].
    exists obj. split; [exact Ho|]. unfold isUseOf.
    replace (keyOp now obj) with (OpUse who); [exact HP|].
    symmetry. apply (keyOp_use_iff now obj h ("used-by." +:+ r) who).
    + rewrite Hk, getBlockStringKey_app. reflexivity.
    + exists r. split; [reflexivity | exact Hw].
Qed.

(** The pass under the key of one block whose body is there hands over
    one record, and its state is read off the tags of the block. *)
Lemma fullScan_single (own : string) (now : Z) (h : list byte) (b : Bucket) :
  StronglySorted str_lt (bucket_keys b) -> keysBelongTo h b -> h <> [] ->
  In (getBlockStringKey h) (bucket_keys b) ->
  fullScan own now (HashToStringMapKey h) b =
    [mkHashAndState h
       (mkState true
          (negb (List.existsb (isDelete now) (bucket_list (getBlockStringKey h) b)) &&
           List.existsb (isUseOf now (fun who => String.eqb who own))
             (bucket_list (getBlockStringKey h) b))
          (negb (List.existsb (isDelete now) (bucket_list (getBlockStringKey h) b)) &&
           List.existsb (isUseOf now (fun who => negb (String.eqb who own)))
             (bucket_list (getBlockStringKey h) b))
          (List.existsb (isDelete now) (bucket_list (getBlockStringKey h) b)))].
Proof.
  intros Hs Hown Hne Hbody. unfold fullScan.
  change ((BlockDataSubFolder +:+ "/") +:+ HashToStringMapKey h) with (getBlockStringKey h).
  set (L := bucket_list (getBlockStringKey h) b).
  assert (Hall : forall obj, In obj L -> schemaKey h (Key obj)).
  { intros obj Hin. apply bucket_list_In in Hin as [Hk Hpre]. exact (Hown _ Hk Hpre). }
  assert (HsL : StronglySorted str_lt (List.map Key L)).
  { unfold L. rewrite bucket_list_keys. apply StronglySorted_filter. exact Hs. }
  destruct (fold_atHash h now L (NewHashBlockStorageMapBuilder own))
    as ([Hem Hcur] & Hst & _).
  { split; [reflexivity | right; split; reflexivity]. }
  { exact Hall. }
  cbn [currentState ownName NewHashBlockStorageMapBuilder] in Hst.
  destruct (bucket_get (getBlockStringKey h) b) as [v|] eqn:Eg;
    [|apply bucket_get_None in Eg; contradiction].
  destruct (bucket_list_head _ _ _ Hs Eg) as [rest Hrest]. fold L in Hrest.
  assert (Hko : keyOp now (mkListObject (getBlockStringKey h) (blobModTime v)) = OpData).
  { apply (keyOp_bare now _ h). reflexivity. }
  pose proof (sorted_usesLast h now L HsL Hall) as Hlast.
  assert (Hd : List.existsb (isDelete now) L = List.existsb (isDelete now) rest).
  { rewrite Hrest. cbn [List.existsb]. unfold isDelete at 1. rewrite Hko. reflexivity. }
  assert (Hu : forall P, List.existsb (isUseOf now P) L = List.existsb (isUseOf now P) rest).
  { intros P. rewrite Hrest. cbn [List.existsb]. unfold isUseOf at 1. rewrite Hko. reflexivity. }
  rewrite Hd, !Hu.
  assert (Hfold : fold_left (fun st obj => stateOp own st (keyOp now obj)) L emptyState =
            mkState true
              (negb (List.existsb (isDelete now) rest) &&
               List.existsb (isUseOf now (fun who => String.eqb who own)) rest)
              (negb (List.existsb (isDelete now) rest) &&
               List.existsb (isUseOf now (fun who => negb (String.eqb who own))) rest)
              (List.existsb (isDelete now) rest)).
  { rewrite Hrest in Hlast |- *. cbn [fold_left usesLast] in Hlast |- *.
    rewrite Hko. cbn [stateOp emptyState reservedByMe reservedByOthers deletionPending].
    rewrite fold_stateOp_exact by (try reflexivity; exact (proj2 Hlast)).
    reflexivity. }
  rewrite Hfold in Hst. clear Hfold.
  assert (Hc : currentHash (fold_left (processObject now) L (NewHashBlockStorageMapBuilder own))
               = HashToStringMapKey h).
  { destruct Hcur as [E|[_ E]]; [exact E|]. rewrite Hst in E. discriminate. }
  clear Hcur.
  destruct (fold_left (processObject now) L (NewHashBlockStorageMapBuilder own))
    as [own' em cur st].
  cbn [emitted currentHash currentState] in Hem, Hc, Hst. subst em cur st.
  unfold close, completeIfNextHash. cbn [snd currentHash currentState dataExists].
  destruct (String.eqb_spec "" (HashToStringMapKey h)) as [E|_];
    [exfalso; exact (hex_nonempty h Hne (eq_sym E))|].
  cbn [negb dataExists emitted cb ownName currentHash currentState app].
  rewrite StringMapKeyToHash_roundtrip. reflexivity.
Qed.

Lemma GetBlockHashState_no_body (hm : GoCloudUrlStorage) (h : list byte) (w : World) :
  keysBelongTo h (objects w) ->
  ~ In (getBlockStringKey h) (bucket_keys (objects w)) ->
  exists w', GetBlockHashState hm h w = (Ok emptyState, w').
Proof.
  intros Hown Hnb. unfold GetBlockHashState, bind.
  destruct (IterateBlocksInternal_spec hm (HashToStringMapKey h) w)
    as (e & pre & post & w' & Hrun & Hp & Hc & _).
  rewrite Hrun. cbn [snd]. exists w'.
  assert (Hall : forall obj, In obj pre -> schemaKey h (Key obj) /\ In (Key obj) (bucket_keys (objects w))).
  { intros obj Hin.
    assert (Hl : In obj (bucket_list ("blocks/" +:+ HashToStringMapKey h) (objects w)))
      by (rewrite Hp; apply in_or_app; left; exact Hin).
    apply bucket_list_In in Hl as [Hk Hpre]. split; [exact (Hown _ Hk Hpre) | exact Hk]. }
  destruct (fold_atHash h (clock w) pre (NewHashBlockStorageMapBuilder (myDeviceId hm)))
    as ([Hem _] & Hst & _).
  { split; [reflexivity | right; split; reflexivity]. }
  { intros obj Hin. exact (proj1 (Hall obj Hin)). }
  cbn [currentState ownName NewHashBlockStorageMapBuilder] in Hst.
  destruct e as [err|]; [rewrite Hem; reflexivity|].
  unfold close, completeIfNextHash. cbn [snd].
  destruct (String.eqb "" (currentHash _)); cbn [negb]; [rewrite Hem; reflexivity|].
  destruct (dataExists (currentState _)) eqn:Ed; cbn [emitted cb]; [|rewrite Hem; reflexivity].
  exfalso. rewrite Hst in Ed.
  rewrite (fold_stateOp_no_data (myDeviceId hm) (clock w) pre emptyState eq_refl) in Ed;
    [discriminate|].
  intros obj Hin. destruct (Hall obj Hin) as [(s & Ts & Hk) Hkin].
  destruct Ts as [->|[r ->]]; [|exact (keyOp_tag (clock w) obj h r Hk)].
  exfalso. apply Hnb. rewrite str_app_nil_r in Hk. rewrite Hk in Hkin. exact Hkin.
Qed.

(** The state of a block whose body is there, read off the listing
    under its key. *)
Lemma GetBlockHashState_listed (hm : GoCloudUrlStorage) (h : list byte) (w : World) :
  StronglySorted str_lt (bucket_keys (objects w)) ->
  keysBelongTo h (objects w) -> h <> [] ->
  In (getBlockStringKey h) (bucket_keys (objects w)) -> quiet w ->
  exists w' : World,
    GetBlockHashState hm h w =
      (Ok (mkState true
             (negb (List.existsb (isDelete (clock w))
                      (bucket_list (getBlockStringKey h) (objects w))) &&
              List.existsb (isUseOf (clock w) (fun who => String.eqb who (myDeviceId hm)))
                (bucket_list (getBlockStringKey h) (objects w)))
             (negb (List.existsb (isDelete (clock w))
                      (bucket_list (getBlockStringKey h) (objects w))) &&
              List.existsb (isUseOf (clock w) (fun who => negb (String.eqb who (myDeviceId hm))))
                (bucket_list (getBlockStringKey h) (objects w)))
             (List.existsb (isDelete (clock w))
                (bucket_list (getBlockStringKey h) (objects w)))), w').
Proof.
  intros Hs Hown Hne Hbody Hq.
  destruct (IterateBlocksInternal_quiet hm (HashToStringMapKey h) w Hq) as (w' & Hrun & _ & _).
  exists w'. unfold GetBlockHashState, bind. rewrite Hrun. cbn [snd].
  rewrite (fullScan_single (myDeviceId hm) (clock w) h (objects w) Hs Hown Hne Hbody).
  reflexivity.
Qed.

(** X20: the state that [GetBlockHashState] returns is read off the
    tags of the block. In a bucket whose keys ascend and in which every
    key under the key of the block H is a key of H: without a body the
    state is the zero state; with a body, H not empty, no failing call
    and no cancellation, [dataExists] is set, [deletionPending] says
    that a deletion tag of H is younger than TIME_CONSTANT_BASE, and
    [reservedByMe] and [reservedByOthers] say that no such deletion tag
    is there and a use tag of the handle's own device id, or of another
    one, is: a fresh deletion tag hides every reservation. *)
Theorem block_state_is_read_off_its_tags (hm : GoCloudUrlStorage) (h : list byte) (w : World) :
  StronglySorted str_lt (bucket_keys (objects w)) ->
  keysBelongTo h (objects w) ->
  (~ In (getBlockStringKey h) (bucket_keys (objects w)) ->
   exists w', GetBlockHashState hm h w = (Ok emptyState, w')) /\
  (h <> [] -> In (getBlockStringKey h) (bucket_keys (objects w)) -> quiet w ->
   exists (st : HashBlockState) (w' : World),
     GetBlockHashState hm h w = (Ok st, w') /\
     dataExists st = true /\
     (deletionPending st = true <-> freshDeletion h (clock w) (objects w)) /\
     (reservedByMe st = true <->
      ~ freshDeletion h (clock w) (objects w) /\ hasUseTagOf h (myDeviceId hm) (objects w)) /\
     (reservedByOthers st = true <->
      ~ freshDeletion h (clock w) (objects w) /\
      exists who, who <> myDeviceId hm /\ hasUseTagOf h who (objects w))).
Proof.
  intros Hs Hown. split; [exact (GetBlockHashState_no_body hm h w Hown)|].
  intros Hne Hbody Hq.
  destruct (GetBlockHashState_listed hm h w Hs Hown Hne Hbody Hq) as (w' & ->).
  pose proof (listed_fresh_deletion h (clock w) (objects w) Hs Hown) as Hd.
  pose proof (listed_use h (clock w) (fun who => String.eqb who (myDeviceId hm)) (objects w) Hown)
    as Hme.
  pose proof (listed_use h (clock w) (fun who => negb (String.eqb who (myDeviceId hm)))
                (objects w) Hown) as Hoth.
  eexists. exists w'. split; [reflexivity|].
  cbn [dataExists reservedByMe reservedByOthers deletionPending].
  split; [reflexivity|]. split; [exact Hd|].
  assert (Hnd : negb (List.existsb (isDelete (clock w))
                        (bucket_list (getBlockStringKey h) (objects w))) = true <->
                ~ freshDeletion h (clock w) (objects w)).
  { rewrite <- Hd. destruct (List.existsb _ _); cbn [negb]; split; intros H;
      try reflexivity; try discriminate; try (exfalso; apply H; reflexivity). }
  split.
  - rewrite andb_true_iff, Hnd, Hme. split.
    + intros [Hn (who & E & Hu)]. apply String.eqb_eq in E. subst who. split; assumption.
    + intros [Hn Hu]. split; [exact Hn|].
      exists (myDeviceId hm). split; [apply String.eqb_refl | exact Hu].
  - rewrite andb_true_iff, Hnd, Hoth. split.
    + intros [Hn (who & E & Hu)]. split; [exact Hn|]. exists who. split; [|exact Hu].
      apply negb_true_iff, String.eqb_neq in E. exact E.
    + intros [Hn (who & E & Hu)]. split; [exact Hn|]. exists who. split; [|exact Hu].
      apply negb_true_iff, String.eqb_neq. exact E.
Qed.

Lemma exampleWorld_keys_01 :
  keysBelongTo [x01] (objects exampleWorld) /\
  In (getBlockStringKey [x01]) (bucket_keys (objects exampleWorld)).
Proof.
  assert (Hk : bucket_keys (objects exampleWorld) =
               ["blocks/01"; "blocks/01.used-by.A"; "blocks/ab"; "blocks/ab.used-by.A";
                "blocks/abcd"; "blocks/abcd.used-by.B"]) by (vm_compute; reflexivity).
  split.
  - unfold keysBelongTo. rewrite Hk. intros key Hin Hpre.
    destruct Hin as [<-|[<-|[<-|[<-|[<-|[<-|[]]]]]]]; try (cbv in Hpre; discriminate Hpre).
    + exists "". split; [left; reflexivity | reflexivity].
    + exists ".used-by.A". split; [right; eexists; reflexivity | reflexivity].
  - rewrite Hk. left. reflexivity.
Qed.

Lemma x01_not_nil : [x01] <> @nil byte.
Proof. discriminate. Qed.

Lemma block_state_is_read_off_its_tags_witness :
  exists (st : HashBlockState) (w' : World),
    GetBlockHashState (mkStorage "mem://" "B") [x01] exampleWorld = (Ok st, w') /\
    dataExists st = true /\
    (deletionPending st = true <-> freshDeletion [x01] (clock exampleWorld) (objects exampleWorld)) /\
    (reservedByMe st = true <->
     ~ freshDeletion [x01] (clock exampleWorld) (objects exampleWorld) /\
     hasUseTagOf [x01] "B" (objects exampleWorld)) /\
    (reservedByOthers st = true <->
     ~ freshDeletion [x01] (clock exampleWorld) (objects exampleWorld) /\
     exists who, who <> "B" /\ hasUseTagOf [x01] who (objects exampleWorld)).
Proof.
  exact (proj2 (block_state_is_read_off_its_tags (mkStorage "mem://" "B") [x01] exampleWorld
                  exampleWorld_sorted (proj1 exampleWorld_keys_01))
           x01_not_nil (proj2 exampleWorld_keys_01) exampleWorld_quiet).
Defined.

(** ** The buckets the store reaches *)

Lemma writesOnly_keeps {A : Type} (P : string -> Prop) (m : M A) :
  keepsBucket m -> writesOnly P m.
Proof. intros H I _ w r w' HI E. rewrite (H w r w' E). exact HI. Qed.

Lemma writesOnly_bind {A B : Type} (P : string -> Prop) (m : M A) (k : A -> M B) :
  writesOnly P m -> (forall a, writesOnly P (k a)) -> writesOnly P (x <- m;; k x).
Proof.
  intros Hm Hk I HI w r w' Hw. unfold bind.
  destruct (m w) as [[a| | |] w1] eqn:E; intros H.
  - exact (Hk a I HI w1 r w' (Hm I HI _ _ _ Hw E) H).
  - injection H as _ <-. exact (Hm I HI _ _ _ Hw E).
  - injection H as _ <-. exact (Hm I HI _ _ _ Hw E).
  - injection H as _ <-. exact (Hm I HI _ _ _ Hw E).
Qed.

Lemma writesOnly_WriteAll (P : string -> Prop) (key : string) (data : list byte) :
  P key -> writesOnly P (bucket_WriteAll key data).
Proof.
  intros Hk I [Hput _] w r w' Hw. unfold bucket_WriteAll, nextFault, record, setObjects.
  cbn [faults objects clock].
  destruct (faults w) as [|[|] fs]; intros [= _ <-]; cbn [objects];
    try exact Hw; apply Hput; assumption.
Qed.

Lemma writesOnly_Delete (P : string -> Prop) (key : string) :
  writesOnly P (bucket_Delete key).
Proof.
  intros I [_ Hrem] w r w' Hw. unfold bucket_Delete, nextFault, record, setObjects.
  cbn [faults objects clock].
  destruct (faults w) as [|[|] fs]; cbn [objects];
    try (intros [= _ <-]; exact Hw);
    destruct (bucket_get key (objects w)); intros [= _ <-]; cbn [objects];
    try exact Hw; apply Hrem; assumption.
Qed.

#[local] Hint Resolve writesOnly_keeps writesOnly_Delete : frame.

Ltac writes_step :=
  match goal with
  | |- writesOnly _ (bind _ _) => apply writesOnly_bind; [|intros ?]
  | |- writesOnly _ (if ?c then _ else _) => destruct c
  | |- writesOnly _ (match ?x with _ => _ end) => destruct x
  | |- writesOnly _ (bucket_WriteAll _ _) => apply writesOnly_WriteAll; assumption
  | |- _ => solve [auto with frame]
  | |- _ => progress cbv zeta
  end.

Lemma writesOnly_putATag (P : string -> Prop) (hm : GoCloudUrlStorage) (h : list byte)
    (tag : string) (u : bool) :
  P (getATag hm h tag) -> writesOnly P (putATag hm h tag u).
Proof. intros HP. unfold putATag. repeat writes_step. Qed.

Lemma writesOnly_removeATag (P : string -> Prop) (hm : GoCloudUrlStorage) (h : list byte)
    (tag : string) :
  writesOnly P (removeATag hm h tag).
Proof. unfold removeATag. repeat writes_step. Qed.

Lemma writesOnly_DeleteReservation (P : string -> Prop) (hm : GoCloudUrlStorage)
    (h : list byte) :
  writesOnly P (DeleteReservation hm h).
Proof.
  unfold DeleteReservation. apply writesOnly_bind; [apply writesOnly_removeATag|].
  intros e. repeat writes_step.
Qed.

Lemma writesOnly_ReserveAndGet (P : string -> Prop) (fuel : nat) (hm : GoCloudUrlStorage)
    (h : list byte) (dl : bool) :
  P (getATag hm h BLOCK_USE_TAG) -> writesOnly P (ReserveAndGet fuel hm h dl).
Proof.
  intros HP.
  assert (Hr : writesOnly P (reserveAndCheckExistence hm h)).
  { unfold reserveAndCheckExistence. cbv zeta. apply writesOnly_bind.
    - destruct (negb (IsReadOnly hm)); [apply writesOnly_putATag; exact HP | auto with frame].
    - intros e. repeat writes_step. }
  assert (Hl : writesOnly P (ReserveAndGet_loop fuel hm h)).
  { induction fuel as [|fuel IH]; cbn [ReserveAndGet_loop]; [auto with frame|].
    apply writesOnly_bind; [exact Hr|]. intros [ok retry].
    destruct retry; cbn [negb]; [|auto with frame].
    apply writesOnly_bind; [auto with frame | intros _; exact IH]. }
  unfold ReserveAndGet. destruct (length h =? 0)%nat; [auto with frame|].
  apply writesOnly_bind; [exact Hl|]. intros ok. repeat writes_step.
Qed.

Lemma writesOnly_ReserveAndSet (P : string -> Prop) (hm : GoCloudUrlStorage)
    (h data : list byte) :
  P (getATag hm h BLOCK_USE_TAG) -> P (getBlockStringKey h) ->
  writesOnly P (ReserveAndSet hm h data).
Proof.
  intros Ht Hb. unfold ReserveAndSet. destruct (IsReadOnly hm); [auto with frame|].
  apply writesOnly_bind; [apply writesOnly_putATag; exact Ht|].
  intros e. repeat writes_step.
Qed.

Lemma writesOnly_SetMeta (P : string -> Prop) (hm : GoCloudUrlStorage) (name : string)
    (data : list byte) :
  P (getMetadataStringKey name) -> writesOnly P (SetMeta hm name data).
Proof. intros HP. unfold SetMeta. repeat writes_step. Qed.

Lemma writesOnly_cleanup (P : string -> Prop) (hm : GoCloudUrlStorage)
    (fsetSnapshot : error + Snapshot) (checkMap : list (string * HashBlockState)) :
  writesOnly P (cleanupUnneededReservations hm fsetSnapshot checkMap).
Proof.
  unfold cleanupUnneededReservations. destruct fsetSnapshot as [e|snap]; [auto with frame|].
  apply writesOnly_bind.
  - apply writesOnly_keeps. unfold collectUsedBlockHashes.
    apply keepsBucket_collect. auto with frame.
  - intros used. apply writesOnly_bind; [|intros _; auto with frame].
    induction checkMap as [|[hs st] rest IH]; cbn [rangeCheckMap]; [auto with frame|].
    apply writesOnly_bind; [|intros _; exact IH].
    unfold cleanupEntry. destruct (IsAvailableAndFree st); [auto with frame|].
    destruct (IsAvailableAndReservedByMe st); [|auto with frame].
    destruct (bool_decide (hs ∈ used)); cbn [negb]; [auto with frame|].
    apply writesOnly_bind; [apply writesOnly_DeleteReservation | intros _; auto with frame].
Qed.

Lemma writesOnly_GetBlockHashesCache (P : string -> Prop) (hm : GoCloudUrlStorage)
    (producer : World) (shard : nat -> World) :
  P (getMetadataStringKey "BlockCountHint") ->
  writesOnly P (GetBlockHashesCache hm producer shard).
Proof.
  intros HP. unfold GetBlockHashesCache. apply writesOnly_bind.
  - apply writesOnly_keeps. unfold IterateBlocks. cbv zeta. auto with frame.
  - intros [e recs]. destruct (fold_left cacheStep recs (∅, [])) as [hashSet notified].
    destruct e as [e|]; [repeat writes_step|]. cbv zeta.
    apply writesOnly_bind; [apply writesOnly_SetMeta; exact HP | intros _; auto with frame].
Qed.

Lemma keyOfLength_block (h : list byte) : keyOfLength (length h) (getBlockStringKey h).
Proof.
  left. exists h. split; [reflexivity|]. exists "". split; [left; reflexivity|].
  rewrite <- getBlockStringKey_app, str_app_nil_r. reflexivity.
Qed.

Lemma keyOfLength_tag (hm : GoCloudUrlStorage) (h : list byte) (tag : string) :
  keyOfLength (length h) (getATag hm h tag).
Proof.
  left. exists h. split; [reflexivity|]. exists ("." +:+ tag +:+ "." +:+ myDeviceId hm).
  split; [right; eexists; reflexivity|]. unfold getATag. apply getBlockStringKey_app.
Qed.

Lemma keyOfLength_meta (n : nat) (name : string) : keyOfLength n (getMetadataStringKey name).
Proof. right. exists name. reflexivity. Qed.

Lemma uniform_closed (n : nat) :
  closedUnder (keyOfLength n) (fun b => wellFormedBucket b /\ uniformLength n b).
Proof.
  split.
  - intros key v b Hkey [Hwf Hu]. split.
    + apply wellFormed_put; [|exact Hwf]. intros Hpre.
      destruct Hkey as [(h & _ & Hs)|[name ->]]; [exists h; exact Hs | discriminate Hpre].
    + intros k Hin Hpre. apply bucket_keys_put in Hin as [->|Hin]; [|exact (Hu k Hin Hpre)].
      destruct Hkey as [(h & Hl & Hs)|[name ->]]; [|discriminate Hpre].
      exists h. split; assumption.
  - intros key b [Hwf Hu]. split; [apply wellFormed_remove; exact Hwf|].
    intros k Hin Hpre. rewrite bucket_keys_remove in Hin.
    apply List.filter_In in Hin as [Hin _]. exact (Hu k Hin Hpre).
Qed.

Lemma reachable_uniform (n : nat) (b : Bucket) :
  reachable n b -> wellFormedBucket b /\ uniformLength n b.
Proof.
  assert (K : forall (A : Type) (m : M A) (w : World),
            writesOnly (keyOfLength n) m ->
            wellFormedBucket (objects w) /\ uniformLength n (objects w) ->
            wellFormedBucket (objects (snd (m w))) /\ uniformLength n (objects (snd (m w)))).
  { intros A m w Hm Hw. destruct (m w) as [r w'] eqn:E.
    exact (Hm _ (uniform_closed n) w r w' Hw E). }
  induction 1 as [|hm h data w _ IH Hl|fuel hm h dl w _ IH Hl|hm h w _ IH|hm h w _ IH Hl
                  |hm h w _ IH|hm h w _ IH|hm name data w _ IH|hm name w _ IH
                  |hm producer shard w _ IH|hm snap checkMap w _ IH].
  - split; [split; [constructor | intros key []] | intros key []].
  - apply K; [|exact IH]. subst n.
    apply writesOnly_ReserveAndSet; [apply keyOfLength_tag | apply keyOfLength_block].
  - apply K; [|exact IH]. subst n. apply writesOnly_ReserveAndGet, keyOfLength_tag.
  - apply K; [|exact IH]. apply writesOnly_DeleteReservation.
  - apply K; [|exact IH]. subst n. unfold AnnounceDelete.
    apply writesOnly_putATag, keyOfLength_tag.
  - apply K; [|exact IH]. unfold DeAnnounceDelete. apply writesOnly_removeATag.
  - apply K; [|exact IH]. unfold UncheckedDelete. repeat writes_step.
  - apply K; [|exact IH]. apply writesOnly_SetMeta, keyOfLength_meta.
  - apply K; [|exact IH]. unfold DeleteMeta. repeat writes_step.
  - apply K; [|exact IH]. apply writesOnly_GetBlockHashesCache, keyOfLength_meta.
  - apply K; [|exact IH]. apply writesOnly_cleanup.
Qed.

(** X21: every bucket that the writing calls of the store, made by any
    handles in any order with hashes of n bytes, reach from the empty
    bucket, whatever fails and however each call ends, lists its keys
    in ascending order, holds under [blocks/] only keys of the schema
    with hashes of n bytes, and so has under the key of a block of n
    bytes only keys of that block; in such a bucket the state that
    [GetBlockHashState] returns for a block of n bytes with a use tag
    is never IsAvailableAndFree. *)
Theorem reachable_buckets_are_well_formed (n : nat) (b : Bucket) :
  reachable n b ->
  wellFormedBucket b /\ uniformLength n b /\
  (forall h : list byte, length h = n -> keysBelongTo h b) /\
  (forall (hm : GoCloudUrlStorage) (h : list byte) (w : World),
     objects w = b -> length h = n -> hasUseTag h b ->
     exists (st : HashBlockState) (w' : World),
       GetBlockHashState hm h w = (Ok st, w') /\ IsAvailableAndFree st = false).
Proof.
  intros Hr. destruct (reachable_uniform n b Hr) as [Hwf Hu].
  assert (Hk : forall h : list byte, length h = n -> keysBelongTo h b).
  { intros h Hl. apply uniformLength_keysBelongTo. rewrite Hl. exact Hu. }
  split; [exact Hwf|]. split; [exact Hu|]. split; [exact Hk|].
  intros hm h w Hb Hl Htag. subst b.
  destruct (GetBlockHashState_reserved hm h w (proj1 Hwf) (Hk h Hl) Htag)
    as (st & w' & Hq & Hf & _).
  exists st, w'. split; assumption.
Qed.

Lemma reachable_buckets_are_well_formed_witness :
  let b := objects (snd (ReserveAndSet (mkStorage "mem://" "A") [x01] [x03] freshWorld)) in
  wellFormedBucket b /\ uniformLength 1 b /\
  (forall h : list byte, length h = 1%nat -> keysBelongTo h b) /\
  (forall (hm : GoCloudUrlStorage) (h : list byte) (w : World),
     objects w = b -> length h = 1%nat -> hasUseTag h b ->
     exists (st : HashBlockState) (w' : World),
       GetBlockHashState hm h w = (Ok st, w') /\ IsAvailableAndFree st = false).
Proof.
  intros b.
  apply (reachable_buckets_are_well_formed 1 b).
  exact (reach_ReserveAndSet 1 (mkStorage "mem://" "A") [x01] [x03] freshWorld
           (reach_empty 1) eq_refl).
Defined.

(** ** The folder service: blocks by way of the store *)

Lemma sameTimes_faults (w w' : World) : sameTimes w w' -> faults w = [] -> faults w' = [].
Proof. intros (_ & -> & _) H. exact H. Qed.

Lemma sameTimes_clock (w w' : World) : sameTimes w w' -> clock w' = clock w.
Proof. intros (H & _). exact H. Qed.

(** X22: a block that [GetBlockDataFromCacheOrDownload] had to pull is
    in the store afterwards: when the body is not in the bucket, no
    bucket call fails and no deletion tag of the block is fresh, the
    call of a writable handle whose pull delivers a block returns that
    block as GET_BLOCK_DOWNLOAD, and the next call, of this or of any
    other handle, returns the same bytes as GET_BLOCK_CACHED whatever
    its pull would deliver. When the pull returns an error the call
    returns GET_BLOCK_FAILED, and the use tag it wrote before stays in
    the bucket without a body. *)
Theorem downloaded_block_is_cached (fuel : nat) (blockCache reader : GoCloudUrlStorage)
    (h blockData : list byte) (w : World) :
  IsReadOnly blockCache = false -> h <> [] -> faults w = [] ->
  StronglySorted str_lt (bucket_keys (objects w)) ->
  noFreshDeletion h (clock w) (objects w) ->
  bucket_get (getBlockStringKey h) (objects w) = None ->
  (exists w1 : World,
     GetBlockDataFromCacheOrDownload (S fuel) blockCache h (Some blockData) None w =
       (Ok (Some blockData, true, GET_BLOCK_DOWNLOAD), w1) /\
     forall (pulled : option (list byte)) (err : option error),
     exists w2 : World,
       GetBlockDataFromCacheOrDownload (S fuel) reader h pulled err w1 =
         (Ok (Some blockData, true, GET_BLOCK_CACHED), w2)) /\
  (forall (pulled : option (list byte)) (e : error),
   exists w1 : World,
     GetBlockDataFromCacheOrDownload (S fuel) blockCache h pulled (Some e) w =
       (Ok (None, false, GET_BLOCK_FAILED), w1) /\
     isSome (bucket_get (getATag blockCache h BLOCK_USE_TAG) (objects w1)) = true /\
     bucket_get (getBlockStringKey h) (objects w1) = None).
Proof.
  intros Hro Hne Hf Hs Hd Hg.
  destruct (ReserveAndGet_quiet fuel blockCache h true w Hne Hf Hs Hd) as (w0 & H0 & Ho0 & Ht0).
  rewrite Hg in H0. rewrite Hro in Ho0.
  split.
  - destruct (ReserveAndSet_quiet blockCache h blockData w0 Hro (sameTimes_faults _ _ Ht0 Hf))
      as (w1 & H1 & Ho1 & Ht1).
    exists w1. split.
    + unfold GetBlockDataFromCacheOrDownload, bind. rewrite H0. cbn [bytesOf].
      rewrite H1. reflexivity.
    + intros pulled err.
      assert (Hf1 : faults w1 = []).
      { apply (sameTimes_faults _ _ Ht1), (sameTimes_faults _ _ Ht0), Hf. }
      assert (Hc1 : clock w1 = clock w).
      { rewrite (sameTimes_clock _ _ Ht1). apply (sameTimes_clock _ _ Ht0). }
      destruct (ReserveAndGet_quiet fuel reader h true w1 Hne Hf1) as (w2 & H2 & _).
      * rewrite Ho1. apply bucket_put_sorted, reserved_sorted. rewrite Ho0.
        apply reserved_sorted, Hs.
      * rewrite Ho1, Hc1. apply (put_noFreshDeletion h h (clock w)), reserved_noFreshDeletion.
        rewrite Ho0. apply reserved_noFreshDeletion, Hd.
      * exists w2. unfold GetBlockDataFromCacheOrDownload, bind.
        rewrite H2, Ho1, bucket_get_put_eq. reflexivity.
  - intros pulled e. exists w0. split.
    + unfold GetBlockDataFromCacheOrDownload, bind. rewrite H0. reflexivity.
    + rewrite Ho0. split; [apply reserved_get_tag|]. rewrite reserved_body. exact Hg.
Qed.

Lemma downloaded_block_is_cached_witness :
  (exists w1 : World,
     GetBlockDataFromCacheOrDownload 1 (mkStorage "mem://" "A") [xab] (Some [x01; x02]) None
       freshWorld = (Ok (Some [x01; x02], true, GET_BLOCK_DOWNLOAD), w1) /\
     forall (pulled : option (list byte)) (err : option error),
     exists w2 : World,
       GetBlockDataFromCacheOrDownload 1 (mkStorage "mem://" "B") [xab] pulled err w1 =
         (Ok (Some [x01; x02], true, GET_BLOCK_CACHED), w2)) /\
  (forall (pulled : option (list byte)) (e : error),
   exists w1 : World,
     GetBlockDataFromCacheOrDownload 1 (mkStorage "mem://" "A") [xab] pulled (Some e) freshWorld =
       (Ok (None, false, GET_BLOCK_FAILED), w1) /\
     isSome (bucket_get (getATag (mkStorage "mem://" "A") [xab] BLOCK_USE_TAG) (objects w1)) = true /\
     bucket_get (getBlockStringKey [xab]) (objects w1) = None).
Proof.
  apply (downloaded_block_is_cached 0 (mkStorage "mem://" "A") (mkStorage "mem://" "B")
           [xab] [x01; x02] freshWorld).
  - reflexivity.
  - discriminate.
  - reflexivity.
  - constructor.
  - intros id v Hg. discriminate Hg.
  - reflexivity.
Defined.

(** X23: a read-only handle caches nothing: when the body is not in the
    bucket, [GetBlockDataFromCacheOrDownload] of a read-only handle
    whose pull delivers a block returns it as GET_BLOCK_DOWNLOAD and
    leaves the bucket as it was, so that the next call has to pull
    again. *)
Theorem read_only_handle_pulls_every_time (fuel : nat) (blockCache : GoCloudUrlStorage)
    (h blockData : list byte) (w : World) :
  IsReadOnly blockCache = true -> h <> [] -> faults w = [] ->
  StronglySorted str_lt (bucket_keys (objects w)) ->
  noFreshDeletion h (clock w) (objects w) ->
  bucket_get (getBlockStringKey h) (objects w) = None ->
  exists w1 : World,
    GetBlockDataFromCacheOrDownload (S fuel) blockCache h (Some blockData) None w =
      (Ok (Some blockData, true, GET_BLOCK_DOWNLOAD), w1) /\
    objects w1 = objects w /\ clock w1 = clock w /\ faults w1 = [].
Proof.
  intros Hro Hne Hf Hs Hd Hg.
  destruct (ReserveAndGet_quiet fuel blockCache h true w Hne Hf Hs Hd) as (w0 & H0 & Ho0 & Ht0).
  rewrite Hg in H0. rewrite Hro in Ho0.
  eexists. split.
  - unfold GetBlockDataFromCacheOrDownload, bind. rewrite H0.
    unfold ReserveAndSet. rewrite Hro. unfold Warnf. reflexivity.
  - cbn [record objects clock faults]. split; [exact Ho0|].
    split; [exact (sameTimes_clock _ _ Ht0) | exact (sameTimes_faults _ _ Ht0 Hf)].
Qed.

Lemma read_only_handle_pulls_every_time_witness :
  exists w1 : World,
    GetBlockDataFromCacheOrDownload 1 (readOnlyHandle "mem://") [xab] (Some [x01]) None freshWorld =
      (Ok (Some [x01], true, GET_BLOCK_DOWNLOAD), w1) /\
    objects w1 = objects freshWorld /\ clock w1 = clock freshWorld /\ faults w1 = [].
Proof.
  apply (read_only_handle_pulls_every_time 0 (readOnlyHandle "mem://") [xab] [x01] freshWorld).
  - reflexivity.
  - discriminate.
  - reflexivity.
  - constructor.
  - intros id v Hg. discriminate Hg.
  - reflexivity.
Defined.

Lemma copy_prefix (dst src : list byte) :
  copy dst src =
    (Nat.min (length dst) (length src), firstn (length dst) src ++ skipn (length src) dst).
Proof.
  unfold copy. cbv zeta. f_equal.
  destruct (Nat.le_ge_cases (length dst) (length src)) as [H|H].
  - rewrite (Nat.min_l _ _ H). f_equal.
    rewrite List.skipn_all. symmetry. apply List.skipn_all2. exact H.
  - rewrite (Nat.min_r _ _ H). f_equal.
    rewrite List.firstn_all. symmetry. apply List.firstn_all2. exact H.
Qed.

Lemma ReserveAndGet_first_call_fails (fuel : nat) (hm : GoCloudUrlStorage) (h : list byte)
    (dl : bool) (w : World) (fs : list bool) :
  h <> [] -> faults w = true :: fs ->
  exists w', ReserveAndGet (S fuel) hm h dl w = (Ok (None, false), w') /\
             objects w' = objects w.
Proof.
  intros Hne Hf. rewrite (ReserveAndGet_nonempty _ _ _ _ Hne).
  assert (Hc : exists w', reserveAndCheckExistence hm h w = (Ok (false, false), w') /\
                          objects w' = objects w).
  { unfold reserveAndCheckExistence. cbv zeta. destruct (IsReadOnly hm) eqn:Hro; cbn [negb].
    - unfold bind at 1. unfold ret at 1. unfold bind at 1.
      unfold bucket_ListPage, nextFault, record. cbn [faults]. rewrite Hf.
      eexists. split; reflexivity.
    - unfold bind at 1. unfold putATag. rewrite Hro. cbv zeta. cbn [negb].
      unfold bind at 1. unfold bucket_Exists, nextFault, record. cbn [faults]. rewrite Hf.
      eexists. split; reflexivity. }
  destruct Hc as (w' & Hc & Ho). exists w'. split; [|exact Ho].
  unfold bind at 1. rewrite (ReserveAndGet_loop_done _ _ _ _ _ _ Hc). reflexivity.
Qed.

(** X24: [GetHashBlockData] serves what was stored, cut to the buffer:
    for a block stored with [ReserveAndSet], when no bucket call fails
    and no deletion tag of the block is fresh, it returns no error and
    the smaller of the two lengths, and leaves in the buffer the stored
    bytes that fit, followed by what the buffer held beyond the length
    of the block; a buffer of the length of the block holds the block.
    A failure of the first bucket call is reported like a block that
    is not there, with ErrNoSuchFile and the buffer as it was, although
    the body is in the bucket. *)
Theorem served_block_is_stored_block (fuel : nat) (writer blockCache : GoCloudUrlStorage)
    (h data response_data : list byte) (w : World) :
  IsReadOnly writer = false -> h <> [] -> faults w = [] ->
  StronglySorted str_lt (bucket_keys (objects w)) ->
  noFreshDeletion h (clock w) (objects w) ->
  exists w1 : World,
    ReserveAndSet writer h data w = (Ok tt, w1) /\
    (exists w2 : World,
       GetHashBlockData (S fuel) blockCache h response_data w1 =
         (Ok (Nat.min (length response_data) (length data), None,
              firstn (length response_data) data ++ skipn (length data) response_data), w2)) /\
    (length response_data = length data ->
     exists w2 : World,
       GetHashBlockData (S fuel) blockCache h response_data w1 =
         (Ok (length data, None, data), w2)) /\
    (forall fs : list bool,
     exists w2 : World,
       GetHashBlockData (S fuel) blockCache h response_data (withFaults (true :: fs) w1) =
         (Ok (0%nat, Some ErrNoSuchFile, response_data), w2) /\
       bucket_get (getBlockStringKey h) (objects w2) = Some (mkBlob (clock w) data)).
Proof.
  intros Hro Hne Hf Hs Hd.
  destruct (ReserveAndSet_quiet writer h data w Hro Hf) as (w1 & H1 & Ho1 & Ht1).
  assert (Hf1 : faults w1 = []) by exact (sameTimes_faults _ _ Ht1 Hf).
  assert (Hc1 : clock w1 = clock w) by exact (sameTimes_clock _ _ Ht1).
  exists w1. split; [exact H1|].
  destruct (ReserveAndGet_quiet fuel blockCache h true w1 Hne Hf1) as (w2 & H2 & _).
  { rewrite Ho1. apply bucket_put_sorted, reserved_sorted, Hs. }
  { rewrite Ho1, Hc1. apply (put_noFreshDeletion h h (clock w)), reserved_noFreshDeletion, Hd. }
  rewrite Ho1, bucket_get_put_eq in H2. cbn [blobData] in H2.
  assert (Hrun : GetHashBlockData (S fuel) blockCache h response_data w1 =
                 (Ok (Nat.min (length response_data) (length data), None,
                      firstn (length response_data) data ++ skipn (length data) response_data),
                  w2)).
  { unfold GetHashBlockData, bind. rewrite H2. cbn [negb bytesOf].
    rewrite copy_prefix. reflexivity. }
  split; [exists w2; exact Hrun|]. split.
  - intros Hlen. exists w2. rewrite Hrun, Hlen, Nat.min_id.
    rewrite List.firstn_all, List.skipn_all2 by (rewrite Hlen; apply Nat.le_refl).
    rewrite app_nil_r. reflexivity.
  - intros fs.
    destruct (ReserveAndGet_first_call_fails fuel blockCache h true (withFaults (true :: fs) w1) fs
                Hne eq_refl) as (w3 & H3 & Ho3).
    exists w3. split.
    + unfold GetHashBlockData, bind. rewrite H3. reflexivity.
    + rewrite Ho3. cbn [withFaults objects]. rewrite Ho1. apply bucket_get_put_eq.
Qed.

Lemma served_block_is_stored_block_witness :
  exists w1 : World,
    ReserveAndSet (mkStorage "mem://" "A") [xab] [x01; x02; x03] freshWorld = (Ok tt, w1) /\
    (exists w2 : World,
       GetHashBlockData 1 (mkStorage "mem://" "B") [xab] [x00; x00] w1 =
         (Ok (2%nat, None, [x01; x02]), w2)) /\
    (length [x00; x00] = length [x01; x02; x03] ->
     exists w2 : World,
       GetHashBlockData 1 (mkStorage "mem://" "B") [xab] [x00; x00] w1 =
         (Ok (3%nat, None, [x01; x02; x03]), w2)) /\
    (forall fs : list bool,
     exists w2 : World,
       GetHashBlockData 1 (mkStorage "mem://" "B") [xab] [x00; x00] (withFaults (true :: fs) w1) =
         (Ok (0%nat, Some ErrNoSuchFile, [x00; x00]), w2) /\
       bucket_get (getBlockStringKey [xab]) (objects w2) = Some (mkBlob 0 [x01; x02; x03])).
Proof.
  apply (served_block_is_stored_block 0 (mkStorage "mem://" "A") (mkStorage "mem://" "B")
           [xab] [x01; x02; x03] [x00; x00] freshWorld).
  - reflexivity.
  - discriminate.
  - reflexivity.
  - constructor.
  - intros id v Hg. discriminate Hg.
Defined.

(** ** The check of one file against the map of a scan *)

Lemma blockOk_bodies (checkMap : gmap string HashBlockState) (b b' : Bucket)
    (blocks : list FolderScan.BlockInfo) :
  (forall h, bucket_get (getBlockStringKey h) b' = bucket_get (getBlockStringKey h) b) ->
  forallb (FolderScan.blockOk checkMap b') blocks = forallb (FolderScan.blockOk checkMap b) blocks.
Proof.
  intros H. induction blocks as [|bi rest IH]; cbn [forallb]; [reflexivity|].
  rewrite IH. unfold FolderScan.blockOk. rewrite H. reflexivity.
Qed.

Lemma checkBlock_quiet (fuel : nat) (blockCache : GoCloudUrlStorage)
    (checkMap : gmap string HashBlockState) (bi : FolderScan.BlockInfo) (w : World) :
  faults w = [] ->
  StronglySorted str_lt (bucket_keys (objects w)) ->
  noFreshDeletion (FolderScan.Hash bi) (clock w) (objects w) ->
  exists w1 : World,
    FolderScan.checkBlock (S fuel) blockCache checkMap bi w =
      (Ok (FolderScan.blockOk checkMap (objects w) bi), w1) /\
    (forall h, bucket_get (getBlockStringKey h) (objects w1) =
               bucket_get (getBlockStringKey h) (objects w)) /\
    (IsReadOnly blockCache = true -> objects w1 = objects w) /\
    StronglySorted str_lt (bucket_keys (objects w1)) /\
    (forall h, noFreshDeletion h (clock w) (objects w) ->
               noFreshDeletion h (clock w1) (objects w1)) /\
    sameTimes w w1.
Proof.
  intros Hf Hs Hd. unfold FolderScan.checkBlock, FolderScan.blockOk.
  destruct (checkMap !! HashToStringMapKey (FolderScan.Hash bi)) as [st|];
    [|exists w; cbn [andb]; repeat split; auto].
  destruct (IsAvailableAndReservedByMe st); cbn [andb negb orb];
    [exists w; repeat split; auto|].
  destruct (FolderScan.Hash bi) as [|x h'] eqn:Eh.
  { exists w. repeat split; auto. }
  assert (Hne : x :: h' <> []) by discriminate.
  destruct (ReserveAndGet_quiet fuel blockCache (x :: h') false w Hne Hf Hs Hd)
    as (w1 & H1 & Ho1 & Ht1).
  exists w1. unfold bind. rewrite H1.
  split; [destruct (bucket_get _ (objects w)); reflexivity|].
  split; [intros h; rewrite Ho1; destruct (IsReadOnly blockCache);
          [reflexivity | apply reserved_body]|].
  split; [intros Hro; rewrite Ho1, Hro; reflexivity|].
  split; [rewrite Ho1; destruct (IsReadOnly blockCache);
          [exact Hs | apply reserved_sorted, Hs]|].
  split; [|exact Ht1].
  intros h Hh. rewrite Ho1, (sameTimes_clock _ _ Ht1).
  destruct (IsReadOnly blockCache); [exact Hh | apply reserved_noFreshDeletion, Hh].
Qed.

Lemma scanBlocks_quiet (fuel : nat) (blockCache : GoCloudUrlStorage)
    (checkMap : gmap string HashBlockState) (blocks : list FolderScan.BlockInfo) :
  forall (all_ok : bool) (out : list FolderScan.ScanEffect) (w : World),
    faults w = [] -> polls w = None ->
    StronglySorted str_lt (bucket_keys (objects w)) ->
    (forall bi, In bi blocks -> noFreshDeletion (FolderScan.Hash bi) (clock w) (objects w)) ->
    exists w' : World,
      FolderScan.scanBlocks (S fuel) blockCache checkMap blocks all_ok out w =
        (Ok (false, all_ok && forallb (FolderScan.blockOk checkMap (objects w)) blocks,
             out ++ List.map (fun bi => FolderScan.Progress (FolderScan.Size bi) false) blocks),
         w') /\
      (forall h, bucket_get (getBlockStringKey h) (objects w') =
                 bucket_get (getBlockStringKey h) (objects w)) /\
      (IsReadOnly blockCache = true -> objects w' = objects w).
Proof.
  induction blocks as [|bi rest IH]; intros all_ok out w Hf Hp Hs Hd.
  - exists w. cbn [FolderScan.scanBlocks forallb List.map].
    rewrite andb_true_r, app_nil_r. split; [reflexivity|]. split; reflexivity.
  - cbn [FolderScan.scanBlocks forallb List.map].
    destruct (checkBlock_quiet fuel blockCache checkMap bi w Hf Hs (Hd bi (or_introl eq_refl)))
      as (w1 & H1 & Hb1 & Hro1 & Hs1 & Hd1 & Ht1).
    assert (Hf1 : faults w1 = []) by exact (sameTimes_faults _ _ Ht1 Hf).
    assert (Hp1 : polls w1 = None) by (destruct Ht1 as (_ & _ & -> & _); exact Hp).
    unfold bind at 1. rewrite H1. cbv zeta. unfold bind at 1.
    rewrite (IsDone_quiet w1 Hp1).
    destruct (IH (all_ok && FolderScan.blockOk checkMap (objects w) bi)
                (out ++ [FolderScan.Progress (FolderScan.Size bi) false]) w1 Hf1 Hp1 Hs1)
      as (w' & H' & Hb' & Hro').
    { intros b Hin. apply Hd1, Hd. right. exact Hin. }
    exists w'. rewrite H'. rewrite (blockOk_bodies checkMap _ _ rest Hb1).
    rewrite <- andb_assoc, <- app_assoc. cbn [app].
    split; [reflexivity|]. split.
    + intros h. rewrite Hb'. apply Hb1.
    + intros Hro. rewrite (Hro' Hro). exact (Hro1 Hro).
Qed.

(** X25: [scanOne] reverts exactly the files with a block that fails
    the check. For a file that is no directory and is in the snapshot,
    when no bucket call fails and no deletion tag of its blocks is
    fresh: if the context is not cancelled, [scanOne] reports the size
    of each block in turn, then, exactly when some block is not in the
    map, or is in the map without being reserved by this handle and
    has an empty hash or no body in the bucket, calls [UpdateOne] with
    the version of the file reset, and reports the end last; the
    bodies in the bucket stay as they are, and a read-only handle
    leaves the whole bucket as it is. If the context is cancelled, it
    stops after the first block and does not revert the file, whatever
    the check of that block said. *)
Theorem scan_reverts_incomplete_file (fuel : nat) (blockCache : GoCloudUrlStorage)
    (snapGet : string -> option FolderScan.FileInfo) (f : FolderScan.FileIntf)
    (fi : FolderScan.FileInfo) (checkMap : gmap string HashBlockState) (w : World) :
  FolderScan.IsDirectory f = false ->
  snapGet (FolderScan.FileName f) = Some fi ->
  faults w = [] ->
  StronglySorted str_lt (bucket_keys (objects w)) ->
  (forall bi, In bi (FolderScan.Blocks fi) ->
              noFreshDeletion (FolderScan.Hash bi) (clock w) (objects w)) ->
  (polls w = None ->
   exists w' : World,
     FolderScan.scanOne (S fuel) blockCache snapGet f checkMap w =
       (Ok (List.map (fun bi => FolderScan.Progress (FolderScan.Size bi) false)
              (FolderScan.Blocks fi) ++
            (if forallb (FolderScan.blockOk checkMap (objects w)) (FolderScan.Blocks fi)
             then []
             else [FolderScan.UpdateOne
                     (FolderScan.mkFileInfo (FolderScan.Name fi) [] (FolderScan.Blocks fi))]) ++
            [FolderScan.Progress 0 true]), w') /\
     (forall h, bucket_get (getBlockStringKey h) (objects w') =
                bucket_get (getBlockStringKey h) (objects w)) /\
     (IsReadOnly blockCache = true -> objects w' = objects w)) /\
  (polls w = Some 0%nat ->
   forall (bi : FolderScan.BlockInfo) (rest : list FolderScan.BlockInfo),
     FolderScan.Blocks fi = bi :: rest ->
     exists w' : World,
       FolderScan.scanOne (S fuel) blockCache snapGet f checkMap w =
         (Ok [FolderScan.Progress (FolderScan.Size bi) false; FolderScan.Progress 0 true], w')).
Proof.
  intros Hdir Hget Hf Hs Hd. split.
  - intros Hp.
    destruct (scanBlocks_quiet fuel blockCache checkMap (FolderScan.Blocks fi) true [] w
                Hf Hp Hs Hd) as (w' & H & Hb & Hro).
    exists w'. split; [|split; assumption].
    unfold FolderScan.scanOne. rewrite Hdir, Hget. unfold bind. rewrite H.
    cbn [andb app].
    destruct (forallb _ _); cbn [negb app]; reflexivity.
  - intros Hp bi rest Hbl.
    destruct (checkBlock_quiet fuel blockCache checkMap bi w Hf Hs) as (w1 & H1 & _ & _ & _ & _ & Ht1).
    { apply Hd. rewrite Hbl. left. reflexivity. }
    assert (Hp1 : polls w1 = Some 0%nat) by (destruct Ht1 as (_ & _ & -> & _); exact Hp).
    exists w1. unfold FolderScan.scanOne. rewrite Hdir, Hget, Hbl.
    cbn [FolderScan.scanBlocks]. unfold bind. rewrite H1. cbv zeta.
    unfold IsDone. rewrite Hp1. reflexivity.
Qed.

Lemma scan_reverts_incomplete_file_witness :
  let fi := FolderScan.mkFileInfo "a.txt" [(1, 1)%Z] [FolderScan.mkBlockInfo [xab] 0 4] in
  let f := FolderScan.mkFileIntf "a.txt" false 4 in
  (polls freshWorld = None ->
   exists w' : World,
     FolderScan.scanOne 1 (mkStorage "mem://" "A") (fun _ => Some fi) f ∅ freshWorld =
       (Ok (List.map (fun bi => FolderScan.Progress (FolderScan.Size bi) false)
              (FolderScan.Blocks fi) ++
            (if forallb (FolderScan.blockOk ∅ (objects freshWorld)) (FolderScan.Blocks fi)
             then []
             else [FolderScan.UpdateOne
                     (FolderScan.mkFileInfo (FolderScan.Name fi) [] (FolderScan.Blocks fi))]) ++
            [FolderScan.Progress 0 true]), w') /\
     (forall h, bucket_get (getBlockStringKey h) (objects w') =
                bucket_get (getBlockStringKey h) (objects freshWorld)) /\
     (IsReadOnly (mkStorage "mem://" "A") = true -> objects w' = objects freshWorld)) /\
  (polls freshWorld = Some 0%nat ->
   forall (bi : FolderScan.BlockInfo) (rest : list FolderScan.BlockInfo),
     FolderScan.Blocks fi = bi :: rest ->
     exists w' : World,
       FolderScan.scanOne 1 (mkStorage "mem://" "A") (fun _ => Some fi) f ∅ freshWorld =
         (Ok [FolderScan.Progress (FolderScan.Size bi) false; FolderScan.Progress 0 true], w')).
Proof.
  intros fi f.
  apply (scan_reverts_incomplete_file 0 (mkStorage "mem://" "A") (fun _ => Some fi) f fi ∅
           freshWorld).
  - reflexivity.
  - reflexivity.
  - reflexivity.
  - constructor.
  - intros bi _ id v Hg. discriminate Hg.
Defined.

(** ** The announcement of a deletion *)

Lemma AnnounceDelete_quiet (p : GoCloudUrlStorage) (h : list byte) (w : World) :
  IsReadOnly p = false -> faults w = [] ->
  exists w1 : World,
    AnnounceDelete p h w = (Ok None, w1) /\
    objects w1 = bucket_put (getATag p h BLOCK_DELETE_TAG) (mkBlob (clock w) []) (objects w) /\
    sameTimes w w1.
Proof.
  intros Hro Hf. unfold AnnounceDelete, putATag. rewrite Hro. cbv zeta. cbn [negb].
  destruct (bucket_WriteAll_quiet (getATag p h BLOCK_DELETE_TAG) [] w Hf) as (w1 & H1 & Ho & Ht).
  exists w1. unfold bind, ret. rewrite H1. split; [reflexivity|]. split; assumption.
Qed.

Lemma DeAnnounceDelete_quiet (p : GoCloudUrlStorage) (h : list byte) (w : World) :
  IsReadOnly p = false -> faults w = [] ->
  isSome (bucket_get (getATag p h BLOCK_DELETE_TAG) (objects w)) = true ->
  exists w' : World,
    DeAnnounceDelete p h w = (Ok None, w') /\
    objects w' = bucket_remove (getATag p h BLOCK_DELETE_TAG) (objects w) /\
    sameTimes w w'.
Proof.
  intros Hro Hf Hg. unfold DeAnnounceDelete, removeATag. rewrite Hro.
  destruct (bucket_Delete_quiet (getATag p h BLOCK_DELETE_TAG) w Hf) as (w1 & H1 & Ho & Ht).
  unfold getATag in H1, Ho, Hg. cbv zeta in H1, Ho, Hg. cbv zeta. rewrite H1.
  destruct (bucket_get _ (objects w)); [|discriminate].
  exists w1. split; [reflexivity|]. split; assumption.
Qed.

Lemma In_keys_get (key : string) (b : Bucket) :
  In key (bucket_keys b) <-> isSome (bucket_get key b) = true.
Proof.
  pose proof (bucket_get_None key b) as H.
  destruct (bucket_get key b); cbn [isSome]; split; intros H1; try reflexivity.
  - destruct (in_dec string_dec key (bucket_keys b)) as [Hin|Hn]; [exact Hin|].
    apply (proj2 H) in Hn. discriminate.
  - exfalso. exact (proj1 H eq_refl H1).
  - discriminate.
Qed.

Lemma keysBelongTo_put (h : list byte) (key : string) (v : Blob) (b : Bucket) :
  schemaKey h key -> keysBelongTo h b -> keysBelongTo h (bucket_put key v b).
Proof.
  intros Hk Hown k Hin Hpre. apply bucket_keys_put in Hin as [->|Hin]; [exact Hk|].
  exact (Hown k Hin Hpre).
Qed.

Lemma schemaKey_tag (hm : GoCloudUrlStorage) (h : list byte) (tag : string) :
  schemaKey h (getATag hm h tag).
Proof.
  exists ("." +:+ tag +:+ "." +:+ myDeviceId hm).
  split; [right; eexists; reflexivity|]. unfold getATag. apply getBlockStringKey_app.
Qed.

Lemma hasUseTagOf_put_delete_tag (p : GoCloudUrlStorage) (h : list byte) (who : string)
    (v : Blob) (b : Bucket) :
  hasUseTagOf h who (bucket_put (getATag p h BLOCK_DELETE_TAG) v b) <-> hasUseTagOf h who b.
Proof.
  unfold hasUseTagOf. split; intros (r & Hin & Hw); exists r; (split; [|exact Hw]);
    apply In_keys_get; apply In_keys_get in Hin.
  - rewrite bucket_get_put_ne in Hin; [exact Hin|].
    unfold getATag. cbv zeta. intros E.
    apply tag_key_inj in E as (_ & E & _); [discriminate | reflexivity | reflexivity].
  - rewrite bucket_get_put_ne; [exact Hin|].
    unfold getATag. cbv zeta. intros E.
    apply tag_key_inj in E as (_ & E & _); [discriminate | reflexivity | reflexivity].
Qed.

Lemma bool_eq_iff (a b : bool) : (a = true <-> b = true) -> a = b.
Proof.
  destruct a, b; intros [H1 H2]; try reflexivity.
  - symmetry. exact (H1 eq_refl).
  - exact (H2 eq_refl).
Qed.

(** X26: the announcement of a deletion shows to every handle at once,
    and wears off by itself. After [AnnounceDelete] of a writable
    handle on a block whose body is there, when no call fails, for as
    long as less than TIME_CONSTANT_BASE has passed [GetBlockHashState]
    of any handle returns the state with [dataExists] and
    [deletionPending] and no reservation, whatever use tags the block
    has; once TIME_CONSTANT_BASE has passed, and no deletion tag that
    was there before is fresh, it returns the state it returns in the
    bucket without the announcement; and [DeAnnounceDelete] takes the
    bucket back to what it was, if the announcer had no deletion tag
    before. *)
Theorem announced_deletion_hides_reservations (p hm : GoCloudUrlStorage) (h : list byte)
    (w : World) :
  IsReadOnly p = false -> h <> [] -> faults w = [] ->
  StronglySorted str_lt (bucket_keys (objects w)) ->
  keysBelongTo h (objects w) ->
  In (getBlockStringKey h) (bucket_keys (objects w)) ->
  exists w1 : World,
    AnnounceDelete p h w = (Ok None, w1) /\
    (forall w' : World,
       objects w' = objects w1 -> quiet w' ->
       (clock w' - clock w < TIME_CONSTANT_BASE)%Z ->
       exists w2 : World,
         GetBlockHashState hm h w' = (Ok (mkState true false false true), w2)) /\
    (forall w' w0 : World,
       objects w' = objects w1 -> objects w0 = objects w -> clock w0 = clock w' ->
       quiet w' -> quiet w0 ->
       (TIME_CONSTANT_BASE <= clock w' - clock w)%Z ->
       ~ freshDeletion h (clock w') (objects w) ->
       fst (GetBlockHashState hm h w') = fst (GetBlockHashState hm h w0)) /\
    (bucket_get (getATag p h BLOCK_DELETE_TAG) (objects w) = None ->
     exists w2 : World,
       DeAnnounceDelete p h w1 = (Ok None, w2) /\ objects w2 = objects w).
Proof.
  intros Hro Hne Hf Hs Hown Hbody.
  destruct (AnnounceDelete_quiet p h w Hro Hf) as (w1 & H1 & Ho1 & Ht1).
  exists w1. split; [exact H1|].
  set (k := getATag p h BLOCK_DELETE_TAG) in *.
  set (v := mkBlob (clock w) []) in *.
  assert (Hs1 : StronglySorted str_lt (bucket_keys (objects w1))).
  { rewrite Ho1. apply bucket_put_sorted, Hs. }
  assert (Hown1 : keysBelongTo h (objects w1)).
  { rewrite Ho1. apply keysBelongTo_put; [apply schemaKey_tag | exact Hown]. }
  assert (Hbody1 : In (getBlockStringKey h) (bucket_keys (objects w1))).
  { apply In_keys_get. rewrite Ho1, bucket_get_put_ne; [apply In_keys_get, Hbody|].
    unfold k, getATag. cbv zeta. apply tag_key_not_body. }
  assert (Hk : k = getBlockStringKey h +:+ "." +:+ BLOCK_DELETE_TAG +:+ "." +:+ myDeviceId p)
    by reflexivity.
  split; [|split].
  - intros w' Ho' Hq' Hlt.
    destruct (GetBlockHashState_listed hm h w') as (w2 & H2); try assumption;
      try (rewrite Ho'; assumption).
    exists w2. rewrite H2.
    assert (HD : List.existsb (isDelete (clock w'))
                   (bucket_list (getBlockStringKey h) (objects w')) = true).
    { rewrite Ho'. apply (listed_fresh_deletion h (clock w') (objects w1) Hs1 Hown1).
      exists k, v. split; [right; exists (myDeviceId p); exact Hk|].
      split; [rewrite Ho1; apply bucket_get_put_eq | exact Hlt]. }
    rewrite HD. reflexivity.
  - intros w' w0 Ho' Ho0 Hc Hq' Hq0 Hge Hnf.
    assert (HD1 : List.existsb (isDelete (clock w'))
                    (bucket_list (getBlockStringKey h) (objects w1)) = false).
    { apply not_true_is_false. intros E.
      apply (listed_fresh_deletion h (clock w') (objects w1) Hs1 Hown1) in E
        as (key & x & Hform & Hg & Hlt).
      rewrite Ho1 in Hg. destruct (string_dec k key) as [<-|Hnk].
      - rewrite bucket_get_put_eq in Hg. injection Hg as <-. cbn [blobModTime v] in Hlt.
        unfold v in Hlt. cbn [blobModTime] in Hlt. lia.
      - rewrite bucket_get_put_ne in Hg by exact Hnk.
        apply Hnf. exists key, x. split; [exact Hform|]. split; assumption. }
    assert (HD0 : List.existsb (isDelete (clock w'))
                    (bucket_list (getBlockStringKey h) (objects w)) = false).
    { apply not_true_is_false. intros E.
      apply Hnf, (listed_fresh_deletion h (clock w') (objects w) Hs Hown), E. }
    assert (HU : forall P : string -> bool,
               List.existsb (isUseOf (clock w') P)
                 (bucket_list (getBlockStringKey h) (objects w1)) =
               List.existsb (isUseOf (clock w') P)
                 (bucket_list (getBlockStringKey h) (objects w))).
    { intros P. apply bool_eq_iff.
      rewrite (listed_use h (clock w') P (objects w1) Hown1).
      rewrite (listed_use h (clock w') P (objects w) Hown).
      split; intros (who & HP & Hu); exists who; (split; [exact HP|]).
      - rewrite Ho1 in Hu. exact (proj1 (hasUseTagOf_put_delete_tag p h who v (objects w)) Hu).
      - rewrite Ho1. exact (proj2 (hasUseTagOf_put_delete_tag p h who v (objects w)) Hu). }
    destruct (GetBlockHashState_listed hm h w') as (w2 & H2); try assumption;
      try (rewrite Ho'; assumption).
    destruct (GetBlockHashState_listed hm h w0) as (w3 & H3); try assumption;
      try (rewrite Ho0; assumption).
    rewrite H2, H3. cbn [fst]. rewrite Ho', Ho0, Hc.
    rewrite HD1, HD0, !HU. reflexivity.
  - intros Hnone.
    destruct (DeAnnounceDelete_quiet p h w1 Hro (sameTimes_faults _ _ Ht1 Hf))
      as (w2 & H2 & Ho2 & _).
    { fold k. rewrite Ho1, bucket_get_put_eq. reflexivity. }
    exists w2. split; [exact H2|]. rewrite Ho2, Ho1. fold k.
    apply remove_put_absent; assumption.
Qed.

Lemma announced_deletion_hides_reservations_witness :
  exists w1 : World,
    AnnounceDelete (mkStorage "mem://" "B") [x01] exampleWorld = (Ok None, w1) /\
    (forall w' : World,
       objects w' = objects w1 -> quiet w' ->
       (clock w' - clock exampleWorld < TIME_CONSTANT_BASE)%Z ->
       exists w2 : World,
         GetBlockHashState (mkStorage "mem://" "A") [x01] w' =
           (Ok (mkState true false false true), w2)) /\
    (forall w' w0 : World,
       objects w' = objects w1 -> objects w0 = objects exampleWorld -> clock w0 = clock w' ->
       quiet w' -> quiet w0 ->
       (TIME_CONSTANT_BASE <= clock w' - clock exampleWorld)%Z ->
       ~ freshDeletion [x01] (clock w') (objects exampleWorld) ->
       fst (GetBlockHashState (mkStorage "mem://" "A") [x01] w') =
         fst (GetBlockHashState (mkStorage "mem://" "A") [x01] w0)) /\
    (bucket_get (getATag (mkStorage "mem://" "B") [x01] BLOCK_DELETE_TAG) (objects exampleWorld) =
       None ->
     exists w2 : World,
       DeAnnounceDelete (mkStorage "mem://" "B") [x01] w1 = (Ok None, w2) /\
       objects w2 = objects exampleWorld).
Proof.
  apply (announced_deletion_hides_reservations (mkStorage "mem://" "B") (mkStorage "mem://" "A")
           [x01] exampleWorld).
  - reflexivity.
  - exact x01_not_nil.
  - exact (proj1 exampleWorld_quiet).
  - exact exampleWorld_sorted.
  - exact (proj1 exampleWorld_keys_01).
  - exact (proj2 exampleWorld_keys_01).
Defined.

(** ** Reserve and read: a failure at any attempt *)

Lemma ReserveAndGet_loop_afterRetries (hm : GoCloudUrlStorage) (hash : list byte) (k : nat) :
  forall (fuel : nat) (w wk : World),
    afterRetries hm hash k w = Some wk ->
    ReserveAndGet_loop (k + fuel) hm hash w = ReserveAndGet_loop fuel hm hash wk.
Proof.
  induction k as [|k IH]; intros fuel w wk; cbn [afterRetries Nat.add].
  - intros [= ->]. reflexivity.
  - destruct (reserveAndCheckExistence hm hash w) as [[[ok retry]| | |] w1] eqn:E;
      try discriminate.
    destruct retry; [|discriminate]. intros H.
    cbn [ReserveAndGet_loop]. unfold bind at 1. rewrite E. cbn [negb].
    unfold bind at 1. cbn [Sleep]. exact (IH fuel _ wk H).
Qed.

(** C9, as amended: at whichever attempt of [ReserveAndGet] the put of
    the use tag fails, or the listing under the block's key fails, be
    it the first attempt or one that follows any number of retries
    after a fresh deletion tag, the call returns [found = false] at
    once, in the world the failed call left, without sleeping or
    trying again and without a panic; when the download of the block
    body fails, it panics. *)
Theorem C9_transient_failures (k fuel : nat) (hm : GoCloudUrlStorage) (hash : list byte)
    (downloadData : bool) (w wk : World) :
  hash <> [] ->
  afterRetries hm hash k w = Some wk ->
  (forall (e : error) (w1 : World),
     reserveStep hm hash wk = (Ok (Some e), w1) ->
     ReserveAndGet (k + S fuel) hm hash downloadData w = (Ok (None, false), w1)) /\
  (forall (e : error) (w1 w2 : World),
     reserveStep hm hash wk = (Ok None, w1) ->
     bucket_ListPage (getBlockStringKey hash) 0 10 w1 = (Ok (inl e), w2) ->
     ReserveAndGet (k + S fuel) hm hash downloadData w = (Ok (None, false), w2)) /\
  (forall (n : nat) (e : error) (w0 w1 w2 : World),
     ReserveAndGet_loop n hm hash w0 = (Ok true, w1) ->
     bucket_ReadAll (getBlockStringKey hash) w1 = (Ok (inl e), w2) ->
     ReserveAndGet n hm hash true w0 = (Panic "failed to read existing block data!", w2)).
Proof.
  intros Hne Hk. split; [|split].
  - intros e w1 H. rewrite (ReserveAndGet_nonempty _ _ _ _ Hne).
    unfold bind at 1. rewrite (ReserveAndGet_loop_afterRetries hm hash k (S fuel) w wk Hk).
    simpl ReserveAndGet_loop.
    unfold bind at 1. unfold reserveAndCheckExistence. unfold bind at 1.
    unfold reserveStep in H. rewrite H. reflexivity.
  - intros e w1 w2 H1 H2. rewrite (ReserveAndGet_nonempty _ _ _ _ Hne).
    unfold bind at 1. rewrite (ReserveAndGet_loop_afterRetries hm hash k (S fuel) w wk Hk).
    simpl ReserveAndGet_loop.
    unfold bind at 1. unfold reserveAndCheckExistence. unfold bind at 1.
    unfold reserveStep in H1. rewrite H1.
    unfold bind at 1. rewrite H2. reflexivity.
  - intros n e w0 w1 w2 H1 H2. rewrite (ReserveAndGet_nonempty _ _ _ _ Hne).
    unfold bind at 1. rewrite H1. simpl. unfold bind. rewrite H2. reflexivity.
Qed.

Lemma C9_transient_failures_witness :
  let A := mkStorage "mem://" "A" in
  let B := mkStorage "mem://" "B" in
  let w := snd (ReserveAndSet A [xab] [x01] freshWorld) in
  let wd := snd (AnnounceDelete B [xab] w) in
  fst (ReserveAndGet 2 A [xab] true (withFaults [false; false; true] wd)) = Ok (None, false) /\
  fst (ReserveAndGet 2 A [xab] true (withFaults [false; false; false; true] wd)) =
    Ok (None, false) /\
  fst (ReserveAndGet 1 A [xab] true (withFaults [false; false; true] w)) =
    Panic "failed to read existing block data!".
Proof.
  intros A B w wd.
  assert (Hne : [xab] <> []) by discriminate.
  assert (Hk : forall fs : list bool,
            afterRetries A [xab] 1 (withFaults (false :: false :: fs) wd) =
              Some (snd (Sleep (Minute * 1)
                           (snd (reserveAndCheckExistence A [xab]
                                   (withFaults (false :: false :: fs) wd))))))
    by (intros fs; vm_compute; reflexivity).
  change (ReserveAndGet 2) with (ReserveAndGet (1 + 1)).
  split; [|split].
  - erewrite (proj1 (C9_transient_failures 1 0 A [xab] true _ _ Hne (Hk [true])));
      [reflexivity | vm_compute; reflexivity].
  - erewrite (proj1 (proj2 (C9_transient_failures 1 0 A [xab] true _ _ Hne (Hk [false; true]))));
      [reflexivity | vm_compute; reflexivity | vm_compute; reflexivity].
  - erewrite (proj2 (proj2 (C9_transient_failures 0 0 A [xab] true w w Hne eq_refl)) 1%nat
                _ (withFaults [false; false; true] w));
      [reflexivity | vm_compute; reflexivity | vm_compute; reflexivity].
Defined.

(** ** The builder, one key at a time: every kind of key *)

Lemma firstSegment_noDot (id : string) : noDot id = true -> firstSegment id = id.
Proof. intros H. unfold firstSegment. rewrite (Split_noDot id H). reflexivity. Qed.

Lemma processObject_schema (now : Z) (b : HashBlockStorageMapBuilder) (obj : ListObject)
    (h : list byte) (s : string) :
  tagSuffix s -> Key obj = getBlockStringKey h +:+ s ->
  processObject now b obj = applyOp b (HashToStringMapKey h) (keyOp now obj).
Proof.
  intros Hs Hk. rewrite processObject_key. f_equal.
  apply keyHashString_schema. exists s. split; [exact Hs|].
  rewrite Hk. apply getBlockStringKey_app.
Qed.

(** C4, as amended: the bare block key sets [dataExists] for the hash of
    the key; a use tag sets [reservedByMe] when its id (up to its first
    dot) is ours and [reservedByOthers] otherwise, but only while the
    state of the block is [IsAvailable], and is ignored otherwise; a
    deletion tag younger than TIME_CONSTANT_BASE sets [deletionPending];
    a bare key, a use tag or such a deletion tag of another hash than
    the current one first hands over the record of the current hash,
    if and only if its [dataExists] is set, and starts the new hash
    from the empty state; a key the pass ignores (a deletion tag of
    TIME_CONSTANT_BASE or older, a tag of another kind, a use tag that
    ends after [used-by]) leaves the builder as it is, whatever its
    hash; closing hands over the last record under the same condition,
    when the current hash is not the empty string. *)
Theorem C4_builder_rules (b : HashBlockStorageMapBuilder) (hs who : string) :
  let same := String.eqb hs (currentHash b) in
  let s := currentState b in
  addData b hs =
    mkBuilder (ownName b) (if same then emitted b else emitted b ++ flushed b) hs
      (if same then mkState true (reservedByMe s) (reservedByOthers s) (deletionPending s)
       else mkState true false false false) /\
  addUse b hs who =
    mkBuilder (ownName b) (if same then emitted b else emitted b ++ flushed b) hs
      (if same then
         if IsAvailable s then
           if String.eqb who (ownName b)
           then mkState (dataExists s) true (reservedByOthers s) (deletionPending s)
           else mkState (dataExists s) (reservedByMe s) true (deletionPending s)
         else s
       else emptyState) /\
  addDelete b hs =
    mkBuilder (ownName b) (if same then emitted b else emitted b ++ flushed b) hs
      (if same then mkState (dataExists s) (reservedByMe s) (reservedByOthers s) true
       else mkState false false false true) /\
  (currentHash b <> "" ->
   close b = mkBuilder (ownName b) (emitted b ++ flushed b) "" emptyState) /\
  (forall (now : Z) (obj : ListObject) (h : list byte),
     (Key obj = getBlockStringKey h ->
      processObject now b obj = addData b (HashToStringMapKey h)) /\
     (forall id : string,
        Key obj = getBlockStringKey h +:+ "." +:+ BLOCK_USE_TAG +:+ "." +:+ id ->
        processObject now b obj = addUse b (HashToStringMapKey h) (firstSegment id) /\
        (noDot id = true -> processObject now b obj = addUse b (HashToStringMapKey h) id)) /\
     (Key obj = getBlockStringKey h +:+ "." +:+ BLOCK_DELETE_TAG \/
      (exists id : string,
         Key obj = getBlockStringKey h +:+ "." +:+ BLOCK_DELETE_TAG +:+ "." +:+ id) ->
      processObject now b obj =
        if (now - ModTime obj <? TIME_CONSTANT_BASE)%Z
        then addDelete b (HashToStringMapKey h) else b) /\
     (forall r : string,
        Key obj = getBlockStringKey h +:+ "." +:+ r ->
        (forall id : string, r <> BLOCK_USE_TAG +:+ "." +:+ id) ->
        r <> BLOCK_DELETE_TAG ->
        (forall id : string, r <> BLOCK_DELETE_TAG +:+ "." +:+ id) ->
        processObject now b obj = b)).
Proof.
  intros same s. subst same s. split; [|split; [|split; [|split]]].
  - destruct b as [own em cur st]. cbn [ownName emitted currentHash currentState].
    unfold addData, completeIfNextHash, flushed, setState, cb.
    cbn [ownName emitted currentHash currentState].
    destruct (String.eqb_spec hs cur) as [->|Hne]; cbn [negb].
    + destruct st; reflexivity.
    + destruct (dataExists st); cbn; rewrite ?app_nil_r; reflexivity.
  - destruct b as [own em cur st]. cbn [ownName emitted currentHash currentState].
    unfold addUse, completeIfNextHash, flushed, setState, cb.
    cbn [ownName emitted currentHash currentState].
    destruct (String.eqb_spec hs cur) as [->|Hne]; cbn [negb].
    + destruct st as [[] rm ro []]; destruct (String.eqb who own) eqn:E;
        cbn; rewrite ?E; reflexivity.
    + destruct (dataExists st); cbn; rewrite ?app_nil_r; reflexivity.
  - destruct b as [own em cur st]. cbn [ownName emitted currentHash currentState].
    unfold addDelete, completeIfNextHash, flushed, setState, cb.
    cbn [ownName emitted currentHash currentState].
    destruct (String.eqb_spec hs cur) as [->|Hne]; cbn [negb].
    + destruct st; reflexivity.
    + destruct (dataExists st); cbn; rewrite ?app_nil_r; reflexivity.
  - destruct b as [own em cur st]. cbn [ownName emitted currentHash currentState].
    intros Hcur. unfold close, completeIfNextHash, flushed, cb.
    cbn [ownName emitted currentHash currentState snd].
    destruct (String.eqb_spec "" cur) as [E|Hne]; [congruence|]. cbn [negb].
    destruct (dataExists st); cbn; rewrite ?app_nil_r; reflexivity.
  - intros now obj h. split; [|split; [|split]].
    + intros Hk.
      rewrite (processObject_schema now b obj h "" (or_introl eq_refl))
        by (rewrite str_app_nil_r; exact Hk).
      rewrite (keyOp_bare now obj h); [reflexivity|].
      rewrite Hk. unfold getBlockStringKey. reflexivity.
    + intros id Hk.
      assert (Hk' : Key obj =
                    "blocks/" +:+ (HashToStringMapKey h +:+ String "." ("used-by." +:+ id))).
      { rewrite Hk, getBlockStringKey_app. reflexivity. }
      assert (Hp : processObject now b obj =
                   addUse b (HashToStringMapKey h) (firstSegment id)).
      { rewrite (processObject_schema now b obj h ("." +:+ BLOCK_USE_TAG +:+ "." +:+ id));
          [|right; eexists; reflexivity | exact Hk].
        rewrite (proj2 (keyOp_use_iff now obj h ("used-by." +:+ id) (firstSegment id) Hk'));
          [reflexivity|].
        exists id. split; reflexivity. }
      split; [exact Hp|]. intros Hid. rewrite Hp, (firstSegment_noDot id Hid). reflexivity.
    + intros Hform.
      assert (Hr : exists r, (r = "deletion-by" \/ exists r', r = "deletion-by." +:+ r') /\
                             Key obj = getBlockStringKey h +:+ String "." r).
      { destruct Hform as [Hk|[id Hk]].
        - exists "deletion-by". split; [left; reflexivity | exact Hk].
        - exists ("deletion-by." +:+ id). split; [right; exists id; reflexivity | exact Hk]. }
      destruct Hr as (r & Hr & Hk).
      assert (Hk' : Key obj = "blocks/" +:+ (HashToStringMapKey h +:+ String "." r)).
      { rewrite Hk. apply getBlockStringKey_app. }
      rewrite (processObject_schema now b obj h (String "." r));
        [|right; eexists; reflexivity | exact Hk].
      destruct (Z.ltb_spec (now - ModTime obj) TIME_CONSTANT_BASE) as [Hlt|Hge].
      * rewrite (proj2 (keyOp_delete_iff now obj h r Hk') (conj Hr Hlt)). reflexivity.
      * destruct (keyOp now obj) as [|w0| |] eqn:Eo; [| | |reflexivity].
        -- exfalso. exact (keyOp_tag now obj h r Hk' Eo).
        -- exfalso. apply (keyOp_use_iff now obj h r w0 Hk') in Eo as (r' & -> & _).
           destruct Hr as [E|[r'' E]]; discriminate E.
        -- exfalso. apply (keyOp_delete_iff now obj h r Hk') in Eo as [_ Hlt]. lia.
    + intros r Hk Hnu Hnd Hnd'.
      assert (Hk' : Key obj = "blocks/" +:+ (HashToStringMapKey h +:+ String "." r)).
      { rewrite Hk. apply getBlockStringKey_app. }
      rewrite (processObject_schema now b obj h (String "." r));
        [|right; eexists; reflexivity | exact Hk].
      destruct (keyOp now obj) as [|w0| |] eqn:Eo; [| | |reflexivity].
      * exfalso. exact (keyOp_tag now obj h r Hk' Eo).
      * exfalso. apply (keyOp_use_iff now obj h r w0 Hk') in Eo as (r' & E & _).
        exact (Hnu r' E).
      * exfalso. apply (keyOp_delete_iff now obj h r Hk') in Eo as [[E|[r' E]] _].
        -- exact (Hnd E).
        -- exact (Hnd' r' E).
Qed.

Lemma C4_builder_rules_witness :
  let b := addData (NewHashBlockStorageMapBuilder "A") "ab" in
  emitted (close b) = [mkHashAndState [xab] (mkState true false false false)] /\
  processObject 0 b (mkListObject "blocks/ab.used-by.A" 0) = addUse b "ab" "A" /\
  processObject 0 b (mkListObject "blocks/cd.deletion-by.B" 0) = addDelete b "cd" /\
  processObject TIME_CONSTANT_BASE b (mkListObject "blocks/cd.deletion-by.B" 0) = b /\
  processObject 0 b (mkListObject "blocks/cd.lock.B" 0) = b.
Proof.
  intros b.
  pose proof (C4_builder_rules b "ab" "A") as H. cbv zeta in H.
  destruct H as (_ & _ & _ & Hclose & Hkeys).
  split; [rewrite Hclose by discriminate; reflexivity|].
  split; [exact (proj2 (proj1 (proj2 (Hkeys 0%Z (mkListObject "blocks/ab.used-by.A" 0) [xab]))
                          "A" eq_refl) eq_refl)|].
  split; [exact (proj1 (proj2 (proj2 (Hkeys 0%Z (mkListObject "blocks/cd.deletion-by.B" 0) [xcd])))
                   (or_intror (ex_intro _ "B" eq_refl)))|].
  split; [exact (proj1 (proj2 (proj2 (Hkeys TIME_CONSTANT_BASE
                                        (mkListObject "blocks/cd.deletion-by.B" 0) [xcd])))
                   (or_intror (ex_intro _ "B" eq_refl)))|].
  apply (proj2 (proj2 (proj2 (Hkeys 0%Z (mkListObject "blocks/cd.lock.B" 0) [xcd]))) "lock.B").
  - reflexivity.
  - intros id E. discriminate E.
  - discriminate.
  - intros id E. discriminate E.
Defined.

(** C4, as stated, fails for a key the pass ignores: the builder is at
    the hash [01] with [dataExists] set when the deletion tag of the
    hash [02], written TIME_CONSTANT_BASE ago, is listed; the record of
    [01] is not handed over and the builder stays at [01]. *)
Lemma C4_counterexample :
  let b := processObject 0 (NewHashBlockStorageMapBuilder "A") (mkListObject "blocks/01" 0) in
  let b' := processObject TIME_CONSTANT_BASE b (mkListObject "blocks/02.deletion-by.B" 0) in
  currentHash b = "01" /\ dataExists (currentState b) = true /\
  keyHashString (mkListObject "blocks/02.deletion-by.B" 0) = "02" /\
  emitted b' = [] /\ currentHash b' = "01".
Proof. vm_compute. repeat split; reflexivity. Qed.

(** [close] passes the empty string for "no hash", which is also the
    current hash a new builder starts with: the record in progress for
    the empty hash string is not handed over on closing. *)
Lemma close_at_empty_hash :
  let b := processObject 0 (NewHashBlockStorageMapBuilder "A") (mkListObject "blocks/" 0) in
  dataExists (currentState b) = true /\ emitted (close b) = [].
Proof. split; reflexivity. Qed.

(** ** The checked delete of a reserved block *)

Lemma reachable_bind {A B : Type} (n : nat) (m : M A) (k : A -> M B) :
  (forall w, reachable n (objects w) -> reachable n (objects (snd (m w)))) ->
  (forall a w, reachable n (objects w) -> reachable n (objects (snd (k a w)))) ->
  forall w, reachable n (objects w) -> reachable n (objects (snd ((x <- m;; k x) w))).
Proof.
  intros Hm Hk w Hw. unfold bind. pose proof (Hm w Hw) as H1.
  destruct (m w) as [[a| | |] w1]; cbn [snd] in *; auto.
Qed.

Lemma reachable_keeps {A : Type} (n : nat) (m : M A) :
  keepsBucket m ->
  forall w, reachable n (objects w) -> reachable n (objects (snd (m w))).
Proof.
  intros Hm w Hw. destruct (m w) as [r w'] eqn:E. cbn [snd].
  rewrite (Hm w r w' E). exact Hw.
Qed.

(** The worker of the checked-delete service keeps the bucket among
    those the store reaches. *)
Lemma reachable_checkedDelete (n : nat) (hm : GoCloudUrlStorage) (h : list byte) (w : World) :
  length h = n -> reachable n (objects w) ->
  reachable n (objects (snd (finishCheckedDelete hm h w))) /\
  reachable n (objects (snd (checkedDelete hm h w))).
Proof.
  intros Hl.
  assert (Hfin : forall w0, reachable n (objects w0) ->
                            reachable n (objects (snd (finishCheckedDelete hm h w0)))).
  { unfold finishCheckedDelete. apply reachable_bind.
    - apply reachable_keeps, keepsBucket_GetBlockHashState.
    - intros st w0 H0. destruct (IsAvailableAndFree st); [|exact H0].
      revert w0 H0. apply reachable_bind; [intros w0 H0; apply reach_UncheckedDelete, H0|].
      intros _. apply reachable_bind; [intros w0 H0; apply reach_DeAnnounceDelete, H0|].
      intros _ w0 H0. exact H0. }
  intros Hw. split; [exact (Hfin w Hw)|].
  revert w Hw. unfold checkedDelete. apply reachable_bind.
  - apply reachable_keeps, keepsBucket_GetBlockHashState.
  - intros st w0 H0. destruct (IsAvailableAndFree st); [|exact H0].
    revert w0 H0.
    apply reachable_bind; [intros w0 H0; apply reach_AnnounceDelete; assumption|].
    intros _. apply reachable_bind; [apply reachable_keeps, keepsBucket_Sleep|].
    intros _. exact Hfin.
Qed.


Lemma stored_block_has_use_tag :
  hasUseTag [x01] (objects (snd (ReserveAndSet (mkStorage "mem://" "A") [x01] [x03] freshWorld))).
Proof. exists "A". vm_compute. right. left. reflexivity. Qed.

